(** * AES and SHA (Crypto/AES.hpp, Crypto/SHA.hpp): a shallow embedding

    The embedding follows the source text of [AES::Implementation],
    [AES::Modes] and [Hash], and of the [cmp] and [String] helpers they
    call or are tested with.  Machine
    integers are values of [Z] with the wrap-around of
    their C++ type written out ([wrap8], [wrap32], [wrap64]); [std::bit_cast]
    between words and bytes is little-endian, as on the x86 targets the
    header is written for (it includes <intrin.h>).  Array accesses that the
    source performs outside the bounds of the array are undefined behaviour;
    the embedding returns [None] for them. *)

From Stdlib Require Import ZArith List Bool Lia Btauto.
From Stdlib Require Ascii String.
From coqutil Require Import Z.bitblast.
Import ListNotations.
Local Open Scope Z_scope.

(** ** Fixed-width integers *)

Definition wrap8 (x : Z) : Z := Z.land x 0xFF.
Definition wrap32 (x : Z) : Z := Z.land x 0xFFFFFFFF.
Definition wrap64 (x : Z) : Z := Z.land x 0xFFFFFFFFFFFFFFFF.

(** [std::rotl] on [uint8_t] and [std::rotr] on [uint32_t]. *)
Definition rotl8 (x k : Z) : Z :=
  wrap8 (Z.lor (Z.shiftl (wrap8 x) k) (Z.shiftr (wrap8 x) (8 - k))).
Definition rotr32 (x k : Z) : Z :=
  Z.lor (Z.shiftr (wrap32 x) k) (wrap32 (Z.shiftl x (32 - k))).

(** [std::bit_cast] between a [uint32_t] and [std::array<uint8_t, 4>]. *)
Definition word_bytes (w : Z) : list Z :=
  [wrap8 w; wrap8 (Z.shiftr w 8); wrap8 (Z.shiftr w 16); wrap8 (Z.shiftr w 24)].
Definition bytes_word (a b c d : Z) : Z :=
  Z.lor a (Z.lor (Z.shiftl b 8) (Z.lor (Z.shiftl c 16) (Z.shiftl d 24))).

(** Arrays are lists; [Buffer[i]] reads with [nth_error], and a store
    outside the array is undefined. *)
Definition load {A} (l : list A) (i : Z) : option A :=
  if i <? 0 then None else nth_error l (Z.to_nat i).

Fixpoint store_nat {A} (l : list A) (i : nat) (v : A) : option (list A) :=
  match l, i with
  | [], _ => None
  | _ :: t, O => Some (v :: t)
  | h :: t, S j => option_map (cons h) (store_nat t j v)
  end.
Definition store {A} (l : list A) (i : Z) (v : A) : option (list A) :=
  if i <? 0 then None else store_nat l (Z.to_nat i) v.

(** Total versions for indices that the type of the index already bounds
    (a [uint8_t] index into a 256-entry table). *)
Definition tab (l : list Z) (i : Z) : Z := nth (Z.to_nat i) l 0.
Fixpoint tab_set_nat (l : list Z) (i : nat) (v : Z) : list Z :=
  match l, i with
  | [], _ => []
  | _ :: t, O => v :: t
  | h :: t, S j => h :: tab_set_nat t j v
  end.
Definition tab_set (l : list Z) (i v : Z) : list Z := tab_set_nat l (Z.to_nat i) v.

(** Sequencing of steps that may be undefined. *)
Definition bind {A B} (x : option A) (f : A -> option B) : option B :=
  match x with Some a => f a | None => None end.
Notation "x <- c1 ;; c2" := (bind c1 (fun x => c2))
  (at level 61, c1 at next level, right associativity).

(** A counted loop [for (uint8_t i = from; i < from + count; ++i)], and the
    same loop over a body that may be undefined. *)
Definition for_ {S} (from : Z) (count : nat) (body : Z -> S -> S) (s : S) : S :=
  fold_left (fun s k => body (from + Z.of_nat k) s) (seq 0 count) s.
Definition for_opt {S} (from : Z) (count : nat) (body : Z -> S -> option S) (s : S)
  : option S :=
  fold_left (fun s k => s <- s ;; body (from + Z.of_nat k) s) (seq 0 count) (Some s).
(** [for (int8_t i = from; i >= from - count + 1; --i)] *)
Definition for_down_opt {S} (from : Z) (count : nat) (body : Z -> S -> option S) (s : S)
  : option S :=
  fold_left (fun s k => s <- s ;; body (from - Z.of_nat k) s) (seq 0 count) (Some s).

(** ** The counter step

    The text is the same in [HW::Encryptblock_CTR],
    [Portable::Encryptblock_CTR] and the two overloads of
    [AES::Modes::Increment]; [NC] is the state as sixteen bytes. *)

(** [NC[i] += 1] on a [uint8_t] element. *)
Definition bump (NC : list Z) (i : Z) : option (list Z) :=
  v <- load NC i ;; store NC i (wrap8 (v + 1)).

Definition Increment (Countersize : Z) (Bigendian : bool) (NC : list Z) : option (list Z) :=
  if Bigendian then
    NC <- bump NC 15 ;;
    for_opt 0 (Z.to_nat (Countersize / 8)) (fun i NC =>
      v <- load NC (15 - i) ;;
      if v =? 0 then bump NC (14 - i) else Some NC) NC
  else
    NC <- bump NC 0 ;;
    for_opt 0 (Z.to_nat (Countersize / 8)) (fun i NC =>
      v <- load NC i ;;
      if v =? 0 then bump NC (i + 1) else Some NC) NC.

(** ** AES::Implementation::Portable *)
Module Portable.

(** [using Block_t = std::array<uint32_t, 4>] *)
Record Block_t := Blk { e0 : Z; e1 : Z; e2 : Z; e3 : Z }.

(** [Input[i]] on a block; [None] when [i] is not one of 0..3. *)
Definition at_ (B : Block_t) (i : Z) : option Z :=
  if i =? 0 then Some (e0 B) else
  if i =? 1 then Some (e1 B) else
  if i =? 2 then Some (e2 B) else
  if i =? 3 then Some (e3 B) else None.
Definition set_at (B : Block_t) (i v : Z) : option Block_t :=
  if i =? 0 then Some (Blk v (e1 B) (e2 B) (e3 B)) else
  if i =? 1 then Some (Blk (e0 B) v (e2 B) (e3 B)) else
  if i =? 2 then Some (Blk (e0 B) (e1 B) v (e3 B)) else
  if i =? 3 then Some (Blk (e0 B) (e1 B) (e2 B) v) else None.
(** An index computed as [(Control & mask) >> shift] is always in 0..3. *)
Definition sel (B : Block_t) (i : Z) : Z :=
  match at_ B i with Some v => v | None => 0 end.

(** Multiplication over GF(2^8), [uint8_t] overloads. *)
Definition Mul2_8 (Input : Z) : Z :=
  wrap8 (Z.lxor (Z.shiftl Input 1) (Z.shiftr Input 7 * wrap8 0x1B)).
Definition Mul3_8 (Input : Z) : Z :=
  wrap8 (Z.lxor (Mul2_8 Input) Input).
Definition Div3 (Input : Z) : Z :=
  let I1 := wrap8 (Z.lxor Input (Z.shiftl Input 1)) in
  let I2 := wrap8 (Z.lxor I1 (Z.shiftl I1 2)) in
  let I3 := wrap8 (Z.lxor I2 (Z.shiftl I2 4)) in
  wrap8 (Z.lxor I3 (Z.shiftr I3 7 * wrap8 0x09)).

(** [uint32_t] overloads: four bytes at a time. *)
Definition Mul2 (Input : Z) : Z :=
  wrap32 (Z.lxor (wrap32 (Z.shiftl (Z.land Input 0x7F7F7F7F) 1))
                 (wrap32 (Z.shiftr (Z.land Input 0x80808080) 7 * 0x1B))).
Definition Mul3 (Input : Z) : Z :=
  wrap32 (Z.lxor (Z.lxor (wrap32 (Z.shiftl (Z.land Input 0x3F3F3F3F) 2))
                         (wrap32 (Z.shiftr (Z.land Input 0x80808080) 7 * 0x36)))
                 (wrap32 (Z.shiftr (Z.land Input 0x40404040) 6 * 0x1B))).

(** Plumbing for 128-bit blocks. *)
Definition XOR (A B : Block_t) : Block_t :=
  Blk (Z.lxor (e0 A) (e0 B)) (Z.lxor (e1 A) (e1 B))
      (Z.lxor (e2 A) (e2 B)) (Z.lxor (e3 A) (e3 B)).
Definition Shift4 (Input : Block_t) : Block_t :=
  Blk 0 (e0 Input) (e1 Input) (e2 Input).
Definition Shuffle4 (Input : Block_t) (Control : Z) : Block_t :=
  Blk (sel Input (Z.shiftr (Z.land Control 0x03) 0))
      (sel Input (Z.shiftr (Z.land Control 0x0C) 2))
      (sel Input (Z.shiftr (Z.land Control 0x30) 4))
      (sel Input (Z.shiftr (Z.land Control 0xC0) 6)).

(** The substitution box generator.  The affine transform of [Q]: *)
Definition affine (Q : Z) : Z :=
  wrap8 (Z.lxor 0x63
    (Z.lxor (Z.lxor (Z.lxor (Z.lxor Q (rotl8 Q 1)) (rotl8 Q 2)) (rotl8 Q 3)) (rotl8 Q 4))).

(** The [do { ... } while (P != 1)] loop; every iteration spends one unit
    of fuel, and [None] means the fuel ran out before [P] came back to 1. *)
Fixpoint SBox_loop (fuel : nat) (P Q : Z) (Buffer : list Z) : option (list Z) :=
  match fuel with
  | O => None
  | S f =>
      let P' := Mul3_8 P in
      let Q' := Div3 Q in
      let Buffer' := tab_set Buffer P' (affine Q') in
      if P' =? 1 then Some Buffer' else SBox_loop f P' Q' Buffer'
  end.

Definition SBox_gen (fuel : nat) : option (list Z) :=
  match SBox_loop fuel 1 1 (repeat 0 256) with
  | Some Buffer => Some (tab_set Buffer 0 0x63)
  | None => None
  end.

Definition SBox : list Z :=
  Eval vm_compute in
    match SBox_gen 255 with Some B => B | None => [] end.

(** [for (i = 0; i < 256; ++i) Buffer[SBox[i]] = uint8_t(i);] *)
Definition INVSBox_gen (S : list Z) : list Z :=
  fold_left (fun Buffer i => tab_set Buffer (tab S (Z.of_nat i)) (wrap8 (Z.of_nat i)))
            (seq 0 256) (repeat 0 256).
Definition INVSBox : list Z := Eval vm_compute in INVSBox_gen SBox.

(** Substitute bytes from the box. *)
Definition Substitute (Word : Z) : Z :=
  match word_bytes Word with
  | [t0; t1; t2; t3] => bytes_word (tab SBox t0) (tab SBox t1) (tab SBox t2) (tab SBox t3)
  | _ => 0
  end.
Definition INVSubstitute (Word : Z) : Z :=
  match word_bytes Word with
  | [t0; t1; t2; t3] =>
      bytes_word (tab INVSBox t0) (tab INVSBox t1) (tab INVSBox t2) (tab INVSBox t3)
  | _ => 0
  end.
Definition SubstituteB (Input : Block_t) : Block_t :=
  Blk (Substitute (e0 Input)) (Substitute (e1 Input))
      (Substitute (e2 Input)) (Substitute (e3 Input)).
Definition INVSubstituteB (Input : Block_t) : Block_t :=
  Blk (INVSubstitute (e0 Input)) (INVSubstitute (e1 Input))
      (INVSubstitute (e2 Input)) (INVSubstitute (e3 Input)).

(** [asBytes[r][c]] after
    [std::bit_cast<std::array<std::array<uint8_t, 4>, 4>>(Input)]. *)
Definition asBytes (Input : Block_t) (r c : Z) : Z :=
  wrap8 (Z.shiftr (sel Input r) (8 * c)).

Definition Shiftrow (Input : Block_t) : Block_t :=
  let a := asBytes Input in
  Blk (bytes_word (a 0 0) (a 1 1) (a 2 2) (a 3 3))
      (bytes_word (a 1 0) (a 2 1) (a 3 2) (a 0 3))
      (bytes_word (a 2 0) (a 3 1) (a 0 2) (a 1 3))
      (bytes_word (a 3 0) (a 0 1) (a 1 2) (a 2 3)).
Definition INVShiftrow (Input : Block_t) : Block_t :=
  let a := asBytes Input in
  Blk (bytes_word (a 0 0) (a 3 1) (a 2 2) (a 1 3))
      (bytes_word (a 1 0) (a 0 1) (a 3 2) (a 2 3))
      (bytes_word (a 2 0) (a 1 1) (a 0 2) (a 3 3))
      (bytes_word (a 3 0) (a 2 1) (a 1 2) (a 0 3)).

(** Mix the columns. *)
Definition Mix (Word : Z) : Z :=
  let Temp := Z.lxor (Mul2 Word) (rotr32 Word 16) in
  Z.lxor Temp (rotr32 (Z.lxor Word Temp) 8).
Definition INVMix (Word : Z) : Z :=
  let Temp := Mul3 Word in
  Mix (Z.lxor (Z.lxor Word Temp) (rotr32 Temp 16)).
Definition MixB (Input : Block_t) : Block_t :=
  Blk (Mix (e0 Input)) (Mix (e1 Input)) (Mix (e2 Input)) (Mix (e3 Input)).
Definition INVMixB (Input : Block_t) : Block_t :=
  Blk (INVMix (e0 Input)) (INVMix (e1 Input)) (INVMix (e2 Input)) (INVMix (e3 Input)).

(** Replacement for [_mm_aeskeygenassist_si128]. *)
Definition Roundconstants : list Z :=
  [0x01; 0x02; 0x04; 0x08; 0x10; 0x20; 0x40; 0x80; 0x1b; 0x36].
Definition Keygenassist (Input : Block_t) (i : Z) : Block_t :=
  let RCON := tab Roundconstants i in
  Blk (Substitute (e1 Input))
      (Z.lxor (rotr32 (Substitute (e1 Input)) 8) RCON)
      (Substitute (e3 Input))
      (Z.lxor (rotr32 (Substitute (e3 Input)) 8) RCON).

(** The round-key schedule: [std::array<Block_t, Rounds + 1>].  Every index
    the key expansion uses is below [Rounds + 1]. *)
Definition zero : Block_t := Blk 0 0 0 0.
Definition key (Schedule : list Block_t) (i : Z) : Block_t :=
  nth (Z.to_nat i) Schedule zero.
Fixpoint put_nat (Schedule : list Block_t) (i : nat) (v : Block_t) : list Block_t :=
  match Schedule, i with
  | [], _ => []
  | _ :: t, O => v :: t
  | h :: t, S j => h :: put_nat t j v
  end.
Definition put (Schedule : list Block_t) (i : Z) (v : Block_t) : list Block_t :=
  put_nat Schedule (Z.to_nat i) v.

(** Sixteen bytes of memory as a block, and back. *)
Definition bytes_block (l : list Z) : Block_t :=
  let b := fun i => nth i l 0 in
  Blk (bytes_word (b 0%nat) (b 1%nat) (b 2%nat) (b 3%nat))
      (bytes_word (b 4%nat) (b 5%nat) (b 6%nat) (b 7%nat))
      (bytes_word (b 8%nat) (b 9%nat) (b 10%nat) (b 11%nat))
      (bytes_word (b 12%nat) (b 13%nat) (b 14%nat) (b 15%nat)).
Definition block_bytes (B : Block_t) : list Z :=
  word_bytes (e0 B) ++ word_bytes (e1 B) ++ word_bytes (e2 B) ++ word_bytes (e3 B).

(** [cmp::memcpy(Schedule.data(), Key.data(), Keysize * 4)] into a
    zero-initialised schedule of [n] blocks. *)
Fixpoint load_key (n : nat) (Key : list Z) : list Block_t :=
  match n with
  | O => []
  | S m => bytes_block (firstn 16 Key) :: load_key m (skipn 16 Key)
  end.

Definition prefix_xor (T : Block_t) : Block_t :=
  let T := XOR T (Shift4 T) in
  let T := XOR T (Shift4 T) in
  XOR T (Shift4 T).

(** Derive the keys for the rounds. *)
Definition Keyexpansion (Keysize Rounds : Z) (Key : list Z) : list Block_t :=
  let Schedule :=
    load_key (Z.to_nat (Rounds + 1)) (firstn (Z.to_nat (Keysize * 4)) Key) in
  (* AES-128 *)
  let Schedule :=
    if (Keysize =? 4) && (Rounds =? 10) then
      for_ 0 (Z.to_nat Rounds) (fun i Schedule =>
        let A := Shuffle4 (Keygenassist (key Schedule i) i) 0xFF in
        let T := XOR A (prefix_xor (key Schedule i)) in
        put Schedule (i + 1) T) Schedule
    else Schedule in
  (* AES-192 *)
  let Schedule :=
    if (Keysize =? 6) && (Rounds =? 12) then
      for_ 1 (Z.to_nat (Rounds - 1)) (fun i Schedule =>
        let A := Shuffle4 (Keygenassist (key Schedule i) (i / 2)) 0x55 in
        let T := XOR A (prefix_xor (key Schedule (i - 1))) in
        let B := Shuffle4 T 0xFF in
        let U := key Schedule i in
        let U := XOR U (Shift4 U) in
        let U := XOR B U in
        if i =? 12 then put Schedule i T
        else
          let Si := key Schedule i in
          let Schedule := put Schedule i (Blk (e0 Si) (e1 Si) (e0 T) (e1 T)) in
          put Schedule (i + 1) (Blk (e2 T) (e3 T) (e0 U) (e1 U))) Schedule
    else Schedule in
  (* AES-256 *)
  let Schedule :=
    if (Keysize =? 8) && (Rounds =? 14) then
      for_ 1 (Z.to_nat (Rounds - 1)) (fun i Schedule =>
        let A := if negb (Z.land i 1 =? 0)
                 then Shuffle4 (Keygenassist (key Schedule i) (i / 2)) 0xFF
                 else Shuffle4 (Keygenassist (key Schedule i) 0) 0xAA in
        let T := XOR A (prefix_xor (key Schedule (i - 1))) in
        put Schedule (i + 1) T) Schedule
    else Schedule in
  Schedule.

Definition INVKeyexpansion (Keysize Rounds : Z) (Key : list Z) : list Block_t :=
  let Keys := Keyexpansion Keysize Rounds Key in
  let Result := repeat zero (Z.to_nat (Rounds + 1)) in
  let Result :=
    for_ 1 (Z.to_nat Rounds) (fun i Result =>
      put Result i (INVMixB (key Keys (Rounds - i)))) Result in
  let Result := put Result 0 (key Keys Rounds) in
  put Result Rounds (key Keys 0).

(** The actual algorithm, note that decryption uses inv-mixed keys. *)
Definition Encryptblock (Rounds : Z) (Input : Block_t) (Keys : list Block_t) : Block_t :=
  let Block := XOR Input (key Keys 0) in
  let Block :=
    for_ 1 (Z.to_nat (Rounds - 1)) (fun i Block =>
      let Block := MixB (SubstituteB (Shiftrow Block)) in
      XOR Block (key Keys i)) Block in
  let Block := SubstituteB (Shiftrow Block) in
  XOR Block (key Keys Rounds).
Definition Decryptblock (Rounds : Z) (Input : Block_t) (Keys : list Block_t) : Block_t :=
  let Block := XOR Input (key Keys 0) in
  let Block :=
    for_ 1 (Z.to_nat (Rounds - 1)) (fun i Block =>
      let Block := INVMixB (INVSubstituteB (INVShiftrow Block)) in
      XOR Block (key Keys i)) Block in
  let Block := INVSubstituteB (INVShiftrow Block) in
  XOR Block (key Keys Rounds).

(** *** Modes *)

(** GF(2^128) multiplication by alpha.  [Result] is a [Block_t], an array
    of four words, and the loop indexes it from 15 down to 0. *)
Definition Mul128 (Value : Block_t) : option Block_t :=
  rc <- for_down_opt 15 16 (fun i '(Result, Carry) =>
          r <- at_ Result i ;;
          let Temp := wrap8 (Z.land r 0x80) in
          Result <- set_at Result i (wrap32 (Z.lor (wrap8 (Z.shiftl r 1)) Carry)) ;;
          Some (Result, wrap8 (Z.shiftr Temp 7))) (Value, 0) ;;
  let '(Result, Carry) := rc in
  if negb (Carry =? 0)
  then r <- at_ Result 0 ;; set_at Result 0 (wrap32 (Z.lxor r 0x87))
  else Some Result.

(** No initial vector, unsafe. *)
Definition Encryptblock_ECB (Rounds : Z) (Input : Block_t) (Keys : list Block_t) : Block_t :=
  Encryptblock Rounds Input Keys.
Definition Decryptblock_ECB (Rounds : Z) (Input : Block_t) (Keys : list Block_t) : Block_t :=
  Decryptblock Rounds Input Keys.

(** The drivers take [State] by reference; here they return the result
    together with the new state.  State = Initialvector *)
Definition Encryptblock_CBC (Rounds : Z) (State Input : Block_t) (Keys : list Block_t)
  : Block_t * Block_t :=
  let Temp := Encryptblock Rounds (XOR State Input) Keys in
  (Temp, Temp).
Definition Decryptblock_CBC (Rounds : Z) (State Input : Block_t) (Keys : list Block_t)
  : Block_t * Block_t :=
  let Temp := XOR State (Decryptblock Rounds Input Keys) in
  (Temp, Input).

Definition Encryptblock_CFB (Rounds : Z) (State Input : Block_t) (Keys : list Block_t)
  : Block_t * Block_t :=
  let Temp := XOR Input (Encryptblock Rounds State Keys) in
  (Temp, Temp).
Definition Decryptblock_CFB (Rounds : Z) (State Input : Block_t) (Keys : list Block_t)
  : Block_t * Block_t :=
  let Temp := XOR Input (Encryptblock Rounds State Keys) in
  (Temp, Input).

(** State = None | Counter *)
Definition Encryptblock_CTR (Rounds Countersize : Z) (Bigendian : bool)
    (State Input : Block_t) (Keys : list Block_t) : option (Block_t * Block_t) :=
  let Temp := XOR Input (Encryptblock Rounds State Keys) in
  let NC := block_bytes State in
  NC <- Increment Countersize Bigendian NC ;;
  Some (Temp, bytes_block NC).
Definition Decryptblock_CTR (Rounds Countersize : Z) (Bigendian : bool)
    (State Input : Block_t) (Keys : list Block_t) : option (Block_t * Block_t) :=
  Encryptblock_CTR Rounds Countersize Bigendian State Input Keys.

(** State = Block *)
Definition Encryptblock_XEX (Rounds : Z) (State Input : Block_t) (Keys : list Block_t)
  : option (Block_t * Block_t) :=
  let Temp := Encryptblock Rounds (XOR Input State) Keys in
  let Result := XOR Temp State in
  State <- Mul128 State ;;
  Some (Result, State).
Definition Decryptblock_XEX (Rounds : Z) (State Input : Block_t) (Keys : list Block_t)
  : option (Block_t * Block_t) :=
  let Temp := Decryptblock Rounds (XOR Input State) Keys in
  let Result := XOR Temp State in
  State <- Mul128 State ;;
  Some (Result, State).

End Portable.

(** ** AES::Implementation::HW

    [Block_t] is [__m128i]; the embedding keeps it as its sixteen bytes,
    [m128i_i8[0]] first, each byte as its unsigned bit pattern.  The cipher
    instructions themselves are not part of the repository. *)
Module HW.

Definition Block_t := list Z.

Definition XOR (A B : Block_t) : Block_t :=
  map (fun ab => Z.lxor (fst ab) (snd ab)) (combine A B).

(** The tweak step of the hardware path. *)
Definition Mul128 (Value : Block_t) : option Block_t :=
  rc <- for_opt 0 16 (fun i '(Result, Carry) =>
          r <- load Result i ;;
          let Temp := wrap8 (Z.land r 0x80) in
          Result <- store Result i (wrap8 (Z.shiftl r 1)) ;;
          r <- load Result i ;;
          Result <- store Result i (Z.lor r Carry) ;;
          Some (Result, Z.shiftr Temp 7)) (Value, 0) ;;
  let '(Result, Carry) := rc in
  let Carry := wrap8 (0 - Carry) in
  r <- load Result 0 ;;
  store Result 0 (Z.lxor r (wrap8 (Z.land 0x87 Carry))).

End HW.

(** ** The two paths behind one interface

    The mode functions of [AES::Modes] are written twice with the same text,
    once after [using namespace Portable] and once after
    [using namespace HW].  [Path] collects what that text uses, and which
    branch of [cmp::memcpy] copies: [std::memcpy] at run time, the
    byte-by-byte copy in constant evaluation. *)
Class Path := {
  Block : Type;
  Schedule : Type;
  (** [std::is_constant_evaluated()] *)
  constant_evaluated : bool;
  (** [cmp::memcpy(&Block, &Input[i], sizeof(Block_t))] *)
  of_bytes : list Z -> Block;
  (** [cmp::memcpy(&Buffer[i], Block)] *)
  to_bytes : Block -> list Z;
  to_bytes_length : forall B, length (to_bytes B) = 16%nat;
  (** [Block_t State{}; cmp::memcpy(&State[0], SectorID)] *)
  sector_state : Z -> Block;
  XOR : Block -> Block -> Block;
  Mul128 : Block -> option Block;
  Keyexpansion : Z -> Z -> list Z -> Schedule;
  Encryptblock : Z -> Block -> Schedule -> Block;
  Decryptblock : Z -> Block -> Schedule -> Block
}.

(** On the portable path the two-argument [cmp::memcpy] copies
    [min(sizeof(uint32_t), sizeof(uint64_t))] bytes of the sector number
    into [State[0]]. *)
#[export] Instance Portable_path : Path := {
  Block := Portable.Block_t;
  Schedule := list Portable.Block_t;
  constant_evaluated := false;
  of_bytes := Portable.bytes_block;
  to_bytes := Portable.block_bytes;
  to_bytes_length := fun B => eq_refl;
  sector_state := fun SectorID => Portable.Blk (wrap32 SectorID) 0 0 0;
  XOR := Portable.XOR;
  Mul128 := Portable.Mul128;
  Keyexpansion := Portable.Keyexpansion;
  Encryptblock := Portable.Encryptblock;
  Decryptblock := Portable.Decryptblock
}.

(** The portable path in a constant expression, where the mode functions
    always take it. *)
Definition Portable_constant_evaluated : Path := {|
  Block := Portable.Block_t;
  Schedule := list Portable.Block_t;
  constant_evaluated := true;
  of_bytes := Portable.bytes_block;
  to_bytes := Portable.block_bytes;
  to_bytes_length := fun B => eq_refl;
  sector_state := fun SectorID => Portable.Blk (wrap32 SectorID) 0 0 0;
  XOR := Portable.XOR;
  Mul128 := Portable.Mul128;
  Keyexpansion := Portable.Keyexpansion;
  Encryptblock := Portable.Encryptblock;
  Decryptblock := Portable.Decryptblock
|}.

(** What a call can do besides returning. *)
Inductive outcome (A : Type) : Type :=
| Returns (a : A)
| Asserts          (* [assert] fails: the debug build aborts *)
| Throws           (* [std::vector::resize] beyond [max_size()] *)
| Undefined.       (* access outside an array *)
Arguments Returns {A} a.
Arguments Asserts {A}.
Arguments Throws {A}.
Arguments Undefined {A}.

(** ** AES::Modes *)
Module Modes.

(** GF(2^128) multiplication by alpha (2), the [Portable::Block_t]
    overload. *)
Definition MUL128 (Input : Portable.Block_t) : option Portable.Block_t :=
  let Result := Portable.block_bytes Input in
  r15 <- load Result 15 ;;
  let Carry := wrap8 (Z.shiftr r15 7) in
  Result <- for_down_opt 15 15 (fun i Result =>
              a <- load Result i ;;
              b <- load Result (i - 1) ;;
              store Result i (wrap8 (Z.lor (Z.shiftl a 1) (Z.shiftr b 7)))) Result ;;
  r0 <- load Result 0 ;;
  Result <- store Result 0 (wrap8 (Z.lxor (Z.shiftl r0 1) (Carry * 0x87))) ;;
  Some (Portable.bytes_block Result).

Definition size (l : list Z) : Z := Z.of_nat (length l).

(** Sixteen bytes read at [&Input[i]], and written at [&Buffer[i]]. *)
Definition read_block `{Path} (Input : list Z) (i : Z) : option Block :=
  if (0 <=? i) && (i + 16 <=? size Input)
  then Some (of_bytes (firstn 16 (skipn (Z.to_nat i) Input)))
  else None.
Definition write_block `{Path} (Buffer : list Z) (i : Z) (B : Block) : option (list Z) :=
  if (0 <=? i) && (i + 16 <=? size Buffer)
  then Some (firstn (Z.to_nat i) Buffer ++ to_bytes B ++ skipn (Z.to_nat i + 16) Buffer)
  else None.

(** [for (size_t i = 0; i < Input.size(); i += 16)]: the body runs once
    for every started block of the input. *)
Fixpoint loop16 {S} (n : nat) (i : Z) (body : Z -> S -> option S) (s : S) : option S :=
  match n with
  | O => Some s
  | S m => s' <- body i s ;; loop16 m (i + 16) body s'
  end.
Definition trips (Input : list Z) : nat := Z.to_nat ((size Input + 15) / 16).

(** The "last block": sixteen padding bytes, then
    [cmp::memcpy(&Block, &Input[Input.size() - (Input.size() & 15)],
    Input.size() & 15)].  At run time [std::memcpy] replaces the first
    [Input.size() & 15] bytes of the block by the tail of the input.  In
    constant evaluation [cmp::memcpy] gathers those bytes in a
    zero-initialised [Temp] and assigns [Temp] to the whole block, so that
    the padding bytes are overwritten with zeros.  When the length is a
    multiple of 16 nothing is read through the address past the end of the
    input. *)
Definition last_block `{Path} (Input : list Z) (Padding : Z) : Block :=
  let r := Z.to_nat (Z.land (size Input) 15) in
  let tail := skipn (Z.to_nat (size Input - Z.land (size Input) 15)) Input in
  of_bytes (firstn r tail ++
            (if constant_evaluated then repeat 0 (16 - r)
             else skipn r (repeat Padding 16))).

(** [Buffer.resize(Buffer.size() - Buffer.back())] *)
Definition remove_padding (Buffer : list Z) : outcome (list Z) :=
  match Buffer with
  | [] => Undefined                       (* [back()] of an empty vector *)
  | _ =>
      let n := wrap64 (size Buffer - last Buffer 0) in
      if n <=? size Buffer then Returns (firstn (Z.to_nat n) Buffer) else Throws
  end.

Definition finish {A} (x : option A) (k : A -> outcome A) : outcome A :=
  match x with Some a => k a | None => Undefined end.

(** [State = Increment<Countersize, Bigendian>(State)] of [AES::Modes]: the
    block as sixteen bytes, the counter step of above, and back. *)
Definition increment `{Path} (Countersize : Z) (Bigendian : bool) (State : Block)
  : option Block :=
  NC <- Increment Countersize Bigendian (to_bytes State) ;;
  Some (of_bytes NC).

(** Input-size must be a multiple of 16. *)
Module Unpadded.
Section Unpadded.
Context `{Path}.

Definition Encrypt_CBC (Keysize Rounds : Z) (Input Key IV : list Z) : option (list Z) :=
  let Keys := Keyexpansion Keysize Rounds Key in
  let State := of_bytes IV in
  let Buffer := repeat 0 (length Input) in
  r <- loop16 (trips Input) 0 (fun i '(State, Buffer) =>
     Block <- read_block Input i ;;
     let State := Encryptblock Rounds (XOR State Block) Keys in
     Buffer <- write_block Buffer i State ;;
     Some (State, Buffer)) (State, Buffer) ;;
  Some (snd r).

Definition Decrypt_CBC (Keysize Rounds : Z) (Input Key IV : list Z) : option (list Z) :=
  let Keys := Keyexpansion Keysize Rounds Key in
  let State := of_bytes IV in
  let Buffer := repeat 0 (length Input) in
  r <- loop16 (trips Input) 0 (fun i '(State, Buffer) =>
     Block <- read_block Input i ;;
     Buffer <- write_block Buffer i (XOR State (Decryptblock Rounds Block Keys)) ;;
     Some (Block, Buffer)) (State, Buffer) ;;
  Some (snd r).

(** No initial vector, unsafe. *)
Definition Encrypt_ECB (Keysize Rounds : Z) (Input Key : list Z) : option (list Z) :=
  let Keys := Keyexpansion Keysize Rounds Key in
  let Buffer := repeat 0 (length Input) in
  loop16 (trips Input) 0 (fun i Buffer =>
     Block <- read_block Input i ;;
     write_block Buffer i (Encryptblock Rounds Block Keys)) Buffer.

Definition Decrypt_ECB (Keysize Rounds : Z) (Input Key : list Z) : option (list Z) :=
  let Keys := Keyexpansion Keysize Rounds Key in
  let Buffer := repeat 0 (length Input) in
  loop16 (trips Input) 0 (fun i Buffer =>
     Block <- read_block Input i ;;
     write_block Buffer i (Decryptblock Rounds Block Keys)) Buffer.

Definition Encrypt_CFB (Keysize Rounds : Z) (Input Key IV : list Z) : option (list Z) :=
  let Keys := Keyexpansion Keysize Rounds Key in
  let State := of_bytes IV in
  let Buffer := repeat 0 (length Input) in
  r <- loop16 (trips Input) 0 (fun i '(State, Buffer) =>
     Block <- read_block Input i ;;
     let State := XOR Block (Encryptblock Rounds State Keys) in
     Buffer <- write_block Buffer i State ;;
     Some (State, Buffer)) (State, Buffer) ;;
  Some (snd r).

Definition Decrypt_CFB (Keysize Rounds : Z) (Input Key IV : list Z) : option (list Z) :=
  let Keys := Keyexpansion Keysize Rounds Key in
  let State := of_bytes IV in
  let Buffer := repeat 0 (length Input) in
  r <- loop16 (trips Input) 0 (fun i '(State, Buffer) =>
     Block <- read_block Input i ;;
     Buffer <- write_block Buffer i (XOR Block (Encryptblock Rounds State Keys)) ;;
     Some (Block, Buffer)) (State, Buffer) ;;
  Some (snd r).

(** Parallelizable encryption, implemented sequentially.  The mode
    [AES_CTR_32BE] .. [AES_CTR_128LE] selects the counter size and the
    endianness of the one [Increment] that runs. *)
Definition Encrypt_CTR (Countersize : Z) (Bigendian : bool) (Keysize Rounds : Z)
    (Input Key IV : list Z) : option (list Z) :=
  let Keys := Keyexpansion Keysize Rounds Key in
  let State := of_bytes IV in
  let Buffer := repeat 0 (length Input) in
  r <- loop16 (trips Input) 0 (fun i '(State, Buffer) =>
     Block <- read_block Input i ;;
     Buffer <- write_block Buffer i (XOR Block (Encryptblock Rounds State Keys)) ;;
     State <- increment Countersize Bigendian State ;;
     Some (State, Buffer)) (State, Buffer) ;;
  Some (snd r).

Definition Decrypt_CTR (Countersize : Z) (Bigendian : bool) (Keysize Rounds : Z)
    (Input Key IV : list Z) : option (list Z) :=
  let Keys := Keyexpansion Keysize Rounds Key in
  let State := of_bytes IV in
  let Buffer := repeat 0 (length Input) in
  r <- loop16 (trips Input) 0 (fun i '(State, Buffer) =>
     Block <- read_block Input i ;;
     Buffer <- write_block Buffer i (XOR Block (Encryptblock Rounds State Keys)) ;;
     State <- increment Countersize Bigendian State ;;
     Some (State, Buffer)) (State, Buffer) ;;
  Some (snd r).

(** [for (; BlockID; BlockID--) State = Mul128(State);] *)
Fixpoint advance (n : nat) (State : Block) : option Block :=
  match n with
  | O => Some State
  | S m => State <- Mul128 State ;; advance m State
  end.

(** XEX takes a section and counter as IV; XTS takes a section and then
    multiplies in GF.  [Mul128] is the function of that name of the path in
    use. *)
Definition Encrypt_XEX (Keysize Rounds : Z) (Input Key : list Z) (SectorID BlockID : Z)
  : option (list Z) :=
  let Keys := Keyexpansion Keysize Rounds Key in
  let Buffer := repeat 0 (length Input) in
  let State := sector_state SectorID in
  let State := Encryptblock Rounds State Keys in
  State <- advance (Z.to_nat (wrap64 BlockID)) State ;;
  r <- loop16 (trips Input) 0 (fun i '(State, Buffer) =>
     Block <- read_block Input i ;;
     let Temp := Encryptblock Rounds (XOR Block State) Keys in
     Buffer <- write_block Buffer i (XOR Temp State) ;;
     State <- Mul128 State ;;
     Some (State, Buffer)) (State, Buffer) ;;
  Some (snd r).

Definition Decrypt_XEX (Keysize Rounds : Z) (Input Key : list Z) (SectorID BlockID : Z)
  : option (list Z) :=
  let Keys := Keyexpansion Keysize Rounds Key in
  let Buffer := repeat 0 (length Input) in
  let State := sector_state SectorID in
  let State := Encryptblock Rounds State Keys in
  State <- advance (Z.to_nat (wrap64 BlockID)) State ;;
  r <- loop16 (trips Input) 0 (fun i '(State, Buffer) =>
     Block <- read_block Input i ;;
     let Temp := Decryptblock Rounds (XOR Block State) Keys in
     Buffer <- write_block Buffer i (XOR Temp State) ;;
     State <- Mul128 State ;;
     Some (State, Buffer)) (State, Buffer) ;;
  Some (snd r).

Definition Encrypt_XTS (Keysize Rounds : Z) (Input Key Tweakkey : list Z)
    (SectorID BlockID : Z) : option (list Z) :=
  let Tweakkeys := Keyexpansion Keysize Rounds Tweakkey in
  let Keys := Keyexpansion Keysize Rounds Key in
  let Buffer := repeat 0 (length Input) in
  let State := sector_state SectorID in
  let State := Encryptblock Rounds State Tweakkeys in
  State <- advance (Z.to_nat (wrap64 BlockID)) State ;;
  r <- loop16 (trips Input) 0 (fun i '(State, Buffer) =>
     Block <- read_block Input i ;;
     let Temp := Encryptblock Rounds (XOR Block State) Keys in
     Buffer <- write_block Buffer i (XOR Temp State) ;;
     State <- Mul128 State ;;
     Some (State, Buffer)) (State, Buffer) ;;
  Some (snd r).

Definition Decrypt_XTS (Keysize Rounds : Z) (Input Key Tweakkey : list Z)
    (SectorID BlockID : Z) : option (list Z) :=
  let Tweakkeys := Keyexpansion Keysize Rounds Tweakkey in
  let Keys := Keyexpansion Keysize Rounds Key in
  let Buffer := repeat 0 (length Input) in
  let State := sector_state SectorID in
  let State := Encryptblock Rounds State Tweakkeys in
  State <- advance (Z.to_nat (wrap64 BlockID)) State ;;
  r <- loop16 (trips Input) 0 (fun i '(State, Buffer) =>
     Block <- read_block Input i ;;
     let Temp := Decryptblock Rounds (XOR Block State) Keys in
     Buffer <- write_block Buffer i (XOR Temp State) ;;
     State <- Mul128 State ;;
     Some (State, Buffer)) (State, Buffer) ;;
  Some (snd r).

End Unpadded.
End Unpadded.

(** PKCS#7 padding. *)
Module Padded.
Section Padded.
Context `{Path}.

(** No initial vector, unsafe. *)
Definition Encrypt_ECB (Keysize Rounds : Z) (Input Key : list Z) : option (list Z) :=
  let Padding := wrap8 (16 - Z.land (size Input) 15) in
  let Keys := Keyexpansion Keysize Rounds Key in
  let Buffer := repeat 0 (Z.to_nat (size Input + Padding)) in
  (* Regular blocks. *)
  Buffer <- loop16 (trips Input) 0 (fun i Buffer =>
          Block <- read_block Input i ;;
          write_block Buffer i (Encryptblock Rounds Block Keys)) Buffer ;;
  (* Last block. *)
  let Block := last_block Input Padding in
  write_block Buffer (size Input - Z.land (size Input) 15)
          (Encryptblock Rounds Block Keys).

(** The loop of [Decrypt<AES_ECB>]: the block-wise decryption. *)
Definition blocks_ECB (Rounds : Z) (Keys : Schedule) (Input : list Z) : option (list Z) :=
  loop16 (trips Input) 0 (fun i Buffer =>
  Block <- read_block Input i ;;
  write_block Buffer i (Decryptblock Rounds Block Keys)) (repeat 0 (length Input)).

Definition Decrypt_ECB (Keysize Rounds : Z) (Input Key : list Z) : outcome (list Z) :=
  (* Can't decrypt the last block properly. *)
  if negb (Z.land (size Input) 15 =? 0) then Asserts else
  let Keys := Keyexpansion Keysize Rounds Key in
  (* Regular blocks. *)
  finish (blocks_ECB Rounds Keys Input) (fun Buffer =>
  (* Remove padding. *)
  remove_padding Buffer).

(** Stream-block encryption. *)
Definition Encrypt_CBC (Keysize Rounds : Z) (Input Key IV : list Z) : option (list Z) :=
  let Padding := wrap8 (16 - Z.land (size Input) 15) in
  let Keys := Keyexpansion Keysize Rounds Key in
  let State := of_bytes IV in
  let Buffer := repeat 0 (Z.to_nat (size Input + Padding)) in
  (* Regular blocks. *)
  r <- loop16 (trips Input) 0 (fun i '(State, Buffer) =>
     Block <- read_block Input i ;;
     let State := Encryptblock Rounds (XOR State Block) Keys in
     Buffer <- write_block Buffer i State ;;
     Some (State, Buffer)) (State, Buffer) ;;
  let '(State, Buffer) := r in
  (* Last block. *)
  let Block := last_block Input Padding in
  write_block Buffer (size Input - Z.land (size Input) 15)
          (Encryptblock Rounds (XOR State Block) Keys).

(** The loop of [Decrypt<AES_CBC>]. *)
Definition blocks_CBC (Rounds : Z) (Keys : Schedule) (IV Input : list Z)
  : option (list Z) :=
  r <- loop16 (trips Input) 0 (fun i '(State, Buffer) =>
     Block <- read_block Input i ;;
     Buffer <- write_block Buffer i (XOR State (Decryptblock Rounds Block Keys)) ;;
     Some (Block, Buffer)) (of_bytes IV, repeat 0 (length Input)) ;;
  Some (snd r).

Definition Decrypt_CBC (Keysize Rounds : Z) (Input Key IV : list Z) : outcome (list Z) :=
  (* Can't decrypt the last block properly. *)
  if negb (Z.land (size Input) 15 =? 0) then Asserts else
  let Keys := Keyexpansion Keysize Rounds Key in
  (* Regular blocks. *)
  finish (blocks_CBC Rounds Keys IV Input) (fun Buffer =>
  (* Remove padding. *)
  remove_padding Buffer).

(** Stream-block encryption, the state being the last ciphertext block. *)
Definition Encrypt_CFB (Keysize Rounds : Z) (Input Key IV : list Z) : option (list Z) :=
  let Padding := wrap8 (16 - Z.land (size Input) 15) in
  let Keys := Keyexpansion Keysize Rounds Key in
  let State := of_bytes IV in
  let Buffer := repeat 0 (Z.to_nat (size Input + Padding)) in
  (* Regular blocks. *)
  r <- loop16 (trips Input) 0 (fun i '(State, Buffer) =>
     Block <- read_block Input i ;;
     let State := XOR Block (Encryptblock Rounds State Keys) in
     Buffer <- write_block Buffer i State ;;
     Some (State, Buffer)) (State, Buffer) ;;
  let '(State, Buffer) := r in
  (* Last block. *)
  let Block := last_block Input Padding in
  write_block Buffer (size Input - Z.land (size Input) 15)
          (XOR Block (Encryptblock Rounds State Keys)).

(** The loop of [Decrypt<AES_CFB>]. *)
Definition blocks_CFB (Rounds : Z) (Keys : Schedule) (IV Input : list Z)
  : option (list Z) :=
  r <- loop16 (trips Input) 0 (fun i '(State, Buffer) =>
     Block <- read_block Input i ;;
     Buffer <- write_block Buffer i (XOR Block (Encryptblock Rounds State Keys)) ;;
     Some (Block, Buffer)) (of_bytes IV, repeat 0 (length Input)) ;;
  Some (snd r).

Definition Decrypt_CFB (Keysize Rounds : Z) (Input Key IV : list Z) : outcome (list Z) :=
  (* Can't decrypt the last block properly. *)
  if negb (Z.land (size Input) 15 =? 0) then Asserts else
  let Keys := Keyexpansion Keysize Rounds Key in
  (* Regular blocks. *)
  finish (blocks_CFB Rounds Keys IV Input) (fun Buffer =>
  (* Remove padding. *)
  remove_padding Buffer).

(** Parallelizable encryption, implemented sequentially; the state is not
    stepped after the last block. *)
Definition Encrypt_CTR (Countersize : Z) (Bigendian : bool) (Keysize Rounds : Z)
    (Input Key IV : list Z) : option (list Z) :=
  let Padding := wrap8 (16 - Z.land (size Input) 15) in
  let Keys := Keyexpansion Keysize Rounds Key in
  let State := of_bytes IV in
  let Buffer := repeat 0 (Z.to_nat (size Input + Padding)) in
  (* Regular blocks. *)
  r <- loop16 (trips Input) 0 (fun i '(State, Buffer) =>
     Block <- read_block Input i ;;
     Buffer <- write_block Buffer i (XOR Block (Encryptblock Rounds State Keys)) ;;
     State <- increment Countersize Bigendian State ;;
     Some (State, Buffer)) (State, Buffer) ;;
  let '(State, Buffer) := r in
  (* Last block. *)
  let Block := last_block Input Padding in
  write_block Buffer (size Input - Z.land (size Input) 15)
          (XOR Block (Encryptblock Rounds State Keys)).

(** The loop of [Decrypt<AES_CTR_*>]. *)
Definition blocks_CTR (Countersize : Z) (Bigendian : bool) (Rounds : Z) (Keys : Schedule)
    (IV Input : list Z) : option (list Z) :=
  r <- loop16 (trips Input) 0 (fun i '(State, Buffer) =>
     Block <- read_block Input i ;;
     Buffer <- write_block Buffer i (XOR Block (Encryptblock Rounds State Keys)) ;;
     State <- increment Countersize Bigendian State ;;
     Some (State, Buffer)) (of_bytes IV, repeat 0 (length Input)) ;;
  Some (snd r).

Definition Decrypt_CTR (Countersize : Z) (Bigendian : bool) (Keysize Rounds : Z)
    (Input Key IV : list Z) : outcome (list Z) :=
  (* Can't decrypt the last block properly. *)
  if negb (Z.land (size Input) 15 =? 0) then Asserts else
  let Keys := Keyexpansion Keysize Rounds Key in
  (* Regular blocks. *)
  finish (blocks_CTR Countersize Bigendian Rounds Keys IV Input) (fun Buffer =>
  (* Remove padding. *)
  remove_padding Buffer).

(** [for (; BlockID; BlockID--) State = Mul128(State);] *)
Fixpoint advance (n : nat) (State : Block) : option Block :=
  match n with
  | O => Some State
  | S m => State <- Mul128 State ;; advance m State
  end.

(** [Encrypt<AES_XTS>]: there is no "last block" part. *)
Definition Encrypt_XTS (Keysize Rounds : Z) (Input Key Tweakkey : list Z)
    (SectorID BlockID : Z) : option (list Z) :=
  let Padding := wrap8 (16 - Z.land (size Input) 15) in
  let Tweakkeys := Keyexpansion Keysize Rounds Tweakkey in
  let Keys := Keyexpansion Keysize Rounds Key in
  let Buffer := repeat 0 (Z.to_nat (size Input + Padding)) in
  let State := sector_state SectorID in
  let State := Encryptblock Rounds State Tweakkeys in
  State <- advance (Z.to_nat (wrap64 BlockID)) State ;;
  (* Regular blocks. *)
  r <- loop16 (trips Input) 0 (fun i '(State, Buffer) =>
         Block <- read_block Input i ;;
         let Temp := Encryptblock Rounds (XOR Block State) Keys in
         Buffer <- write_block Buffer i (XOR Temp State) ;;
         State <- Mul128 State ;;
         Some (State, Buffer)) (State, Buffer) ;;
  Some (snd r).

(** [Decrypt<AES_XTS>]: no assertion on the size, and the padding stays. *)
Definition Decrypt_XTS (Keysize Rounds : Z) (Input Key Tweakkey : list Z)
    (SectorID BlockID : Z) : option (list Z) :=
  let Tweakkeys := Keyexpansion Keysize Rounds Tweakkey in
  let Keys := Keyexpansion Keysize Rounds Key in
  let Buffer := repeat 0 (length Input) in
  let State := sector_state SectorID in
  let State := Encryptblock Rounds State Tweakkeys in
  State <- advance (Z.to_nat (wrap64 BlockID)) State ;;
  (* Regular blocks. *)
  r <- loop16 (trips Input) 0 (fun i '(State, Buffer) =>
         Block <- read_block Input i ;;
         let Temp := Decryptblock Rounds (XOR Block State) Keys in
         Buffer <- write_block Buffer i (XOR Temp State) ;;
         State <- Mul128 State ;;
         Some (State, Buffer)) (State, Buffer) ;;
  Some (snd r).

(** [Encrypt<AES_XEX>], with its last block. *)
Definition Encrypt_XEX (Keysize Rounds : Z) (Input Key : list Z) (SectorID BlockID : Z)
  : option (list Z) :=
  let Padding := wrap8 (16 - Z.land (size Input) 15) in
  let Keys := Keyexpansion Keysize Rounds Key in
  let Buffer := repeat 0 (Z.to_nat (size Input + Padding)) in
  let State := sector_state SectorID in
  let State := Encryptblock Rounds State Keys in
  State <- advance (Z.to_nat (wrap64 BlockID)) State ;;
  (* Regular blocks. *)
  r <- loop16 (trips Input) 0 (fun i '(State, Buffer) =>
         Block <- read_block Input i ;;
         let Temp := Encryptblock Rounds (XOR Block State) Keys in
         Buffer <- write_block Buffer i (XOR Temp State) ;;
         State <- Mul128 State ;;
         Some (State, Buffer)) (State, Buffer) ;;
  let '(State, Buffer) := r in
  (* Last block. *)
  let Block := last_block Input Padding in
  write_block Buffer (size Input - Z.land (size Input) 15)
          (XOR (Encryptblock Rounds (XOR Block State) Keys) State).

(** The loop of [Decrypt<AES_XEX>]. *)
Definition blocks_XEX (Rounds : Z) (Keys : Schedule) (Input : list Z)
    (SectorID BlockID : Z) : option (list Z) :=
  let Buffer := repeat 0 (length Input) in
  let State := sector_state SectorID in
  let State := Encryptblock Rounds State Keys in
  State <- advance (Z.to_nat (wrap64 BlockID)) State ;;
  r <- loop16 (trips Input) 0 (fun i '(State, Buffer) =>
         Block <- read_block Input i ;;
         let Temp := Decryptblock Rounds (XOR Block State) Keys in
         Buffer <- write_block Buffer i (XOR Temp State) ;;
         State <- Mul128 State ;;
         Some (State, Buffer)) (State, Buffer) ;;
  Some (snd r).

(** [Decrypt<AES_XEX>], the branch without intrinsics (the branch with
    them returns the buffer with its padding). *)
Definition Decrypt_XEX (Keysize Rounds : Z) (Input Key : list Z) (SectorID BlockID : Z)
  : outcome (list Z) :=
  (* Can't decrypt the last block properly. *)
  if negb (Z.land (size Input) 15 =? 0) then Asserts else
  let Keys := Keyexpansion Keysize Rounds Key in
  (* Regular blocks. *)
  finish (blocks_XEX Rounds Keys Input SectorID BlockID) (fun Buffer =>
  (* Remove padding. *)
  remove_padding Buffer).

End Padded.
End Padded.

End Modes.

(** ** Unittests: the data of the round-trip assertions *)
Module Unittests.
Definition AESData : list Z := [0; 1; 2; 3; 4; 5; 6; 7; 8; 9; 10; 11; 12; 13; 14; 15].
Definition AESIV : list Z :=
  [0x16; 0x15; 0x7e; 0x2b; 0xa6; 0xd2; 0xae; 0x28;
   0x88; 0x15; 0xf7; 0xab; 0x3c; 0x4f; 0xcf; 0x09].
Definition AES128Key : list Z :=
  [0x2b; 0x7e; 0x15; 0x16; 0x28; 0xae; 0xd2; 0xa6;
   0xab; 0xf7; 0x15; 0x88; 0x09; 0xcf; 0x4f; 0x3c].
Definition AES192Key : list Z :=
  [0xe8; 0x69; 0xc2; 0x0c; 0xdc; 0xf7; 0x78; 0xa6; 0x44; 0x41; 0x44; 0x62;
   0x81; 0x1b; 0xd4; 0xb1; 0x1d; 0xd0; 0x03; 0xa1; 0x32; 0x7f; 0xc2; 0x30].
Definition AES256Key : list Z :=
  [0x88; 0x05; 0x79; 0xbd; 0x7c; 0x1f; 0x39; 0x5b; 0xad; 0x10; 0x85; 0xac;
   0xc1; 0xbf; 0x4f; 0x35; 0xb8; 0xa7; 0xc1; 0x7f; 0x1a; 0x00; 0x99; 0xa5;
   0x49; 0x3b; 0x3a; 0x1; 0x81; 0xb0; 0x26; 0xdc].
End Unittests.

(** ** FIPS-197, as published

    The key expansion of the standard (section 5.2), on little-endian
    words, and the example vectors of its appendix C.  These are the
    reference the known-vector property compares the code with. *)
Module FIPS197.

Definition RotWord (w : Z) : Z := rotr32 w 8.
Definition SubWord (w : Z) : Z := Portable.Substitute w.
Definition Rcon (j : Z) : Z := tab Portable.Roundconstants (j - 1).

(** [w[i]] for [i = Nk .. 4 * (Nr + 1) - 1], appended one word at a time. *)
Definition next_word (Nk : Z) (w : list Z) : list Z :=
  let i := Z.of_nat (length w) in
  let temp := tab w (i - 1) in
  let temp :=
    if i mod Nk =? 0 then Z.lxor (SubWord (RotWord temp)) (Rcon (i / Nk))
    else if (6 <? Nk) && (i mod Nk =? 4) then SubWord temp
    else temp in
  w ++ [Z.lxor (tab w (i - Nk)) temp].

Fixpoint key_words (Nk : nat) (key : list Z) : list Z :=
  match Nk with
  | O => []
  | S m => bytes_word (nth 0 key 0) (nth 1 key 0) (nth 2 key 0) (nth 3 key 0)
           :: key_words m (skipn 4 key)
  end.

Definition KeyExpansion (Nk Nr : Z) (key : list Z) : list Z :=
  Nat.iter (Z.to_nat (4 * (Nr + 1) - Nk)) (next_word Nk) (key_words (Z.to_nat Nk) key).

Fixpoint round_keys (n : nat) (w : list Z) : list Portable.Block_t :=
  match n with
  | O => []
  | S m => Portable.Blk (nth 0 w 0) (nth 1 w 0) (nth 2 w 0) (nth 3 w 0)
           :: round_keys m (skipn 4 w)
  end.
Definition schedule (Nk Nr : Z) (key : list Z) : list Portable.Block_t :=
  round_keys (Z.to_nat (Nr + 1)) (KeyExpansion Nk Nr key).

(** Appendix C: PLAINTEXT 00112233445566778899aabbccddeeff and the keys
    000102...0f, 000102...17 and 000102...1f. *)
Definition plaintext : list Z :=
  [0x00; 0x11; 0x22; 0x33; 0x44; 0x55; 0x66; 0x77;
   0x88; 0x99; 0xaa; 0xbb; 0xcc; 0xdd; 0xee; 0xff].
Definition key128 : list Z := map Z.of_nat (seq 0 16).
Definition key192 : list Z := map Z.of_nat (seq 0 24).
Definition key256 : list Z := map Z.of_nat (seq 0 32).
Definition ciphertext128 : list Z :=
  [0x69; 0xc4; 0xe0; 0xd8; 0x6a; 0x7b; 0x04; 0x30;
   0xd8; 0xcd; 0xb7; 0x80; 0x70; 0xb4; 0xc5; 0x5a].
Definition ciphertext192 : list Z :=
  [0xdd; 0xa9; 0x7c; 0xa4; 0x86; 0x4c; 0xdf; 0xe0;
   0x6e; 0xaf; 0x70; 0xa0; 0xec; 0x0d; 0x71; 0x91].
Definition ciphertext256 : list Z :=
  [0x8e; 0xa2; 0xb7; 0xca; 0x51; 0x67; 0x45; 0xbf;
   0xea; 0xfc; 0x49; 0x90; 0x4b; 0x49; 0x60; 0x89].

End FIPS197.

(** [Encryptblock_ECB] of one block of bytes under the expanded key. *)
Definition encrypt_vector (Keysize Rounds : Z) (Key Data : list Z) : list Z :=
  Portable.block_bytes
    (Portable.Encryptblock_ECB Rounds (Portable.bytes_block Data)
       (Portable.Keyexpansion Keysize Rounds Key)).

(** ** Auxiliary definitions of the proofs *)

(** The 256 byte values, for properties checked on every byte. *)
Definition bytes_list : list Z := map Z.of_nat (seq 0 256).

(** The number of the iteration that stores [Buffer[i]], found by walking
    the cycle of [P]. *)
Fixpoint find_step (n : nat) (k : nat) (P : Z) (i : Z) : option nat :=
  match n with
  | O => None
  | S m => let P' := Portable.Mul3_8 P in
           if P' =? i then Some (S k) else find_step m (S k) P' i
  end.

Definition assigned_at (i : nat) (k : nat) : Prop :=
  (1 <= k <= 255)%nat /\
  Nat.iter k Portable.Mul3_8 1 = Z.of_nat i /\
  tab Portable.SBox (Z.of_nat i) = Portable.affine (Nat.iter k Portable.Div3 1).

Definition assigned_atb (i : nat) : bool :=
  match find_step 255 0 1 (Z.of_nat i) with
  | Some k =>
      (1 <=? k)%nat && (k <=? 255)%nat &&
      (Nat.iter k Portable.Mul3_8 1 =? Z.of_nat i) &&
      (tab Portable.SBox (Z.of_nat i) =? Portable.affine (Nat.iter k Portable.Div3 1))
  | None => false
  end.

(** A function on words is linear when it commutes with XOR. *)
Definition linear (f : Z -> Z) : Prop :=
  forall a b, f (Z.lxor a b) = Z.lxor (f a) (f b).

(** Words with bits at positions 0, 8, 16 and 24 only: what
    [(Input & 0x80808080) >> 7] leaves. *)
Definition masked (y : Z) : Prop := Z.land y 0x01010101 = y.
Definition masked_values : list Z :=
  flat_map (fun a => flat_map (fun b => flat_map (fun c => map (fun d =>
     Z.lxor a (Z.lxor b (Z.lxor c d))) [0; 0x1000000]) [0; 0x10000]) [0; 0x100]) [0; 1].
Definition mul_linear_on (c : Z) (l : list Z) : bool :=
  forallb (fun y => forallb (fun y' =>
    Z.lxor y y' * c =? Z.lxor (y * c) (y' * c)) l) l.

(** Byte [b] in lane [k] of a word. *)
Definition lane (k : Z) (b : Z) : Z := Z.shiftl b (8 * k).
Definition fixes_lanes (f : Z -> Z) : bool :=
  forallb (fun k => forallb (fun b => f (lane k b) =? lane k b) bytes_list) [0; 1; 2; 3].

(** A 32-bit word, a byte, a block of four words. *)
Definition word (w : Z) : Prop := 0 <= w < 2 ^ 32.
Definition byte (b : Z) : Prop := 0 <= b < 256.
Definition block (B : Portable.Block_t) : Prop :=
  word (Portable.e0 B) /\ word (Portable.e1 B) /\ word (Portable.e2 B) /\ word (Portable.e3 B).

Ltac kill_neg :=
  repeat match goal with
  | |- context [Z.testbit ?x ?m] => rewrite (Z.testbit_neg_r x m) by lia
  end.
Ltac bits := Z.bitblast; kill_neg; try btauto.

(** ** What the counter step and the tweak step are specified to do *)

(** The value of a little-endian byte string, and its bytes. *)
Fixpoint le_value (l : list Z) : Z :=
  match l with
  | [] => 0
  | b :: t => b + 256 * le_value t
  end.
Fixpoint le_bytes (n : nat) (v : Z) : list Z :=
  match n with
  | O => []
  | S m => v mod 256 :: le_bytes m (v / 256)
  end.

(** Adding one to the counter held in the [Countersize]-bit window: the last
    [Countersize / 8] bytes, most significant first, when big-endian; the
    first [Countersize / 8] bytes, least significant first, otherwise. *)
Definition counter_plus_one (Countersize : Z) (Bigendian : bool) (NC : list Z) : list Z :=
  let n := Z.to_nat (Countersize / 8) in
  if Bigendian then
    let keep := (length NC - n)%nat in
    firstn keep NC
    ++ rev (le_bytes n ((le_value (rev (skipn keep NC)) + 1) mod 2 ^ Countersize))
  else
    le_bytes n ((le_value (firstn n NC) + 1) mod 2 ^ Countersize) ++ skipn n NC.

(** Multiplication by alpha on sixteen bytes, byte 0 the low-order byte:
    every byte shifted left by one, the carry out of byte [i] entering byte
    [i + 1], and 0x87 added into byte 0 when the top bit is shifted out. *)
Fixpoint shift_bytes (carry : Z) (l : list Z) : list Z :=
  match l with
  | [] => []
  | b :: t => (2 * b) mod 256 + carry :: shift_bytes (b / 128) t
  end.
Definition mul_alpha (l : list Z) : list Z :=
  match shift_bytes 0 l with
  | [] => []
  | b0 :: t => Z.lxor b0 (if 128 <=? last l 0 then 0x87 else 0) :: t
  end.

(** ** Block by block, without a buffer

    What the loops of the mode functions compute on an input of [n] whole
    blocks: [f] applied to every block, and the CBC decryption chain. *)
Section Blockwise.
Context `{Path}.

Fixpoint map_blocks (f : Block -> Block) (n : nat) (l : list Z) : list Z :=
  match n with
  | O => []
  | S m => to_bytes (f (of_bytes (firstn 16 l))) ++ map_blocks f m (skipn 16 l)
  end.

Fixpoint cbc_chain (f : Block -> Block) (n : nat) (State : Block) (l : list Z) : list Z :=
  match n with
  | O => []
  | S m => let Block := of_bytes (firstn 16 l) in
           to_bytes (XOR State (f Block)) ++ cbc_chain f m Block (skipn 16 l)
  end.

End Blockwise.

(** ** The padding check the specification describes

    A padded Decrypt that validated the padding would not return on a
    block-aligned ciphertext whose block-wise decryption ends in a byte
    outside 1..16. *)
Definition padding_validated `{Path} (Keysize Rounds : Z) : Prop :=
  forall (Input Key Buffer : list Z),
    Z.land (Modes.size Input) 15 = 0 ->
    Modes.Padded.blocks_ECB Rounds (Keyexpansion Keysize Rounds Key) Input = Some Buffer ->
    ~ (1 <= last Buffer 0 <= 16) ->
    forall out, Modes.Padded.Decrypt_ECB Keysize Rounds Input Key <> Returns out.

(** ** Rounds on bytes

    [Shiftrow] and [INVShiftrow] as permutations of the sixteen bytes of a
    block, and the state of [Encryptblock] after [j] full rounds. *)
Definition shift_perm (l : list Z) : list Z :=
  let b := fun i => nth i l 0 in
  [b 0%nat; b 5%nat; b 10%nat; b 15%nat; b 4%nat; b 9%nat; b 14%nat; b 3%nat;
   b 8%nat; b 13%nat; b 2%nat; b 7%nat; b 12%nat; b 1%nat; b 6%nat; b 11%nat].
Definition unshift_perm (l : list Z) : list Z :=
  let b := fun i => nth i l 0 in
  [b 0%nat; b 13%nat; b 10%nat; b 7%nat; b 4%nat; b 1%nat; b 14%nat; b 11%nat;
   b 8%nat; b 5%nat; b 2%nat; b 15%nat; b 12%nat; b 9%nat; b 6%nat; b 3%nat].


Definition enc_state (K : list Portable.Block_t) (x : Portable.Block_t) (j : nat) :=
  for_ 1 j (fun i Block =>
    Portable.XOR (Portable.MixB (Portable.SubstituteB (Portable.Shiftrow Block)))
                 (Portable.key K i)) (Portable.XOR x (Portable.key K 0)).


Ltac bytes16 l Hl :=
  do 16 (destruct l as [|? l]; [discriminate Hl|]);
  destruct l; [|discriminate Hl];
  repeat match goal with
         | H : Forall _ (_ :: _) |- _ => inversion H; subst; clear H
         end.


Ltac split_block :=
  unfold block; cbn [Portable.e0 Portable.e1 Portable.e2 Portable.e3];
  refine (conj _ (conj _ (conj _ _))).

(** Multiplication in GF(2^8) by shift and add over the eight bits of [b],
    doubling with the code's [Mul2]. *)
Fixpoint gf_mul_loop (n : nat) (a b : Z) : Z :=
  match n with
  | O => 0
  | S m => Z.lxor (if Z.odd b then a else 0)
                  (gf_mul_loop m (Portable.Mul2_8 a) (Z.shiftr b 1))
  end.
Definition gf_mul (a b : Z) : Z := gf_mul_loop 8 a b.

(** The multiplicative inverse of [x], found by search. *)
Definition gf_inverse (x : Z) : option Z :=
  find (fun q => gf_mul x q =? 1) bytes_list.
(** A row of a column-mixing matrix applied to the four bytes of a column. *)
Definition dot (c0 c1 c2 c3 s0 s1 s2 s3 : Z) : Z :=
  Z.lxor (Z.lxor (gf_mul s0 c0) (gf_mul s1 c1)) (Z.lxor (gf_mul s2 c2) (gf_mul s3 c3)).
(** The circulant matrix whose first row is [row]: the coefficient of input
    byte [k] in output byte [r]. *)
Definition circulant (row : list Z) (k r : Z) : Z := nth (Z.to_nat ((k - r) mod 4)) row 0.

(** The state of [Decryptblock] after [j] full rounds. *)
Definition dec_state (DK : list Portable.Block_t) (y : Portable.Block_t) (j : nat) :=
  for_ 1 j (fun i Block =>
    Portable.XOR (Portable.INVMixB (Portable.INVSubstituteB (Portable.INVShiftrow Block)))
                 (Portable.key DK i)) (Portable.XOR y (Portable.key DK 0)).

(** The words of a schedule, in order. *)
Definition words_of (S : list Portable.Block_t) : list Z :=
  flat_map (fun B => [Portable.e0 B; Portable.e1 B; Portable.e2 B; Portable.e3 B]) S.

(** ** A caller's loop over the block drivers

    The drivers update [State] by reference; [run] is the loop of a caller
    that passes consecutive blocks and the same state object to a driver,
    and [run_opt] the same loop for a driver that may be undefined. *)
Fixpoint run (step : Portable.Block_t -> Portable.Block_t -> Portable.Block_t * Portable.Block_t)
    (State : Portable.Block_t) (Inputs : list Portable.Block_t)
  : list Portable.Block_t * Portable.Block_t :=
  match Inputs with
  | [] => ([], State)
  | B :: rest =>
      let '(R, State) := step State B in
      let '(Rs, State) := run step State rest in
      (R :: Rs, State)
  end.
Fixpoint run_opt
    (step : Portable.Block_t -> Portable.Block_t -> option (Portable.Block_t * Portable.Block_t))
    (State : Portable.Block_t) (Inputs : list Portable.Block_t)
  : option (list Portable.Block_t * Portable.Block_t) :=
  match Inputs with
  | [] => Some ([], State)
  | B :: rest =>
      r <- step State B ;;
      rs <- run_opt step (snd r) rest ;;
      Some (fst r :: fst rs, snd rs)
  end.

(** ** Streams of blocks

    What a loop of a mode function computes on [n] whole blocks when every
    trip maps the state and the block read to a block written and a new
    state, or is undefined. *)
Section Streams.
Context `{Path}.

Fixpoint stream (step : Block -> Block -> option (Block * Block)) (n : nat)
    (State : Block) (l : list Z) : option (list Z * Block) :=
  match n with
  | O => Some ([], State)
  | S m =>
      r <- step State (of_bytes (firstn 16 l)) ;;
      rest <- stream step m (snd r) (skipn 16 l) ;;
      Some (to_bytes (fst r) ++ fst rest, snd rest)
  end.

(** Block [k] of a byte string. *)
Definition nth_block (k : nat) (l : list Z) : list Z := firstn 16 (skipn (16 * k) l).

End Streams.

(** The carry that the counter step adds to a byte: one when the byte that
    was handled just before it is zero at that moment. *)
Definition carry_of (v : Z) : Z := if v =? 0 then 1 else 0.

(** The counter step byte by byte: byte [j] of the result [R] from the
    bytes of the counter [A] and the neighbour of [j] in [R]; [n] is
    [Countersize / 8]. *)
Definition stepped (Bigendian : bool) (n : Z) (A R : list Z) (j : Z) : Z :=
  if Bigendian then
    if j =? 15 then wrap8 (tab A 15 + 1)
    else if (15 - n <=? j) && (j <=? 14) then wrap8 (tab A j + carry_of (tab R (j + 1)))
    else tab A j
  else
    if j =? 0 then wrap8 (tab A 0 + 1)
    else if (1 <=? j) && (j <=? n) then wrap8 (tab A j + carry_of (tab R (j - 1)))
    else tab A j.

(** * Utilities/Constexpr and Crypto/SHA.hpp *)

(** ** cmp: memory and endianness helpers (Constexpr/Memory.hpp, Endian.hpp, Array.hpp)

    An array of elements of [w] bytes is the list of its elements' values;
    the object representation of an element is its [w] bytes, low-order
    byte first.  A pointer is given by the part of the array that starts at
    it, and a call returns that part as the call leaves it.  [None] stands
    for an access outside the array. *)
Module cmp.

(** The object representation of an array, and the array that a
    representation holds. *)
Definition bytes_of (w : nat) (l : list Z) : list Z := flat_map (le_bytes w) l.
Fixpoint elements_of (w n : nat) (bytes : list Z) : list Z :=
  match n with
  | O => []
  | S m => le_value (firstn w bytes) :: elements_of w m (skipn w bytes)
  end.

(** [std::byteswap] on an integer of [w] bytes; [toBig] and [fromBig] on a
    little-endian host, where [toLittle] and [fromLittle] return their
    argument. *)
Definition byteswap (w : nat) (Value : Z) : Z := le_value (rev (le_bytes w Value)).
Definition toBig (w : nat) (Value : Z) : Z := byteswap w Value.
Definition fromBig (w : nat) (Value : Z) : Z := byteswap w Value.
Definition toLittle (w : nat) (Value : Z) : Z := Value.
Definition fromLittle (w : nat) (Value : Z) : Z := Value.

(** [std::memcpy(Dst, Src, Sizebytes)], the run-time branch of
    [cmp::memcpy]. *)
Definition std_memcpy (wT wU : nat) (Dst Src : list Z) (Sizebytes : Z) : option (list Z) :=
  let n := Z.to_nat Sizebytes in
  if ((n <=? length (bytes_of wU Src)) && (n <=? length (bytes_of wT Dst)))%nat
  then Some (elements_of wT (length Dst)
               (firstn n (bytes_of wU Src) ++ skipn n (bytes_of wT Dst)))
  else None.

(** The constant-evaluated branch for [sizeof(T) == sizeof(U)]:
    one element is copied and [Sizebytes -= sizeof(T)] is taken on a [size_t]
    for as long as [Sizebytes] is not zero. *)
Fixpoint copy_elements (w : Z) (Dst Src : list Z) (Sizebytes : Z) {struct Src}
  : option (list Z) :=
  if Sizebytes =? 0 then Some Dst else
  match Dst, Src with
  | _ :: Dst', s :: Src' =>
      r <- copy_elements w Dst' Src' (wrap64 (Sizebytes - w)) ;; Some (s :: r)
  | _, _ => None
  end.

(** The branch for [sizeof(T) == 1]: the bytes of [*Src] are taken first,
    then [Step] of them are stored. *)
Fixpoint copy_to_bytes (wU : nat) (Dst Src : list Z) (Sizebytes : Z) {struct Src}
  : option (list Z) :=
  match Src with
  | [] => None
  | s :: Src' =>
      let Temp := le_bytes wU s in
      let Step := Z.min (Z.of_nat wU) Sizebytes in
      if Z.of_nat (length Dst) <? Step then None else
      let written := firstn (Z.to_nat Step) Temp in
      let Dst' := skipn (Z.to_nat Step) Dst in
      if Sizebytes - Step =? 0 then Some (written ++ Dst')
      else r <- copy_to_bytes wU Dst' Src' (Sizebytes - Step) ;; Some (written ++ r)
  end.

(** The branch for [sizeof(U) == 1]: [Step] bytes are gathered in a
    zero-initialised [Temp], and [Temp] is assigned to the whole of
    [*Dst]. *)
Fixpoint copy_from_bytes (wT : nat) (Dst Src : list Z) (Sizebytes : Z) {struct Dst}
  : option (list Z) :=
  match Dst with
  | [] => None
  | _ :: Dst' =>
      let Step := Z.min (Z.of_nat wT) Sizebytes in
      if Z.of_nat (length Src) <? Step then None else
      let Temp := firstn (Z.to_nat Step) Src ++ repeat 0 (wT - Z.to_nat Step) in
      if Sizebytes - Step =? 0 then Some (le_value Temp :: Dst')
      else r <- copy_from_bytes wT Dst' (skipn (Z.to_nat Step) Src) (Sizebytes - Step) ;;
           Some (le_value Temp :: r)
  end.

(** [cmp::memcpy(T *Dst, const U *Src, size_t Sizebytes)] for element sizes
    [wT] and [wU]; with two different sizes above 1 the call does not
    compile. *)
Definition memcpy (constant_evaluated : bool) (wT wU : nat) (Dst Src : list Z)
    (Sizebytes : Z) : option (list Z) :=
  if negb constant_evaluated then std_memcpy wT wU Dst Src Sizebytes
  else if (wT =? wU)%nat then copy_elements (Z.of_nat wT) Dst Src Sizebytes
  else if (wT =? 1)%nat then copy_to_bytes wU Dst Src Sizebytes
  else if (wU =? 1)%nat then copy_from_bytes wT Dst Src Sizebytes
  else None.

(** [cmp::memcpy(T *Dst, const U &Src)] *)
Definition memcpy_value (constant_evaluated : bool) (wT wU : nat) (Dst : list Z) (Src : Z)
  : option (list Z) :=
  if (wT =? wU)%nat then store Dst 0 Src
  else if ((wT =? 1) || (wU =? 1))%nat
  then memcpy constant_evaluated wT wU Dst [Src] (Z.of_nat (if (wT <=? wU)%nat then wU else wT))
  else
    match Dst with
    | [] => None
    | d :: Dst' =>
        let A := le_bytes wU Src in
        let B := le_bytes wT d in
        let Min := if (wU <=? wT)%nat then wU else wT in
        Some (le_value (firstn Min A ++ skipn Min B) :: Dst')
    end.

(** [resizeArray<Newsize>]: the first [min(Oldsize, Newsize)] elements,
    then value-initialised ones; [stripNullchar] of a string literal. *)
Definition resizeArray (Newsize : nat) (Input : list Z) : list Z :=
  firstn (Nat.min (length Input) Newsize) Input
  ++ repeat 0 (Newsize - Nat.min (length Input) Newsize).
Definition stripNullchar (Input : list Z) : list Z := resizeArray (length Input - 1) Input.

(** [getBytes] of an array of byte-sized elements: [uint8_t(Input[Index])...]. *)
Definition getBytes (Value : list Z) : list Z := map wrap8 Value.

End cmp.

(** ** Hash (Crypto/SHA.hpp) *)

Definition rotr64 (x k : Z) : Z :=
  Z.lor (Z.shiftr (wrap64 x) k) (wrap64 (Z.shiftl x (64 - k))).

(** [Input.subspan(Offset, Count)] and [Input.subspan(Offset)] of a
    [std::span]. *)
Definition subspan (Input : list Z) (Offset Count : Z) : option (list Z) :=
  if (0 <=? Offset) && (0 <=? Count) && (Offset + Count <=? Z.of_nat (length Input))
  then Some (firstn (Z.to_nat Count) (skipn (Z.to_nat Offset) Input))
  else None.
Definition subspan_from (Input : list Z) (Offset : Z) : option (list Z) :=
  if (0 <=? Offset) && (Offset <=? Z.of_nat (length Input))
  then Some (skipn (Z.to_nat Offset) Input)
  else None.

Module Hash.

(** The tables, row by row as the source lays them out. *)
Module SHAData.
Definition kSHA256 : list Z :=
  [0x428a2f98; 0x71374491; 0xb5c0fbcf; 0xe9b5dba5; 0x3956c25b; 0x59f111f1; 0x923f82a4; 0xab1c5ed5] ++
  [0xd807aa98; 0x12835b01; 0x243185be; 0x550c7dc3; 0x72be5d74; 0x80deb1fe; 0x9bdc06a7; 0xc19bf174] ++
  [0xe49b69c1; 0xefbe4786; 0x0fc19dc6; 0x240ca1cc; 0x2de92c6f; 0x4a7484aa; 0x5cb0a9dc; 0x76f988da] ++
  [0x983e5152; 0xa831c66d; 0xb00327c8; 0xbf597fc7; 0xc6e00bf3; 0xd5a79147; 0x06ca6351; 0x14292967] ++
  [0x27b70a85; 0x2e1b2138; 0x4d2c6dfc; 0x53380d13; 0x650a7354; 0x766a0abb; 0x81c2c92e; 0x92722c85] ++
  [0xa2bfe8a1; 0xa81a664b; 0xc24b8b70; 0xc76c51a3; 0xd192e819; 0xd6990624; 0xf40e3585; 0x106aa070] ++
  [0x19a4c116; 0x1e376c08; 0x2748774c; 0x34b0bcb5; 0x391c0cb3; 0x4ed8aa4a; 0x5b9cca4f; 0x682e6ff3] ++
  [0x748f82ee; 0x78a5636f; 0x84c87814; 0x8cc70208; 0x90befffa; 0xa4506ceb; 0xbef9a3f7; 0xc67178f2].
Definition kSHA512 : list Z :=
  [0x428a2f98d728ae22; 0x7137449123ef65cd; 0xb5c0fbcfec4d3b2f; 0xe9b5dba58189dbbc] ++
  [0x3956c25bf348b538; 0x59f111f1b605d019; 0x923f82a4af194f9b; 0xab1c5ed5da6d8118] ++
  [0xd807aa98a3030242; 0x12835b0145706fbe; 0x243185be4ee4b28c; 0x550c7dc3d5ffb4e2] ++
  [0x72be5d74f27b896f; 0x80deb1fe3b1696b1; 0x9bdc06a725c71235; 0xc19bf174cf692694] ++
  [0xe49b69c19ef14ad2; 0xefbe4786384f25e3; 0x0fc19dc68b8cd5b5; 0x240ca1cc77ac9c65] ++
  [0x2de92c6f592b0275; 0x4a7484aa6ea6e483; 0x5cb0a9dcbd41fbd4; 0x76f988da831153b5] ++
  [0x983e5152ee66dfab; 0xa831c66d2db43210; 0xb00327c898fb213f; 0xbf597fc7beef0ee4] ++
  [0xc6e00bf33da88fc2; 0xd5a79147930aa725; 0x06ca6351e003826f; 0x142929670a0e6e70] ++
  [0x27b70a8546d22ffc; 0x2e1b21385c26c926; 0x4d2c6dfc5ac42aed; 0x53380d139d95b3df] ++
  [0x650a73548baf63de; 0x766a0abb3c77b2a8; 0x81c2c92e47edaee6; 0x92722c851482353b] ++
  [0xa2bfe8a14cf10364; 0xa81a664bbc423001; 0xc24b8b70d0f89791; 0xc76c51a30654be30] ++
  [0xd192e819d6ef5218; 0xd69906245565a910; 0xf40e35855771202a; 0x106aa07032bbd1b8] ++
  [0x19a4c116b8d2d0c8; 0x1e376c085141ab53; 0x2748774cdf8eeb99; 0x34b0bcb5e19b48a8] ++
  [0x391c0cb3c5c95a63; 0x4ed8aa4ae3418acb; 0x5b9cca4f7763e373; 0x682e6ff3d6b2b8a3] ++
  [0x748f82ee5defb2fc; 0x78a5636f43172f60; 0x84c87814a1f0ab72; 0x8cc702081a6439ec] ++
  [0x90befffa23631e28; 0xa4506cebde82bde9; 0xbef9a3f7b2c67915; 0xc67178f2e372532b] ++
  [0xca273eceea26619c; 0xd186b8c721c0c207; 0xeada7dd6cde0eb1e; 0xf57d4f7fee6ed178] ++
  [0x06f067aa72176fba; 0x0a637dc5a2c898a6; 0x113f9804bef90dae; 0x1b710b35131c471b] ++
  [0x28db77f523047d84; 0x32caab7b40c72493; 0x3c9ebe0a15c9bebc; 0x431d67c49c100d4c] ++
  [0x4cc5d4becb3e42b6; 0x597f299cfc657e2a; 0x5fcb6fab3ad6faec; 0x6c44198c4a475817].

Definition sSHA256 : list Z :=
  [
    0x6a09e667; 0xbb67ae85; 0x3c6ef372; 0xa54ff53a; 0x510e527f; 0x9b05688c; 0x1f83d9ab; 0x5be0cd19
  ].
Definition sSHA512 : list Z :=
  [
    0x6a09e667f3bcc908; 0xbb67ae8584caa73b; 0x3c6ef372fe94f82b; 0xa54ff53a5f1d36f1;
    0x510e527fade682d1; 0x9b05688c2b3e6c1f; 0x1f83d9abfb41bd6b; 0x5be0cd19137e2179
  ].
End SHAData.

Module Compiletime.
Import SHAData.
Section Compiletime.
Variable constant_evaluated : bool.

(** The loops of the transforms run over constant ranges inside their
    arrays of 8, 64 and 80 elements; they read with [tab] and write with
    [tab_set]. *)
(** The body of the second loop of [Transform256]: one more word of the
    message schedule. *)
Definition expand256 (i : Z) (Scratch : list Z) : list Z :=
  let Sigma0 := Z.lxor (Z.lxor (rotr32 (tab Scratch (i - 15)) 7)
                               (rotr32 (tab Scratch (i - 15)) 18))
                       (Z.shiftr (tab Scratch (i - 15)) 3) in
  let Sigma1 := Z.lxor (Z.lxor (rotr32 (tab Scratch (i - 2)) 17)
                               (rotr32 (tab Scratch (i - 2)) 19))
                       (Z.shiftr (tab Scratch (i - 2)) 10) in
  tab_set Scratch i
    (wrap32 (tab Scratch (i - 16) + Sigma0 + tab Scratch (i - 7) + Sigma1)).

(** The body of the third loop: one round on the eight working variables. *)
Definition round256 (Scratch : list Z) (i : Z) (Copy : list Z) : list Z :=
  let Sigma0 := Z.lxor (Z.lxor (rotr32 (tab Copy 0) 2) (rotr32 (tab Copy 0) 13))
                       (rotr32 (tab Copy 0) 22) in
  let Sigma1 := Z.lxor (Z.lxor (rotr32 (tab Copy 4) 6) (rotr32 (tab Copy 4) 11))
                       (rotr32 (tab Copy 4) 25) in
  let Maj := Z.lxor (Z.lxor (Z.land (tab Copy 0) (tab Copy 1))
                            (Z.land (tab Copy 0) (tab Copy 2)))
                    (Z.land (tab Copy 1) (tab Copy 2)) in
  let Ch := Z.lxor (Z.land (tab Copy 4) (tab Copy 5))
                   (Z.land (wrap32 (Z.lnot (tab Copy 4))) (tab Copy 6)) in
  let t1 := wrap32 (tab Copy 7 + Sigma1 + Ch + tab kSHA256 i + tab Scratch i) in
  let t2 := wrap32 (Sigma0 + Maj) in
  let Copy := tab_set Copy 7 (tab Copy 6) in
  let Copy := tab_set Copy 6 (tab Copy 5) in
  let Copy := tab_set Copy 5 (tab Copy 4) in
  let Copy := tab_set Copy 4 (wrap32 (tab Copy 3 + t1)) in
  let Copy := tab_set Copy 3 (tab Copy 2) in
  let Copy := tab_set Copy 2 (tab Copy 1) in
  let Copy := tab_set Copy 1 (tab Copy 0) in
  tab_set Copy 0 (wrap32 (t1 + t2)).

Definition Transform256 (State : list Z) (Input : list Z) : option (list Z) :=
  let Copy := State in
  let Scratch := repeat 0 64 in
  (* Can't just cast in constexpr. *)
  Scratch <- cmp.memcpy constant_evaluated 4 1 Scratch Input (16 * 4) ;;
  let Scratch := for_ 0 16 (fun i Scratch =>
      tab_set Scratch i (cmp.toBig 4 (tab Scratch i))) Scratch in
  let Scratch := for_ 16 48 expand256 Scratch in
  let Copy := for_ 0 64 (round256 Scratch) Copy in
  Some (for_ 0 8 (fun i State => tab_set State i (wrap32 (tab State i + tab Copy i))) State).

(** The body of the second loop of [Transform512]: one more word of the
    message schedule. *)
Definition expand512 (i : Z) (Scratch : list Z) : list Z :=
  let Sigma0 := Z.lxor (Z.lxor (rotr64 (tab Scratch (i - 15)) 1)
                               (rotr64 (tab Scratch (i - 15)) 8))
                       (Z.shiftr (tab Scratch (i - 15)) 7) in
  let Sigma1 := Z.lxor (Z.lxor (rotr64 (tab Scratch (i - 2)) 19)
                               (rotr64 (tab Scratch (i - 2)) 61))
                       (Z.shiftr (tab Scratch (i - 2)) 6) in
  tab_set Scratch i
    (wrap64 (tab Scratch (i - 16) + Sigma0 + tab Scratch (i - 7) + Sigma1)).

(** The body of the third loop: one round on the eight working variables. *)
Definition round512 (Scratch : list Z) (i : Z) (Copy : list Z) : list Z :=
  let Sigma0 := Z.lxor (Z.lxor (rotr64 (tab Copy 0) 28) (rotr64 (tab Copy 0) 34))
                       (rotr64 (tab Copy 0) 39) in
  let Sigma1 := Z.lxor (Z.lxor (rotr64 (tab Copy 4) 14) (rotr64 (tab Copy 4) 18))
                       (rotr64 (tab Copy 4) 41) in
  let Maj := Z.lxor (Z.lxor (Z.land (tab Copy 0) (tab Copy 1))
                            (Z.land (tab Copy 0) (tab Copy 2)))
                    (Z.land (tab Copy 1) (tab Copy 2)) in
  let Ch := Z.lxor (Z.land (tab Copy 4) (tab Copy 5))
                   (Z.land (wrap64 (Z.lnot (tab Copy 4))) (tab Copy 6)) in
  let t1 := wrap64 (tab Copy 7 + Sigma1 + Ch + tab kSHA512 i + tab Scratch i) in
  let t2 := wrap64 (Sigma0 + Maj) in
  let Copy := tab_set Copy 7 (tab Copy 6) in
  let Copy := tab_set Copy 6 (tab Copy 5) in
  let Copy := tab_set Copy 5 (tab Copy 4) in
  let Copy := tab_set Copy 4 (wrap64 (tab Copy 3 + t1)) in
  let Copy := tab_set Copy 3 (tab Copy 2) in
  let Copy := tab_set Copy 2 (tab Copy 1) in
  let Copy := tab_set Copy 1 (tab Copy 0) in
  tab_set Copy 0 (wrap64 (t1 + t2)).

Definition Transform512 (State : list Z) (Input : list Z) : option (list Z) :=
  let Copy := State in
  let Scratch := repeat 0 80 in
  (* Can't just cast in constexpr. *)
  Scratch <- cmp.memcpy constant_evaluated 8 1 Scratch Input (16 * 8) ;;
  let Scratch := for_ 0 16 (fun i Scratch =>
      tab_set Scratch i (cmp.toBig 8 (tab Scratch i))) Scratch in
  let Scratch := for_ 16 64 expand512 Scratch in
  let Copy := for_ 0 80 (round512 Scratch) Copy in
  Some (for_ 0 8 (fun i State => tab_set State i (wrap64 (tab State i + tab Copy i))) State).

Definition SHA256 (Input : list Z) : option (list Z) :=
  let State := sSHA256 in
  let Remaining := Z.land (Modes.size Input) 63 in
  let Count := Modes.size Input / 64 in
  State <- for_opt 0 (Z.to_nat Count) (fun i State =>
      Block <- subspan Input (i * 64) 64 ;;
      Transform256 State Block) State ;;
  let Lastblock := repeat 0 64 in
  Span <- subspan_from Input (Modes.size Input - Remaining) ;;
  Lastblock <- cmp.memcpy constant_evaluated 1 1 Lastblock Span (Modes.size Span) ;;
  Lastblock <- store Lastblock Remaining 0x80 ;;
  r <- (if 56 <=? Remaining
        then State <- Transform256 State Lastblock ;; Some (State, repeat 0 64)
        else Some (State, Lastblock)) ;;
  let '(State, Lastblock) := r in
  tail <- cmp.memcpy_value constant_evaluated 1 8 (skipn 56 Lastblock)
            (cmp.toBig 8 (wrap64 (Z.shiftl (Modes.size Input) 3))) ;;
  let Lastblock := firstn 56 Lastblock ++ tail in
  State <- Transform256 State Lastblock ;;
  let State := for_ 0 8 (fun i State => tab_set State i (cmp.toBig 4 (tab State i))) State in
  Some (cmp.bytes_of 4 State).

Definition SHA512 (Input : list Z) : option (list Z) :=
  let State := sSHA512 in
  let Remaining := Z.land (Modes.size Input) 127 in
  let Count := Modes.size Input / 128 in
  State <- for_opt 0 (Z.to_nat Count) (fun i State =>
      Block <- subspan Input (i * 128) 128 ;;
      Transform512 State Block) State ;;
  let Lastblock := repeat 0 128 in
  Span <- subspan_from Input (Modes.size Input - Remaining) ;;
  Lastblock <- cmp.memcpy constant_evaluated 1 1 Lastblock Span Remaining ;;
  Lastblock <- store Lastblock Remaining 0x80 ;;
  r <- (if 112 <=? Remaining
        then State <- Transform512 State Lastblock ;; Some (State, repeat 0 128)
        else Some (State, Lastblock)) ;;
  let '(State, Lastblock) := r in
  tail <- cmp.memcpy_value constant_evaluated 1 8 (skipn 120 Lastblock)
            (cmp.toBig 8 (wrap64 (Z.shiftl (Modes.size Input) 3))) ;;
  let Lastblock := firstn 120 Lastblock ++ tail in
  State <- Transform512 State Lastblock ;;
  let State := for_ 0 8 (fun i State => tab_set State i (cmp.toBig 8 (tab State i))) State in
  Some (cmp.bytes_of 8 State).

End Compiletime.
End Compiletime.

(** String literals: [SHA256(cmp::getBytes(cmp::stripNullchar(Input)))], in
    constant evaluation and, without OpenSSL, at run time. *)
Definition SHA256_literal (constant_evaluated : bool) (Input : list Z) : option (list Z) :=
  Compiletime.SHA256 constant_evaluated (cmp.getBytes (cmp.getBytes (cmp.stripNullchar Input))).
Definition SHA512_literal (constant_evaluated : bool) (Input : list Z) : option (list Z) :=
  Compiletime.SHA512 constant_evaluated (cmp.getBytes (cmp.getBytes (cmp.stripNullchar Input))).

End Hash.

(** ** SHA-256 and SHA-512 after FIPS 180-4

    The standard's own formulation, kept apart from the source: the
    constants from the roots of the primes (sections 4.2.2, 4.2.3, 5.3.3 and
    5.3.5), the padding (5.1), the parsing into big-endian words (5.2), the
    message schedule and the compression (6.2.2, 6.4.2). *)
Module FIPS180.

Definition is_prime (n : Z) : bool :=
  (1 <? n) && forallb (fun d => negb (n mod Z.of_nat d =? 0)) (seq 2 (Z.to_nat n - 2)).
Definition primes (count : nat) : list Z :=
  firstn count (filter is_prime (map Z.of_nat (seq 2 408))).

(** The largest [r] below [2 ^ bits] with [r ^ k <= n], bit by bit. *)
Fixpoint root_bits (k n : Z) (bits : nat) (r : Z) : Z :=
  match bits with
  | O => r
  | S b =>
      let r' := r + 2 ^ Z.of_nat b in
      root_bits k n b (if r' ^ k <=? n then r' else r)
  end.
(** The first [w] bits of the fractional part of the [k]-th root of [p]. *)
Definition frac_root (k w p : Z) : Z :=
  root_bits k (p * 2 ^ (k * w)) (Z.to_nat (w + 8)) 0 mod 2 ^ w.

Definition be_value (l : list Z) : Z := fold_left (fun v b => 256 * v + b) l 0.
Definition be_bytes (n : nat) (v : Z) : list Z := rev (le_bytes n v).

Section SHA2.
Variable w : Z.                       (* bits of a word *)
Variable wb : nat.                    (* bytes of a word *)
Variable lb : nat.                    (* bytes of the length field *)
Variable rounds : nat.
Variables K H0 : list Z.
Variables Sigma0 Sigma1 sigma0 sigma1 : Z -> Z.

Definition add (x y : Z) : Z := (x + y) mod 2 ^ w.
Definition Ch (x y z : Z) : Z := Z.lxor (Z.land x y) (Z.land (Z.lnot x) z).
Definition Maj (x y z : Z) : Z :=
  Z.lxor (Z.lxor (Z.land x y) (Z.land x z)) (Z.land y z).

(** 5.1: the bit 1, then the least number of zero bits that brings the
    length to the block size less the length field, then the length in
    bits. *)
Definition block_bytes : nat := 16 * wb.
Definition pad (M : list Z) : list Z :=
  let k := (Z.of_nat block_bytes - Z.of_nat lb - 1 - Z.of_nat (length M))
           mod Z.of_nat block_bytes in
  M ++ [0x80] ++ repeat 0 (Z.to_nat k) ++ be_bytes lb (8 * Z.of_nat (length M)).

(** 5.2: blocks of sixteen big-endian words. *)
Definition blocks (P : list Z) : list (list Z) :=
  map (fun i => firstn block_bytes (skipn (block_bytes * i) P))
      (seq 0 (length P / block_bytes)).
Definition words (block : list Z) : list Z :=
  map (fun t => be_value (firstn wb (skipn (wb * t) block))) (seq 0 16).

(** 6.2.2 step 1: the message schedule. *)
Definition next_W (W : list Z) : Z :=
  let t := length W in
  add (add (add (sigma1 (nth (t - 2) W 0)) (nth (t - 7) W 0))
           (sigma0 (nth (t - 15) W 0)))
      (nth (t - 16) W 0).
Fixpoint schedule (n : nat) (W : list Z) : list Z :=
  match n with
  | O => W
  | S m => schedule m (W ++ [next_W W])
  end.

(** 6.2.2 steps 2 to 4. *)
Definition round (v : list Z) (Kt Wt : Z) : list Z :=
  match v with
  | [a; b; c; d; e; f; g; h] =>
      let T1 := add (add (add (add h (Sigma1 e)) (Ch e f g)) Kt) Wt in
      let T2 := add (Sigma0 a) (Maj a b c) in
      [add T1 T2; a; b; c; add d T1; e; f; g]
  | _ => v
  end.
Fixpoint add_words (H v : list Z) : list Z :=
  match H, v with
  | x :: H', y :: v' => add x y :: add_words H' v'
  | _, _ => []
  end.
Definition compress (H : list Z) (block : list Z) : list Z :=
  let W := schedule (rounds - 16) (words block) in
  let v := fold_left (fun v t => round v (nth t K 0) (nth t W 0)) (seq 0 rounds) H in
  add_words H v.

Definition digest (M : list Z) : list Z :=
  flat_map (be_bytes wb) (fold_left compress (blocks (pad M)) H0).

End SHA2.

Definition ROTR32 (n x : Z) : Z := rotr32 x n.
Definition ROTR64 (n x : Z) : Z := rotr64 x n.
Definition SHR (n x : Z) : Z := Z.shiftr x n.

Definition K256 : list Z := map (frac_root 3 32) (primes 64).
Definition H256 : list Z := map (frac_root 2 32) (primes 8).
Definition K512 : list Z := map (frac_root 3 64) (primes 80).
Definition H512 : list Z := map (frac_root 2 64) (primes 8).

(** 4.1.2 and 4.1.3: the functions of SHA-256 and of SHA-512. *)
Definition Sigma0_256 (x : Z) : Z := Z.lxor (Z.lxor (ROTR32 2 x) (ROTR32 13 x)) (ROTR32 22 x).
Definition Sigma1_256 (x : Z) : Z := Z.lxor (Z.lxor (ROTR32 6 x) (ROTR32 11 x)) (ROTR32 25 x).
Definition sigma0_256 (x : Z) : Z := Z.lxor (Z.lxor (ROTR32 7 x) (ROTR32 18 x)) (SHR 3 x).
Definition sigma1_256 (x : Z) : Z := Z.lxor (Z.lxor (ROTR32 17 x) (ROTR32 19 x)) (SHR 10 x).
Definition Sigma0_512 (x : Z) : Z := Z.lxor (Z.lxor (ROTR64 28 x) (ROTR64 34 x)) (ROTR64 39 x).
Definition Sigma1_512 (x : Z) : Z := Z.lxor (Z.lxor (ROTR64 14 x) (ROTR64 18 x)) (ROTR64 41 x).
Definition sigma0_512 (x : Z) : Z := Z.lxor (Z.lxor (ROTR64 1 x) (ROTR64 8 x)) (SHR 7 x).
Definition sigma1_512 (x : Z) : Z := Z.lxor (Z.lxor (ROTR64 19 x) (ROTR64 61 x)) (SHR 6 x).

Definition SHA256 : list Z -> list Z :=
  digest 32 4 8 64 K256 H256 Sigma0_256 Sigma1_256 sigma0_256 sigma1_256.
Definition SHA512 : list Z -> list Z :=
  digest 64 8 16 80 K512 H512 Sigma0_512 Sigma1_512 sigma0_512 sigma1_512.

End FIPS180.

(** The working variables of a transform: a list of eight words. *)
Definition eight (P : Z -> Prop) (v : list Z) : Prop :=
  exists a b c d e f g h, v = [a; b; c; d; e; f; g; h] /\
    P a /\ P b /\ P c /\ P d /\ P e /\ P f /\ P g /\ P h.
Definition word64 (w : Z) : Prop := 0 <= w < 2 ^ 64.

(** The values that an element of [w] bytes holds. *)
Definition element (w : nat) (v : Z) : Prop := 0 <= v < 256 ^ Z.of_nat w.

(** ** String: hexadecimal output ([String::toHex], [String::toHEX])

    A [std::string] is the list of its characters; [Output += c] appends
    at the end. *)
Module Strings.
Import Ascii String.

Definition Mapping_lower : list ascii :=
  ["0"; "1"; "2"; "3"; "4"; "5"; "6"; "7"; "8"; "9"; "a"; "b"; "c"; "d"; "e"; "f"]%char.
Definition Mapping_upper : list ascii :=
  ["0"; "1"; "2"; "3"; "4"; "5"; "6"; "7"; "8"; "9"; "A"; "B"; "C"; "D"; "E"; "F"]%char.

Definition push_back (Output : list ascii) (c : ascii) : list ascii := Output ++ [c].

(** [Output.back()] and [Output.pop_back()]: undefined on an empty string. *)
Definition back (Output : list ascii) : option ascii :=
  match Output with
  | [] => None
  | _ => Some (last Output " "%char)
  end.
Definition pop_back (Output : list ascii) : option (list ascii) :=
  match Output with
  | [] => None
  | _ => Some (removelast Output)
  end.

(** [while (Output.back() == ' ') Output.pop_back();] *)
Fixpoint strip (fuel : nat) (Output : list ascii) : option (list ascii) :=
  match fuel with
  | O => None
  | S fuel =>
      c <- back Output ;;
      if Ascii.eqb c " "%char
      then Output <- pop_back Output ;; strip fuel Output
      else Some Output
  end.

(** The two characters of a byte, and the space after them. *)
Definition put_byte (Mapping : list ascii) (Spaced : bool) (Output : list ascii) (Byte : Z)
  : list ascii :=
  let Output := push_back Output
      (nth (Z.to_nat (Z.shiftr (Z.land (wrap8 Byte) 0xF0) 4)) Mapping " "%char) in
  let Output := push_back Output
      (nth (Z.to_nat (Z.land (wrap8 Byte) 0x0F)) Mapping " "%char) in
  if Spaced then push_back Output " "%char else Output.

(** The body that every overload of [toHex] and [toHEX] repeats, on
    elements of [w] bytes ([std::bit_cast] to a byte array gives the bytes
    in memory order; for [w = 1] the item itself). *)
Definition hex (Mapping : list ascii) (w : nat) (Input : list Z) (Spaced : bool)
  : option (list ascii) :=
  let Output := fold_left (fun Output Item =>
      fold_left (put_byte Mapping Spaced) (le_bytes w Item) Output) Input [] in
  strip (S (List.length Output)) Output.
Definition toHex : nat -> list Z -> bool -> option (list ascii) := hex Mapping_lower.
Definition toHEX : nat -> list Z -> bool -> option (list ascii) := hex Mapping_upper.

(** The unit tests of Crypto/SHA.hpp. *)
Definition literal_12345 : list Z := [49; 50; 51; 52; 53; 0].
Definition SHA256_12345 : list ascii := String.list_ascii_of_string
  "5994471abb01112afcc18159f6cc74b4f511b99806da59b3caf5a9c173cacfc5"%string.
Definition SHA512_12345 : list ascii := String.list_ascii_of_string
  "3627909a29c31381a071ec27f7c9ca97726182aed29a7ddd2e54353322cfb30abb9e3a6df2ac2c20fe23436311d678564d0c8d305930575f60e2d3d048184d79"%string.
Definition unit_tests (constant_evaluated : bool) : bool :=
  match Hash.SHA256_literal constant_evaluated literal_12345,
        Hash.SHA512_literal constant_evaluated literal_12345 with
  | Some D256, Some D512 =>
      match toHex 1 D256 false, toHex 1 D512 false with
      | Some S256, Some S512 =>
          (if list_eq_dec ascii_dec S256 SHA256_12345 then true else false)
          && (if list_eq_dec ascii_dec S512 SHA512_12345 then true else false)
      | _, _ => false
      end
  | _, _ => false
  end.

End Strings.


(** * Properties *)

(** ** Checking a finite range by evaluation *)

Lemma Forall_by_eval {A} (P : A -> Prop) (p : A -> bool) (l : list A) :
  (forall x, p x = true -> P x) -> forallb p l = true -> Forall P l.
Proof.
  intros Hp Hl. apply Forall_forall. intros x Hx.
  apply Hp. rewrite forallb_forall in Hl. now apply Hl.
Qed.

Lemma byte_in_list (b : Z) : 0 <= b < 256 -> In b bytes_list.
Proof.
  intros Hb. unfold bytes_list.
  replace b with (Z.of_nat (Z.to_nat b)) by lia.
  apply in_map, in_seq. lia.
Qed.

Lemma all_bytes (p : Z -> bool) :
  forallb p bytes_list = true -> forall b, 0 <= b < 256 -> p b = true.
Proof.
  intros Hp b Hb. rewrite forallb_forall in Hp. apply Hp, byte_in_list, Hb.
Qed.

(** ** The substitution box generator (C8) *)

Lemma SBox_loop_more_fuel (fuel extra : nat) (P Q : Z) (Buffer r : list Z) :
  Portable.SBox_loop fuel P Q Buffer = Some r ->
  Portable.SBox_loop (fuel + extra) P Q Buffer = Some r.
Proof.
  revert P Q Buffer. induction fuel as [|f IH]; intros P Q Buffer; cbn [Portable.SBox_loop Nat.add].
  - discriminate.
  - destruct (Portable.Mul3_8 P =? 1); [trivial | apply IH].
Qed.

Lemma SBox_gen_255 : Portable.SBox_gen 255 = Some Portable.SBox.
Proof. vm_compute. reflexivity. Qed.

Lemma SBox_gen_enough (extra : nat) : Portable.SBox_gen (255 + extra) = Some Portable.SBox.
Proof.
  pose proof SBox_gen_255 as H. unfold Portable.SBox_gen in *.
  destruct (Portable.SBox_loop 255 1 1 (repeat 0 256)) as [B|] eqn:E; [|discriminate].
  now rewrite (SBox_loop_more_fuel _ extra _ _ _ _ E).
Qed.

Lemma assigned_atb_sound (i : nat) : assigned_atb i = true -> exists k, assigned_at i k.
Proof.
  unfold assigned_atb, assigned_at.
  destruct (find_step 255 0 1 (Z.of_nat i)) as [k|]; [|discriminate].
  intros H. exists k.
  repeat (apply andb_prop in H; destruct H as [H ?]).
  repeat split.
  - now apply Nat.leb_le.
  - now apply Nat.leb_le.
  - now apply Z.eqb_eq.
  - now apply Z.eqb_eq.
Qed.

(** C8: the substitution-box generator terminates and is total.  With 255
    units of fuel or more the do-while loop returns the table, with fewer it
    has not finished, so it runs exactly 255 times; [P] comes back to 1 after
    255 multiplications by 3 and not earlier; every index 1..255 is stored by
    one of the 255 iterations with the affine transform of the matching [Q],
    index 0 holds 0x63; and the inverse table, computed from the forward one,
    inverts it point by point. *)
Theorem C8_SBox_generator_total :
  (forall extra : nat, Portable.SBox_gen (255 + extra) = Some Portable.SBox) /\
  Forall (fun fuel => Portable.SBox_gen fuel = None) (seq 0 255) /\
  Nat.iter 255 Portable.Mul3_8 1 = 1 /\
  Forall (fun k => Nat.iter k Portable.Mul3_8 1 <> 1) (seq 1 254) /\
  Forall (fun i => exists k, assigned_at i k) (seq 1 255) /\
  tab Portable.SBox 0 = 0x63 /\
  length Portable.SBox = 256%nat /\
  Portable.INVSBox = Portable.INVSBox_gen Portable.SBox /\
  length Portable.INVSBox = 256%nat /\
  Forall (fun i => tab Portable.INVSBox (tab Portable.SBox (Z.of_nat i)) = Z.of_nat i)
         (seq 0 256).
Proof.
  split; [exact SBox_gen_enough|].
  split.
  { apply Forall_by_eval with
      (p := fun fuel => match Portable.SBox_gen fuel with None => true | Some _ => false end).
    - intros fuel. destruct (Portable.SBox_gen fuel); [discriminate | reflexivity].
    - vm_compute. reflexivity. }
  split; [vm_compute; reflexivity|].
  split.
  { apply Forall_by_eval with
      (p := fun k => negb (Nat.iter k Portable.Mul3_8 1 =? 1)).
    - intros k Hk Heq. rewrite Heq in Hk. discriminate.
    - vm_compute. reflexivity. }
  split.
  { apply Forall_by_eval with (p := assigned_atb).
    - exact assigned_atb_sound.
    - vm_compute. reflexivity. }
  split; [reflexivity|].
  split; [reflexivity|].
  split; [vm_compute; reflexivity|].
  split; [reflexivity|].
  apply Forall_by_eval with
    (p := fun i => tab Portable.INVSBox (tab Portable.SBox (Z.of_nat i)) =? Z.of_nat i).
  - intros i. apply Z.eqb_eq.
  - vm_compute. reflexivity.
Qed.

(** ** The counter step (C3) *)

(** C3: the counter step of [Encryptblock_CTR] (the same text on both
    paths) is specified to add one inside the counter window and to leave
    the other bytes alone.  Evaluated on the block whose 32-bit big-endian
    counter holds 0xFFFFFFFF it clears the four counter bytes and also
    increments byte 11, outside the window; on the zero block it sets bytes
    11, 13 and 15.  The little-endian and 64-bit variants do the same on
    their side, and with a 128-bit counter the step leaves the array. *)
Theorem C3_counter_step_leaves_the_window :
  Increment 32 true (repeat 0 12 ++ [0xFF; 0xFF; 0xFF; 0xFF])
    = Some (repeat 0 11 ++ [1; 0; 0; 0; 0]) /\
  counter_plus_one 32 true (repeat 0 12 ++ [0xFF; 0xFF; 0xFF; 0xFF]) = repeat 0 16 /\
  Increment 32 true (repeat 0 16) = Some (repeat 0 11 ++ [1; 0; 1; 0; 1]) /\
  counter_plus_one 32 true (repeat 0 16) = repeat 0 15 ++ [1] /\
  Increment 32 false ([0xFF; 0xFF; 0xFF; 0xFF] ++ repeat 0 12)
    = Some ([0; 0; 0; 0; 1] ++ repeat 0 11) /\
  counter_plus_one 32 false ([0xFF; 0xFF; 0xFF; 0xFF] ++ repeat 0 12) = repeat 0 16 /\
  Increment 64 true (repeat 0 8 ++ repeat 0xFF 8) = Some (repeat 0 7 ++ [1] ++ repeat 0 8) /\
  counter_plus_one 64 true (repeat 0 8 ++ repeat 0xFF 8) = repeat 0 16 /\
  Increment 64 false (repeat 0xFF 8 ++ repeat 0 8) = Some (repeat 0 8 ++ [1] ++ repeat 0 7) /\
  counter_plus_one 64 false (repeat 0xFF 8 ++ repeat 0 8) = repeat 0 16 /\
  Increment 128 true (repeat 0 16) = None /\
  Increment 128 false (repeat 0xFF 16) = None /\
  (forall Rounds Input Keys,
     option_map snd
       (Portable.Encryptblock_CTR Rounds 32 true
          (Portable.bytes_block (repeat 0 12 ++ [0xFF; 0xFF; 0xFF; 0xFF])) Input Keys)
     = Some (Portable.bytes_block (repeat 0 11 ++ [1; 0; 0; 0; 0]))).
Proof.
  repeat split; try (vm_compute; reflexivity).
Qed.

(** ** The tweak step (C4) *)

Lemma Portable_Mul128_undefined (Value : Portable.Block_t) : Portable.Mul128 Value = None.
Proof. destruct Value. reflexivity. Qed.

(** ** Known vectors (C5) *)

Lemma known_vectors_128_256 :
  encrypt_vector 4 10 FIPS197.key128 FIPS197.plaintext = FIPS197.ciphertext128 /\
  encrypt_vector 8 14 FIPS197.key256 FIPS197.plaintext = FIPS197.ciphertext256 /\
  Portable.Keyexpansion 4 10 FIPS197.key128 = FIPS197.schedule 4 10 FIPS197.key128 /\
  Portable.Keyexpansion 8 14 FIPS197.key256 = FIPS197.schedule 8 14 FIPS197.key256.
Proof. repeat split; vm_compute; reflexivity. Qed.

(** C5: the known-vector property on the code.  The 192-bit example of
    FIPS-197 (key 000102...17) does not encrypt to the published ciphertext
    dda97ca4...: [Keyexpansion<6, 12>] agrees with the standard on round keys
    0 and 1 only, and the same [Encryptblock] gives the published ciphertext
    under the schedule of the standard. *)
Theorem C5_AES192_vector_fails :
  encrypt_vector 6 12 FIPS197.key192 FIPS197.plaintext
    = [0x27; 0xcd; 0x3b; 0x84; 0x6f; 0x42; 0x89; 0x28;
       0x87; 0x85; 0x42; 0x20; 0xb9; 0x1e; 0xb1; 0xb3] /\
  encrypt_vector 6 12 FIPS197.key192 FIPS197.plaintext <> FIPS197.ciphertext192 /\
  firstn 2 (Portable.Keyexpansion 6 12 FIPS197.key192)
    = firstn 2 (FIPS197.schedule 6 12 FIPS197.key192) /\
  nth 2 (Portable.Keyexpansion 6 12 FIPS197.key192) Portable.zero
    <> nth 2 (FIPS197.schedule 6 12 FIPS197.key192) Portable.zero /\
  Portable.block_bytes
    (Portable.Encryptblock 12 (Portable.bytes_block FIPS197.plaintext)
       (FIPS197.schedule 6 12 FIPS197.key192)) = FIPS197.ciphertext192.
Proof.
  repeat split; try (vm_compute; reflexivity); vm_compute; discriminate.
Qed.

(** ** Words and bytes *)

Lemma wrap8_range (x : Z) : byte (wrap8 x).
Proof.
  unfold byte, wrap8. change 255 with (Z.ones 8). rewrite Z.land_ones by lia.
  apply Z.mod_pos_bound. lia.
Qed.

Lemma wrap8_small (x : Z) : byte x -> wrap8 x = x.
Proof.
  unfold byte, wrap8. intros Hx. change 255 with (Z.ones 8).
  rewrite Z.land_ones by lia. now apply Z.mod_small.
Qed.

Lemma wrap32_range (x : Z) : word (wrap32 x).
Proof.
  unfold word, wrap32. change 4294967295 with (Z.ones 32). rewrite Z.land_ones by lia.
  apply Z.mod_pos_bound. lia.
Qed.

Lemma wrap32_small (x : Z) : word x -> wrap32 x = x.
Proof.
  unfold word, wrap32. intros Hx. change 4294967295 with (Z.ones 32).
  rewrite Z.land_ones by lia. now apply Z.mod_small.
Qed.

Lemma wrap32_word (x : Z) : wrap32 x = x -> word x.
Proof. intros <-. apply wrap32_range. Qed.

Lemma cons_eq {A} (a b : A) (l l' : list A) : a = b -> l = l' -> a :: l = b :: l'.
Proof. congruence. Qed.

Lemma word_bytes_bytes_word_wrap (a b c d : Z) :
  word_bytes (bytes_word (wrap8 a) (wrap8 b) (wrap8 c) (wrap8 d))
  = [wrap8 a; wrap8 b; wrap8 c; wrap8 d].
Proof.
  unfold word_bytes, bytes_word, wrap8. change 255 with (Z.ones 8).
  repeat apply cons_eq; try reflexivity; bits.
Qed.

Lemma word_bytes_bytes_word (a b c d : Z) :
  byte a -> byte b -> byte c -> byte d ->
  word_bytes (bytes_word a b c d) = [a; b; c; d].
Proof.
  intros Ha Hb Hc Hd.
  rewrite <- (wrap8_small a Ha), <- (wrap8_small b Hb),
          <- (wrap8_small c Hc), <- (wrap8_small d Hd).
  apply word_bytes_bytes_word_wrap.
Qed.

Lemma bytes_word_wrap32 (w : Z) :
  bytes_word (wrap8 w) (wrap8 (Z.shiftr w 8)) (wrap8 (Z.shiftr w 16)) (wrap8 (Z.shiftr w 24))
  = wrap32 w.
Proof.
  unfold bytes_word, wrap8, wrap32.
  change 255 with (Z.ones 8). change 4294967295 with (Z.ones 32). bits.
Qed.

Lemma bytes_word_word (a b c d : Z) : word (bytes_word (wrap8 a) (wrap8 b) (wrap8 c) (wrap8 d)).
Proof.
  apply wrap32_word. unfold bytes_word, wrap8, wrap32.
  change 255 with (Z.ones 8). change 4294967295 with (Z.ones 32). bits.
Qed.

Lemma bytes_word_bytes (a b c d : Z) :
  byte a -> byte b -> byte c -> byte d -> word (bytes_word a b c d).
Proof.
  intros Ha Hb Hc Hd.
  rewrite <- (wrap8_small a Ha), <- (wrap8_small b Hb),
          <- (wrap8_small c Hc), <- (wrap8_small d Hd).
  apply bytes_word_word.
Qed.

(** ** Column mixing is linear and [INVMix] inverts [Mix] (C9) *)

Lemma linear_land (m : Z) : linear (fun x => Z.land x m).
Proof. intros a b. bits. Qed.

Lemma linear_shiftl (n : Z) : linear (fun x => Z.shiftl x n).
Proof. intros a b. apply Z.shiftl_lxor. Qed.

Lemma linear_shiftr (n : Z) : linear (fun x => Z.shiftr x n).
Proof. intros a b. apply Z.shiftr_lxor. Qed.

Lemma linear_id : linear (fun x => x).
Proof. intros a b. reflexivity. Qed.

Lemma lxor_swap4 (a b c d : Z) :
  Z.lxor (Z.lxor a b) (Z.lxor c d) = Z.lxor (Z.lxor a c) (Z.lxor b d).
Proof. bits. Qed.

Lemma linear_lxor (f g : Z -> Z) :
  linear f -> linear g -> linear (fun x => Z.lxor (f x) (g x)).
Proof. intros Hf Hg a b. rewrite Hf, Hg. apply lxor_swap4. Qed.

Lemma linear_compose (f g : Z -> Z) :
  linear f -> linear g -> linear (fun x => f (g x)).
Proof. intros Hf Hg a b. now rewrite Hg, Hf. Qed.

Lemma linear_wrap32 : linear wrap32.
Proof. apply linear_land. Qed.

Lemma rotr32_8_linear : linear (fun x => rotr32 x 8).
Proof.
  intros a b. unfold rotr32, wrap32. change 4294967295 with (Z.ones 32).
  change (32 - 8) with 24. bits.
Qed.

Lemma rotr32_16_linear : linear (fun x => rotr32 x 16).
Proof.
  intros a b. unfold rotr32, wrap32. change 4294967295 with (Z.ones 32).
  change (32 - 16) with 16. bits.
Qed.

Lemma land_pow2 (y k : Z) :
  0 <= k -> Z.land y (2 ^ k) = 0 \/ Z.land y (2 ^ k) = 2 ^ k.
Proof.
  intros Hk. destruct (Z.testbit y k) eqn:E; [right | left];
    apply Z.bits_inj'; intros n Hn;
    rewrite Z.land_spec, ?Z.pow2_bits_eqb, ?Z.bits_0 by lia;
    destruct (Z.eqb_spec k n); subst; rewrite ?E; btauto.
Qed.

Lemma masked_in (y : Z) : masked y -> In y masked_values.
Proof.
  unfold masked. intros H. rewrite <- H.
  replace (Z.land y 0x01010101)
    with (Z.lxor (Z.land y (2 ^ 0)) (Z.lxor (Z.land y (2 ^ 8))
            (Z.lxor (Z.land y (2 ^ 16)) (Z.land y (2 ^ 24)))))
    by (change 0x01010101 with (Z.lxor 1 (Z.lxor 0x100 (Z.lxor 0x10000 0x1000000)));
        change (2 ^ 0) with 1; change (2 ^ 8) with 256;
        change (2 ^ 16) with 65536; change (2 ^ 24) with 16777216; bits).
  destruct (land_pow2 y 0) as [-> | ->]; [lia| |];
  destruct (land_pow2 y 8) as [-> | ->]; try lia;
  destruct (land_pow2 y 16) as [-> | ->]; try lia;
  destruct (land_pow2 y 24) as [-> | ->]; try lia;
  vm_compute; tauto.
Qed.

Lemma masked_extract (x m k : Z) :
  Z.shiftr m k = 0x01010101 -> masked (Z.shiftr (Z.land x m) k).
Proof.
  intros Hm. unfold masked. rewrite Z.shiftr_land, Hm, <- Z.land_assoc. reflexivity.
Qed.

Lemma mul_masked_linear (c y y' : Z) :
  mul_linear_on c masked_values = true ->
  masked y -> masked y' -> Z.lxor y y' * c = Z.lxor (y * c) (y' * c).
Proof.
  intros Hc Hy Hy'. unfold mul_linear_on in Hc.
  rewrite forallb_forall in Hc. specialize (Hc y (masked_in y Hy)).
  rewrite forallb_forall in Hc. specialize (Hc y' (masked_in y' Hy')).
  now apply Z.eqb_eq.
Qed.

Lemma linear_mul_extract (c m k : Z) :
  mul_linear_on c masked_values = true -> Z.shiftr m k = 0x01010101 ->
  linear (fun x => Z.shiftr (Z.land x m) k * c).
Proof.
  intros Hc Hm a b.
  rewrite (linear_land m), (linear_shiftr k).
  apply mul_masked_linear; auto using masked_extract.
Qed.

Lemma Mul2_linear : linear Portable.Mul2.
Proof.
  unfold Portable.Mul2.
  apply (linear_compose wrap32); [apply linear_wrap32|].
  apply linear_lxor.
  - apply (linear_compose wrap32); [apply linear_wrap32|].
    apply (linear_compose (fun x => Z.shiftl x 1) (fun x => Z.land x _));
      [apply linear_shiftl | apply linear_land].
  - apply (linear_compose wrap32); [apply linear_wrap32|].
    apply linear_mul_extract; reflexivity.
Qed.

Lemma Mul3_linear : linear Portable.Mul3.
Proof.
  unfold Portable.Mul3.
  apply (linear_compose wrap32); [apply linear_wrap32|].
  apply linear_lxor; [apply linear_lxor|].
  - apply (linear_compose wrap32); [apply linear_wrap32|].
    apply (linear_compose (fun x => Z.shiftl x 2) (fun x => Z.land x _));
      [apply linear_shiftl | apply linear_land].
  - apply (linear_compose wrap32); [apply linear_wrap32|].
    apply linear_mul_extract; reflexivity.
  - apply (linear_compose wrap32); [apply linear_wrap32|].
    apply linear_mul_extract; reflexivity.
Qed.

Lemma Mix_linear : linear Portable.Mix.
Proof.
  unfold Portable.Mix.
  assert (HT : linear (fun w => Z.lxor (Portable.Mul2 w) (rotr32 w 16))).
  { apply linear_lxor; [apply Mul2_linear | apply rotr32_16_linear]. }
  apply (linear_lxor _
           (fun w => rotr32 (Z.lxor w (Z.lxor (Portable.Mul2 w) (rotr32 w 16))) 8)).
  - exact HT.
  - apply (linear_compose (fun x => rotr32 x 8)); [apply rotr32_8_linear|].
    apply linear_lxor; [apply linear_id | exact HT].
Qed.

Lemma INVMix_linear : linear Portable.INVMix.
Proof.
  unfold Portable.INVMix.
  apply (linear_compose Portable.Mix); [apply Mix_linear|].
  apply linear_lxor; [apply linear_lxor|].
  - apply linear_id.
  - apply Mul3_linear.
  - apply (linear_compose (fun x => rotr32 x 16));
      [apply rotr32_16_linear | apply Mul3_linear].
Qed.

Lemma word_lanes (w : Z) :
  wrap32 w = Z.lxor (lane 0 (wrap8 w))
            (Z.lxor (lane 1 (wrap8 (Z.shiftr w 8)))
            (Z.lxor (lane 2 (wrap8 (Z.shiftr w 16))) (lane 3 (wrap8 (Z.shiftr w 24))))).
Proof.
  unfold lane, wrap8, wrap32.
  change 255 with (Z.ones 8). change 4294967295 with (Z.ones 32).
  cbn [Z.mul Pos.mul]. bits.
Qed.

Lemma linear_identity_on_words (f : Z -> Z) :
  linear f -> fixes_lanes f = true -> forall w, word w -> f w = w.
Proof.
  intros Hl Hf w Hw.
  assert (L : forall k b, In k [0; 1; 2; 3] -> f (lane k (wrap8 b)) = lane k (wrap8 b)).
  { intros k b Hk. unfold fixes_lanes in Hf. rewrite forallb_forall in Hf.
    specialize (Hf k Hk). apply Z.eqb_eq.
    exact (all_bytes _ Hf (wrap8 b) (wrap8_range b)). }
  rewrite <- (wrap32_small w Hw) at 2. rewrite <- (wrap32_small w Hw) at 1.
  rewrite word_lanes. rewrite !Hl.
  rewrite !L by (simpl; tauto). reflexivity.
Qed.

Lemma INVMix_Mix (w : Z) : word w -> Portable.INVMix (Portable.Mix w) = w.
Proof.
  intros Hw.
  apply (linear_identity_on_words (fun x => Portable.INVMix (Portable.Mix x)));
    [| | exact Hw].
  - apply (linear_compose Portable.INVMix Portable.Mix);
      [apply INVMix_linear | apply Mix_linear].
  - vm_compute. reflexivity.
Qed.

Lemma Mix_INVMix (w : Z) : word w -> Portable.Mix (Portable.INVMix w) = w.
Proof.
  intros Hw.
  apply (linear_identity_on_words (fun x => Portable.Mix (Portable.INVMix x)));
    [| | exact Hw].
  - apply (linear_compose Portable.Mix Portable.INVMix);
      [apply Mix_linear | apply INVMix_linear].
  - vm_compute. reflexivity.
Qed.

Lemma rotr32_word (x k : Z) : 0 < k < 32 -> word (rotr32 x k).
Proof.
  intros Hk. apply wrap32_word. unfold rotr32, wrap32.
  change 4294967295 with (Z.ones 32). bits.
Qed.

Lemma lxor_word (a b : Z) : word a -> word b -> word (Z.lxor a b).
Proof.
  intros Ha Hb. apply wrap32_word.
  rewrite linear_wrap32, (wrap32_small a Ha), (wrap32_small b Hb). reflexivity.
Qed.

Lemma Mix_word (w : Z) : word (Portable.Mix w).
Proof.
  unfold Portable.Mix. apply lxor_word.
  - apply lxor_word; [apply wrap32_range | apply rotr32_word; lia].
  - apply rotr32_word; lia.
Qed.

Lemma INVMix_word (w : Z) : word (Portable.INVMix w).
Proof. unfold Portable.INVMix. apply Mix_word. Qed.

(** C9: on every 32-bit word [INVMix] undoes [Mix] and [Mix] undoes
    [INVMix]; both keep words 32 bits wide, so they are mutually inverse
    bijections of the words, and the block functions, which apply them to
    the four words of a block, are mutually inverse on every block. *)
Theorem C9_Mix_INVMix_inverse (w : Z) (B : Portable.Block_t) :
  word w -> block B ->
  Portable.INVMix (Portable.Mix w) = w /\
  Portable.Mix (Portable.INVMix w) = w /\
  word (Portable.Mix w) /\ word (Portable.INVMix w) /\
  Portable.INVMixB (Portable.MixB B) = B /\
  Portable.MixB (Portable.INVMixB B) = B /\
  block (Portable.MixB B) /\ block (Portable.INVMixB B).
Proof.
  intros Hw (H0 & H1 & H2 & H3).
  split; [now apply INVMix_Mix|].
  split; [now apply Mix_INVMix|].
  split; [apply Mix_word|].
  split; [apply INVMix_word|].
  destruct B as [a b c d]; cbn [Portable.e0 Portable.e1 Portable.e2 Portable.e3] in *.
  unfold Portable.INVMixB, Portable.MixB, block;
    cbn [Portable.e0 Portable.e1 Portable.e2 Portable.e3].
  split; [now rewrite !INVMix_Mix|].
  split; [now rewrite !Mix_INVMix|].
  split; repeat split; first [apply Mix_word | apply INVMix_word].
Qed.

Lemma C9_witness :
  word 0x12345678 /\ block (Portable.Blk 1 0xFFFFFFFF 0xdeadbeef 0) /\
  Portable.INVMix (Portable.Mix 0x12345678) = 0x12345678 /\
  Portable.INVMixB (Portable.MixB (Portable.Blk 1 0xFFFFFFFF 0xdeadbeef 0))
    = Portable.Blk 1 0xFFFFFFFF 0xdeadbeef 0.
Proof.
  assert (Hw : word 0x12345678) by (unfold word; lia).
  assert (HB : block (Portable.Blk 1 0xFFFFFFFF 0xdeadbeef 0))
    by (unfold block, word; cbn; lia).
  pose proof (C9_Mix_INVMix_inverse _ _ Hw HB) as (H1 & _ & _ & _ & H2 & _).
  exact (conj Hw (conj HB (conj H1 H2))).
Defined.

(** ** The loops of the mode functions *)

Section ModeLoops.
Context `{Path}.

Lemma size_app (a b : list Z) : Modes.size (a ++ b) = Modes.size a + Modes.size b.
Proof. unfold Modes.size. rewrite length_app. lia. Qed.

Lemma read_block_at (consumed rest : list Z) :
  (16 <= length rest)%nat ->
  Modes.read_block (consumed ++ rest) (Modes.size consumed)
  = Some (of_bytes (firstn 16 rest)).
Proof.
  intros Hr. unfold Modes.read_block. rewrite size_app. unfold Modes.size.
  replace ((0 <=? Z.of_nat (length consumed))
           && (Z.of_nat (length consumed) + 16
               <=? Z.of_nat (length consumed) + Z.of_nat (length rest)))
    with true by (symmetry; apply andb_true_intro; split; apply Z.leb_le; lia).
  rewrite Nat2Z.id, skipn_app, skipn_all, Nat.sub_diag. reflexivity.
Qed.

Lemma write_block_at (pre tailbuf : list Z) (B : Block) :
  (16 <= length tailbuf)%nat ->
  Modes.write_block (pre ++ tailbuf) (Modes.size pre) B
  = Some (pre ++ to_bytes B ++ skipn 16 tailbuf).
Proof.
  intros Hr. unfold Modes.write_block. rewrite size_app. unfold Modes.size.
  replace ((0 <=? Z.of_nat (length pre))
           && (Z.of_nat (length pre) + 16
               <=? Z.of_nat (length pre) + Z.of_nat (length tailbuf)))
    with true by (symmetry; apply andb_true_intro; split; apply Z.leb_le; lia).
  rewrite Nat2Z.id, firstn_app, firstn_all, Nat.sub_diag, app_nil_r.
  rewrite skipn_app, skipn_all2 by lia.
  replace (length pre + 16 - length pre)%nat with 16%nat by lia.
  reflexivity.
Qed.

Lemma loop16_blocks (f : Block -> Block) (m : nat) :
  forall consumed rest pre tailbuf,
    length consumed = length pre ->
    length rest = (16 * m)%nat ->
    (16 * m <= length tailbuf)%nat ->
    Modes.loop16 m (Modes.size pre)
      (fun i Buffer =>
         Block <- Modes.read_block (consumed ++ rest) i ;;
         Modes.write_block Buffer i (f Block))
      (pre ++ tailbuf)
    = Some (pre ++ map_blocks f m rest ++ skipn (16 * m) tailbuf).
Proof.
  induction m as [|m IH]; intros consumed rest pre tailbuf Hc Hr Ht.
  - reflexivity.
  - cbn [Modes.loop16 map_blocks].
    replace (Modes.size pre) with (Modes.size consumed) at 1
      by (unfold Modes.size; now rewrite Hc).
    rewrite read_block_at by lia. cbn [bind].
    rewrite write_block_at by lia. cbn [bind].
    set (out := to_bytes (f (of_bytes (firstn 16 rest)))).
    assert (Hout : length out = 16%nat) by apply to_bytes_length.
    replace (Modes.size pre + 16) with (Modes.size (pre ++ out))
      by (rewrite size_app; unfold Modes.size; lia).
    replace (consumed ++ rest) with ((consumed ++ firstn 16 rest) ++ skipn 16 rest)
      by (now rewrite <- app_assoc, firstn_skipn).
    rewrite app_assoc.
    rewrite (IH (consumed ++ firstn 16 rest) (skipn 16 rest) (pre ++ out) (skipn 16 tailbuf)).
    + rewrite skipn_skipn. rewrite <- !app_assoc.
      replace (16 * m + 16)%nat with (16 * S m)%nat by lia. reflexivity.
    + rewrite !length_app, length_firstn, Hout. lia.
    + rewrite length_skipn. lia.
    + rewrite length_skipn. lia.
Qed.

Lemma loop16_cbc (f : Block -> Block) (m : nat) :
  forall consumed rest pre tailbuf State,
    length consumed = length pre ->
    length rest = (16 * m)%nat ->
    (16 * m <= length tailbuf)%nat ->
    option_map snd
      (Modes.loop16 m (Modes.size pre)
         (fun i '(State, Buffer) =>
            Block <- Modes.read_block (consumed ++ rest) i ;;
            Buffer <- Modes.write_block Buffer i (XOR State (f Block)) ;;
            Some (Block, Buffer))
         (State, pre ++ tailbuf))
    = Some (pre ++ cbc_chain f m State rest ++ skipn (16 * m) tailbuf).
Proof.
  induction m as [|m IH]; intros consumed rest pre tailbuf State Hc Hr Ht.
  - reflexivity.
  - cbn [Modes.loop16 cbc_chain].
    replace (Modes.size pre) with (Modes.size consumed) at 1
      by (unfold Modes.size; now rewrite Hc).
    rewrite read_block_at by lia. cbn [bind].
    replace (Modes.size consumed) with (Modes.size pre)
      by (unfold Modes.size; now rewrite Hc).
    rewrite write_block_at by lia. cbn [bind].
    set (Blk := of_bytes (firstn 16 rest)).
    set (out := to_bytes (XOR State (f Blk))).
    assert (Hout : length out = 16%nat) by apply to_bytes_length.
    replace (Modes.size pre + 16) with (Modes.size (pre ++ out))
      by (rewrite size_app; unfold Modes.size; lia).
    replace (consumed ++ rest) with ((consumed ++ firstn 16 rest) ++ skipn 16 rest)
      by (now rewrite <- app_assoc, firstn_skipn).
    rewrite app_assoc.
    rewrite (IH (consumed ++ firstn 16 rest) (skipn 16 rest) (pre ++ out)
               (skipn 16 tailbuf) Blk).
    + rewrite skipn_skipn. rewrite <- !app_assoc.
      replace (16 * m + 16)%nat with (16 * S m)%nat by lia. reflexivity.
    + rewrite !length_app, length_firstn, Hout. lia.
    + rewrite length_skipn. lia.
    + rewrite length_skipn. lia.
Qed.

Lemma trips_aligned (Input : list Z) (n : nat) :
  length Input = (16 * n)%nat -> Modes.trips Input = n.
Proof.
  intros Hn. unfold Modes.trips, Modes.size. rewrite Hn.
  replace (Z.of_nat (16 * n) + 15) with (15 + Z.of_nat n * 16) by lia.
  rewrite Z.div_add by lia. cbn. lia.
Qed.

Lemma map_blocks_length (f : Block -> Block) (n : nat) (l : list Z) :
  length (map_blocks f n l) = (16 * n)%nat.
Proof.
  revert l. induction n as [|n IH]; intros l; cbn [map_blocks]; [reflexivity|].
  rewrite length_app, to_bytes_length, IH. lia.
Qed.

Lemma cbc_chain_length (f : Block -> Block) (n : nat) (State : Block) (l : list Z) :
  length (cbc_chain f n State l) = (16 * n)%nat.
Proof.
  revert State l. induction n as [|n IH]; intros State l; cbn [cbc_chain]; [reflexivity|].
  rewrite length_app, to_bytes_length, IH. lia.
Qed.

Lemma blocks_ECB_aligned (Rounds : Z) (Keys : Schedule) (Input : list Z) (n : nat) :
  length Input = (16 * n)%nat ->
  Modes.Padded.blocks_ECB Rounds Keys Input
  = Some (map_blocks (fun B => Decryptblock Rounds B Keys) n Input).
Proof.
  intros Hn. unfold Modes.Padded.blocks_ECB. rewrite (trips_aligned _ _ Hn).
  pose proof (loop16_blocks (fun B => Decryptblock Rounds B Keys) n
                [] Input [] (repeat 0 (length Input)) eq_refl Hn) as L.
  cbn [app Modes.size length Z.of_nat] in L. rewrite L.
  - rewrite skipn_all2, app_nil_r by (rewrite repeat_length; lia). reflexivity.
  - rewrite repeat_length. lia.
Qed.

Lemma blocks_CBC_aligned (Rounds : Z) (Keys : Schedule) (IV Input : list Z) (n : nat) :
  length Input = (16 * n)%nat ->
  Modes.Padded.blocks_CBC Rounds Keys IV Input
  = Some (cbc_chain (fun B => Decryptblock Rounds B Keys) n (of_bytes IV) Input).
Proof.
  intros Hn. unfold Modes.Padded.blocks_CBC. rewrite (trips_aligned _ _ Hn).
  pose proof (loop16_cbc (fun B => Decryptblock Rounds B Keys) n
                [] Input [] (repeat 0 (length Input)) (of_bytes IV) eq_refl Hn) as L.
  cbn [app Modes.size length Z.of_nat] in L.
  destruct (Modes.loop16 n 0 _ _) as [[st buf]|]; cbn [option_map snd bind] in *.
  - rewrite L by (rewrite repeat_length; lia).
    rewrite skipn_all2, app_nil_r by (rewrite repeat_length; lia). reflexivity.
  - rewrite repeat_length in L. assert (E : (16 * n <= length Input)%nat) by lia.
    specialize (L E). discriminate.
Qed.

End ModeLoops.

(** ** Padding removal (C7, C10) *)

Section PaddingRemoval.
Context `{Path}.

Lemma wrap64_small (x : Z) : 0 <= x < 2 ^ 64 -> wrap64 x = x.
Proof.
  intros Hx. unfold wrap64. change 18446744073709551615 with (Z.ones 64).
  rewrite Z.land_ones by lia. now apply Z.mod_small.
Qed.

Lemma remove_padding_returns (Buffer : list Z) (k : Z) :
  Buffer <> [] -> Modes.size Buffer < 2 ^ 64 ->
  last Buffer 0 = k -> 0 <= k <= Modes.size Buffer ->
  Modes.remove_padding Buffer
  = Returns (firstn (Z.to_nat (Modes.size Buffer - k)) Buffer).
Proof.
  intros Hne Hsz Hk Hr. unfold Modes.remove_padding.
  destruct Buffer as [|b t]; [contradiction|].
  rewrite Hk, wrap64_small by lia.
  destruct (Z.leb_spec (Modes.size (b :: t) - k) (Modes.size (b :: t))); [reflexivity | lia].
Qed.

Lemma remove_padding_no_assert (Buffer : list Z) : Modes.remove_padding Buffer <> Asserts.
Proof.
  unfold Modes.remove_padding. destruct Buffer; [discriminate|].
  destruct (_ <=? _); discriminate.
Qed.

Lemma aligned_land (Input : list Z) (n : nat) :
  length Input = (16 * n)%nat -> Z.land (Modes.size Input) 15 = 0.
Proof.
  intros Hn. unfold Modes.size. change 15 with (Z.ones 4).
  rewrite Z.land_ones by lia. rewrite Hn.
  replace (Z.of_nat (16 * n)) with (Z.of_nat n * 2 ^ 4) by lia.
  apply Z.mod_mul. lia.
Qed.

Lemma nonempty_blocks (l : list Z) (n : nat) : length l = (16 * S n)%nat -> l <> [].
Proof. intros Hl ->. cbn in Hl. lia. Qed.

Lemma wrap64_negative (x : Z) : - 2 ^ 64 <= x < 0 -> wrap64 x = x + 2 ^ 64.
Proof.
  intros Hx. unfold wrap64. change 18446744073709551615 with (Z.ones 64).
  rewrite Z.land_ones by lia. symmetry.
  apply Z.mod_unique with (q := -1); lia.
Qed.

Lemma remove_padding_throws (Buffer : list Z) (k : Z) :
  Buffer <> [] -> last Buffer 0 = k -> Modes.size Buffer < k < 2 ^ 64 ->
  Modes.remove_padding Buffer = Throws.
Proof.
  intros Hne Hk Hr. unfold Modes.remove_padding.
  destruct Buffer as [|b t]; [contradiction|].
  assert (0 <= Modes.size (b :: t)) by (unfold Modes.size; lia).
  rewrite Hk, wrap64_negative by lia.
  destruct (Z.leb_spec (Modes.size (b :: t) - k + 2 ^ 64) (Modes.size (b :: t)));
    [lia | reflexivity].
Qed.

(** On whole blocks padded Decrypt is the block-wise decryption followed by
    the removal of the padding. *)
Lemma Decrypt_ECB_aligned (Keysize Rounds : Z) (Input Key : list Z) (n : nat) :
  length Input = (16 * n)%nat ->
  Modes.Padded.Decrypt_ECB Keysize Rounds Input Key
  = Modes.remove_padding
      (map_blocks (fun B => Decryptblock Rounds B (Keyexpansion Keysize Rounds Key)) n Input).
Proof.
  intros Hn. unfold Modes.Padded.Decrypt_ECB.
  rewrite (aligned_land _ _ Hn). cbn [Z.eqb negb].
  now rewrite (blocks_ECB_aligned Rounds _ Input n Hn).
Qed.

Lemma Decrypt_CBC_aligned (Keysize Rounds : Z) (Input Key IV : list Z) (n : nat) :
  length Input = (16 * n)%nat ->
  Modes.Padded.Decrypt_CBC Keysize Rounds Input Key IV
  = Modes.remove_padding
      (cbc_chain (fun B => Decryptblock Rounds B (Keyexpansion Keysize Rounds Key)) n
         (of_bytes IV) Input).
Proof.
  intros Hn. unfold Modes.Padded.Decrypt_CBC.
  rewrite (aligned_land _ _ Hn). cbn [Z.eqb negb].
  now rewrite (blocks_CBC_aligned Rounds _ IV Input n Hn).
Qed.



End PaddingRemoval.




(** ** Padded Encrypt (C6) *)

Section PaddedEncrypt.
Context `{Path}.

Lemma land15_mod (x : Z) : Z.land x 15 = x mod 16.
Proof. change 15 with (Z.ones 4). now rewrite Z.land_ones by lia. Qed.

Lemma read_block_short (Input : list Z) (i : Z) :
  Modes.size Input < i + 16 -> Modes.read_block Input i = None.
Proof.
  intros Hi. unfold Modes.read_block.
  destruct (Z.leb_spec (i + 16) (Modes.size Input)); [lia|].
  now rewrite andb_false_r.
Qed.

(** A loop whose body reads a block of the input first is undefined when
    the input ends in a partial block. *)
Lemma loop16_overread {S} (Input : list Z) (body : Z -> S -> option S) (r : Z) :
  (forall i s, Modes.read_block Input i = None -> body i s = None) ->
  0 < r < 16 ->
  forall m i s, Modes.size Input - i = 16 * Z.of_nat m + r ->
                Modes.loop16 (Datatypes.S m) i body s = None.
Proof.
  intros Hb Hr. induction m as [|m IH]; intros i s Hi.
  - cbn [Modes.loop16]. rewrite Hb; [reflexivity|]. apply read_block_short. lia.
  - change (Modes.loop16 (Datatypes.S (Datatypes.S m)) i body s)
      with (s' <- body i s ;; Modes.loop16 (Datatypes.S m) (i + 16) body s').
    destruct (body i s) as [s'|]; [|reflexivity]. cbn [bind].
    apply IH. lia.
Qed.

Lemma trips_partial (Input : list Z) :
  Z.land (Modes.size Input) 15 <> 0 ->
  exists m r, Modes.trips Input = S m /\ 0 < r < 16 /\
              Modes.size Input - 0 = 16 * Z.of_nat m + r.
Proof.
  rewrite land15_mod. intros Hr.
  pose proof (Z.mod_pos_bound (Modes.size Input) 16 ltac:(lia)) as Hb.
  pose proof (Z.div_mod (Modes.size Input) 16 ltac:(lia)) as Hd.
  assert (Hs : 0 <= Modes.size Input) by (unfold Modes.size; lia).
  assert (Hq : 0 <= Modes.size Input / 16) by (apply Z.div_pos; lia).
  exists (Z.to_nat (Modes.size Input / 16)), (Modes.size Input mod 16).
  split; [|split; lia].
  unfold Modes.trips.
  replace (Modes.size Input + 15)
    with ((Modes.size Input mod 16 + 15) + (Modes.size Input / 16) * 16) by lia.
  rewrite Z.div_add by lia.
  replace ((Modes.size Input mod 16 + 15) / 16) with 1.
  - lia.
  - apply Z.div_unique with (r := Modes.size Input mod 16 - 1); lia.
Qed.


(** On whole blocks padded Encrypt returns the encrypted blocks followed
    by one more block, [16 * (n + 1)] bytes in all.  At run time the extra
    block is the encryption of sixteen bytes of value 16, as C6 says; in
    constant evaluation it is the encryption of sixteen zero bytes. *)
Lemma padded_encrypt_ECB_aligned (Keysize Rounds : Z) (Input Key : list Z) (n : nat) :
  length Input = (16 * n)%nat ->
  let Keys := Keyexpansion Keysize Rounds Key in
  let padding := if constant_evaluated then repeat 0 16 else repeat 16 16 in
  let out := map_blocks (fun B => Encryptblock Rounds B Keys) n Input
             ++ to_bytes (Encryptblock Rounds (of_bytes padding) Keys) in
  Modes.Padded.Encrypt_ECB Keysize Rounds Input Key = Some out /\
  length out = (16 * (n + 1))%nat.
Proof.
  intros Hn Keys padding out. split.
  - unfold Modes.Padded.Encrypt_ECB, Modes.last_block.
    rewrite (aligned_land _ _ Hn), (trips_aligned _ _ Hn). fold Keys.
    change (wrap8 (16 - 0)) with 16. rewrite Z.sub_0_r.
    change (Z.to_nat 0) with 0%nat. cbn [firstn skipn app].
    replace (Z.to_nat (Modes.size Input + 16)) with (length Input + 16)%nat
      by (unfold Modes.size; lia).
    rewrite repeat_app.
    pose proof (loop16_blocks (fun B => Encryptblock Rounds B Keys) n
                  [] Input [] (repeat 0 (length Input) ++ repeat 0 16) eq_refl Hn) as L.
    cbn [app Modes.size length Z.of_nat] in L. rewrite L
      by (rewrite length_app, !repeat_length; lia).
    cbn [bind]. rewrite skipn_app, skipn_all2, repeat_length by (rewrite repeat_length; lia).
    replace (16 * n - length Input)%nat with 0%nat by lia. cbn [skipn app].
    set (pre := map_blocks _ n Input).
    replace (Modes.size Input) with (Modes.size pre)
      by (unfold Modes.size, pre; now rewrite map_blocks_length, Hn).
    rewrite write_block_at by (rewrite repeat_length; lia).
    rewrite skipn_all2, app_nil_r by (rewrite repeat_length; lia). reflexivity.
  - unfold out. rewrite length_app, map_blocks_length, to_bytes_length. lia.
Qed.

End PaddedEncrypt.


(** The padding block of the empty input on the portable path: at run time
    the encryption of sixteen bytes of value 16, in a constant expression
    the encryption of sixteen zero bytes. *)
Lemma padded_encrypt_empty_input :
  Modes.Padded.Encrypt_ECB (H := Portable_path) 4 10 [] Unittests.AES128Key
  = Some (encrypt_vector 4 10 Unittests.AES128Key (repeat 16 16)) /\
  Modes.Padded.Encrypt_ECB (H := Portable_constant_evaluated) 4 10 [] Unittests.AES128Key
  = Some (encrypt_vector 4 10 Unittests.AES128Key (repeat 0 16)) /\
  encrypt_vector 4 10 Unittests.AES128Key (repeat 16 16)
  <> encrypt_vector 4 10 Unittests.AES128Key (repeat 0 16).
Proof.
  repeat split; try (vm_compute; reflexivity). vm_compute. discriminate.
Qed.

(** ** Blocks and their sixteen bytes *)

Lemma all_bytes2 (p : Z -> Z -> bool) :
  forallb (fun a => forallb (p a) bytes_list) bytes_list = true ->
  forall a c, byte a -> byte c -> p a c = true.
Proof.
  intros Hp a c Ha Hc.
  pose proof (all_bytes _ Hp a Ha) as Hpa. cbv beta in Hpa.
  exact (all_bytes _ Hpa c Hc).
Qed.

Lemma block_bytes_bytes_block (l : list Z) :
  length l = 16%nat -> Forall byte l ->
  Portable.block_bytes (Portable.bytes_block l) = l.
Proof.
  intros Hl Hb.
  do 16 (destruct l as [|? l]; [discriminate Hl|]).
  destruct l; [|discriminate Hl].
  repeat match goal with
         | H : Forall _ (_ :: _) |- _ => inversion H; subst; clear H
         end.
  unfold Portable.block_bytes, Portable.bytes_block.
  cbn [nth Portable.e0 Portable.e1 Portable.e2 Portable.e3].
  rewrite !word_bytes_bytes_word by assumption. reflexivity.
Qed.

Lemma bytes_block_block (l : list Z) :
  Forall byte l -> block (Portable.bytes_block l).
Proof.
  intros Hb.
  assert (N : forall i, byte (nth i l 0)).
  { intros i. destruct (Nat.lt_ge_cases i (length l)) as [Hi|Hi].
    - rewrite Forall_forall in Hb. apply Hb, nth_In, Hi.
    - rewrite nth_overflow by exact Hi. unfold byte. lia. }
  unfold block, Portable.bytes_block; cbn [Portable.e0 Portable.e1 Portable.e2 Portable.e3].
  repeat split; apply bytes_word_bytes; apply N.
Qed.

Lemma block_bytes_byte (B : Portable.Block_t) : Forall byte (Portable.block_bytes B).
Proof.
  unfold Portable.block_bytes, word_bytes. cbn [app].
  repeat (apply Forall_cons; [apply wrap8_range|]). apply Forall_nil.
Qed.

Lemma bytes_block_block_bytes (B : Portable.Block_t) :
  block B -> Portable.bytes_block (Portable.block_bytes B) = B.
Proof.
  intros (H0 & H1 & H2 & H3). destruct B as [a b c d].
  cbn [Portable.e0 Portable.e1 Portable.e2 Portable.e3] in *.
  unfold Portable.bytes_block, Portable.block_bytes, word_bytes.
  cbn [app nth Portable.e0 Portable.e1 Portable.e2 Portable.e3].
  rewrite !bytes_word_wrap32, !wrap32_small by assumption. reflexivity.
Qed.

(** ** The tweak step on every block *)

Lemma hw_shift_byte (a c : Z) : byte a -> byte c ->
  Z.lor (wrap8 (Z.shiftl a 1)) (Z.shiftr (wrap8 (Z.land c 128)) 7)
  = (2 * a) mod 256 + c / 128.
Proof.
  intros Ha Hc. apply Z.eqb_eq.
  apply (all_bytes2 (fun a c =>
    Z.lor (wrap8 (Z.shiftl a 1)) (Z.shiftr (wrap8 (Z.land c 128)) 7)
    =? (2 * a) mod 256 + c / 128)); [vm_compute; reflexivity | exact Ha | exact Hc].
Qed.

Lemma hw_low_byte (a c : Z) : byte a -> byte c ->
  Z.lxor (Z.lor (wrap8 (Z.shiftl a 1)) 0)
         (wrap8 (Z.land 135 (wrap8 (- Z.shiftr (wrap8 (Z.land c 128)) 7))))
  = Z.lxor ((2 * a) mod 256 + 0) (if 128 <=? c then 135 else 0).
Proof.
  intros Ha Hc. apply Z.eqb_eq.
  apply (all_bytes2 (fun a c =>
    Z.lxor (Z.lor (wrap8 (Z.shiftl a 1)) 0)
           (wrap8 (Z.land 135 (wrap8 (- Z.shiftr (wrap8 (Z.land c 128)) 7))))
    =? Z.lxor ((2 * a) mod 256 + 0) (if 128 <=? c then 135 else 0)));
    [vm_compute; reflexivity | exact Ha | exact Hc].
Qed.

Lemma modes_shift_byte (a c : Z) : byte a -> byte c ->
  wrap8 (Z.lor (Z.shiftl a 1) (Z.shiftr c 7)) = (2 * a) mod 256 + c / 128.
Proof.
  intros Ha Hc. apply Z.eqb_eq.
  apply (all_bytes2 (fun a c =>
    wrap8 (Z.lor (Z.shiftl a 1) (Z.shiftr c 7)) =? (2 * a) mod 256 + c / 128));
    [vm_compute; reflexivity | exact Ha | exact Hc].
Qed.

Lemma modes_low_byte (a c : Z) : byte a -> byte c ->
  wrap8 (Z.lxor (Z.shiftl a 1) (wrap8 (Z.shiftr c 7) * 135))
  = Z.lxor ((2 * a) mod 256 + 0) (if 128 <=? c then 135 else 0).
Proof.
  intros Ha Hc. apply Z.eqb_eq.
  apply (all_bytes2 (fun a c =>
    wrap8 (Z.lxor (Z.shiftl a 1) (wrap8 (Z.shiftr c 7) * 135))
    =? Z.lxor ((2 * a) mod 256 + 0) (if 128 <=? c then 135 else 0)));
    [vm_compute; reflexivity | exact Ha | exact Hc].
Qed.

Lemma shift_byte_range (a c : Z) : byte a -> byte c -> byte ((2 * a) mod 256 + c / 128).
Proof.
  intros Ha Hc. rewrite <- modes_shift_byte by assumption. apply wrap8_range.
Qed.

Lemma low_byte_range (a c : Z) : byte a -> byte c ->
  byte (Z.lxor ((2 * a) mod 256 + 0) (if 128 <=? c then 135 else 0)).
Proof.
  intros Ha Hc. rewrite <- modes_low_byte by assumption. apply wrap8_range.
Qed.

Section TweakStep.
Local Opaque Z.shiftl Z.shiftr Z.land Z.lor Z.lxor Z.mul Z.modulo Z.div wrap8.

(** [HW::Mul128] and [Modes::MUL128] are the multiplication by alpha on
    every block of sixteen bytes. *)
Lemma Mul128_is_mul_alpha (l : list Z) :
  length l = 16%nat -> Forall byte l ->
  HW.Mul128 l = Some (mul_alpha l) /\
  option_map Portable.block_bytes (Modes.MUL128 (Portable.bytes_block l))
  = Some (mul_alpha l).
Proof.
  intros Hl Hb. split.
  - do 16 (destruct l as [|? l]; [discriminate Hl|]).
    destruct l; [|discriminate Hl].
    repeat match goal with
           | H : Forall _ (_ :: _) |- _ => inversion H; subst; clear H
           end.
    unfold HW.Mul128, for_opt, mul_alpha, store. simpl.
    rewrite !hw_shift_byte, hw_low_byte by assumption. reflexivity.
  - unfold Modes.MUL128. rewrite block_bytes_bytes_block by assumption.
    do 16 (destruct l as [|? l]; [discriminate Hl|]).
    destruct l; [|discriminate Hl].
    repeat match goal with
           | H : Forall _ (_ :: _) |- _ => inversion H; subst; clear H
           end.
    unfold for_down_opt, mul_alpha, store, load. simpl.
    rewrite !modes_shift_byte, modes_low_byte by assumption.
    rewrite block_bytes_bytes_block; [reflexivity | reflexivity |].
    repeat (apply Forall_cons;
            [first [apply shift_byte_range | apply low_byte_range]; assumption|]).
    apply Forall_nil.
Qed.

End TweakStep.

(** C4: [HW::Mul128] and [Modes::MUL128] are the multiplication by alpha of
    the specification on every block: each byte shifted left by one, the
    carry of byte [i] entering byte [i + 1], 0x87 added into byte 0 when the
    top bit of byte 15 is shifted out.  [Portable::Mul128] is not: it indexes
    its block of four words from 15 down to 0, which is undefined on every
    block, so the three functions are not one function. *)
Theorem C4_Portable_Mul128_differs (l : list Z) :
  length l = 16%nat -> Forall byte l ->
  HW.Mul128 l = Some (mul_alpha l) /\
  option_map Portable.block_bytes (Modes.MUL128 (Portable.bytes_block l))
    = Some (mul_alpha l) /\
  Portable.Mul128 (Portable.bytes_block l) = None /\
  option_map Portable.block_bytes (Portable.Mul128 (Portable.bytes_block l))
    <> HW.Mul128 l.
Proof.
  intros Hl Hb. destruct (Mul128_is_mul_alpha l Hl Hb) as (HH & HM).
  repeat split; auto using Portable_Mul128_undefined.
  rewrite Portable_Mul128_undefined, HH. discriminate.
Qed.

Lemma C4_witness :
  let l := [0x80; 1; 2; 3; 4; 5; 6; 7; 8; 9; 10; 11; 12; 13; 14; 0x8f] in
  length l = 16%nat /\ Forall byte l /\
  HW.Mul128 l = Some [0x87; 3; 4; 6; 8; 10; 12; 14; 16; 18; 20; 22; 24; 26; 28; 30] /\
  Portable.Mul128 (Portable.bytes_block l) = None.
Proof.
  cbv zeta.
  assert (Hb : Forall byte [0x80; 1; 2; 3; 4; 5; 6; 7; 8; 9; 10; 11; 12; 13; 14; 0x8f])
    by (repeat constructor; unfold byte; lia).
  destruct (C4_Portable_Mul128_differs
              [0x80; 1; 2; 3; 4; 5; 6; 7; 8; 9; 10; 11; 12; 13; 14; 0x8f] eq_refl Hb)
    as (HH & _ & HP & _).
  split; [reflexivity|]. split; [exact Hb|]. split; [|exact HP].
  rewrite HH. reflexivity.
Defined.

(** ** The two paths (C1) *)

(** C1 on the code: the drivers of the two paths are not the same function.
    The XEX driver advances its tweak with [Mul128]; on the hardware path
    that is the multiplication by alpha, on the portable path it is
    undefined, and so is every call of [Portable::Encryptblock_XEX] and
    [Portable::Decryptblock_XEX]. *)
Theorem C1_paths_differ_in_the_XEX_driver
    (l : list Z) (Rounds : Z) (Input : Portable.Block_t) (Keys : list Portable.Block_t) :
  length l = 16%nat -> Forall byte l ->
  HW.Mul128 l = Some (mul_alpha l) /\
  Portable.Mul128 (Portable.bytes_block l) = None /\
  Portable.Encryptblock_XEX Rounds (Portable.bytes_block l) Input Keys = None /\
  Portable.Decryptblock_XEX Rounds (Portable.bytes_block l) Input Keys = None.
Proof.
  intros Hl Hb. destruct (Mul128_is_mul_alpha l Hl Hb) as (HH & _).
  unfold Portable.Encryptblock_XEX, Portable.Decryptblock_XEX.
  rewrite Portable_Mul128_undefined. repeat split; auto.
Qed.

Lemma C1_witness :
  let l := 1 :: repeat 0 15 in
  length l = 16%nat /\ Forall byte l /\
  HW.Mul128 l = Some (2 :: repeat 0 15) /\
  Portable.Encryptblock_XEX 10 (Portable.bytes_block l) (Portable.bytes_block l)
    (Portable.Keyexpansion 4 10 Unittests.AES128Key) = None.
Proof.
  cbv zeta.
  assert (Hb : Forall byte (1 :: repeat 0 15))
    by (repeat constructor; unfold byte; lia).
  destruct (C1_paths_differ_in_the_XEX_driver (1 :: repeat 0 15) 10
              (Portable.bytes_block (1 :: repeat 0 15))
              (Portable.Keyexpansion 4 10 Unittests.AES128Key) eq_refl Hb)
    as (HH & _ & HX & _).
  split; [reflexivity|]. split; [exact Hb|]. split; [|exact HX].
  rewrite HH. reflexivity.
Defined.

(** ** Round trip (C2) *)


(** ** The block transform and its inverse *)

Lemma byte_lanes a b c d : byte a -> byte b -> byte c -> byte d ->
  wrap8 (Z.shiftr (bytes_word a b c d) 0) = a /\
  wrap8 (Z.shiftr (bytes_word a b c d) 8) = b /\
  wrap8 (Z.shiftr (bytes_word a b c d) 16) = c /\
  wrap8 (Z.shiftr (bytes_word a b c d) 24) = d.
Proof.
  intros Ha Hb Hc Hd.
  pose proof (word_bytes_bytes_word a b c d Ha Hb Hc Hd) as E.
  unfold word_bytes in E.
  pose proof (f_equal (fun l => nth 0 l 0) E) as E0.
  pose proof (f_equal (fun l => nth 1 l 0) E) as E1.
  pose proof (f_equal (fun l => nth 2 l 0) E) as E2.
  pose proof (f_equal (fun l => nth 3 l 0) E) as E3.
  cbn [nth] in E0, E1, E2, E3.
  rewrite Z.shiftr_0_r. repeat split; assumption.
Qed.

Lemma nth_byte l i : Forall byte l -> byte (nth i l 0).
Proof.
  intros Hb. destruct (Nat.lt_ge_cases i (length l)) as [Hi|Hi].
  - rewrite Forall_forall in Hb. apply Hb, nth_In, Hi.
  - rewrite nth_overflow by exact Hi. unfold byte. lia.
Qed.

Lemma asBytes_bytes_block l r c :
  Forall byte l -> In r [0; 1; 2; 3] -> In c [0; 1; 2; 3] ->
  Portable.asBytes (Portable.bytes_block l) r c = nth (Z.to_nat (4 * r + c)) l 0.
Proof.
  intros Hb Hr Hc.
  assert (N := fun i => nth_byte l i Hb).
  unfold Portable.asBytes, Portable.bytes_block, Portable.sel, Portable.at_.
  cbn in Hr, Hc.
  destruct Hr as [<-|[<-|[<-|[<-|[]]]]]; destruct Hc as [<-|[<-|[<-|[<-|[]]]]];
    cbn [Z.eqb Pos.eqb Portable.e0 Portable.e1 Portable.e2 Portable.e3 Z.mul Z.add Pos.mul Pos.add Z.to_nat Pos.to_nat Pos.iter_op Nat.add Pos.succ];
    match goal with
    | |- context [bytes_word ?a ?b ?c ?d] =>
        destruct (byte_lanes a b c d (N _) (N _) (N _) (N _)) as (E0 & E1 & E2 & E3)
    end; assumption.
Qed.

Lemma Shiftrow_bytes l : Forall byte l ->
  Portable.Shiftrow (Portable.bytes_block l) = Portable.bytes_block (shift_perm l) /\
  Portable.INVShiftrow (Portable.bytes_block l) = Portable.bytes_block (unshift_perm l).
Proof.
  intros Hb.
  unfold Portable.Shiftrow, Portable.INVShiftrow. cbv zeta.
  rewrite !asBytes_bytes_block by (try assumption; cbn; tauto).
  split; reflexivity.
Qed.

Lemma SBox_bytes : Forall byte Portable.SBox /\ Forall byte Portable.INVSBox.
Proof.
  split; apply Forall_by_eval with (p := fun b => (0 <=? b) && (b <? 256));
    try (vm_compute; reflexivity);
    intros x Hx; apply andb_prop in Hx; destruct Hx as [H0 H1];
    apply Z.leb_le in H0; apply Z.ltb_lt in H1; split; assumption.
Qed.

Lemma tab_byte (t : list Z) (i : Z) : Forall byte t -> byte (tab t i).
Proof. intros Ht. apply nth_byte, Ht. Qed.

Lemma INVSBox_SBox (b : Z) : byte b -> tab Portable.INVSBox (tab Portable.SBox b) = b.
Proof.
  intros Hb. apply Z.eqb_eq.
  apply (all_bytes (fun b => tab Portable.INVSBox (tab Portable.SBox b) =? b));
    [vm_compute; reflexivity | exact Hb].
Qed.

Lemma Substitute_bytes (a b c d : Z) : byte a -> byte b -> byte c -> byte d ->
  Portable.Substitute (bytes_word a b c d)
  = bytes_word (tab Portable.SBox a) (tab Portable.SBox b)
               (tab Portable.SBox c) (tab Portable.SBox d) /\
  Portable.INVSubstitute (bytes_word a b c d)
  = bytes_word (tab Portable.INVSBox a) (tab Portable.INVSBox b)
               (tab Portable.INVSBox c) (tab Portable.INVSBox d).
Proof.
  intros Ha Hb Hc Hd. unfold Portable.Substitute, Portable.INVSubstitute.
  rewrite word_bytes_bytes_word by assumption. split; reflexivity.
Qed.

Lemma SubstituteB_bytes (l : list Z) : length l = 16%nat -> Forall byte l ->
  Portable.SubstituteB (Portable.bytes_block l)
  = Portable.bytes_block (map (tab Portable.SBox) l) /\
  Portable.INVSubstituteB (Portable.bytes_block l)
  = Portable.bytes_block (map (tab Portable.INVSBox) l).
Proof.
  intros Hl Hb. bytes16 l Hl.
  unfold Portable.SubstituteB, Portable.INVSubstituteB, Portable.bytes_block.
  cbn [nth map Portable.e0 Portable.e1 Portable.e2 Portable.e3].
  repeat match goal with
  | |- context [Portable.Substitute (bytes_word ?a ?b ?c ?d)] =>
      rewrite (proj1 (Substitute_bytes a b c d ltac:(assumption) ltac:(assumption)
                        ltac:(assumption) ltac:(assumption)))
  | |- context [Portable.INVSubstitute (bytes_word ?a ?b ?c ?d)] =>
      rewrite (proj2 (Substitute_bytes a b c d ltac:(assumption) ltac:(assumption)
                        ltac:(assumption) ltac:(assumption)))
  end.
  split; reflexivity.
Qed.

Lemma shift_perm_bytes (l : list Z) : Forall byte l ->
  Forall byte (shift_perm l) /\ Forall byte (unshift_perm l).
Proof.
  intros Hb. unfold shift_perm, unshift_perm.
  split; repeat (apply Forall_cons; [apply nth_byte, Hb|]); apply Forall_nil.
Qed.

Lemma map_tab_bytes (t l : list Z) : Forall byte t -> Forall byte (map (tab t) l).
Proof.
  intros Ht. apply Forall_forall. intros x Hx. apply in_map_iff in Hx.
  destruct Hx as (y & <- & _). apply tab_byte, Ht.
Qed.

(** The inverse of a round without its key and column mixing. *)
Lemma unsub_unshift_sub_shift (B : Portable.Block_t) : block B ->
  Portable.INVSubstituteB (Portable.INVShiftrow
    (Portable.SubstituteB (Portable.Shiftrow B))) = B.
Proof.
  intros HB. rewrite <- (bytes_block_block_bytes B HB).
  pose proof (block_bytes_byte B) as Hb.
  set (l := Portable.block_bytes B) in *.
  assert (Hl : length l = 16%nat) by reflexivity.
  rewrite (proj1 (Shiftrow_bytes l Hb)).
  assert (H1 : Forall byte (shift_perm l)) by apply (shift_perm_bytes l Hb).
  rewrite (proj1 (SubstituteB_bytes (shift_perm l) (eq_refl 16%nat) H1)).
  assert (H2 : Forall byte (map (tab Portable.SBox) (shift_perm l)))
    by apply map_tab_bytes, SBox_bytes.
  rewrite (proj2 (Shiftrow_bytes _ H2)).
  assert (H3 : Forall byte (unshift_perm (map (tab Portable.SBox) (shift_perm l))))
    by apply (shift_perm_bytes _ H2).
  rewrite (proj2 (SubstituteB_bytes (unshift_perm (map (tab Portable.SBox) (shift_perm l)))
                    (eq_refl 16%nat) H3)).
  clear H1 H2 H3.
  clearbody l. bytes16 l Hl.
  unfold shift_perm, unshift_perm. cbn [map nth].
  rewrite !INVSBox_SBox by assumption. reflexivity.
Qed.

Lemma sub_shift_block (B : Portable.Block_t) :
  block (Portable.SubstituteB (Portable.Shiftrow B)).
Proof.
  unfold Portable.SubstituteB, block, Portable.Substitute, word_bytes.
  cbn [Portable.e0 Portable.e1 Portable.e2 Portable.e3].
  repeat split; apply bytes_word_bytes; apply tab_byte, SBox_bytes.
Qed.

(** Counted loops. *)
Lemma for_S {S} (from : Z) (n : nat) (body : Z -> S -> S) (s : S) :
  for_ from (Datatypes.S n) body s = body (from + Z.of_nat n) (for_ from n body s).
Proof. unfold for_. rewrite seq_S, fold_left_app. reflexivity. Qed.

Lemma for_invariant {S} (P : S -> Prop) (from : Z) (n : nat) (body : Z -> S -> S) (s : S) :
  (forall i s, P s -> P (body i s)) -> P s -> P (for_ from n body s).
Proof.
  intros Hb Hs. induction n as [|n IH]; [exact Hs|].
  rewrite for_S. apply Hb, IH.
Qed.

(** Round-key schedules. *)
Lemma nth_put_nat (S : list Portable.Block_t) (i j : nat) (v : Portable.Block_t) :
  nth j (Portable.put_nat S i v) Portable.zero
  = if (i =? j)%nat && (i <? length S)%nat then v else nth j S Portable.zero.
Proof.
  revert i j. induction S as [|h t IH]; intros i j.
  - cbn. destruct i, j; cbn; try reflexivity; now rewrite andb_false_r.
  - destruct i as [|i], j as [|j]; cbn [Portable.put_nat nth length]; try reflexivity.
    rewrite IH. reflexivity.
Qed.

Lemma length_put_nat (S : list Portable.Block_t) (i : nat) (v : Portable.Block_t) :
  length (Portable.put_nat S i v) = length S.
Proof.
  revert i. induction S as [|h t IH]; intros [|i]; cbn; auto.
Qed.

Lemma key_put (S : list Portable.Block_t) (i j : Z) (v : Portable.Block_t) :
  0 <= i -> 0 <= j ->
  Portable.key (Portable.put S i v) j
  = if (i =? j) && (i <? Z.of_nat (length S)) then v else Portable.key S j.
Proof.
  intros Hi Hj. unfold Portable.key, Portable.put. rewrite nth_put_nat.
  destruct (Z.eqb_spec i j), (Nat.eqb_spec (Z.to_nat i) (Z.to_nat j)); try lia;
  destruct (Z.ltb_spec i (Z.of_nat (length S))),
           (Nat.ltb_spec (Z.to_nat i) (length S)); try lia; reflexivity.
Qed.

Lemma put_blocks (S : list Portable.Block_t) (i : Z) (v : Portable.Block_t) :
  Forall block S -> block v -> Forall block (Portable.put S i v).
Proof.
  intros HS Hv. unfold Portable.put. generalize (Z.to_nat i). clear i.
  induction HS as [|h t Hh Ht IH]; intros [|i]; cbn; auto.
Qed.

Lemma zero_block : block Portable.zero.
Proof. unfold block, word; cbn. lia. Qed.

Lemma key_block (S : list Portable.Block_t) (i : Z) : Forall block S -> block (Portable.key S i).
Proof.
  intros HS. unfold Portable.key.
  destruct (Nat.lt_ge_cases (Z.to_nat i) (length S)) as [Hi|Hi].
  - rewrite Forall_forall in HS. apply HS, nth_In, Hi.
  - rewrite nth_overflow by exact Hi. apply zero_block.
Qed.

Lemma XOR_block (A B : Portable.Block_t) : block A -> block B -> block (Portable.XOR A B).
Proof.
  intros (A0 & A1 & A2 & A3) (B0 & B1 & B2 & B3).
  unfold block, Portable.XOR; cbn; auto using lxor_word.
Qed.

Lemma XOR_cancel (A K : Portable.Block_t) : Portable.XOR (Portable.XOR A K) K = A.
Proof.
  destruct A, K. unfold Portable.XOR; cbn.
  now rewrite !Z.lxor_assoc, !Z.lxor_nilpotent, !Z.lxor_0_r.
Qed.

Lemma INVMixB_XOR (A B : Portable.Block_t) :
  Portable.INVMixB (Portable.XOR A B) = Portable.XOR (Portable.INVMixB A) (Portable.INVMixB B).
Proof.
  unfold Portable.INVMixB, Portable.XOR; cbn. now rewrite !INVMix_linear.
Qed.

Lemma MixB_block (B : Portable.Block_t) : block (Portable.MixB B).
Proof. unfold block, Portable.MixB; cbn. auto using Mix_word. Qed.

Lemma INVMixB_MixB (B : Portable.Block_t) : block B -> Portable.INVMixB (Portable.MixB B) = B.
Proof.
  intros (H0 & H1 & H2 & H3). destruct B; cbn in *.
  unfold Portable.INVMixB, Portable.MixB; cbn. now rewrite !INVMix_Mix.
Qed.

Lemma enc_state_block K x j : Forall block K -> block x -> block (enc_state K x j).
Proof.
  intros HK Hx. unfold enc_state. apply for_invariant.
  - intros i s _. apply XOR_block; [apply MixB_block | apply key_block, HK].
  - apply XOR_block; [exact Hx | apply key_block, HK].
Qed.

Lemma decrypt_inverts_encrypt (R : nat) (K DK : list Portable.Block_t) (x : Portable.Block_t) :
  Forall block K -> block x ->
  Portable.key DK 0 = Portable.key K (Z.of_nat (S R)) ->
  (forall i, (1 <= i <= R)%nat ->
     Portable.key DK (Z.of_nat i) = Portable.INVMixB (Portable.key K (Z.of_nat (S R - i)))) ->
  Portable.key DK (Z.of_nat (S R)) = Portable.key K 0 ->
  Portable.Decryptblock (Z.of_nat (S R))
    (Portable.Encryptblock (Z.of_nat (S R)) x K) DK = x.
Proof.
  intros HK Hx D0 Di DR.
  unfold Portable.Decryptblock, Portable.Encryptblock.
  replace (Z.to_nat (Z.of_nat (S R) - 1)) with R by lia.
  fold (enc_state K x R).
  rewrite D0, XOR_cancel, DR.
  set (dec := fun j => for_ 1 j (fun i Block =>
       Portable.XOR (Portable.INVMixB (Portable.INVSubstituteB (Portable.INVShiftrow Block)))
                    (Portable.key DK i))
       (Portable.SubstituteB (Portable.Shiftrow (enc_state K x R)))).
  assert (Inv : forall j, (j <= R)%nat ->
            dec j = Portable.SubstituteB (Portable.Shiftrow (enc_state K x (R - j)))).
  { induction j as [|j IH]; intros Hj.
    - unfold dec. cbn [for_ seq fold_left]. now rewrite Nat.sub_0_r.
    - unfold dec. rewrite for_S. fold (dec j). rewrite IH by lia.
      rewrite unsub_unshift_sub_shift by (apply enc_state_block; assumption).
      replace (1 + Z.of_nat j) with (Z.of_nat (S j)) by lia.
      rewrite Di by lia.
      replace (R - j)%nat with (S (R - S j)) by lia.
      unfold enc_state at 1. rewrite for_S. fold (enc_state K x (R - S j)).
      replace (1 + Z.of_nat (R - S j)) with (Z.of_nat (S R - S j)) by lia.
      rewrite INVMixB_XOR, XOR_cancel.
      apply INVMixB_MixB, sub_shift_block. }
  fold (dec R). rewrite Inv by lia. rewrite Nat.sub_diag.
  rewrite unsub_unshift_sub_shift by (apply enc_state_block; assumption).
  unfold enc_state. cbn [for_ seq fold_left]. apply XOR_cancel.
Qed.

Lemma byte_word (b : Z) : byte b -> word b.
Proof. unfold byte, word. lia. Qed.

Lemma Substitute_word (w : Z) : word (Portable.Substitute w).
Proof.
  unfold Portable.Substitute, word_bytes. apply bytes_word_bytes; apply tab_byte, SBox_bytes.
Qed.

Lemma sel_word (B : Portable.Block_t) (i : Z) : block B -> word (Portable.sel B i).
Proof.
  intros (H0 & H1 & H2 & H3). unfold Portable.sel, Portable.at_.
  destruct (i =? 0); [exact H0|]. destruct (i =? 1); [exact H1|].
  destruct (i =? 2); [exact H2|]. destruct (i =? 3); [exact H3|].
  unfold word. lia.
Qed.

Lemma Shuffle4_block (B : Portable.Block_t) (c : Z) : block B -> block (Portable.Shuffle4 B c).
Proof.
  intros HB. unfold Portable.Shuffle4. split_block; apply sel_word, HB.
Qed.

Lemma Shift4_block (B : Portable.Block_t) : block B -> block (Portable.Shift4 B).
Proof.
  intros (H0 & H1 & H2 & H3). unfold Portable.Shift4.
  split_block; try assumption. unfold word; lia.
Qed.

Lemma prefix_xor_block (B : Portable.Block_t) : block B -> block (Portable.prefix_xor B).
Proof.
  intros HB. unfold Portable.prefix_xor.
  repeat (apply XOR_block || apply Shift4_block); assumption.
Qed.

Lemma Roundconstants_bytes : Forall byte Portable.Roundconstants.
Proof. repeat constructor; unfold byte; lia. Qed.

Lemma Keygenassist_block (B : Portable.Block_t) (i : Z) : block (Portable.Keygenassist B i).
Proof.
  unfold Portable.Keygenassist.
  split_block; try apply Substitute_word;
    (apply lxor_word; [apply rotr32_word; lia | apply byte_word, tab_byte, Roundconstants_bytes]).
Qed.

Lemma Forall_firstn_skipn {A} (P : A -> Prop) (n : nat) (l : list A) :
  Forall P l -> Forall P (firstn n l) /\ Forall P (skipn n l).
Proof.
  intros Hl. rewrite <- (firstn_skipn n l) in Hl. apply Forall_app in Hl. exact Hl.
Qed.

Lemma load_key_blocks (n : nat) (Key : list Z) :
  Forall byte Key -> Forall block (Portable.load_key n Key).
Proof.
  revert Key. induction n as [|n IH]; intros Key HK; cbn [Portable.load_key]; constructor.
  - apply bytes_block_block, (Forall_firstn_skipn byte 16 Key HK).
  - apply IH, (Forall_firstn_skipn byte 16 Key HK).
Qed.

Lemma Keyexpansion_blocks (Keysize Rounds : Z) (Key : list Z) :
  Forall byte Key -> Forall block (Portable.Keyexpansion Keysize Rounds Key).
Proof.
  intros HK. unfold Portable.Keyexpansion.
  assert (H0 : Forall block
            (Portable.load_key (Z.to_nat (Rounds + 1)) (firstn (Z.to_nat (Keysize * 4)) Key))).
  { apply load_key_blocks, (Forall_firstn_skipn byte _ Key HK). }
  revert H0. generalize (Portable.load_key (Z.to_nat (Rounds + 1))
                           (firstn (Z.to_nat (Keysize * 4)) Key)).
  intros S0 H0. cbv zeta.
  assert (H1 : Forall block
    (if (Keysize =? 4) && (Rounds =? 10)
     then for_ 0 (Z.to_nat Rounds) (fun i Schedule =>
            Portable.put Schedule (i + 1)
              (Portable.XOR (Portable.Shuffle4 (Portable.Keygenassist (Portable.key Schedule i) i) 255)
                            (Portable.prefix_xor (Portable.key Schedule i)))) S0
     else S0)).
  { destruct ((Keysize =? 4) && (Rounds =? 10)); [|exact H0].
    apply for_invariant; [|exact H0]. intros i s Hs.
    apply put_blocks; [exact Hs|].
    apply XOR_block; [apply Shuffle4_block, Keygenassist_block
                     | apply prefix_xor_block, key_block, Hs]. }
  revert H1. 
  match goal with |- Forall block ?X -> _ => generalize X end.
  intros S1 H1.
  assert (H2 : Forall block
    (if (Keysize =? 6) && (Rounds =? 12)
     then for_ 1 (Z.to_nat (Rounds - 1)) (fun i Schedule =>
          let A := Portable.Shuffle4 (Portable.Keygenassist (Portable.key Schedule i) (i / 2)) 0x55 in
          let T := Portable.XOR A (Portable.prefix_xor (Portable.key Schedule (i - 1))) in
          let B := Portable.Shuffle4 T 0xFF in
          let U := Portable.key Schedule i in
          let U := Portable.XOR U (Portable.Shift4 U) in
          let U := Portable.XOR B U in
          if i =? 12 then Portable.put Schedule i T
          else
            let Si := Portable.key Schedule i in
            let Schedule := Portable.put Schedule i
               (Portable.Blk (Portable.e0 Si) (Portable.e1 Si) (Portable.e0 T) (Portable.e1 T)) in
            Portable.put Schedule (i + 1)
               (Portable.Blk (Portable.e2 T) (Portable.e3 T) (Portable.e0 U) (Portable.e1 U))) S1
     else S1)).
  { destruct ((Keysize =? 6) && (Rounds =? 12)); [|exact H1].
    apply for_invariant; [|exact H1]. intros i s Hs. cbv zeta.
    assert (HT : block (Portable.XOR
               (Portable.Shuffle4 (Portable.Keygenassist (Portable.key s i) (i / 2)) 85)
               (Portable.prefix_xor (Portable.key s (i - 1))))).
    { apply XOR_block; [apply Shuffle4_block, Keygenassist_block
                       | apply prefix_xor_block, key_block, Hs]. }
    set (T := Portable.XOR _ _) in *.
    assert (HU : block (Portable.XOR (Portable.Shuffle4 T 255)
                          (Portable.XOR (Portable.key s i) (Portable.Shift4 (Portable.key s i))))).
    { apply XOR_block; [apply Shuffle4_block, HT|].
      apply XOR_block; [|apply Shift4_block]; apply key_block, Hs. }
    set (U := Portable.XOR (Portable.Shuffle4 T 255) _) in *.
    pose proof (key_block s i Hs) as HS.
    destruct HT as (T0 & T1 & T2 & T3), HU as (U0 & U1 & U2 & U3), HS as (S0' & S1' & S2' & S3').
    destruct (i =? 12).
    - apply put_blocks; [exact Hs | split_block; assumption].
    - apply put_blocks; [apply put_blocks; [exact Hs|] |]; split_block; assumption. }
  cbv zeta in H2. revert H2.
  match goal with |- Forall block ?X -> _ => generalize X end.
  intros S2 H2.
  destruct ((Keysize =? 8) && (Rounds =? 14)); [|exact H2].
  apply for_invariant; [|exact H2]. intros i s Hs.
  apply put_blocks; [exact Hs|].
  apply XOR_block; [|apply prefix_xor_block, key_block, Hs].
  destruct (negb (Z.land i 1 =? 0)); apply Shuffle4_block, Keygenassist_block.
Qed.

Lemma length_put (S : list Portable.Block_t) (i : Z) (v : Portable.Block_t) :
  length (Portable.put S i v) = length S.
Proof. apply length_put_nat. Qed.

Lemma inverse_schedule_loop (g : Z -> Portable.Block_t) (init : list Portable.Block_t) (n : nat) :
  (n < length init)%nat ->
  let Y := for_ 1 n (fun i Result => Portable.put Result i (g i)) init in
  length Y = length init /\
  forall i : nat,
    Portable.key Y (Z.of_nat i)
    = if (1 <=? i)%nat && (i <=? n)%nat then g (Z.of_nat i)
      else Portable.key init (Z.of_nat i).
Proof.
  induction n as [|n IH]; intros Hn; cbv zeta.
  - split; [reflexivity|]. intros i. cbn [for_ seq fold_left].
    destruct i; cbn; reflexivity.
  - destruct IH as (HL & HK); [lia|]. rewrite for_S. split.
    + now rewrite length_put.
    + intros i. rewrite key_put by lia. rewrite HL, HK.
      destruct (Z.eqb_spec (1 + Z.of_nat n) (Z.of_nat i)) as [E|E];
      destruct (Z.ltb_spec (1 + Z.of_nat n) (Z.of_nat (length init)));
      destruct (Nat.leb_spec 1 i); destruct (Nat.leb_spec i n);
      destruct (Nat.leb_spec i (S n)); cbn [andb]; try lia; try reflexivity.
      now rewrite E.
Qed.

Lemma INVKeyexpansion_keys (Keysize : Z) (R : nat) (Key : list Z) :
  let Rounds := Z.of_nat (S R) in
  let K := Portable.Keyexpansion Keysize Rounds Key in
  let DK := Portable.INVKeyexpansion Keysize Rounds Key in
  Portable.key DK 0 = Portable.key K Rounds /\
  (forall i, (1 <= i <= R)%nat ->
     Portable.key DK (Z.of_nat i) = Portable.INVMixB (Portable.key K (Z.of_nat (S R - i)))) /\
  Portable.key DK Rounds = Portable.key K 0.
Proof.
  intros Rounds K DK. unfold DK, Portable.INVKeyexpansion. fold K. cbv zeta.
  destruct (inverse_schedule_loop
              (fun i => Portable.INVMixB (Portable.key K (Rounds - i)))
              (repeat Portable.zero (Z.to_nat (Rounds + 1))) (Z.to_nat Rounds))
    as (HL & HK).
  { rewrite repeat_length. unfold Rounds. lia. }
  cbv zeta in HL, HK. rewrite repeat_length in HL.
  set (Y := for_ 1 (Z.to_nat Rounds) _ _) in *.
  assert (HR : 0 <= Rounds) by (unfold Rounds; lia).
  split; [|split].
  - rewrite !key_put by lia. rewrite length_put, HL.
    replace (Rounds =? 0) with false by (symmetry; apply Z.eqb_neq; unfold Rounds; lia).
    cbn [andb Z.eqb].
    replace (0 <? Z.of_nat (Z.to_nat (Rounds + 1))) with true
      by (symmetry; apply Z.ltb_lt; lia).
    reflexivity.
  - intros i Hi. rewrite !key_put by lia. rewrite length_put, HL.
    replace (Rounds =? Z.of_nat i) with false
      by (symmetry; apply Z.eqb_neq; unfold Rounds; lia).
    replace (0 =? Z.of_nat i) with false by (symmetry; apply Z.eqb_neq; lia).
    cbn [andb]. rewrite HK.
    replace ((1 <=? i)%nat && (i <=? Z.to_nat Rounds)%nat) with true
      by (symmetry; apply andb_true_intro; split; apply Nat.leb_le; unfold Rounds; lia).
    do 2 f_equal. unfold Rounds. lia.
  - rewrite key_put by lia. rewrite length_put, HL.
    rewrite Z.eqb_refl.
    replace (Rounds <? Z.of_nat (Z.to_nat (Rounds + 1))) with true
      by (symmetry; apply Z.ltb_lt; lia).
    reflexivity.
Qed.

(** With the schedule of [INVKeyexpansion], [Decryptblock] inverts
    [Encryptblock] under the schedule of [Keyexpansion], for every key, every
    number of rounds and every block. *)
Theorem block_round_trip (Keysize Rounds : Z) (Key Data : list Z) :
  1 <= Rounds -> Forall byte Key -> length Data = 16%nat -> Forall byte Data ->
  Portable.block_bytes
    (Portable.Decryptblock Rounds
       (Portable.Encryptblock Rounds (Portable.bytes_block Data)
          (Portable.Keyexpansion Keysize Rounds Key))
       (Portable.INVKeyexpansion Keysize Rounds Key)) = Data.
Proof.
  intros HR HK HL HD.
  replace Rounds with (Z.of_nat (S (Z.to_nat (Rounds - 1)))) by lia.
  destruct (INVKeyexpansion_keys Keysize (Z.to_nat (Rounds - 1)) Key) as (D0 & Di & DR).
  rewrite decrypt_inverts_encrypt; auto.
  - apply block_bytes_bytes_block; assumption.
  - apply Keyexpansion_blocks, HK.
  - apply bytes_block_block, HD.
Qed.

Lemma Decryptblock_Encryptblock (Keysize Rounds : Z) (Key : list Z) (x : Portable.Block_t) :
  1 <= Rounds -> Forall byte Key -> block x ->
  Portable.Decryptblock Rounds
    (Portable.Encryptblock Rounds x (Portable.Keyexpansion Keysize Rounds Key))
    (Portable.INVKeyexpansion Keysize Rounds Key) = x.
Proof.
  intros HR HK Hx.
  replace Rounds with (Z.of_nat (S (Z.to_nat (Rounds - 1)))) by lia.
  destruct (INVKeyexpansion_keys Keysize (Z.to_nat (Rounds - 1)) Key) as (D0 & Di & DR).
  apply decrypt_inverts_encrypt; auto. apply Keyexpansion_blocks, HK.
Qed.

Lemma XOR_cancel_l (A B : Portable.Block_t) : Portable.XOR A (Portable.XOR A B) = B.
Proof.
  destruct A, B. unfold Portable.XOR; cbn.
  now rewrite <- !Z.lxor_assoc, !Z.lxor_nilpotent, !Z.lxor_0_l.
Qed.

Lemma XOR_cancel_r (A B : Portable.Block_t) : Portable.XOR (Portable.XOR A B) B = A.
Proof. apply XOR_cancel. Qed.

(** The block drivers of the portable path, given the forward schedule to
    encrypt and, where they call [Decryptblock], the inverse schedule to
    decrypt, return the plaintext block: ECB, CBC, CFB and, whenever the
    counter step is defined, CTR. *)
Lemma drivers_round_trip (Keysize Rounds Countersize : Z) (Bigendian : bool)
    (Key : list Z) (State P : Portable.Block_t) :
  1 <= Rounds -> Forall byte Key -> block State -> block P ->
  let K := Portable.Keyexpansion Keysize Rounds Key in
  let DK := Portable.INVKeyexpansion Keysize Rounds Key in
  Portable.Decryptblock_ECB Rounds (Portable.Encryptblock_ECB Rounds P K) DK = P /\
  fst (Portable.Decryptblock_CBC Rounds State
         (fst (Portable.Encryptblock_CBC Rounds State P K)) DK) = P /\
  fst (Portable.Decryptblock_CFB Rounds State
         (fst (Portable.Encryptblock_CFB Rounds State P K)) K) = P /\
  (forall C State', Portable.Encryptblock_CTR Rounds Countersize Bigendian State P K
                    = Some (C, State') ->
     Portable.Decryptblock_CTR Rounds Countersize Bigendian State C K = Some (P, State')).
Proof.
  intros HR HK HS HP K DK. split; [|split; [|split]].
  - unfold Portable.Decryptblock_ECB, Portable.Encryptblock_ECB.
    now apply Decryptblock_Encryptblock.
  - unfold Portable.Decryptblock_CBC, Portable.Encryptblock_CBC. cbn [fst].
    unfold K, DK. rewrite Decryptblock_Encryptblock by auto using XOR_block.
    apply XOR_cancel_l.
  - unfold Portable.Decryptblock_CFB, Portable.Encryptblock_CFB. cbn [fst].
    rewrite XOR_cancel_r. reflexivity.
  - intros C State'. unfold Portable.Decryptblock_CTR, Portable.Encryptblock_CTR.
    destruct (Increment Countersize Bigendian (Portable.block_bytes State)) as [NC|];
      cbn [bind]; [|discriminate].
    intros E. injection E as <- <-. now rewrite XOR_cancel_r.
Qed.

(** ** The field arithmetic behind the substitution box *)

Lemma SBox_INVSBox (b : Z) : byte b -> tab Portable.SBox (tab Portable.INVSBox b) = b.
Proof.
  intros Hb. apply Z.eqb_eq.
  apply (all_bytes (fun b => tab Portable.SBox (tab Portable.INVSBox b) =? b));
    [vm_compute; reflexivity | exact Hb].
Qed.



(** ** Substitution and row shifting are undone by their inverses *)

Lemma word_as_bytes (w : Z) : word w ->
  exists a b c d, byte a /\ byte b /\ byte c /\ byte d /\ w = bytes_word a b c d.
Proof.
  intros Hw. exists (wrap8 w), (wrap8 (Z.shiftr w 8)), (wrap8 (Z.shiftr w 16)), (wrap8 (Z.shiftr w 24)).
  repeat split; try apply wrap8_range.
  rewrite bytes_word_wrap32. symmetry. now apply wrap32_small.
Qed.

(** X2: [INVSubstitute] undoes [Substitute] and [Substitute] undoes
    [INVSubstitute], on every 32-bit word and on every block. *)
Theorem X2_substitution_round_trip (w : Z) (B : Portable.Block_t) :
  word w -> block B ->
  Portable.INVSubstitute (Portable.Substitute w) = w /\
  Portable.Substitute (Portable.INVSubstitute w) = w /\
  Portable.INVSubstituteB (Portable.SubstituteB B) = B /\
  Portable.SubstituteB (Portable.INVSubstituteB B) = B.
Proof.
  assert (W : forall w, word w ->
            Portable.INVSubstitute (Portable.Substitute w) = w /\
            Portable.Substitute (Portable.INVSubstitute w) = w).
  { clear. intros w Hw. destruct (word_as_bytes w Hw) as (a & b & c & d & Ha & Hb & Hc & Hd & ->).
    destruct SBox_bytes as (HS & HI).
    rewrite (proj1 (Substitute_bytes a b c d Ha Hb Hc Hd)).
    rewrite (proj2 (Substitute_bytes a b c d Ha Hb Hc Hd)).
    rewrite (proj2 (Substitute_bytes _ _ _ _ (tab_byte _ a HS) (tab_byte _ b HS)
                      (tab_byte _ c HS) (tab_byte _ d HS))).
    rewrite (proj1 (Substitute_bytes _ _ _ _ (tab_byte _ a HI) (tab_byte _ b HI)
                      (tab_byte _ c HI) (tab_byte _ d HI))).
    now rewrite !INVSBox_SBox, !SBox_INVSBox. }
  intros Hw (H0 & H1 & H2 & H3).
  destruct (W w Hw) as (W1 & W2).
  split; [exact W1|]. split; [exact W2|].
  destruct B as [a b c d]; cbn [Portable.e0 Portable.e1 Portable.e2 Portable.e3] in *.
  unfold Portable.INVSubstituteB, Portable.SubstituteB;
    cbn [Portable.e0 Portable.e1 Portable.e2 Portable.e3].
  split.
  - now rewrite (proj1 (W a H0)), (proj1 (W b H1)), (proj1 (W c H2)), (proj1 (W d H3)).
  - now rewrite (proj2 (W a H0)), (proj2 (W b H1)), (proj2 (W c H2)), (proj2 (W d H3)).
Qed.

Lemma X2_witness :
  word 0xdeadbeef /\
  Portable.INVSubstitute (Portable.Substitute 0xdeadbeef) = 0xdeadbeef.
Proof.
  assert (Hw : word 0xdeadbeef) by (unfold word; lia).
  assert (HB : block Portable.zero) by apply zero_block.
  split; [exact Hw|].
  exact (proj1 (X2_substitution_round_trip 0xdeadbeef Portable.zero Hw HB)).
Defined.

(** X3: [INVShiftrow] undoes [Shiftrow] and [Shiftrow] undoes
    [INVShiftrow] on every block; four applications of [Shiftrow] give the
    block back. *)
Theorem X3_Shiftrow_round_trip (B : Portable.Block_t) :
  block B ->
  Portable.INVShiftrow (Portable.Shiftrow B) = B /\
  Portable.Shiftrow (Portable.INVShiftrow B) = B /\
  Portable.Shiftrow (Portable.Shiftrow (Portable.Shiftrow (Portable.Shiftrow B))) = B.
Proof.
  intros HB. rewrite <- (bytes_block_block_bytes B HB).
  pose proof (block_bytes_byte B) as Hb.
  set (l := Portable.block_bytes B) in *.
  assert (Hl : length l = 16%nat) by reflexivity.
  clearbody l.
  assert (S1 := fun l H => proj1 (Shiftrow_bytes l H)).
  assert (S2 := fun l H => proj2 (Shiftrow_bytes l H)).
  assert (P1 := fun l H => proj1 (shift_perm_bytes l H)).
  assert (P2 := fun l H => proj2 (shift_perm_bytes l H)).
  split; [|split].
  - rewrite S1, S2 by auto. bytes16 l Hl. reflexivity.
  - rewrite S2, S1 by auto. bytes16 l Hl. reflexivity.
  - rewrite !S1 by auto. bytes16 l Hl. reflexivity.
Qed.

Lemma X3_witness :
  block (Portable.Blk 0x03020100 0x07060504 0x0b0a0908 0x0f0e0d0c) /\
  Portable.Shiftrow (Portable.Blk 0x03020100 0x07060504 0x0b0a0908 0x0f0e0d0c)
  = Portable.Blk 0x0f0a0500 0x030e0904 0x07020d08 0x0b06010c /\
  Portable.INVShiftrow (Portable.Blk 0x0f0a0500 0x030e0904 0x07020d08 0x0b06010c)
  = Portable.Blk 0x03020100 0x07060504 0x0b0a0908 0x0f0e0d0c.
Proof.
  assert (HB : block (Portable.Blk 0x03020100 0x07060504 0x0b0a0908 0x0f0e0d0c))
    by (unfold block, word; cbn; lia).
  split; [exact HB|]. split; [reflexivity|].
  exact (proj1 (X3_Shiftrow_round_trip _ HB)).
Defined.

(** ** The word multiplications, byte by byte *)

Lemma bytes_word_lanes (a b c d : Z) : byte a -> byte b -> byte c -> byte d ->
  bytes_word a b c d
  = Z.lxor (lane 0 a) (Z.lxor (lane 1 b) (Z.lxor (lane 2 c) (lane 3 d))).
Proof.
  intros Ha Hb Hc Hd.
  pose proof (word_lanes (bytes_word a b c d)) as L.
  rewrite (wrap32_small _ (bytes_word_bytes a b c d Ha Hb Hc Hd)) in L.
  destruct (byte_lanes a b c d Ha Hb Hc Hd) as (E0 & E1 & E2 & E3).
  rewrite Z.shiftr_0_r in E0. now rewrite E0, E1, E2, E3 in L.
Qed.

Lemma lanewise_by_eval (f g : Z -> Z) :
  linear f -> (forall x, byte x -> byte (g x)) ->
  forallb (fun k => forallb (fun x => f (lane k x) =? lane k (g x)) bytes_list) [0; 1; 2; 3]
  = true ->
  forall a b c d, byte a -> byte b -> byte c -> byte d ->
  f (bytes_word a b c d) = bytes_word (g a) (g b) (g c) (g d).
Proof.
  intros Hf Hg He a b c d Ha Hb Hc Hd.
  assert (L : forall k x, In k [0; 1; 2; 3] -> byte x -> f (lane k x) = lane k (g x)).
  { intros k x Hk Hx. rewrite forallb_forall in He. specialize (He k Hk).
    apply Z.eqb_eq. exact (all_bytes _ He x Hx). }
  rewrite (bytes_word_lanes a b c d), (bytes_word_lanes (g a) (g b) (g c) (g d)) by auto.
  rewrite !Hf, !L by (simpl; tauto). reflexivity.
Qed.

Lemma word_multiplications_lanewise (a b c d : Z) :
  byte a -> byte b -> byte c -> byte d ->
  Portable.Mul2 (bytes_word a b c d)
  = bytes_word (Portable.Mul2_8 a) (Portable.Mul2_8 b)
               (Portable.Mul2_8 c) (Portable.Mul2_8 d) /\
  Portable.Mul3 (bytes_word a b c d)
  = bytes_word (Portable.Mul2_8 (Portable.Mul2_8 a)) (Portable.Mul2_8 (Portable.Mul2_8 b))
               (Portable.Mul2_8 (Portable.Mul2_8 c)) (Portable.Mul2_8 (Portable.Mul2_8 d)).
Proof.
  intros Ha Hb Hc Hd. split.
  - apply (lanewise_by_eval Portable.Mul2 Portable.Mul2_8);
      [apply Mul2_linear | intros; apply wrap8_range | vm_compute; reflexivity | ..];
      assumption.
  - apply (lanewise_by_eval Portable.Mul3 (fun x => Portable.Mul2_8 (Portable.Mul2_8 x)));
      [apply Mul3_linear | intros; apply wrap8_range | vm_compute; reflexivity | ..];
      assumption.
Qed.

(** X4: the [uint32_t] overload of [Mul2] doubles each of the four bytes of
    the word as the [uint8_t] overload does.  The [uint32_t] overload of
    [Mul3] doubles each byte twice: it multiplies by 4, not by 3 as the
    [uint8_t] overload of the same name does. *)
Theorem X4_word_multiplications_act_on_each_byte (a b c d : Z) :
  byte a -> byte b -> byte c -> byte d ->
  Portable.Mul2 (bytes_word a b c d)
  = bytes_word (Portable.Mul2_8 a) (Portable.Mul2_8 b)
               (Portable.Mul2_8 c) (Portable.Mul2_8 d) /\
  Portable.Mul3 (bytes_word a b c d)
  = bytes_word (Portable.Mul2_8 (Portable.Mul2_8 a)) (Portable.Mul2_8 (Portable.Mul2_8 b))
               (Portable.Mul2_8 (Portable.Mul2_8 c)) (Portable.Mul2_8 (Portable.Mul2_8 d)) /\
  Portable.Mul2_8 (Portable.Mul2_8 a) = gf_mul a 4 /\
  (a <> 0 -> Portable.Mul2_8 (Portable.Mul2_8 a) <> Portable.Mul3_8 a).
Proof.
  intros Ha Hb Hc Hd.
  destruct (word_multiplications_lanewise a b c d Ha Hb Hc Hd) as (E2 & E3).
  split; [exact E2|]. split; [exact E3|]. split.
  - apply Z.eqb_eq.
    apply (all_bytes (fun a => Portable.Mul2_8 (Portable.Mul2_8 a) =? gf_mul a 4));
      [vm_compute; reflexivity | exact Ha].
  - intros Hn.
    pose proof (all_bytes (fun a => (a =? 0) ||
                  negb (Portable.Mul2_8 (Portable.Mul2_8 a) =? Portable.Mul3_8 a))
                  ltac:(vm_compute; reflexivity) a Ha) as H.
    cbv beta in H. apply orb_prop in H. destruct H as [H|H].
    + apply Z.eqb_eq in H. contradiction.
    + apply negb_true_iff in H. now apply Z.eqb_neq.
Qed.

Lemma X4_witness :
  byte 0x80 /\ byte 0x01 /\ byte 0xff /\ byte 0x40 /\
  Portable.Mul2 (bytes_word 0x80 0x01 0xff 0x40) = bytes_word 0x1b 0x02 0xe5 0x80 /\
  Portable.Mul3 (bytes_word 0x80 0x01 0xff 0x40) = bytes_word 0x36 0x04 0xd1 0x1b.
Proof.
  assert (H1 : byte 0x80) by (unfold byte; lia).
  assert (H2 : byte 0x01) by (unfold byte; lia).
  assert (H3 : byte 0xff) by (unfold byte; lia).
  assert (H4 : byte 0x40) by (unfold byte; lia).
  destruct (X4_word_multiplications_act_on_each_byte _ _ _ _ H1 H2 H3 H4) as (E2 & E3 & _).
  refine (conj H1 (conj H2 (conj H3 (conj H4 (conj _ _))))).
  - rewrite E2. reflexivity.
  - rewrite E3. reflexivity.
Defined.

(** ** Column mixing as a matrix *)

Lemma bytes_word_lxor (a b c d a' b' c' d' : Z) :
  byte a -> byte b -> byte c -> byte d -> byte a' -> byte b' -> byte c' -> byte d' ->
  Z.lxor (bytes_word a b c d) (bytes_word a' b' c' d')
  = bytes_word (Z.lxor a a') (Z.lxor b b') (Z.lxor c c') (Z.lxor d d').
Proof.
  intros Ha Hb Hc Hd Ha' Hb' Hc' Hd'.
  rewrite <- (wrap8_small a Ha), <- (wrap8_small b Hb), <- (wrap8_small c Hc),
          <- (wrap8_small d Hd), <- (wrap8_small a' Ha'), <- (wrap8_small b' Hb'),
          <- (wrap8_small c' Hc'), <- (wrap8_small d' Hd').
  unfold bytes_word, wrap8. change 255 with (Z.ones 8). bits.
Qed.

Lemma lxor_byte (a b : Z) : byte a -> byte b -> byte (Z.lxor a b).
Proof.
  intros Ha Hb. rewrite <- (wrap8_small a Ha), <- (wrap8_small b Hb).
  replace (Z.lxor (wrap8 a) (wrap8 b)) with (wrap8 (Z.lxor a b)); [apply wrap8_range|].
  unfold wrap8. change 255 with (Z.ones 8). bits.
Qed.

Lemma columns_by_eval (f : Z -> Z) (g : Z -> Z -> Z -> Z) :
  linear f -> (forall k r x, byte x -> byte (g k r x)) ->
  forallb (fun k => forallb (fun x =>
     f (lane k x) =? bytes_word (g k 0 x) (g k 1 x) (g k 2 x) (g k 3 x)) bytes_list)
     [0; 1; 2; 3] = true ->
  forall a b c d, byte a -> byte b -> byte c -> byte d ->
  f (bytes_word a b c d)
  = bytes_word
      (Z.lxor (Z.lxor (g 0 0 a) (g 1 0 b)) (Z.lxor (g 2 0 c) (g 3 0 d)))
      (Z.lxor (Z.lxor (g 0 1 a) (g 1 1 b)) (Z.lxor (g 2 1 c) (g 3 1 d)))
      (Z.lxor (Z.lxor (g 0 2 a) (g 1 2 b)) (Z.lxor (g 2 2 c) (g 3 2 d)))
      (Z.lxor (Z.lxor (g 0 3 a) (g 1 3 b)) (Z.lxor (g 2 3 c) (g 3 3 d))).
Proof.
  intros Hf Hg He a b c d Ha Hb Hc Hd.
  assert (L : forall k x, In k [0; 1; 2; 3] -> byte x ->
            f (lane k x) = bytes_word (g k 0 x) (g k 1 x) (g k 2 x) (g k 3 x)).
  { intros k x Hk Hx. rewrite forallb_forall in He. specialize (He k Hk).
    apply Z.eqb_eq. exact (all_bytes _ He x Hx). }
  rewrite (bytes_word_lanes a b c d) by auto.
  rewrite !Hf, !L by (simpl; tauto).
  rewrite !bytes_word_lxor by (repeat first [assumption | apply lxor_byte | apply Hg]).
  f_equal; bits.
Qed.

Lemma gf_mul_loop_byte (n : nat) (a b : Z) : byte a -> byte (gf_mul_loop n a b).
Proof.
  revert a b. induction n as [|n IH]; intros a b Ha; cbn [gf_mul_loop].
  - unfold byte. lia.
  - apply lxor_byte.
    + destruct (Z.odd b); [exact Ha | unfold byte; lia].
    + apply IH, wrap8_range.
Qed.

(** X5: on the four bytes of a word, lowest first, [Mix] is the product
    with the circulant matrix of first row 02 03 01 01 over GF(2^8), and
    [INVMix] the product with the circulant matrix of first row
    0e 0b 0d 09. *)
Theorem X5_Mix_is_the_column_matrix (s0 s1 s2 s3 : Z) :
  byte s0 -> byte s1 -> byte s2 -> byte s3 ->
  Portable.Mix (bytes_word s0 s1 s2 s3)
  = bytes_word (dot 2 3 1 1 s0 s1 s2 s3) (dot 1 2 3 1 s0 s1 s2 s3)
               (dot 1 1 2 3 s0 s1 s2 s3) (dot 3 1 1 2 s0 s1 s2 s3) /\
  Portable.INVMix (bytes_word s0 s1 s2 s3)
  = bytes_word (dot 14 11 13 9 s0 s1 s2 s3) (dot 9 14 11 13 s0 s1 s2 s3)
               (dot 13 9 14 11 s0 s1 s2 s3) (dot 11 13 9 14 s0 s1 s2 s3) /\
  gf_mul s0 1 = s0 /\ gf_mul s0 2 = Portable.Mul2_8 s0 /\ gf_mul s0 3 = Portable.Mul3_8 s0.
Proof.
  intros H0 H1 H2 H3. split; [|split].
  - apply (columns_by_eval Portable.Mix (fun k r x => gf_mul x (circulant [2; 3; 1; 1] k r)));
      [apply Mix_linear | intros; now apply gf_mul_loop_byte | vm_compute; reflexivity | ..];
      assumption.
  - apply (columns_by_eval Portable.INVMix
             (fun k r x => gf_mul x (circulant [14; 11; 13; 9] k r)));
      [apply INVMix_linear | intros; now apply gf_mul_loop_byte | vm_compute; reflexivity | ..];
      assumption.
  - pose proof (all_bytes (fun x => (gf_mul x 1 =? x) && (gf_mul x 2 =? Portable.Mul2_8 x)
                                    && (gf_mul x 3 =? Portable.Mul3_8 x))
                  ltac:(vm_compute; reflexivity) s0 H0) as H.
    cbv beta in H. repeat (apply andb_prop in H; destruct H as [H ?]).
    repeat split; now apply Z.eqb_eq.
Qed.

Lemma X5_witness :
  byte 0xdb /\ byte 0x13 /\ byte 0x53 /\ byte 0x45 /\
  Portable.Mix (bytes_word 0xdb 0x13 0x53 0x45) = bytes_word 0x8e 0x4d 0xa1 0xbc /\
  Portable.INVMix (bytes_word 0x8e 0x4d 0xa1 0xbc) = bytes_word 0xdb 0x13 0x53 0x45.
Proof.
  assert (H0 : byte 0xdb) by (unfold byte; lia).
  assert (H1 : byte 0x13) by (unfold byte; lia).
  assert (H2 : byte 0x53) by (unfold byte; lia).
  assert (H3 : byte 0x45) by (unfold byte; lia).
  refine (conj H0 (conj H1 (conj H2 (conj H3 (conj _ _))))).
  - rewrite (proj1 (X5_Mix_is_the_column_matrix _ _ _ _ H0 H1 H2 H3)). reflexivity.
  - reflexivity.
Defined.

(** ** [Encryptblock] and [Decryptblock] are inverse permutations *)

Lemma sub_shift_unsub_unshift (B : Portable.Block_t) : block B ->
  Portable.SubstituteB (Portable.Shiftrow
    (Portable.INVSubstituteB (Portable.INVShiftrow B))) = B.
Proof.
  intros HB. rewrite <- (bytes_block_block_bytes B HB).
  pose proof (block_bytes_byte B) as Hb.
  set (l := Portable.block_bytes B) in *.
  assert (Hl : length l = 16%nat) by reflexivity.
  rewrite (proj2 (Shiftrow_bytes l Hb)).
  assert (H1 : Forall byte (unshift_perm l)) by apply (shift_perm_bytes l Hb).
  rewrite (proj2 (SubstituteB_bytes (unshift_perm l) (eq_refl 16%nat) H1)).
  assert (H2 : Forall byte (map (tab Portable.INVSBox) (unshift_perm l)))
    by apply map_tab_bytes, SBox_bytes.
  rewrite (proj1 (Shiftrow_bytes _ H2)).
  assert (H3 : Forall byte (shift_perm (map (tab Portable.INVSBox) (unshift_perm l))))
    by apply (shift_perm_bytes _ H2).
  rewrite (proj1 (SubstituteB_bytes (shift_perm (map (tab Portable.INVSBox) (unshift_perm l)))
                    (eq_refl 16%nat) H3)).
  clear H1 H2 H3.
  clearbody l. bytes16 l Hl.
  unfold shift_perm, unshift_perm. cbn [map nth].
  rewrite !SBox_INVSBox by assumption. reflexivity.
Qed.

Lemma unsub_unshift_block (B : Portable.Block_t) :
  block (Portable.INVSubstituteB (Portable.INVShiftrow B)).
Proof.
  unfold Portable.INVSubstituteB, block, Portable.INVSubstitute, word_bytes.
  cbn [Portable.e0 Portable.e1 Portable.e2 Portable.e3].
  repeat split; apply bytes_word_bytes; apply tab_byte, SBox_bytes.
Qed.

Lemma MixB_XOR (A B : Portable.Block_t) :
  Portable.MixB (Portable.XOR A B) = Portable.XOR (Portable.MixB A) (Portable.MixB B).
Proof.
  unfold Portable.MixB, Portable.XOR; cbn. now rewrite !Mix_linear.
Qed.

Lemma INVMixB_block (B : Portable.Block_t) : block (Portable.INVMixB B).
Proof. unfold block, Portable.INVMixB; cbn. auto using INVMix_word. Qed.

Lemma MixB_INVMixB (B : Portable.Block_t) : block B -> Portable.MixB (Portable.INVMixB B) = B.
Proof.
  intros (H0 & H1 & H2 & H3). destruct B; cbn in *.
  unfold Portable.INVMixB, Portable.MixB; cbn. now rewrite !Mix_INVMix.
Qed.

Lemma dec_state_block DK y j : Forall block DK -> block y -> block (dec_state DK y j).
Proof.
  intros HK Hy. unfold dec_state. apply for_invariant.
  - intros i s _. apply XOR_block; [apply INVMixB_block | apply key_block, HK].
  - apply XOR_block; [exact Hy | apply key_block, HK].
Qed.

Lemma encrypt_inverts_decrypt (R : nat) (K DK : list Portable.Block_t) (y : Portable.Block_t) :
  Forall block K -> Forall block DK -> block y ->
  Portable.key DK 0 = Portable.key K (Z.of_nat (S R)) ->
  (forall i, (1 <= i <= R)%nat ->
     Portable.key DK (Z.of_nat i) = Portable.INVMixB (Portable.key K (Z.of_nat (S R - i)))) ->
  Portable.key DK (Z.of_nat (S R)) = Portable.key K 0 ->
  Portable.Encryptblock (Z.of_nat (S R))
    (Portable.Decryptblock (Z.of_nat (S R)) y DK) K = y.
Proof.
  intros HK HDK Hy D0 Di DR.
  unfold Portable.Decryptblock, Portable.Encryptblock.
  replace (Z.to_nat (Z.of_nat (S R) - 1)) with R by lia.
  fold (dec_state DK y R).
  rewrite DR, XOR_cancel.
  set (enc := fun j => for_ 1 j (fun i Block =>
       Portable.XOR (Portable.MixB (Portable.SubstituteB (Portable.Shiftrow Block)))
                    (Portable.key K i))
       (Portable.INVSubstituteB (Portable.INVShiftrow (dec_state DK y R)))).
  assert (Inv : forall j, (j <= R)%nat ->
            enc j = Portable.INVSubstituteB (Portable.INVShiftrow (dec_state DK y (R - j)))).
  { induction j as [|j IH]; intros Hj.
    - unfold enc. cbn [for_ seq fold_left]. now rewrite Nat.sub_0_r.
    - unfold enc. rewrite for_S. fold (enc j). rewrite IH by lia.
      rewrite sub_shift_unsub_unshift by (apply dec_state_block; assumption).
      replace (R - j)%nat with (S (R - S j)) by lia.
      unfold dec_state at 1. rewrite for_S. fold (dec_state DK y (R - S j)).
      replace (1 + Z.of_nat (R - S j)) with (Z.of_nat (S (R - S j))) by lia.
      rewrite Di by lia.
      replace (S R - S (R - S j))%nat with (S j) by lia.
      replace (1 + Z.of_nat j) with (Z.of_nat (S j)) by lia.
      rewrite MixB_XOR, MixB_INVMixB by apply unsub_unshift_block.
      rewrite MixB_INVMixB by (apply key_block, HK).
      apply XOR_cancel. }
  fold (enc R). rewrite Inv by lia. rewrite Nat.sub_diag.
  rewrite sub_shift_unsub_unshift by (apply dec_state_block; assumption).
  unfold dec_state. cbn [for_ seq fold_left]. rewrite D0. apply XOR_cancel.
Qed.

Lemma INVKeyexpansion_blocks (Keysize Rounds : Z) (Key : list Z) :
  Forall byte Key -> Forall block (Portable.INVKeyexpansion Keysize Rounds Key).
Proof.
  intros HK. pose proof (Keyexpansion_blocks Keysize Rounds Key HK) as HB.
  unfold Portable.INVKeyexpansion. cbv zeta.
  apply put_blocks; [|apply key_block, HB].
  apply put_blocks; [|apply key_block, HB].
  apply for_invariant.
  - intros i s Hs. apply put_blocks; [exact Hs | apply INVMixB_block].
  - apply Forall_forall. intros b Hb. apply repeat_spec in Hb. subst. apply zero_block.
Qed.

Lemma Encryptblock_block (Rounds : Z) (x : Portable.Block_t) (K : list Portable.Block_t) :
  Forall block K -> block (Portable.Encryptblock Rounds x K).
Proof.
  intros HK. unfold Portable.Encryptblock.
  apply XOR_block; [apply sub_shift_block | apply key_block, HK].
Qed.

Lemma Decryptblock_block (Rounds : Z) (x : Portable.Block_t) (K : list Portable.Block_t) :
  Forall block K -> block (Portable.Decryptblock Rounds x K).
Proof.
  intros HK. unfold Portable.Decryptblock.
  apply XOR_block; [apply unsub_unshift_block | apply key_block, HK].
Qed.

Lemma Encryptblock_Decryptblock (Keysize Rounds : Z) (Key : list Z) (y : Portable.Block_t) :
  1 <= Rounds -> Forall byte Key -> block y ->
  Portable.Encryptblock Rounds
    (Portable.Decryptblock Rounds y (Portable.INVKeyexpansion Keysize Rounds Key))
    (Portable.Keyexpansion Keysize Rounds Key) = y.
Proof.
  intros HR HK Hy.
  replace Rounds with (Z.of_nat (S (Z.to_nat (Rounds - 1)))) by lia.
  destruct (INVKeyexpansion_keys Keysize (Z.to_nat (Rounds - 1)) Key) as (D0 & Di & DR).
  apply encrypt_inverts_decrypt; auto.
  - apply Keyexpansion_blocks, HK.
  - apply INVKeyexpansion_blocks, HK.
Qed.



(** ** The key expansion against FIPS-197, for every key *)

Lemma tab_app_r (pre l : list Z) (k : Z) :
  0 <= k -> tab (pre ++ l) (Z.of_nat (length pre) + k) = tab l k.
Proof.
  intros Hk. unfold tab.
  replace (Z.to_nat (Z.of_nat (length pre) + k)) with (length pre + Z.to_nat k)%nat by lia.
  rewrite app_nth2 by lia. f_equal. lia.
Qed.

Lemma next_word_window (Nk q r m x t : Z) (pre l : list Z) :
  Z.of_nat (length pre) = Nk * q + r -> 0 < Nk -> Z.of_nat (length l) = m -> Nk <= m ->
  tab l (m - Nk) = x -> tab l (m - 1) = t ->
  FIPS197.next_word Nk (pre ++ l)
  = pre ++ l ++
    [Z.lxor x
       (if (r + m) mod Nk =? 0
        then Z.lxor (FIPS197.SubWord (FIPS197.RotWord t)) (FIPS197.Rcon (q + (r + m) / Nk))
        else if (6 <? Nk) && ((r + m) mod Nk =? 4) then FIPS197.SubWord t else t)].
Proof.
  intros Hp HN Hm Hl Hx Ht. unfold FIPS197.next_word. cbv zeta.
  rewrite length_app, Nat2Z.inj_add, Hm, Hp.
  replace (Nk * q + r + m - 1) with (Z.of_nat (length pre) + (m - 1)) by lia.
  replace (Nk * q + r + m - Nk) with (Z.of_nat (length pre) + (m - Nk)) by lia.
  rewrite !tab_app_r by lia. rewrite Hx, Ht.
  replace (Nk * q + r + m) with (r + m + q * Nk) by lia.
  rewrite Z.mod_add, Z.div_add by lia.
  replace ((r + m) / Nk + q) with (q + (r + m) / Nk) by lia.
  now rewrite <- app_assoc.
Qed.

Lemma wrap8_rotr32 (w : Z) :
  wrap8 (rotr32 w 8) = wrap8 (Z.shiftr w 8) /\
  wrap8 (Z.shiftr (rotr32 w 8) 8) = wrap8 (Z.shiftr w 16) /\
  wrap8 (Z.shiftr (rotr32 w 8) 16) = wrap8 (Z.shiftr w 24) /\
  wrap8 (Z.shiftr (rotr32 w 8) 24) = wrap8 w.
Proof.
  unfold rotr32, wrap8, wrap32.
  change 255 with (Z.ones 8). change 4294967295 with (Z.ones 32). change (32 - 8) with 24.
  repeat split; bits.
Qed.

Lemma bytes_word_rotr8 (a b c d : Z) :
  byte a -> byte b -> byte c -> byte d ->
  rotr32 (bytes_word a b c d) 8 = bytes_word b c d a.
Proof.
  intros Ha Hb Hc Hd.
  rewrite <- (wrap8_small a Ha), <- (wrap8_small b Hb), <- (wrap8_small c Hc),
          <- (wrap8_small d Hd).
  unfold rotr32, bytes_word, wrap8, wrap32.
  change 255 with (Z.ones 8). change 4294967295 with (Z.ones 32).
  change (32 - 8) with 24.
  Z.bitblast; kill_neg; rewrite ?Z.land_spec, ?Z.ones_spec_low by lia; btauto.
Qed.

(** The standard substitutes the rotated word, the code rotates the
    substituted word. *)
Lemma Substitute_rotr (w : Z) :
  Portable.Substitute (rotr32 w 8) = rotr32 (Portable.Substitute w) 8.
Proof.
  unfold Portable.Substitute, word_bytes.
  destruct (wrap8_rotr32 w) as (E0 & E1 & E2 & E3). rewrite E0, E1, E2, E3.
  symmetry. apply bytes_word_rotr8; apply tab_byte, SBox_bytes.
Qed.

Lemma words_of_app (S T : list Portable.Block_t) :
  words_of (S ++ T) = words_of S ++ words_of T.
Proof. apply flat_map_app. Qed.

Lemma words_of_length (S : list Portable.Block_t) :
  length (words_of S) = (4 * length S)%nat.
Proof.
  unfold words_of. induction S as [|B S IH]; cbn [flat_map length app] in *; [reflexivity | lia].
Qed.

Lemma round_keys_words_of (S : list Portable.Block_t) :
  FIPS197.round_keys (length S) (words_of S) = S.
Proof.
  induction S as [|[a b c d] S IH]; [reflexivity|].
  cbn [length FIPS197.round_keys words_of flat_map app nth skipn
       Portable.e0 Portable.e1 Portable.e2 Portable.e3].
  f_equal. exact IH.
Qed.

Lemma firstn_S_nth (S : list Portable.Block_t) (j : nat) :
  (j < length S)%nat -> firstn (Datatypes.S j) S = firstn j S ++ [nth j S Portable.zero].
Proof.
  revert j. induction S as [|h t IH]; intros j Hj; [cbn in Hj; lia|].
  destruct j as [|j]; [reflexivity|].
  cbn [firstn nth app]. f_equal. apply IH. cbn in Hj. lia.
Qed.

Lemma firstn_put_nat (S : list Portable.Block_t) (i : nat) (v : Portable.Block_t) :
  (i < length S)%nat ->
  firstn (Datatypes.S i) (Portable.put_nat S i v) = firstn i S ++ [v].
Proof.
  revert i. induction S as [|h t IH]; intros i Hi; [cbn in Hi; lia|].
  destruct i as [|i]; [reflexivity|].
  cbn [Portable.put_nat]. cbn [firstn app]. f_equal. apply IH. cbn in Hi. lia.
Qed.

Lemma nth_firstn_put_nat (S : list Portable.Block_t) (i j : nat) (v : Portable.Block_t) :
  (j < i)%nat -> nth j (Portable.put_nat S i v) Portable.zero = nth j S Portable.zero.
Proof.
  intros Hj. rewrite nth_put_nat.
  destruct (Nat.eqb_spec i j); [lia | reflexivity].
Qed.

Lemma iter_mul {A} (f : A -> A) (n : nat) (x : A) :
  Nat.iter (4 * n) f x = Nat.iter n (Nat.iter 4 f) x.
Proof.
  induction n as [|n IH]; [reflexivity|].
  replace (4 * S n)%nat with (4 + 4 * n)%nat by lia.
  rewrite Nat.iter_add, IH. reflexivity.
Qed.

Lemma Shuffle4_broadcast (B : Portable.Block_t) :
  Portable.Shuffle4 B 0xFF
  = Portable.Blk (Portable.e3 B) (Portable.e3 B) (Portable.e3 B) (Portable.e3 B) /\
  Portable.Shuffle4 B 0xAA
  = Portable.Blk (Portable.e2 B) (Portable.e2 B) (Portable.e2 B) (Portable.e2 B).
Proof. destruct B. split; reflexivity. Qed.

(** The new round key of the AES-128 loop, word by word. *)
Lemma next_key_128 (a b c d i : Z) :
  let g := Z.lxor (Portable.Substitute (rotr32 d 8)) (tab Portable.Roundconstants i) in
  Portable.XOR (Portable.Shuffle4 (Portable.Keygenassist (Portable.Blk a b c d) i) 0xFF)
               (Portable.prefix_xor (Portable.Blk a b c d))
  = let a' := Z.lxor a g in
    let b' := Z.lxor b a' in
    let c' := Z.lxor c b' in
    let d' := Z.lxor d c' in
    Portable.Blk a' b' c' d'.
Proof.
  cbv zeta. rewrite Substitute_rotr, (proj1 (Shuffle4_broadcast _)).
  unfold Portable.XOR, Portable.Keygenassist, Portable.prefix_xor, Portable.Shift4, Portable.XOR.
  cbn [Portable.e0 Portable.e1 Portable.e2 Portable.e3].
  generalize (rotr32 (Portable.Substitute d) 8) (tab Portable.Roundconstants i).
  intros s r. f_equal; bits.
Qed.

Lemma four_words_128 (pre : list Z) (a b c d : Z) (j : nat) :
  length pre = (4 * j)%nat ->
  Nat.iter 4 (FIPS197.next_word 4) (pre ++ [a; b; c; d])
  = pre ++ [a; b; c; d] ++
    words_of [Portable.XOR
                (Portable.Shuffle4
                   (Portable.Keygenassist (Portable.Blk a b c d) (Z.of_nat j)) 0xFF)
                (Portable.prefix_xor (Portable.Blk a b c d))].
Proof.
  intros Hp. cbn [Nat.iter nat_rect].
  rewrite (next_word_window 4 (Z.of_nat j) 0 4 a d pre [a; b; c; d])
    by (try reflexivity; lia).
  change ((0 + 4) mod 4 =? 0) with true. cbv iota.
  change ((0 + 4) / 4) with 1. cbn [app].
  set (a' := Z.lxor a _).
  rewrite (next_word_window 4 (Z.of_nat j) 0 5 b a' pre [a; b; c; d; a'])
    by (try reflexivity; lia).
  change ((0 + 5) mod 4 =? 0) with false. change (6 <? 4) with false. cbv iota. cbn [andb app].
  set (b' := Z.lxor b _).
  rewrite (next_word_window 4 (Z.of_nat j) 0 6 c b' pre [a; b; c; d; a'; b'])
    by (try reflexivity; lia).
  change ((0 + 6) mod 4 =? 0) with false. change (6 <? 4) with false. cbv iota. cbn [andb app].
  set (c' := Z.lxor c _).
  rewrite (next_word_window 4 (Z.of_nat j) 0 7 d c' pre [a; b; c; d; a'; b'; c'])
    by (try reflexivity; lia).
  change ((0 + 7) mod 4 =? 0) with false. change (6 <? 4) with false. cbv iota. cbn [andb app].
  rewrite next_key_128. cbv zeta.
  unfold words_of. cbn [flat_map app Portable.e0 Portable.e1 Portable.e2 Portable.e3].
  subst a' b' c'. unfold FIPS197.SubWord, FIPS197.RotWord, FIPS197.Rcon.
  replace (Z.of_nat j + 1 - 1) with (Z.of_nat j) by lia. reflexivity.
Qed.

Lemma key_words_bytes_block (Key : list Z) :
  FIPS197.key_words 4 Key = words_of [Portable.bytes_block Key].
Proof.
  unfold words_of, Portable.bytes_block. cbn [flat_map app Portable.e0 Portable.e1 Portable.e2 Portable.e3 FIPS197.key_words].
  destruct Key as [|k0 [|k1 [|k2 [|k3 Key]]]]; cbn [skipn nth]; try reflexivity.
  all: destruct Key as [|k4 [|k5 [|k6 [|k7 Key]]]]; cbn [skipn nth]; try reflexivity.
  all: destruct Key as [|k8 [|k9 [|k10 [|k11 Key]]]]; cbn [skipn nth]; try reflexivity.
Qed.

Lemma bytes_block_firstn (K : list Z) :
  Portable.bytes_block (firstn 16 K) = Portable.bytes_block K.
Proof.
  unfold Portable.bytes_block. now rewrite !nth_firstn.
Qed.

Lemma load_key_length (n : nat) (K : list Z) : length (Portable.load_key n K) = n.
Proof.
  revert K. induction n as [|n IH]; intros K; cbn [Portable.load_key length]; auto.
Qed.

Lemma expansion_128_invariant (K : list Z) (j : nat) :
  (j <= 10)%nat ->
  let body := fun i Schedule =>
    let A := Portable.Shuffle4 (Portable.Keygenassist (Portable.key Schedule i) i) 0xFF in
    let T := Portable.XOR A (Portable.prefix_xor (Portable.key Schedule i)) in
    Portable.put Schedule (i + 1) T in
  let S := for_ 0 j body (Portable.load_key 11 K) in
  length S = 11%nat /\
  Nat.iter (4 * j) (FIPS197.next_word 4) (FIPS197.key_words 4 K)
  = words_of (firstn (Datatypes.S j) S).
Proof.
  intros Hj body. induction j as [|j IH].
  - cbn [for_ seq fold_left Nat.mul Nat.iter nat_rect]. split; [apply load_key_length|].
    change (Portable.load_key 11 K)
      with (Portable.bytes_block (firstn 16 K) :: Portable.load_key 10 (skipn 16 K)).
    rewrite bytes_block_firstn. change (firstn 1 (?x :: ?l)) with [x].
    apply key_words_bytes_block.
  - destruct (IH ltac:(lia)) as (HL & HW). clear IH.
    rewrite for_S. set (S := for_ 0 j body _) in *.
    split.
    + unfold body. cbv zeta. unfold Portable.put. now rewrite length_put_nat.
    + replace (4 * Datatypes.S j)%nat with (4 + 4 * j)%nat by lia.
      rewrite Nat.iter_add, HW.
      rewrite firstn_S_nth by lia. rewrite words_of_app.
      unfold body at 1. cbv zeta. unfold Portable.put, Portable.key.
      replace (Z.to_nat (0 + Z.of_nat j + 1)) with (Datatypes.S j) by lia.
      replace (Z.to_nat (0 + Z.of_nat j)) with j by lia.
      rewrite firstn_put_nat by lia.
      rewrite firstn_S_nth by lia. rewrite !words_of_app.
      destruct (nth j S Portable.zero) as [a b c d].
      change (words_of [Portable.Blk a b c d]) with [a; b; c; d].
      rewrite (four_words_128 _ a b c d j).
      * rewrite Z.add_0_l. now rewrite <- !app_assoc.
      * rewrite words_of_length, length_firstn. lia.
Qed.

Lemma prefix_xor_step (a b c d g : Z) :
  Portable.XOR (Portable.Blk g g g g) (Portable.prefix_xor (Portable.Blk a b c d))
  = let a' := Z.lxor a g in
    let b' := Z.lxor b a' in
    let c' := Z.lxor c b' in
    let d' := Z.lxor d c' in
    Portable.Blk a' b' c' d'.
Proof.
  cbv zeta.
  unfold Portable.XOR, Portable.prefix_xor, Portable.Shift4, Portable.XOR.
  cbn [Portable.e0 Portable.e1 Portable.e2 Portable.e3].
  f_equal; bits.
Qed.

Lemma land_1 (i : Z) : Z.land i 1 = i mod 2.
Proof. apply (Z.land_ones i 1). lia. Qed.

(** The new round key of the AES-256 loop at an odd and at an even [i]. *)
Lemma four_words_256_odd (pre : list Z) (P Q : Portable.Block_t) (q : nat) :
  length pre = (8 * q)%nat ->
  Nat.iter 4 (FIPS197.next_word 8) (pre ++ words_of [P; Q])
  = pre ++ words_of [P; Q] ++
    words_of [Portable.XOR
                (Portable.Shuffle4 (Portable.Keygenassist Q (Z.of_nat q)) 0xFF)
                (Portable.prefix_xor P)].
Proof.
  intros Hp. destruct P as [p0 p1 p2 p3], Q as [q0 q1 q2 q3].
  unfold words_of at 1 2.
  cbn [flat_map app Portable.e0 Portable.e1 Portable.e2 Portable.e3 Nat.iter nat_rect].
  rewrite (next_word_window 8 (Z.of_nat q) 0 8 p0 q3 pre [p0; p1; p2; p3; q0; q1; q2; q3])
    by (try reflexivity; lia).
  change ((0 + 8) mod 8 =? 0) with true. cbv iota.
  change ((0 + 8) / 8) with 1. cbn [app].
  set (a' := Z.lxor p0 _).
  rewrite (next_word_window 8 (Z.of_nat q) 0 9 p1 a' pre
             [p0; p1; p2; p3; q0; q1; q2; q3; a']) by (try reflexivity; lia).
  change ((0 + 9) mod 8 =? 0) with false. change ((0 + 9) mod 8 =? 4) with false.
  cbv iota. rewrite andb_false_r. cbn [app].
  set (b' := Z.lxor p1 _).
  rewrite (next_word_window 8 (Z.of_nat q) 0 10 p2 b' pre
             [p0; p1; p2; p3; q0; q1; q2; q3; a'; b']) by (try reflexivity; lia).
  change ((0 + 10) mod 8 =? 0) with false. change ((0 + 10) mod 8 =? 4) with false.
  cbv iota. rewrite andb_false_r. cbn [app].
  set (c' := Z.lxor p2 _).
  rewrite (next_word_window 8 (Z.of_nat q) 0 11 p3 c' pre
             [p0; p1; p2; p3; q0; q1; q2; q3; a'; b'; c']) by (try reflexivity; lia).
  change ((0 + 11) mod 8 =? 0) with false. change ((0 + 11) mod 8 =? 4) with false.
  cbv iota. rewrite andb_false_r. cbn [app].
  rewrite (proj1 (Shuffle4_broadcast _)).
  unfold Portable.Keygenassist at 1 2 3 4. cbn [Portable.e0 Portable.e1 Portable.e2 Portable.e3].
  rewrite prefix_xor_step. cbv zeta.
  unfold words_of. cbn [flat_map app Portable.e0 Portable.e1 Portable.e2 Portable.e3].
  subst a' b' c'. unfold FIPS197.SubWord, FIPS197.RotWord, FIPS197.Rcon.
  rewrite Substitute_rotr.
  replace (Z.of_nat q + 1 - 1) with (Z.of_nat q) by lia. reflexivity.
Qed.

Lemma four_words_256_even (pre : list Z) (P Q : Portable.Block_t) (q : nat) :
  length pre = (8 * q + 4)%nat ->
  Nat.iter 4 (FIPS197.next_word 8) (pre ++ words_of [P; Q])
  = pre ++ words_of [P; Q] ++
    words_of [Portable.XOR
                (Portable.Shuffle4 (Portable.Keygenassist Q 0) 0xAA)
                (Portable.prefix_xor P)].
Proof.
  intros Hp. destruct P as [p0 p1 p2 p3], Q as [q0 q1 q2 q3].
  unfold words_of at 1 2.
  cbn [flat_map app Portable.e0 Portable.e1 Portable.e2 Portable.e3 Nat.iter nat_rect].
  rewrite (next_word_window 8 (Z.of_nat q) 4 8 p0 q3 pre [p0; p1; p2; p3; q0; q1; q2; q3])
    by (try reflexivity; lia).
  change ((4 + 8) mod 8 =? 0) with false. change ((4 + 8) mod 8 =? 4) with true.
  change (6 <? 8) with true. cbv iota. cbn [andb app].
  set (a' := Z.lxor p0 _).
  rewrite (next_word_window 8 (Z.of_nat q) 4 9 p1 a' pre
             [p0; p1; p2; p3; q0; q1; q2; q3; a']) by (try reflexivity; lia).
  change ((4 + 9) mod 8 =? 0) with false. change ((4 + 9) mod 8 =? 4) with false.
  cbv iota. rewrite andb_false_r. cbn [app].
  set (b' := Z.lxor p1 _).
  rewrite (next_word_window 8 (Z.of_nat q) 4 10 p2 b' pre
             [p0; p1; p2; p3; q0; q1; q2; q3; a'; b']) by (try reflexivity; lia).
  change ((4 + 10) mod 8 =? 0) with false. change ((4 + 10) mod 8 =? 4) with false.
  cbv iota. rewrite andb_false_r. cbn [app].
  set (c' := Z.lxor p2 _).
  rewrite (next_word_window 8 (Z.of_nat q) 4 11 p3 c' pre
             [p0; p1; p2; p3; q0; q1; q2; q3; a'; b'; c']) by (try reflexivity; lia).
  change ((4 + 11) mod 8 =? 0) with false. change ((4 + 11) mod 8 =? 4) with false.
  cbv iota. rewrite andb_false_r. cbn [app].
  rewrite (proj2 (Shuffle4_broadcast _)).
  unfold Portable.Keygenassist at 1 2 3 4. cbn [Portable.e0 Portable.e1 Portable.e2 Portable.e3].
  rewrite prefix_xor_step. cbv zeta.
  unfold words_of. cbn [flat_map app Portable.e0 Portable.e1 Portable.e2 Portable.e3].
  subst a' b' c'. unfold FIPS197.SubWord. reflexivity.
Qed.

Lemma key_words_add (n m : nat) (K : list Z) :
  FIPS197.key_words (n + m) K
  = FIPS197.key_words n K ++ FIPS197.key_words m (skipn (4 * n) K).
Proof.
  revert K. induction n as [|n IH]; intros K; [reflexivity|].
  cbn [Nat.add FIPS197.key_words app]. rewrite IH, skipn_skipn.
  replace (4 * n + 4)%nat with (4 * S n)%nat by lia. reflexivity.
Qed.

Lemma key_words_two_blocks (K : list Z) :
  FIPS197.key_words 8 K
  = words_of [Portable.bytes_block K; Portable.bytes_block (skipn 16 K)].
Proof.
  change 8%nat with (4 + 4)%nat.
  rewrite (key_words_add 4 4 K), !key_words_bytes_block. reflexivity.
Qed.

Lemma expansion_256_invariant (K : list Z) (j : nat) :
  (j <= 13)%nat ->
  let body := fun i Schedule =>
    let A := if negb (Z.land i 1 =? 0)
             then Portable.Shuffle4
                    (Portable.Keygenassist (Portable.key Schedule i) (i / 2)) 0xFF
             else Portable.Shuffle4 (Portable.Keygenassist (Portable.key Schedule i) 0) 0xAA in
    let T := Portable.XOR A (Portable.prefix_xor (Portable.key Schedule (i - 1))) in
    Portable.put Schedule (i + 1) T in
  let S := for_ 1 j body (Portable.load_key 15 K) in
  length S = 15%nat /\
  Nat.iter (4 * j) (FIPS197.next_word 8) (FIPS197.key_words 8 K)
  = words_of (firstn (Datatypes.S (Datatypes.S j)) S).
Proof.
  intros Hj body. induction j as [|j IH].
  - cbn [for_ seq fold_left Nat.mul Nat.iter nat_rect]. split; [apply load_key_length|].
    change (Portable.load_key 15 K)
      with (Portable.bytes_block (firstn 16 K)
            :: Portable.bytes_block (firstn 16 (skipn 16 K))
            :: Portable.load_key 13 (skipn 16 (skipn 16 K))).
    rewrite !bytes_block_firstn. change (firstn 2 (?x :: ?y :: ?l)) with [x; y].
    apply key_words_two_blocks.
  - destruct (IH ltac:(lia)) as (HL & HW). clear IH.
    rewrite for_S. set (S := for_ 1 j body _) in *.
    split.
    + unfold body. cbv zeta. unfold Portable.put. now rewrite length_put_nat.
    + replace (4 * Datatypes.S j)%nat with (4 + 4 * j)%nat by lia.
      rewrite Nat.iter_add, HW.
      rewrite (firstn_S_nth S (Datatypes.S j)) by lia.
      rewrite (firstn_S_nth S j) by lia.
      rewrite <- app_assoc. cbn [app]. rewrite words_of_app.
      unfold body at 1. cbv zeta. unfold Portable.put, Portable.key.
      replace (Z.to_nat (1 + Z.of_nat j + 1)) with (Datatypes.S (Datatypes.S j)) by lia.
      replace (Z.to_nat (1 + Z.of_nat j)) with (Datatypes.S j) by lia.
      replace (Z.to_nat (1 + Z.of_nat j - 1)) with j by lia.
      rewrite firstn_put_nat by lia.
      rewrite (firstn_S_nth S (Datatypes.S j)) by lia.
      rewrite (firstn_S_nth S j) by lia.
      rewrite <- !app_assoc. cbn [app]. rewrite !words_of_app.
      set (P := nth j S Portable.zero). set (Q := nth (Datatypes.S j) S Portable.zero).
      assert (Hpre : length (words_of (firstn j S)) = (4 * j)%nat)
        by (rewrite words_of_length, length_firstn; lia).
      rewrite land_1.
      destruct (Nat.Even_or_Odd j) as [[q Hq]|[q Hq]].
      * replace ((1 + Z.of_nat j) mod 2) with 1
          by (apply (Z.mod_unique _ _ (Z.of_nat q) 1); lia).
        change (negb (1 =? 0)) with true. cbv iota.
        replace ((1 + Z.of_nat j) / 2) with (Z.of_nat q)
          by (apply (Z.div_unique _ _ (Z.of_nat q) 1); lia).
        rewrite (four_words_256_odd _ P Q q) by lia.
        change (words_of [P; Q]) with (words_of [P] ++ words_of [Q]).
        now rewrite <- !app_assoc.
      * replace ((1 + Z.of_nat j) mod 2) with 0
          by (apply (Z.mod_unique _ _ (Z.of_nat q + 1) 0); lia).
        change (negb (0 =? 0)) with false. cbv iota.
        rewrite (four_words_256_even _ P Q q) by lia.
        change (words_of [P; Q]) with (words_of [P] ++ words_of [Q]).
        now rewrite <- !app_assoc.
Qed.



(** ** The block drivers over a sequence of blocks *)



Section StreamLoops.
Context `{Path}.

Lemma loop16_stream (Input : list Z) (step : Block -> Block -> option (Block * Block))
    (body : Z -> Block * list Z -> option (Block * list Z)) :
  (forall i State Buffer,
     body i (State, Buffer)
     = (Block <- Modes.read_block Input i ;;
        r <- step State Block ;;
        Buffer <- Modes.write_block Buffer i (fst r) ;;
        Some (snd r, Buffer))) ->
  forall m consumed rest pre tailbuf State,
    consumed ++ rest = Input ->
    length consumed = length pre ->
    length rest = (16 * m)%nat ->
    (16 * m <= length tailbuf)%nat ->
    Modes.loop16 m (Modes.size pre) body (State, pre ++ tailbuf)
    = (r <- stream step m State rest ;;
       Some (snd r, pre ++ fst r ++ skipn (16 * m) tailbuf)).
Proof.
  intros Hbody. induction m as [|m IH]; intros consumed rest pre tailbuf State Hi Hc Hr Ht.
  - cbn [Modes.loop16 stream bind fst snd app skipn Nat.mul]. reflexivity.
  - cbn [Modes.loop16 stream]. rewrite Hbody. rewrite <- Hi.
    replace (Modes.size pre) with (Modes.size consumed) at 1
      by (unfold Modes.size; now rewrite Hc).
    rewrite read_block_at by lia. cbn [bind].
    destruct (step State (of_bytes (firstn 16 rest))) as [[Out State']|]; cbn [bind fst snd];
      [|reflexivity].
    rewrite write_block_at by lia. cbn [bind].
    set (out := to_bytes Out).
    assert (Hout : length out = 16%nat) by apply to_bytes_length.
    replace (Modes.size pre + 16) with (Modes.size (pre ++ out))
      by (rewrite size_app; unfold Modes.size; lia).
    rewrite app_assoc.
    rewrite (IH (consumed ++ firstn 16 rest) (skipn 16 rest) (pre ++ out)
               (skipn 16 tailbuf) State').
    + destruct (stream step m State' (skipn 16 rest)) as [[outs St]|]; cbn [bind fst snd];
        [|reflexivity].
      rewrite skipn_skipn. rewrite <- !app_assoc.
      replace (16 * m + 16)%nat with (16 * S m)%nat by lia. reflexivity.
    + rewrite <- app_assoc, firstn_skipn. exact Hi.
    + rewrite !length_app, length_firstn, Hout. lia.
    + rewrite length_skipn. lia.
    + rewrite length_skipn. lia.
Qed.

Lemma stream_length step n State l out St :
  stream step n State l = Some (out, St) -> length out = (16 * n)%nat.
Proof.
  revert State l out St. induction n as [|n IH]; intros State l out St; cbn [stream].
  - intros E. injection E as <- <-. reflexivity.
  - destruct (step State _) as [[O S']|]; cbn [bind fst snd]; [|discriminate].
    destruct (stream step n S' _) as [[outs Sn]|] eqn:E; cbn [bind fst snd]; [|discriminate].
    intros E'. injection E' as <- <-.
    rewrite length_app, to_bytes_length, (IH _ _ _ _ E). lia.
Qed.

(** A mode function on [n] whole blocks, from its loop. *)
Lemma mode_stream (Input : list Z) (n : nat)
    (step : Block -> Block -> option (Block * Block))
    (body : Z -> Block * list Z -> option (Block * list Z)) (State : Block) :
  (forall i State Buffer,
     body i (State, Buffer)
     = (Block <- Modes.read_block Input i ;;
        r <- step State Block ;;
        Buffer <- Modes.write_block Buffer i (fst r) ;;
        Some (snd r, Buffer))) ->
  length Input = (16 * n)%nat ->
  (r <- Modes.loop16 (Modes.trips Input) 0 body (State, repeat 0 (length Input)) ;;
   Some (snd r))
  = (r <- stream step n State Input ;; Some (fst r)).
Proof.
  intros Hbody Hn. rewrite (trips_aligned _ _ Hn).
  pose proof (loop16_stream Input step body Hbody n [] Input [] (repeat 0 (length Input))
                State eq_refl eq_refl Hn) as L.
  cbn [app Modes.size length Z.of_nat] in L. rewrite L by (rewrite repeat_length; lia).
  destruct (stream step n State Input) as [[out St]|]; cbn [bind fst snd]; [|reflexivity].
  rewrite skipn_all2, app_nil_r by (rewrite repeat_length; lia). reflexivity.
Qed.

End StreamLoops.

(** ** ECB, block by block *)

Section ECB.
Context `{Path}.

Lemma nth_block_map_blocks (f : Block -> Block) (n k : nat) (l : list Z) :
  (k < n)%nat ->
  nth_block k (map_blocks f n l) = to_bytes (f (of_bytes (nth_block k l))).
Proof.
  unfold nth_block. revert k l. induction n as [|n IH]; intros k l Hk; [lia|].
  cbn [map_blocks]. destruct k as [|k].
  - replace (16 * 0)%nat with 0%nat by lia. rewrite !skipn_O.
    rewrite firstn_app, to_bytes_length, Nat.sub_diag, firstn_O, app_nil_r.
    apply firstn_all2. rewrite to_bytes_length. lia.
  - replace (16 * S k)%nat with (16 * k + 16)%nat by lia.
    rewrite <- !skipn_skipn.
    rewrite (skipn_app 16), to_bytes_length, Nat.sub_diag, skipn_O.
    rewrite (skipn_all2 (n := 16)) by (rewrite to_bytes_length; lia).
    rewrite app_nil_l. apply IH. lia.
Qed.

Lemma Unpadded_ECB_aligned (Keysize Rounds : Z) (Input Key : list Z) (n : nat) :
  length Input = (16 * n)%nat ->
  Modes.Unpadded.Encrypt_ECB Keysize Rounds Input Key
  = Some (map_blocks (fun B => Encryptblock Rounds B (Keyexpansion Keysize Rounds Key))
            n Input) /\
  Modes.Unpadded.Decrypt_ECB Keysize Rounds Input Key
  = Some (map_blocks (fun B => Decryptblock Rounds B (Keyexpansion Keysize Rounds Key))
            n Input).
Proof.
  intros Hn. unfold Modes.Unpadded.Encrypt_ECB, Modes.Unpadded.Decrypt_ECB. cbv zeta.
  rewrite (trips_aligned _ _ Hn).
  split.
  - pose proof (loop16_blocks (fun B => Encryptblock Rounds B (Keyexpansion Keysize Rounds Key))
                  n [] Input [] (repeat 0 (length Input)) eq_refl Hn) as L.
    cbn [app Modes.size length Z.of_nat] in L. rewrite L by (rewrite repeat_length; lia).
    now rewrite skipn_all2, app_nil_r by (rewrite repeat_length; lia).
  - pose proof (loop16_blocks (fun B => Decryptblock Rounds B (Keyexpansion Keysize Rounds Key))
                  n [] Input [] (repeat 0 (length Input)) eq_refl Hn) as L.
    cbn [app Modes.size length Z.of_nat] in L. rewrite L by (rewrite repeat_length; lia).
    now rewrite skipn_all2, app_nil_r by (rewrite repeat_length; lia).
Qed.


End ECB.


(** ** CFB and CTR at the level of the mode functions *)

Lemma Forall_byte_firstn_skipn (n : nat) (l : list Z) :
  Forall byte l -> Forall byte (firstn n l) /\ Forall byte (skipn n l).
Proof. apply Forall_firstn_skipn. Qed.

Lemma firstn_block_bytes_app (B : Portable.Block_t) (l : list Z) :
  firstn 16 (Portable.block_bytes B ++ l) = Portable.block_bytes B /\
  skipn 16 (Portable.block_bytes B ++ l) = l.
Proof.
  split.
  - rewrite firstn_app. change (length (Portable.block_bytes B)) with 16%nat.
    rewrite Nat.sub_diag, firstn_O, app_nil_r. now apply firstn_all2.
  - rewrite skipn_app. change (length (Portable.block_bytes B)) with 16%nat.
    rewrite Nat.sub_diag, skipn_O. now rewrite skipn_all2.
Qed.

Lemma CFB_stream_round_trip (Rounds : Z) (Keys : list Portable.Block_t) (n : nat) :
  Forall block Keys ->
  forall (State : Portable.Block_t) (l : list Z),
    length l = (16 * n)%nat -> Forall byte l ->
    exists C St,
      stream (H := Portable_path)
        (fun State Block =>
           Some (Portable.XOR Block (Portable.Encryptblock Rounds State Keys),
                 Portable.XOR Block (Portable.Encryptblock Rounds State Keys)))
        n State l = Some (C, St) /\
      stream (H := Portable_path)
        (fun State Block =>
           Some (Portable.XOR Block (Portable.Encryptblock Rounds State Keys), Block))
        n State C = Some (l, St).
Proof.
  intros HK. induction n as [|n IH]; intros State l Hl Hb.
  - destruct l; [|discriminate]. exists [], State. split; reflexivity.
  - cbn [stream bind fst snd].
    set (B := of_bytes (firstn 16 l)).
    set (C0 := Portable.XOR B (Portable.Encryptblock Rounds State Keys)).
    destruct (Forall_byte_firstn_skipn 16 l Hb) as (Hf & Hs).
    assert (HB : block B) by (apply bytes_block_block, Hf).
    assert (HC0 : block C0)
      by (apply XOR_block; [exact HB | apply Encryptblock_block, HK]).
    destruct (IH C0 (skipn 16 l)) as (C & St & HE & HD); [rewrite length_skipn; lia | exact Hs |].
    rewrite HE. cbn [bind fst snd].
    exists (Portable.block_bytes C0 ++ C), St. split; [reflexivity|].
    cbn [to_bytes of_bytes Portable_path].
    destruct (firstn_block_bytes_app C0 C) as (E1 & E2). rewrite E1, E2.
    rewrite (bytes_block_block_bytes C0 HC0).
    cbn [to_bytes of_bytes Portable_path] in HD. rewrite HD. cbn [bind fst snd].
    unfold C0 at 1. rewrite XOR_cancel_r.
    unfold B. cbn [of_bytes Portable_path].
    rewrite block_bytes_bytes_block by (try exact Hf; rewrite length_firstn; lia).
    now rewrite firstn_skipn.
Qed.



Lemma for_opt_S {S} (from : Z) (n : nat) (body : Z -> S -> option S) (s : S) :
  for_opt from (Datatypes.S n) body s
  = (s' <- for_opt from n body s ;; body (from + Z.of_nat n) s').
Proof. unfold for_opt. rewrite seq_S, fold_left_app. reflexivity. Qed.

Lemma for_opt_invariant {S} (P : S -> Prop) (from : Z) (n : nat)
    (body : Z -> S -> option S) (s : S) :
  (forall k s, (k < n)%nat -> P s -> exists s', body (from + Z.of_nat k) s = Some s' /\ P s') ->
  P s -> exists s', for_opt from n body s = Some s' /\ P s'.
Proof.
  intros Hb Hs. induction n as [|n IH].
  - exists s. split; [reflexivity | exact Hs].
  - destruct IH as (s1 & E1 & P1); [intros k s0 Hk; apply Hb; lia|].
    rewrite for_opt_S, E1. cbn [bind]. apply Hb; [lia | exact P1].
Qed.

Lemma store_nat_some {A} (l : list A) (i : nat) (v : A) :
  (i < length l)%nat -> exists l', store_nat l i v = Some l' /\ length l' = length l.
Proof.
  revert i. induction l as [|h t IH]; intros i Hi; [cbn in Hi; lia|].
  destruct i as [|i]; cbn [store_nat].
  - eexists. split; reflexivity.
  - destruct (IH i) as (t' & E & L); [cbn in Hi; lia|].
    rewrite E. cbn [option_map]. eexists. split; [reflexivity|]. cbn. now rewrite L.
Qed.

Lemma bump_some (NC : list Z) (i : Z) :
  0 <= i < Z.of_nat (length NC) ->
  exists NC', bump NC i = Some NC' /\ length NC' = length NC.
Proof.
  intros Hi. unfold bump, load, store.
  destruct (Z.ltb_spec i 0); [lia|].
  destruct (nth_error NC (Z.to_nat i)) as [v|] eqn:E.
  - cbn [bind]. apply store_nat_some. lia.
  - apply nth_error_None in E. lia.
Qed.

(** The counter step is defined on every 16-byte state as long as the
    counter is narrower than the block. *)
Lemma Increment_defined (Countersize : Z) (Bigendian : bool) (NC : list Z) :
  length NC = 16%nat -> 0 <= Countersize -> Countersize / 8 <= 15 ->
  exists NC', Increment Countersize Bigendian NC = Some NC' /\ length NC' = 16%nat.
Proof.
  intros HL H0 H15. unfold Increment.
  assert (Hn : (Z.to_nat (Countersize / 8) <= 15)%nat) by lia.
  destruct Bigendian.
  - destruct (bump_some NC 15) as (NC1 & E1 & L1); [lia|]. rewrite E1. cbn [bind].
    apply (for_opt_invariant (fun s => length s = 16%nat)); [|lia].
    intros k s Hk Hs. unfold load.
    destruct (Z.ltb_spec (15 - (0 + Z.of_nat k)) 0); [lia|].
    destruct (nth_error s (Z.to_nat (15 - (0 + Z.of_nat k)))) as [v|] eqn:E;
      [|apply nth_error_None in E; lia].
    cbn [bind]. destruct (v =? 0).
    + destruct (bump_some s (14 - (0 + Z.of_nat k))) as (s' & E' & L'); [lia|].
      exists s'. split; [exact E' | lia].
    + exists s. split; [reflexivity | exact Hs].
  - destruct (bump_some NC 0) as (NC1 & E1 & L1); [lia|]. rewrite E1. cbn [bind].
    apply (for_opt_invariant (fun s => length s = 16%nat)); [|lia].
    intros k s Hk Hs. unfold load.
    destruct (Z.ltb_spec (0 + Z.of_nat k) 0); [lia|].
    destruct (nth_error s (Z.to_nat (0 + Z.of_nat k))) as [v|] eqn:E;
      [|apply nth_error_None in E; lia].
    cbn [bind]. destruct (v =? 0).
    + destruct (bump_some s (0 + Z.of_nat k + 1)) as (s' & E' & L'); [lia|].
      exists s'. split; [exact E' | lia].
    + exists s. split; [reflexivity | exact Hs].
Qed.

Lemma increment_defined (Countersize : Z) (Bigendian : bool) (State : Portable.Block_t) :
  0 <= Countersize -> Countersize / 8 <= 15 ->
  exists State', Modes.increment (H := Portable_path) Countersize Bigendian State = Some State'.
Proof.
  intros H0 H15. unfold Modes.increment. cbn [to_bytes of_bytes Portable_path].
  destruct (Increment_defined Countersize Bigendian (Portable.block_bytes State)
              eq_refl H0 H15) as (NC & EI & _).
  rewrite EI. cbn [bind]. eexists. reflexivity.
Qed.

Lemma CTR_stream_round_trip (Rounds Countersize : Z) (Bigendian : bool)
    (Keys : list Portable.Block_t) (n : nat) :
  Forall block Keys -> 0 <= Countersize -> Countersize / 8 <= 15 ->
  forall (State : Portable.Block_t) (l : list Z),
    length l = (16 * n)%nat -> Forall byte l ->
    exists C St,
      stream (H := Portable_path)
        (fun State Block =>
           r <- Modes.increment (H := Portable_path) Countersize Bigendian State ;;
           Some (Portable.XOR Block (Portable.Encryptblock Rounds State Keys), r))
        n State l = Some (C, St) /\
      stream (H := Portable_path)
        (fun State Block =>
           r <- Modes.increment (H := Portable_path) Countersize Bigendian State ;;
           Some (Portable.XOR Block (Portable.Encryptblock Rounds State Keys), r))
        n State C = Some (l, St).
Proof.
  intros HK H0 H15. induction n as [|n IH]; intros State l Hl Hb.
  - destruct l; [|discriminate]. exists [], State. split; reflexivity.
  - cbn [stream].
    destruct (increment_defined Countersize Bigendian State H0 H15) as (S1 & EI).
    rewrite EI. cbn [bind fst snd to_bytes of_bytes Portable_path].
    set (B := Portable.bytes_block (firstn 16 l)).
    set (C0 := Portable.XOR B (Portable.Encryptblock Rounds State Keys)).
    destruct (Forall_byte_firstn_skipn 16 l Hb) as (Hf & Hs).
    assert (HB : block B) by (apply bytes_block_block, Hf).
    assert (HC0 : block C0)
      by (apply XOR_block; [exact HB | apply Encryptblock_block, HK]).
    destruct (IH S1 (skipn 16 l)) as (C & St & HE & HD);
      [rewrite length_skipn; lia | exact Hs |].
    rewrite HE. cbn [bind fst snd].
    exists (Portable.block_bytes C0 ++ C), St. split; [reflexivity|].
    destruct (firstn_block_bytes_app C0 C) as (E1 & E2). rewrite E1, E2.
    rewrite (bytes_block_block_bytes C0 HC0).
    rewrite HD. cbn [bind fst snd].
    unfold C0 at 1. rewrite XOR_cancel_r.
    unfold B.
    rewrite block_bytes_bytes_block by (try exact Hf; rewrite length_firstn; lia).
    now rewrite firstn_skipn.
Qed.



(** ** XEX and XTS on the portable path *)

Lemma trips_nonempty (Input : list Z) :
  Input <> [] -> exists m, Modes.trips Input = S m.
Proof.
  intros Hne. unfold Modes.trips, Modes.size.
  destruct Input as [|x t]; [contradiction|].
  exists (Z.to_nat ((Z.of_nat (length (x :: t)) + 15) / 16) - 1)%nat.
  assert (1 <= (Z.of_nat (length (x :: t)) + 15) / 16).
  { apply Z.div_le_lower_bound; cbn [length]; lia. }
  lia.
Qed.

Lemma loop16_undefined {S} (body : Z -> S -> option S) (m : nat) (i : Z) (s : S) :
  (forall i s, body i s = None) -> Modes.loop16 (Datatypes.S m) i body s = None.
Proof. intros Hb. cbn [Modes.loop16]. now rewrite Hb. Qed.



(** ** Padded encryption of whole blocks *)

Section PaddedAligned.
Context `{Path}.

Lemma Unpadded_CBC_stream (Keysize Rounds : Z) (Input Key IV : list Z) (n : nat) :
  length Input = (16 * n)%nat ->
  Modes.Unpadded.Encrypt_CBC Keysize Rounds Input Key IV
  = (r <- stream (fun State Block =>
                    Some (Encryptblock Rounds (XOR State Block)
                            (Keyexpansion Keysize Rounds Key),
                          Encryptblock Rounds (XOR State Block)
                            (Keyexpansion Keysize Rounds Key)))
            n (of_bytes IV) Input ;;
     Some (fst r)).
Proof.
  intros Hn. unfold Modes.Unpadded.Encrypt_CBC. cbv zeta.
  apply mode_stream; [|exact Hn].
  intros i State Buffer. reflexivity.
Qed.


End PaddedAligned.


(** ** Padded stream modes on whole blocks *)

Section PaddedStreams.
Context `{Path}.

Lemma stream_app (step : Block -> Block -> option (Block * Block)) (n : nat) :
  forall (State : Block) (l p : list Z),
    length l = (16 * n)%nat -> length p = 16%nat ->
    stream step (n + 1) State (l ++ p)
    = (r <- stream step n State l ;;
       r1 <- step (snd r) (of_bytes p) ;;
       Some (fst r ++ to_bytes (fst r1), snd r1)).
Proof.
  induction n as [|n IH]; intros State l p Hl Hp.
  - destruct l; [|discriminate]. cbn [Nat.add stream app bind fst snd].
    rewrite firstn_all2 by lia.
    destruct (step State (of_bytes p)) as [[O S']|]; cbn [bind fst snd]; [|reflexivity].
    now rewrite app_nil_r.
  - cbn [Nat.add stream].
    rewrite firstn_app, skipn_app.
    replace (16 - length l)%nat with 0%nat by lia.
    rewrite firstn_O, skipn_O, app_nil_r.
    destruct (step State (of_bytes (firstn 16 l))) as [[O S']|]; cbn [bind fst snd];
      [|reflexivity].
    rewrite IH by (try rewrite length_skipn; lia).
    destruct (stream step n S' (skipn 16 l)) as [[outs Sn]|]; cbn [bind fst snd];
      [|reflexivity].
    destruct (step Sn (of_bytes p)) as [[O1 S1]|]; cbn [bind fst snd]; [|reflexivity].
    now rewrite app_assoc.
Qed.

(** The loop of a padded Encrypt on [n] whole blocks leaves the sixteen
    bytes of the last block untouched. *)
Lemma padded_loop_stream (Input : list Z) (n : nat)
    (step : Block -> Block -> option (Block * Block))
    (body : Z -> Block * list Z -> option (Block * list Z)) (State : Block) :
  (forall i State Buffer,
     body i (State, Buffer)
     = (Block <- Modes.read_block Input i ;;
        r <- step State Block ;;
        Buffer <- Modes.write_block Buffer i (fst r) ;;
        Some (snd r, Buffer))) ->
  length Input = (16 * n)%nat ->
  Modes.loop16 (Modes.trips Input) 0 body
    (State, repeat 0 (Z.to_nat (Modes.size Input + 16)))
  = (r <- stream step n State Input ;; Some (snd r, fst r ++ repeat 0 16)).
Proof.
  intros Hbody Hn. rewrite (trips_aligned _ _ Hn).
  pose proof (loop16_stream Input step body Hbody n [] Input []
                (repeat 0 (Z.to_nat (Modes.size Input + 16))) State eq_refl eq_refl Hn) as L.
  cbn [app Modes.size length Z.of_nat] in L.
  rewrite L by (rewrite repeat_length; unfold Modes.size; lia).
  destruct (stream step n State Input) as [[out St]|]; cbn [bind fst snd]; [|reflexivity].
  replace (Z.to_nat (Modes.size Input + 16)) with (16 * n + 16)%nat
    by (unfold Modes.size; lia).
  rewrite repeat_app, skipn_app, repeat_length, Nat.sub_diag, skipn_O.
  rewrite (skipn_all2 (n := (16 * n)%nat)) by (rewrite repeat_length; lia).
  reflexivity.
Qed.

Lemma write_last_block (out : list Z) (Input : list Z) (n : nat) (B : Block) :
  length out = (16 * n)%nat -> length Input = (16 * n)%nat ->
  Modes.write_block (out ++ repeat 0 16) (Modes.size Input) B = Some (out ++ to_bytes B).
Proof.
  intros Ho Hn.
  replace (Modes.size Input) with (Modes.size out) by (unfold Modes.size; lia).
  rewrite write_block_at by (rewrite repeat_length; lia).
  rewrite (skipn_all2 (n := 16%nat)) by (rewrite repeat_length; lia).
  now rewrite app_nil_r.
Qed.

End PaddedStreams.

Section PaddedStreamModes.
Context `{Path}.

Lemma Padded_CFB_stream (Keysize Rounds : Z) (Input Key IV : list Z) (n : nat) :
  length Input = (16 * n)%nat ->
  let Keys := Keyexpansion Keysize Rounds Key in
  let padding := of_bytes (if constant_evaluated then repeat 0 16 else repeat 16 16) in
  Modes.Padded.Encrypt_CFB Keysize Rounds Input Key IV
  = (r <- stream (fun State Block =>
                    Some (XOR Block (Encryptblock Rounds State Keys),
                          XOR Block (Encryptblock Rounds State Keys)))
            n (of_bytes IV) Input ;;
     Some (fst r ++ to_bytes (XOR padding (Encryptblock Rounds (snd r) Keys)))).
Proof.
  intros Hn Keys padding.
  unfold Modes.Padded.Encrypt_CFB, Modes.last_block. cbv zeta.
  rewrite (aligned_land _ _ Hn). fold Keys.
  change (wrap8 (16 - 0)) with 16. rewrite Z.sub_0_r.
  change (Z.to_nat 0) with 0%nat. rewrite firstn_O, skipn_O, app_nil_l, Nat.sub_0_r.
  fold padding.
  rewrite (padded_loop_stream Input n
             (fun State Block =>
                Some (XOR Block (Encryptblock Rounds State Keys),
                      XOR Block (Encryptblock Rounds State Keys))));
    [|intros; reflexivity|exact Hn].
  destruct (stream _ n (of_bytes IV) Input) as [[out St]|] eqn:E; cbn [bind fst snd];
    [|reflexivity].
  apply (write_last_block out Input n); [|exact Hn].
  apply (stream_length _ _ _ _ _ _ E).
Qed.

Lemma Padded_CTR_stream (Countersize : Z) (Bigendian : bool) (Keysize Rounds : Z)
    (Input Key IV : list Z) (n : nat) :
  length Input = (16 * n)%nat ->
  let Keys := Keyexpansion Keysize Rounds Key in
  let padding := of_bytes (if constant_evaluated then repeat 0 16 else repeat 16 16) in
  Modes.Padded.Encrypt_CTR Countersize Bigendian Keysize Rounds Input Key IV
  = (r <- stream (fun State Block =>
                    r <- Modes.increment Countersize Bigendian State ;;
                    Some (XOR Block (Encryptblock Rounds State Keys), r))
            n (of_bytes IV) Input ;;
     Some (fst r ++ to_bytes (XOR padding (Encryptblock Rounds (snd r) Keys)))).
Proof.
  intros Hn Keys padding.
  unfold Modes.Padded.Encrypt_CTR, Modes.last_block. cbv zeta.
  rewrite (aligned_land _ _ Hn). fold Keys.
  change (wrap8 (16 - 0)) with 16. rewrite Z.sub_0_r.
  change (Z.to_nat 0) with 0%nat. rewrite firstn_O, skipn_O, app_nil_l, Nat.sub_0_r.
  fold padding.
  rewrite (padded_loop_stream Input n
             (fun State Block =>
                r <- Modes.increment Countersize Bigendian State ;;
                Some (XOR Block (Encryptblock Rounds State Keys), r))).
  - destruct (stream _ n (of_bytes IV) Input) as [[out St]|] eqn:E; cbn [bind fst snd];
      [|reflexivity].
    apply (write_last_block out Input n); [|exact Hn].
    apply (stream_length _ _ _ _ _ _ E).
  - intros i State Buffer.
    destruct (Modes.read_block Input i) as [Blk|]; cbn [bind]; [|reflexivity].
    destruct (Modes.increment Countersize Bigendian State) as [S'|]; cbn [bind fst snd];
      destruct (Modes.write_block Buffer i _); reflexivity.
  - exact Hn.
Qed.

Lemma Padded_Decrypt_CFB_stream (Keysize Rounds : Z) (Input Key IV : list Z) (n : nat) :
  length Input = (16 * n)%nat ->
  Modes.Padded.Decrypt_CFB Keysize Rounds Input Key IV
  = Modes.finish
      (r <- stream (fun State Block =>
                      Some (XOR Block (Encryptblock Rounds State
                                         (Keyexpansion Keysize Rounds Key)), Block))
              n (of_bytes IV) Input ;;
       Some (fst r))
      Modes.remove_padding.
Proof.
  intros Hn. unfold Modes.Padded.Decrypt_CFB, Modes.Padded.blocks_CFB.
  rewrite (aligned_land _ _ Hn). cbn [Z.eqb negb]. cbv zeta.
  rewrite (mode_stream Input n
             (fun State Block =>
                Some (XOR Block (Encryptblock Rounds State
                                   (Keyexpansion Keysize Rounds Key)), Block)));
    [reflexivity| |exact Hn].
  intros i State Buffer. reflexivity.
Qed.

Lemma Padded_Decrypt_CTR_stream (Countersize : Z) (Bigendian : bool) (Keysize Rounds : Z)
    (Input Key IV : list Z) (n : nat) :
  length Input = (16 * n)%nat ->
  Modes.Padded.Decrypt_CTR Countersize Bigendian Keysize Rounds Input Key IV
  = Modes.finish
      (r <- stream (fun State Block =>
                      r <- Modes.increment Countersize Bigendian State ;;
                      Some (XOR Block (Encryptblock Rounds State
                                         (Keyexpansion Keysize Rounds Key)), r))
              n (of_bytes IV) Input ;;
       Some (fst r))
      Modes.remove_padding.
Proof.
  intros Hn. unfold Modes.Padded.Decrypt_CTR, Modes.Padded.blocks_CTR.
  rewrite (aligned_land _ _ Hn). cbn [Z.eqb negb]. cbv zeta.
  rewrite (mode_stream Input n
             (fun State Block =>
                r <- Modes.increment Countersize Bigendian State ;;
                Some (XOR Block (Encryptblock Rounds State
                                   (Keyexpansion Keysize Rounds Key)), r)));
    [reflexivity| |exact Hn].
  intros i State Buffer.
  destruct (Modes.read_block Input i) as [Blk|]; cbn [bind]; [|reflexivity].
  destruct (Modes.increment Countersize Bigendian State) as [S'|]; cbn [bind fst snd];
    destruct (Modes.write_block Buffer i _); reflexivity.
Qed.

End PaddedStreamModes.

Lemma last_padded (P : list Z) (v : Z) : last (P ++ repeat v 16) 0 = v.
Proof.
  change (repeat v 16) with (repeat v 15 ++ [v]). rewrite app_assoc. apply last_last.
Qed.

Lemma remove_padding_sixteen (P : list Z) :
  Modes.size P + 16 < 2 ^ 64 ->
  Modes.remove_padding (P ++ repeat 16 16) = Returns P.
Proof.
  intros Hs.
  rewrite (remove_padding_returns _ 16).
  - rewrite size_app. change (Modes.size (repeat 16 16)) with 16.
    replace (Z.to_nat (Modes.size P + 16 - 16)) with (length P) by (unfold Modes.size; lia).
    rewrite firstn_app, Nat.sub_diag, firstn_O, app_nil_r. now apply f_equal, firstn_all.
  - destruct P; discriminate.
  - rewrite size_app. change (Modes.size (repeat 16 16)) with 16. lia.
  - apply last_padded.
  - rewrite size_app. change (Modes.size (repeat 16 16)) with 16. unfold Modes.size. lia.
Qed.

Lemma remove_padding_zero (P : list Z) :
  Modes.size P + 16 < 2 ^ 64 ->
  Modes.remove_padding (P ++ repeat 0 16) = Returns (P ++ repeat 0 16).
Proof.
  intros Hs.
  rewrite (remove_padding_returns _ 0).
  - rewrite Z.sub_0_r. unfold Modes.size. rewrite Nat2Z.id. now rewrite firstn_all.
  - destruct P; discriminate.
  - rewrite size_app. change (Modes.size (repeat 0 16)) with 16. lia.
  - apply last_padded.
  - unfold Modes.size. lia.
Qed.

Lemma Forall_byte_padded (P : list Z) (v : Z) :
  Forall byte P -> byte v -> Forall byte (P ++ repeat v 16).
Proof.
  intros HP Hv. apply Forall_app. split; [exact HP|].
  apply Forall_forall. intros x Hx. now rewrite (repeat_spec _ _ _ Hx).
Qed.


Lemma bytes_by_eval (l : list Z) :
  forallb (fun b => (0 <=? b) && (b <? 256)) l = true -> Forall byte l.
Proof.
  apply Forall_by_eval. intros b Hb. apply andb_prop in Hb. destruct Hb as [H0 H1].
  apply Z.leb_le in H0. apply Z.ltb_lt in H1. split; assumption.
Qed.




(** ** The counter step, byte by byte *)

Lemma load_some {A} (l : list A) (i : Z) (v : A) :
  load l i = Some v -> 0 <= i < Z.of_nat (length l) /\ nth_error l (Z.to_nat i) = Some v.
Proof.
  unfold load. destruct (Z.ltb_spec i 0); [discriminate|]. intros E. split; [|exact E].
  assert (Z.to_nat i < length l)%nat by (apply nth_error_Some; congruence). lia.
Qed.

Lemma load_tab (l : list Z) (i v : Z) : load l i = Some v -> tab l i = v.
Proof.
  intros E. apply load_some in E. destruct E as (_ & E). unfold tab.
  now apply nth_error_nth.
Qed.

Lemma store_nat_spec (l : list Z) (i : nat) (v : Z) (l' : list Z) :
  store_nat l i v = Some l' ->
  (i < length l)%nat /\ length l' = length l /\
  forall j, nth j l' 0 = if Nat.eqb j i then v else nth j l 0.
Proof.
  revert i l'. induction l as [|h t IH]; intros i l'; [discriminate|].
  destruct i as [|i]; cbn [store_nat].
  - intros E. injection E as <-. cbn [length]. split; [lia|]. split; [reflexivity|].
    intros [|j]; reflexivity.
  - destruct (store_nat t i v) as [t'|] eqn:E; [|discriminate].
    cbn [option_map]. intros E'. injection E' as <-.
    destruct (IH i t' E) as (Hi & HL & Hn). cbn [length].
    split; [lia|]. split; [lia|].
    intros [|j]; [reflexivity|]. cbn [nth Nat.eqb]. apply Hn.
Qed.

Lemma bump_spec (NC : list Z) (i : Z) (NC' : list Z) :
  bump NC i = Some NC' ->
  0 <= i < Z.of_nat (length NC) /\ length NC' = length NC /\
  forall j, 0 <= j -> tab NC' j = if j =? i then wrap8 (tab NC i + 1) else tab NC j.
Proof.
  unfold bump. destruct (load NC i) as [v|] eqn:E; [|discriminate]. cbn [bind].
  pose proof (load_tab _ _ _ E) as Hv. apply load_some in E. destruct E as (Hi & _).
  unfold store. destruct (Z.ltb_spec i 0); [lia|]. intros E.
  destruct (store_nat_spec _ _ _ _ E) as (_ & HL & Hn).
  split; [exact Hi|]. split; [exact HL|].
  intros j Hj. unfold tab at 1. rewrite Hn, Hv.
  destruct (Z.eqb_spec j i) as [->|Hne].
  - now rewrite Nat.eqb_refl.
  - destruct (Nat.eqb_spec (Z.to_nat j) (Z.to_nat i)); [lia | reflexivity].
Qed.

Lemma tab_ext (A B : list Z) :
  length A = length B -> (forall j, 0 <= j -> tab A j = tab B j) -> A = B.
Proof.
  intros HL Hj. apply (nth_ext A B 0 0 HL). intros n _.
  specialize (Hj (Z.of_nat n) ltac:(lia)). unfold tab in Hj. now rewrite Nat2Z.id in Hj.
Qed.

Lemma tab_Forall_byte (l : list Z) : (forall j, 0 <= j -> byte (tab l j)) -> Forall byte l.
Proof.
  intros Hj. apply Forall_forall. intros x Hx.
  destruct (In_nth l x 0 Hx) as (n & _ & <-).
  specialize (Hj (Z.of_nat n) ltac:(lia)). unfold tab in Hj. now rewrite Nat2Z.id in Hj.
Qed.

Lemma wrap8_add_cancel (a b c : Z) :
  byte a -> byte b -> wrap8 (a + c) = wrap8 (b + c) -> a = b.
Proof.
  unfold byte, wrap8. change 255 with (Z.ones 8). rewrite !Z.land_ones by lia.
  intros Ha Hb E.
  assert (H : (a - b) mod 2 ^ 8 = 0).
  { replace (a - b) with ((a + c) - (b + c)) by lia.
    rewrite Zminus_mod, E, Z.sub_diag. reflexivity. }
  apply Z.mod_divide in H; [|lia]. destruct H as (q & Hq). lia.
Qed.



(** What the big-endian loop has done after [k] trips. *)
Lemma Increment_loop_big (NC0 : list Z) (k : nat) (R : list Z) :
  Forall byte NC0 ->
  for_opt 0 k (fun i NC =>
      v <- load NC (15 - i) ;;
      if v =? 0 then bump NC (14 - i) else Some NC) NC0 = Some R ->
  length R = length NC0 /\
  forall j, 0 <= j ->
    tab R j = if (15 - Z.of_nat k <=? j) && (j <=? 14)
              then wrap8 (tab NC0 j + carry_of (tab R (j + 1)))
              else tab NC0 j.
Proof.
  intros Hb. revert R. induction k as [|k IH]; intros R.
  - cbn. intros E. injection E as <-. split; [reflexivity|].
    intros j Hj. destruct (Z.leb_spec 15 j), (Z.leb_spec j 14); cbn [andb]; try reflexivity. lia.
  - rewrite for_opt_S.
    destruct (for_opt 0 k _ NC0) as [R0|] eqn:E0; [|discriminate]. cbn [bind].
    destruct (IH R0 eq_refl) as (HL & HT). clear IH.
    rewrite Z.add_0_l.
    destruct (load R0 (15 - Z.of_nat k)) as [v|] eqn:Ev; [|discriminate]. cbn [bind].
    pose proof (load_tab _ _ _ Ev) as Hv. apply load_some in Ev. destruct Ev as (Hk & _).
    destruct (Z.eqb_spec v 0) as [V0|V0].
    + intros E. destruct (bump_spec _ _ _ E) as (Hi & HL' & HT').
      split; [congruence|]. intros j Hj. rewrite (HT' j Hj).
      destruct (Z.eqb_spec j (14 - Z.of_nat k)) as [->|Hne].
      * replace (14 - Z.of_nat k + 1) with (15 - Z.of_nat k) by lia.
        rewrite (HT' (15 - Z.of_nat k)) by lia.
        destruct (Z.eqb_spec (15 - Z.of_nat k) (14 - Z.of_nat k)); [lia|].
        rewrite Hv, V0. cbn [carry_of Z.eqb].
        rewrite (HT (14 - Z.of_nat k)) by lia.
        destruct (Z.leb_spec (15 - Z.of_nat k) (14 - Z.of_nat k)); [lia|]. cbn [andb].
        destruct (Z.leb_spec (15 - Z.of_nat (S k)) (14 - Z.of_nat k)); [|lia].
        destruct (Z.leb_spec (14 - Z.of_nat k) 14); [|lia]. reflexivity.
      * rewrite (HT j Hj).
        destruct (Z.leb_spec (15 - Z.of_nat k) j), (Z.leb_spec (15 - Z.of_nat (S k)) j),
          (Z.leb_spec j 14); cbn [andb]; try reflexivity; try lia.
        rewrite (HT' (j + 1)) by lia.
        destruct (Z.eqb_spec (j + 1) (14 - Z.of_nat k)); [lia | reflexivity].
    + intros E. injection E as <-. split; [exact HL|]. intros j Hj. rewrite (HT j Hj).
      destruct (Z.leb_spec (15 - Z.of_nat k) j), (Z.leb_spec (15 - Z.of_nat (S k)) j),
        (Z.leb_spec j 14); cbn [andb]; try reflexivity; try lia.
      assert (j = 14 - Z.of_nat k) as -> by lia.
      replace (14 - Z.of_nat k + 1) with (15 - Z.of_nat k) by lia.
      rewrite Hv. unfold carry_of. destruct (Z.eqb_spec v 0); [contradiction|].
      rewrite Z.add_0_r. symmetry. apply wrap8_small, (tab_byte NC0 _ Hb).
Qed.

(** The little-endian loop, after [k] trips. *)
Lemma Increment_loop_little (NC0 : list Z) (k : nat) (R : list Z) :
  Forall byte NC0 ->
  for_opt 0 k (fun i NC =>
      v <- load NC i ;;
      if v =? 0 then bump NC (i + 1) else Some NC) NC0 = Some R ->
  length R = length NC0 /\
  forall j, 0 <= j ->
    tab R j = if (1 <=? j) && (j <=? Z.of_nat k)
              then wrap8 (tab NC0 j + carry_of (tab R (j - 1)))
              else tab NC0 j.
Proof.
  intros Hb. revert R. induction k as [|k IH]; intros R.
  - cbn. intros E. injection E as <-. split; [reflexivity|].
    intros j Hj. destruct (Z.leb_spec 1 j), (Z.leb_spec j 0); cbn [andb]; try reflexivity. lia.
  - rewrite for_opt_S.
    destruct (for_opt 0 k _ NC0) as [R0|] eqn:E0; [|discriminate]. cbn [bind].
    destruct (IH R0 eq_refl) as (HL & HT). clear IH.
    rewrite Z.add_0_l.
    destruct (load R0 (Z.of_nat k)) as [v|] eqn:Ev; [|discriminate]. cbn [bind].
    pose proof (load_tab _ _ _ Ev) as Hv. apply load_some in Ev. destruct Ev as (Hk & _).
    destruct (Z.eqb_spec v 0) as [V0|V0].
    + intros E. destruct (bump_spec _ _ _ E) as (Hi & HL' & HT').
      split; [congruence|]. intros j Hj. rewrite (HT' j Hj).
      destruct (Z.eqb_spec j (Z.of_nat k + 1)) as [->|Hne].
      * replace (Z.of_nat k + 1 - 1) with (Z.of_nat k) by lia.
        rewrite (HT' (Z.of_nat k)) by lia.
        destruct (Z.eqb_spec (Z.of_nat k) (Z.of_nat k + 1)); [lia|].
        rewrite Hv, V0. cbn [carry_of Z.eqb].
        rewrite (HT (Z.of_nat k + 1)) by lia.
        destruct (Z.leb_spec (Z.of_nat k + 1) (Z.of_nat k)); [lia|].
        rewrite andb_false_r.
        destruct (Z.leb_spec 1 (Z.of_nat k + 1)); [|lia].
        destruct (Z.leb_spec (Z.of_nat k + 1) (Z.of_nat (S k))); [|lia]. reflexivity.
      * rewrite (HT j Hj).
        destruct (Z.leb_spec 1 j), (Z.leb_spec j (Z.of_nat k)), (Z.leb_spec j (Z.of_nat (S k)));
          cbn [andb]; try reflexivity; try lia.
        rewrite (HT' (j - 1)) by lia.
        destruct (Z.eqb_spec (j - 1) (Z.of_nat k + 1)); [lia | reflexivity].
    + intros E. injection E as <-. split; [exact HL|]. intros j Hj. rewrite (HT j Hj).
      destruct (Z.leb_spec 1 j), (Z.leb_spec j (Z.of_nat k)), (Z.leb_spec j (Z.of_nat (S k)));
        cbn [andb]; try reflexivity; try lia.
      assert (j = Z.of_nat k + 1) as -> by lia.
      replace (Z.of_nat k + 1 - 1) with (Z.of_nat k) by lia.
      rewrite Hv. unfold carry_of. destruct (Z.eqb_spec v 0); [contradiction|].
      rewrite Z.add_0_r. symmetry. apply wrap8_small, (tab_byte NC0 _ Hb).
Qed.

Lemma bump_bytes (NC : list Z) (i : Z) (NC' : list Z) :
  Forall byte NC -> bump NC i = Some NC' -> Forall byte NC'.
Proof.
  intros Hb E. destruct (bump_spec _ _ _ E) as (_ & _ & HT).
  apply tab_Forall_byte. intros j Hj. rewrite (HT j Hj).
  destruct (j =? i); [apply wrap8_range | apply tab_byte, Hb].
Qed.

Lemma Increment_stepped (Countersize : Z) (Bigendian : bool) (A R : list Z) :
  0 <= Countersize -> Forall byte A ->
  Increment Countersize Bigendian A = Some R ->
  length R = length A /\
  (forall j, 0 <= j -> tab R j = stepped Bigendian (Countersize / 8) A R j).
Proof.
  intros H0 Hb. unfold Increment, stepped.
  assert (Hn : Z.of_nat (Z.to_nat (Countersize / 8)) = Countersize / 8)
    by (apply Z2Nat.id, Z.div_pos; lia).
  destruct Bigendian.
  - destruct (bump A 15) as [NC0|] eqn:E0; [|discriminate]. cbn [bind].
    pose proof (bump_bytes _ _ _ Hb E0) as Hb0.
    destruct (bump_spec _ _ _ E0) as (_ & HL0 & HT0).
    intros E. destruct (Increment_loop_big _ _ _ Hb0 E) as (HL & HT).
    split; [congruence|]. intros j Hj. rewrite (HT j Hj), Hn, !(HT0 j Hj).
    destruct (Z.eqb_spec j 15) as [->|Hne]; [|reflexivity].
    destruct (Z.leb_spec 15 14); [lia|]. now rewrite andb_false_r.
  - destruct (bump A 0) as [NC0|] eqn:E0; [|discriminate]. cbn [bind].
    pose proof (bump_bytes _ _ _ Hb E0) as Hb0.
    destruct (bump_spec _ _ _ E0) as (_ & HL0 & HT0).
    intros E. destruct (Increment_loop_little _ _ _ Hb0 E) as (HL & HT).
    split; [congruence|]. intros j Hj. rewrite (HT j Hj), Hn, !(HT0 j Hj).
    destruct (Z.eqb_spec j 0) as [->|Hne]; reflexivity.
Qed.

Lemma stepped_injective (Bigendian : bool) (n : Z) (A B R : list Z) (j : Z) :
  Forall byte A -> Forall byte B ->
  stepped Bigendian n A R j = stepped Bigendian n B R j -> tab A j = tab B j.
Proof.
  intros HA HB. unfold stepped.
  destruct Bigendian.
  - destruct (Z.eqb_spec j 15) as [->|_].
    + apply wrap8_add_cancel; apply tab_byte; assumption.
    + destruct ((15 - n <=? j) && (j <=? 14)); [|auto].
      apply wrap8_add_cancel; apply tab_byte; assumption.
  - destruct (Z.eqb_spec j 0) as [->|_].
    + apply wrap8_add_cancel; apply tab_byte; assumption.
    + destruct ((1 <=? j) && (j <=? n)); [|auto].
      apply wrap8_add_cancel; apply tab_byte; assumption.
Qed.

(** X16: the counter step of [Increment], byte by byte.  Where the call is
    defined the result has the length of the state and holds bytes; its
    low-order byte is the counter's plus one, and each of the next
    [Countersize / 8] bytes receives a carry exactly when the byte handled
    before it is zero at that moment (so a zero byte passes a carry on even
    when nothing was carried into it, and the byte next to the window is
    reached); every other byte is unchanged.  The step is injective: two
    states with the same successor are equal. *)
Theorem X16_counter_step_byte_by_byte (Countersize : Z) (Bigendian : bool)
    (A B RA RB : list Z) :
  0 <= Countersize -> Forall byte A -> Forall byte B ->
  Increment Countersize Bigendian A = Some RA ->
  Increment Countersize Bigendian B = Some RB ->
  length RA = length A /\ Forall byte RA /\
  (forall j, 0 <= j -> tab RA j = stepped Bigendian (Countersize / 8) A RA j) /\
  (forall j, 0 <= j < 16 ->
     (if Bigendian then j < 15 - Countersize / 8 else Countersize / 8 < j) ->
     tab RA j = tab A j) /\
  (RA = RB -> A = B).
Proof.
  intros H0 HA HB EA EB.
  destruct (Increment_stepped _ _ _ _ H0 HA EA) as (LA & TA).
  destruct (Increment_stepped _ _ _ _ H0 HB EB) as (LB & TB).
  assert (Hd : 0 <= Countersize / 8) by (apply Z.div_pos; lia).
  split; [exact LA|]. split; [|split; [exact TA|split]].
  - apply tab_Forall_byte. intros j Hj. rewrite (TA j Hj). unfold stepped.
    destruct Bigendian;
      repeat match goal with
             | |- byte (if ?c then _ else _) => destruct c
             end; first [apply wrap8_range | apply tab_byte, HA].
  - intros j Hj Hw. rewrite (TA j ltac:(lia)). unfold stepped. destruct Bigendian.
    + destruct (Z.eqb_spec j 15); [lia|].
      destruct (Z.leb_spec (15 - Countersize / 8) j); [lia | reflexivity].
    + destruct (Z.eqb_spec j 0); [lia|].
      destruct (Z.leb_spec j (Countersize / 8)); [lia|]. now rewrite andb_false_r.
  - intros ER. subst RB. apply tab_ext; [congruence|].
    intros j Hj. apply (stepped_injective Bigendian (Countersize / 8) A B RA j HA HB).
    now rewrite <- (TA j Hj), <- (TB j Hj).
Qed.

Lemma X16_witness :
  let A := repeat 0 12 ++ [0xFF; 0xFF; 0xFF; 0xFF] in
  let R := repeat 0 11 ++ [1; 0; 0; 0; 0] in
  (0 <= 32 /\ Forall byte A /\ Increment 32 true A = Some R) /\
  length R = length A /\ tab R 11 = stepped true (32 / 8) A R 11 /\ tab R 10 = tab A 10.
Proof.
  cbv zeta.
  assert (H0 : 0 <= 32) by lia.
  assert (HA : Forall byte (repeat 0 12 ++ [0xFF; 0xFF; 0xFF; 0xFF]))
    by (apply bytes_by_eval; reflexivity).
  assert (E : Increment 32 true (repeat 0 12 ++ [0xFF; 0xFF; 0xFF; 0xFF])
              = Some (repeat 0 11 ++ [1; 0; 0; 0; 0])) by reflexivity.
  destruct (X16_counter_step_byte_by_byte 32 true _ _ _ _ H0 HA HA E E)
    as (HL & _ & HT & HF & _).
  refine (conj (conj H0 (conj HA E)) (conj HL (conj (HT 11 _) (HF 10 _ _)))).
  - lia.
  - lia.
  - vm_compute. reflexivity.
Defined.

(** ** Byte strings and their values *)

Lemma le_bytes_length (n : nat) (v : Z) : length (le_bytes n v) = n.
Proof. revert v. induction n as [|n IH]; intros v; cbn [le_bytes length]; auto. Qed.

Lemma le_bytes_bytes (n : nat) (v : Z) : Forall byte (le_bytes n v).
Proof.
  revert v. induction n as [|n IH]; intros v; cbn [le_bytes]; constructor; [|apply IH].
  unfold byte. apply Z.mod_pos_bound. lia.
Qed.

Lemma le_bytes_le_value (l : list Z) : Forall byte l -> le_bytes (length l) (le_value l) = l.
Proof.
  induction 1 as [|b t Hb Ht IH]; [reflexivity|].
  cbn [length le_bytes le_value]. unfold byte in Hb.
  replace ((b + 256 * le_value t) mod 256) with b
    by (apply (Z.mod_unique _ _ (le_value t)); lia).
  replace ((b + 256 * le_value t) / 256) with (le_value t)
    by (apply (Z.div_unique _ _ _ b); lia).
  now rewrite IH.
Qed.

Lemma le_value_range (l : list Z) : Forall byte l -> 0 <= le_value l < 256 ^ Z.of_nat (length l).
Proof.
  induction 1 as [|b t Hb Ht IH]; [cbn; lia|].
  cbn [length le_value]. rewrite Nat2Z.inj_succ, Z.pow_succ_r by lia.
  unfold byte in Hb. lia.
Qed.

Lemma le_value_le_bytes (n : nat) (v : Z) : le_value (le_bytes n v) = v mod 256 ^ Z.of_nat n.
Proof.
  revert v. induction n as [|n IH]; intros v.
  - cbn. now rewrite Z.mod_1_r.
  - cbn [le_bytes le_value]. rewrite IH, Nat2Z.inj_succ, Z.pow_succ_r by lia.
    rewrite (Z.rem_mul_r v 256 (256 ^ Z.of_nat n)) by lia. lia.
Qed.

Lemma le_bytes_mod (n : nat) (v : Z) : le_bytes n (v mod 256 ^ Z.of_nat n) = le_bytes n v.
Proof.
  rewrite <- le_value_le_bytes.
  rewrite <- (le_bytes_length n v) at 1.
  apply le_bytes_le_value, le_bytes_bytes.
Qed.

Lemma be_value_snoc (l : list Z) (b : Z) :
  FIPS180.be_value (l ++ [b]) = 256 * FIPS180.be_value l + b.
Proof. unfold FIPS180.be_value. now rewrite fold_left_app. Qed.

Lemma le_value_rev (l : list Z) : le_value (rev l) = FIPS180.be_value l.
Proof.
  induction l as [|b t IH] using rev_ind; [reflexivity|].
  rewrite rev_app_distr, be_value_snoc. cbn [rev app le_value]. lia.
Qed.

Lemma le_value_app_zeros (l : list Z) (k : nat) : le_value (l ++ repeat 0 k) = le_value l.
Proof.
  induction l as [|b t IH]; cbn [app le_value].
  - induction k as [|k IHk]; cbn [repeat le_value]; lia.
  - now rewrite IH.
Qed.

(** [toBig] of the value that a little-endian host reads from [w] bytes is
    the big-endian value of these bytes, and its bytes in memory are the
    big-endian bytes of the value. *)
Lemma toBig_le_value (l : list Z) :
  Forall byte l -> cmp.toBig (length l) (le_value l) = FIPS180.be_value l.
Proof.
  intros Hl. unfold cmp.toBig, cmp.byteswap. now rewrite le_bytes_le_value, le_value_rev.
Qed.

Lemma le_bytes_toBig (w : nat) (v : Z) :
  le_bytes w (cmp.toBig w v) = FIPS180.be_bytes w v.
Proof.
  unfold cmp.toBig, cmp.byteswap, FIPS180.be_bytes.
  pose proof (le_bytes_le_value (rev (le_bytes w v)) (Forall_rev (le_bytes_bytes w v))) as E.
  now rewrite length_rev, le_bytes_length in E.
Qed.

(** ** cmp::memcpy where SHA uses it *)

Lemma bytes_of_bytes (l : list Z) : Forall byte l -> cmp.bytes_of 1 l = l.
Proof.
  unfold cmp.bytes_of. induction 1 as [|b t Hb Ht IH]; [reflexivity|].
  change (flat_map (le_bytes 1) (b :: t)) with (le_bytes 1 b ++ flat_map (le_bytes 1) t).
  rewrite IH. cbn [le_bytes app].
  unfold byte in Hb. now rewrite Z.mod_small by lia.
Qed.

Lemma bytes_of_zeros (w m : nat) : cmp.bytes_of w (repeat 0 m) = repeat 0 (w * m).
Proof.
  assert (Z0 : le_bytes w 0 = repeat 0 w).
  { induction w as [|w IH]; [reflexivity|]. cbn [le_bytes repeat].
    now rewrite Z.mod_0_l, Z.div_0_l, IH by lia. }
  unfold cmp.bytes_of. induction m as [|m IH]; [now rewrite Nat.mul_0_r|].
  change (flat_map (le_bytes w) (repeat 0 (S m)))
    with (le_bytes w 0 ++ flat_map (le_bytes w) (repeat 0 m)).
  rewrite IH, Z0, <- repeat_app. f_equal. lia.
Qed.

Lemma elements_of_app (w k j : nat) (A B : list Z) :
  length A = (w * k)%nat ->
  cmp.elements_of w (k + j) (A ++ B) = cmp.elements_of w k A ++ cmp.elements_of w j B.
Proof.
  revert A. induction k as [|k IH]; intros A HA.
  - destruct A; [reflexivity | cbn in HA; lia].
  - cbn [Nat.add cmp.elements_of app].
    rewrite firstn_app, skipn_app.
    replace (w - length A)%nat with 0%nat by nia.
    rewrite firstn_O, skipn_O, app_nil_r. f_equal.
    apply IH. rewrite length_skipn. nia.
Qed.

Lemma elements_of_firstn (w k : nat) (l : list Z) :
  cmp.elements_of w k (firstn (w * k) l) = cmp.elements_of w k l.
Proof.
  revert l. induction k as [|k IH]; intros l; [reflexivity|].
  cbn [cmp.elements_of].
  replace (w * S k)%nat with (w + w * k)%nat by lia.
  rewrite firstn_firstn, Nat.min_l by lia.
  rewrite <- (IH (skipn w l)). f_equal. f_equal.
  rewrite skipn_firstn_comm. f_equal. lia.
Qed.

Lemma elements_of_zeros (w j : nat) : cmp.elements_of w j (repeat 0 (w * j)) = repeat 0 j.
Proof.
  induction j as [|j IH]; [reflexivity|].
  replace (w * S j)%nat with (w + w * j)%nat by lia.
  cbn [cmp.elements_of repeat]. rewrite repeat_app.
  rewrite firstn_app, skipn_app, repeat_length, Nat.sub_diag, firstn_O, skipn_O, app_nil_r.
  rewrite firstn_all2, skipn_all2 by (rewrite repeat_length; lia).
  rewrite app_nil_l, IH. f_equal.
  rewrite <- (app_nil_l (repeat 0 w)). apply (le_value_app_zeros [] w).
Qed.

Lemma elements_of_bytes (l : list Z) : cmp.elements_of 1 (length l) l = l.
Proof.
  induction l as [|b t IH]; [reflexivity|].
  cbn [length cmp.elements_of firstn skipn le_value]. rewrite IH. f_equal. lia.
Qed.

Lemma skipn_zeros (k m : nat) : skipn k (repeat 0 m) = repeat 0 (m - k).
Proof.
  revert k. induction m as [|m IH]; intros k; [now rewrite skipn_nil|].
  destruct k as [|k]; [reflexivity|]. cbn [repeat skipn Nat.sub]. apply IH.
Qed.

Lemma copy_from_bytes_words (w k : nat) (Dst Src : list Z) :
  (1 <= w)%nat -> (1 <= k <= length Dst)%nat -> (w * k <= length Src)%nat ->
  cmp.copy_from_bytes w Dst Src (Z.of_nat (w * k))
  = Some (cmp.elements_of w k Src ++ skipn k Dst).
Proof.
  intros Hw. revert Dst Src. induction k as [|k IH]; intros Dst Src Hk HS; [lia|].
  destruct Dst as [|d Dst']; [cbn in Hk; lia|].
  cbn [cmp.copy_from_bytes cmp.elements_of skipn app].
  rewrite Z.min_l by nia.
  destruct (Z.ltb_spec (Z.of_nat (length Src)) (Z.of_nat w)); [nia|].
  rewrite Nat2Z.id, Nat.sub_diag. cbn [repeat]. rewrite app_nil_r.
  replace (Z.of_nat (w * S k) - Z.of_nat w) with (Z.of_nat (w * k)) by nia.
  destruct (Z.eqb_spec (Z.of_nat (w * k)) 0) as [E|E].
  - assert (k = 0)%nat as -> by nia. reflexivity.
  - rewrite IH; [reflexivity | cbn in Hk; nia | rewrite length_skipn; nia].
Qed.

Lemma copy_elements_bytes (Dst Src : list Z) :
  (length Src <= length Dst)%nat -> Z.of_nat (length Src) < 2 ^ 64 ->
  cmp.copy_elements 1 Dst Src (Z.of_nat (length Src))
  = Some (Src ++ skipn (length Src) Dst).
Proof.
  revert Dst. induction Src as [|s Src' IH]; intros Dst HL H64; [reflexivity|].
  destruct Dst as [|d Dst']; [cbn in HL; lia|].
  cbn [length] in HL, H64.
  cbn [cmp.copy_elements length skipn].
  destruct (Z.eqb_spec (Z.of_nat (S (length Src'))) 0); [lia|].
  rewrite wrap64_small by lia.
  replace (Z.of_nat (S (length Src')) - 1) with (Z.of_nat (length Src')) by lia.
  rewrite IH by lia. reflexivity.
Qed.

(** Both branches of [cmp::memcpy] load whole words from bytes alike. *)
Lemma memcpy_words (ce : bool) (w k m : nat) (Src : list Z) :
  (2 <= w)%nat -> (1 <= k <= m)%nat -> (w * k <= length Src)%nat -> Forall byte Src ->
  cmp.memcpy ce w 1 (repeat 0 m) Src (Z.of_nat (w * k))
  = Some (cmp.elements_of w k Src ++ repeat 0 (m - k)).
Proof.
  intros Hw Hk HS Hb. unfold cmp.memcpy. destruct ce; cbn [negb].
  - destruct (Nat.eqb_spec w 1); [lia|]. cbn [Nat.eqb].
    rewrite copy_from_bytes_words by (try rewrite repeat_length; lia).
    now rewrite skipn_zeros.
  - unfold cmp.std_memcpy. rewrite Nat2Z.id, (bytes_of_bytes _ Hb), bytes_of_zeros, repeat_length.
    destruct (Nat.leb_spec (w * k) (length Src)); [|lia].
    destruct (Nat.leb_spec (w * k) (w * m)); [|nia]. cbn [andb].
    rewrite skipn_zeros.
    rewrite repeat_length.
    replace m with (k + (m - k))%nat at 1 by lia.
    rewrite elements_of_app by (rewrite length_firstn; lia).
    rewrite elements_of_firstn.
    replace (w * m - w * k)%nat with (w * (m - k))%nat by nia.
    now rewrite elements_of_zeros.
Qed.

(** Both branches copy a byte string into a zeroed byte array alike. *)
Lemma memcpy_bytes (ce : bool) (m : nat) (Src : list Z) :
  (length Src <= m)%nat -> Z.of_nat (length Src) < 2 ^ 64 -> Forall byte Src ->
  cmp.memcpy ce 1 1 (repeat 0 m) Src (Z.of_nat (length Src))
  = Some (Src ++ repeat 0 (m - length Src)).
Proof.
  intros HL H64 Hb. unfold cmp.memcpy. destruct ce; cbn [negb Nat.eqb].
  - change (Z.of_nat 1) with 1.
    rewrite copy_elements_bytes by (try rewrite repeat_length; lia).
    now rewrite skipn_zeros.
  - unfold cmp.std_memcpy. rewrite Nat2Z.id, (bytes_of_bytes _ Hb), bytes_of_zeros, repeat_length.
    destruct (Nat.leb_spec (length Src) (length Src)); [|lia].
    destruct (Nat.leb_spec (length Src) (1 * m)); [|lia]. cbn [andb].
    rewrite firstn_all, skipn_zeros.
    rewrite repeat_length, Nat.mul_1_l.
    replace m with (length (Src ++ repeat 0 (m - length Src))) at 1
      by (rewrite length_app, repeat_length; lia).
    now rewrite elements_of_bytes.
Qed.

(** Both branches store the eight bytes of a [uint64_t] alike. *)
Lemma memcpy_value_bytes (ce : bool) (tail : list Z) (v : Z) :
  length tail = 8%nat -> Forall byte tail ->
  cmp.memcpy_value ce 1 8 tail v = Some (le_bytes 8 v).
Proof.
  intros HL Hb. unfold cmp.memcpy_value, cmp.memcpy. cbn [Nat.eqb orb Nat.leb].
  destruct ce; cbn [negb].
  - cbn [cmp.copy_to_bytes]. rewrite HL.
    change (Z.min (Z.of_nat 8) (Z.of_nat 8)) with 8. cbn [Z.ltb Z.compare Z.of_nat Pos.of_succ_nat Pos.succ Pos.compare Pos.compare_cont].
    change (8 - 8 =? 0) with true. cbv iota.
    rewrite firstn_all2 by (rewrite le_bytes_length; lia).
    rewrite skipn_all2 by lia. now rewrite app_nil_r.
  - unfold cmp.std_memcpy. rewrite Nat2Z.id, (bytes_of_bytes _ Hb), HL.
    cbn [cmp.bytes_of flat_map]. rewrite app_nil_r, le_bytes_length. cbn [Nat.leb andb].
    rewrite firstn_all2 by (rewrite le_bytes_length; lia).
    rewrite skipn_all2 by lia. rewrite app_nil_r.
    replace 8%nat with (length (le_bytes 8 v)) at 1 by apply le_bytes_length.
    apply f_equal, elements_of_bytes.
Qed.

(** ** Arrays as lists *)

Lemma tab_at (P R : list Z) (x : Z) : tab (P ++ x :: R) (Z.of_nat (length P)) = x.
Proof. unfold tab. rewrite Nat2Z.id. apply nth_middle. Qed.

Lemma tab_prefix (P R : list Z) (i : Z) :
  0 <= i < Z.of_nat (length P) -> tab (P ++ R) i = nth (Z.to_nat i) P 0.
Proof. intros Hi. unfold tab. apply app_nth1. lia. Qed.

Lemma tab_set_at (P R : list Z) (x v : Z) :
  tab_set (P ++ x :: R) (Z.of_nat (length P)) v = P ++ v :: R.
Proof.
  unfold tab_set. rewrite Nat2Z.id.
  induction P as [|p P IH]; [reflexivity|]. cbn [length app tab_set_nat]. now rewrite IH.
Qed.

Lemma tab_nat (l : list Z) (t : nat) : tab l (Z.of_nat t) = nth t l 0.
Proof. unfold tab. now rewrite Nat2Z.id. Qed.

(** A loop that rewrites the first [n] elements in place. *)
Lemma for_map_prefix (f : Z -> Z) (A R : list Z) :
  for_ 0 (length A) (fun i S => tab_set S i (f (tab S i))) (A ++ R) = map f A ++ R.
Proof.
  revert R. induction A as [|a A IH] using rev_ind; intros R; [reflexivity|].
  rewrite length_app, Nat.add_comm. cbn [length Nat.add]. rewrite for_S.
  rewrite <- app_assoc. cbn [app]. rewrite IH, Z.add_0_l.
  replace (length A) with (length (map f A)) by apply length_map.
  rewrite tab_at, tab_set_at, map_app, <- app_assoc. reflexivity.
Qed.

Lemma elements_of_map (w n : nat) (l : list Z) :
  cmp.elements_of w n l = map (fun t => le_value (firstn w (skipn (w * t) l))) (seq 0 n).
Proof.
  revert l. induction n as [|n IH]; intros l; [reflexivity|].
  cbn [cmp.elements_of seq map]. rewrite Nat.mul_0_r, skipn_O. f_equal.
  rewrite IH, <- seq_shift, map_map. apply map_ext. intros t.
  rewrite skipn_skipn. do 3 f_equal. lia.
Qed.

(** The sixteen words that a transform loads: whole words from the bytes,
    then [toBig] on each. *)
Lemma loaded_words (w : nat) (block : list Z) :
  Forall byte block -> length block = (16 * w)%nat ->
  map (cmp.toBig w) (cmp.elements_of w 16 block) = FIPS180.words w block.
Proof.
  intros Hb HL. rewrite elements_of_map, map_map. unfold FIPS180.words.
  apply map_ext_in. intros t Ht. apply in_seq in Ht.
  assert (Hc : length (firstn w (skipn (w * t) block)) = w)
    by (rewrite length_firstn, length_skipn; nia).
  rewrite <- Hc at 1. apply toBig_le_value.
  apply (Forall_firstn_skipn byte w), (Forall_firstn_skipn byte (w * t)), Hb.
Qed.

(** ** The message schedule *)

Section Schedule.
Variable w : Z.
Variable wrapw : Z -> Z.
Variables sigma0 sigma1 : Z -> Z.
Hypothesis wrapw_mod : forall x, wrapw x = x mod 2 ^ w.

Lemma schedule_snoc (k : nat) (W : list Z) :
  FIPS180.schedule w sigma0 sigma1 (S k) W
  = FIPS180.schedule w sigma0 sigma1 k W
    ++ [FIPS180.next_W w sigma0 sigma1 (FIPS180.schedule w sigma0 sigma1 k W)].
Proof.
  revert W. induction k as [|k IH]; intros W; [reflexivity|].
  change (FIPS180.schedule w sigma0 sigma1 (S (S k)) W)
    with (FIPS180.schedule w sigma0 sigma1 (S k) (W ++ [FIPS180.next_W w sigma0 sigma1 W])).
  rewrite IH. reflexivity.
Qed.

Lemma schedule_length (k : nat) (W : list Z) :
  length (FIPS180.schedule w sigma0 sigma1 k W) = (length W + k)%nat.
Proof.
  revert W. induction k as [|k IH]; intros W; cbn [FIPS180.schedule]; [lia|].
  rewrite IH, length_app. cbn [length]. lia.
Qed.

Lemma schedule_loop (body : Z -> list Z -> list Z) (W16 : list Z) (k m : nat) :
  (forall i Scratch,
     body i Scratch
     = tab_set Scratch i
         (wrapw (tab Scratch (i - 16) + sigma0 (tab Scratch (i - 15))
                 + tab Scratch (i - 7) + sigma1 (tab Scratch (i - 2))))) ->
  length W16 = 16%nat -> (k <= m)%nat ->
  for_ 16 k body (W16 ++ repeat 0 m)
  = FIPS180.schedule w sigma0 sigma1 k W16 ++ repeat 0 (m - k).
Proof.
  intros Hbody H16. induction k as [|k IH]; intros Hk.
  - cbn [for_ seq fold_left FIPS180.schedule]. now rewrite Nat.sub_0_r.
  - rewrite for_S, IH by lia. rewrite Hbody.
    set (W := FIPS180.schedule w sigma0 sigma1 k W16).
    assert (HW : length W = (16 + k)%nat) by (unfold W; rewrite schedule_length; lia).
    replace (m - k)%nat with (S (m - S k)) by lia. cbn [repeat].
    replace (16 + Z.of_nat k) with (Z.of_nat (length W)) by lia.
    rewrite tab_set_at, !tab_prefix by lia.
    rewrite schedule_snoc. fold W. rewrite <- app_assoc. cbn [app]. do 2 f_equal.
    unfold FIPS180.next_W, FIPS180.add. rewrite wrapw_mod.
    replace (Z.to_nat (Z.of_nat (length W) - 16)) with (length W - 16)%nat by lia.
    replace (Z.to_nat (Z.of_nat (length W) - 15)) with (length W - 15)%nat by lia.
    replace (Z.to_nat (Z.of_nat (length W) - 7)) with (length W - 7)%nat by lia.
    replace (Z.to_nat (Z.of_nat (length W) - 2)) with (length W - 2)%nat by lia.
    rewrite Zplus_mod_idemp_l, <- (Z.add_assoc (_ mod _)), Zplus_mod_idemp_l. f_equal. lia.
Qed.

End Schedule.

Lemma for_map_first (f : Z -> Z) (n : nat) (A R : list Z) :
  length A = n ->
  for_ 0 n (fun i S => tab_set S i (f (tab S i))) (A ++ R) = map f A ++ R.
Proof. intros <-. apply for_map_prefix. Qed.

Lemma elements_of_length (w n : nat) (l : list Z) : length (cmp.elements_of w n l) = n.
Proof. revert l. induction n as [|n IH]; intros l; cbn [cmp.elements_of length]; auto. Qed.

Lemma fold_left_inv {S A} (P : S -> Prop) (f g : S -> A -> S) (l : list A) (s : S) :
  (forall s a, In a l -> P s -> f s a = g s a /\ P (g s a)) ->
  P s -> fold_left f l s = fold_left g l s /\ P (fold_left g l s).
Proof.
  revert s. induction l as [|a l IH]; intros s Hfg Hs; [split; [reflexivity | exact Hs]|].
  cbn [fold_left]. destruct (Hfg s a (or_introl eq_refl) Hs) as (E & Hp).
  rewrite E. apply IH; [|exact Hp]. intros s0 a0 Ha. apply Hfg. now right.
Qed.

Lemma wrap32_mod (x : Z) : wrap32 x = x mod 2 ^ 32.
Proof. unfold wrap32. change 4294967295 with (Z.ones 32). apply Z.land_ones. lia. Qed.

Lemma wrap64_mod (x : Z) : wrap64 x = x mod 2 ^ 64.
Proof. unfold wrap64. change 18446744073709551615 with (Z.ones 64). apply Z.land_ones. lia. Qed.



Lemma Ch_complement_32 (e f g : Z) :
  word g ->
  Z.lxor (Z.land e f) (Z.land (wrap32 (Z.lnot e)) g) = FIPS180.Ch e f g.
Proof.
  intros Hg. unfold FIPS180.Ch. f_equal.
  rewrite <- (wrap32_small g Hg) at 2. unfold wrap32.
  rewrite <- Z.land_assoc, (Z.land_comm 4294967295 g).
  fold (wrap32 g). now rewrite (wrap32_small g Hg).
Qed.

Lemma add_chain5 (w a b c d e : Z) :
  FIPS180.add w (FIPS180.add w (FIPS180.add w (FIPS180.add w a b) c) d) e
  = (a + b + c + d + e) mod 2 ^ w.
Proof.
  unfold FIPS180.add.
  now rewrite (Zplus_mod_idemp_l (a + b) c), (Zplus_mod_idemp_l (a + b + c) d),
    (Zplus_mod_idemp_l (a + b + c + d) e).
Qed.

Lemma round_256 (Scratch : list Z) (i : Z) (v : list Z) :
  eight word v ->
  Hash.Compiletime.round256 Scratch i v
  = FIPS180.round 32 FIPS180.Sigma0_256 FIPS180.Sigma1_256 v
      (tab Hash.SHAData.kSHA256 i) (tab Scratch i)
  /\ eight word (FIPS180.round 32 FIPS180.Sigma0_256 FIPS180.Sigma1_256 v
                   (tab Hash.SHAData.kSHA256 i) (tab Scratch i)).
Proof.
  intros (a & b & c & d & e & f & g & h & -> & Ha & Hb & Hc & Hd & He & Hf & Hg & Hh).
  unfold Hash.Compiletime.round256.
  set (Kt := tab Hash.SHAData.kSHA256 i). set (Wt := tab Scratch i).
  cbv [tab tab_set tab_set_nat nth Z.to_nat Pos.to_nat Pos.iter_op Nat.add].
  cbn [FIPS180.round].
  rewrite (Ch_complement_32 e f g Hg).
  fold (FIPS180.Maj a b c).
  unfold FIPS180.Sigma0_256, FIPS180.Sigma1_256, FIPS180.ROTR32.
  set (S1 := Z.lxor (Z.lxor (rotr32 e 6) (rotr32 e 11)) (rotr32 e 25)).
  set (S0 := Z.lxor (Z.lxor (rotr32 a 2) (rotr32 a 13)) (rotr32 a 22)).
  rewrite (add_chain5 32 h S1 (FIPS180.Ch e f g) Kt Wt), <- wrap32_mod.
  set (t1 := wrap32 (h + S1 + FIPS180.Ch e f g + Kt + Wt)).
  unfold FIPS180.add. rewrite <- !wrap32_mod.
  split.
  - reflexivity.
  - unfold eight. do 8 eexists. split; [reflexivity|].
    repeat match goal with |- _ /\ _ => split end;
      first [assumption | apply wrap32_range].
Qed.

Lemma words_length (w : nat) (block : list Z) : length (FIPS180.words w block) = 16%nat.
Proof. unfold FIPS180.words. now rewrite length_map, length_seq. Qed.

Lemma final_add_32 (State Copy : list Z) :
  eight word State -> eight word Copy ->
  for_ 0 8 (fun i State => tab_set State i (wrap32 (tab State i + tab Copy i))) State
  = FIPS180.add_words 32 State Copy
  /\ eight word (FIPS180.add_words 32 State Copy).
Proof.
  intros (a & b & c & d & e & f & g & h & -> & _)
         (a' & b' & c' & d' & e' & f' & g' & h' & -> & _).
  cbv [for_ seq fold_left Z.of_nat Pos.of_succ_nat Pos.succ Z.add
       tab tab_set tab_set_nat nth Z.to_nat Pos.to_nat Pos.iter_op Nat.add].
  cbn [FIPS180.add_words]. unfold FIPS180.add. rewrite <- !wrap32_mod.
  split; [reflexivity|].
  unfold eight. do 8 eexists. split; [reflexivity|].
  repeat match goal with |- _ /\ _ => split end; apply wrap32_range.
Qed.

(** [Transform256] is the compression function of SHA-256, on both
    branches of [cmp::memcpy]. *)
Lemma Transform256_compress (ce : bool) (State block : list Z) :
  eight word State -> Forall byte block -> length block = 64%nat ->
  Hash.Compiletime.Transform256 ce State block
  = Some (FIPS180.compress 32 4 64 Hash.SHAData.kSHA256
            FIPS180.Sigma0_256 FIPS180.Sigma1_256 FIPS180.sigma0_256 FIPS180.sigma1_256
            State block)
  /\ eight word (FIPS180.compress 32 4 64 Hash.SHAData.kSHA256
                   FIPS180.Sigma0_256 FIPS180.Sigma1_256 FIPS180.sigma0_256
                   FIPS180.sigma1_256 State block).
Proof.
  intros HS Hb HL. unfold Hash.Compiletime.Transform256. cbv zeta.
  change (16 * 4) with (Z.of_nat (4 * 16)).
  rewrite (memcpy_words ce 4 16 64 block) by (try lia; assumption). cbn [bind].
  rewrite (for_map_first (cmp.toBig 4) 16) by apply elements_of_length.
  rewrite (loaded_words 4 block Hb HL).
  change (64 - 16)%nat with 48%nat.
  rewrite (schedule_loop 32 wrap32 FIPS180.sigma0_256 FIPS180.sigma1_256 wrap32_mod
             Hash.Compiletime.expand256 (FIPS180.words 4 block) 48 48
             (fun i Scratch => eq_refl) (words_length 4 block) (le_n 48)).
  change (48 - 48)%nat with 0%nat. cbn [repeat]. rewrite app_nil_r.
  unfold FIPS180.compress. change (64 - 16)%nat with 48%nat. cbv zeta.
  set (W := FIPS180.schedule 32 FIPS180.sigma0_256 FIPS180.sigma1_256 48
              (FIPS180.words 4 block)).
  destruct (fold_left_inv (eight word)
              (fun (s : list Z) (k : nat) =>
                 Hash.Compiletime.round256 W (0 + Z.of_nat k) s)
              (fun v t => FIPS180.round 32 FIPS180.Sigma0_256 FIPS180.Sigma1_256 v
                            (nth t Hash.SHAData.kSHA256 0) (nth t W 0))
              (seq 0 64) State) as (E & HP).
  - intros s k _ Hs. rewrite Z.add_0_l, <- !tab_nat. apply (round_256 W (Z.of_nat k) s Hs).
  - exact HS.
  - unfold for_ at 2. rewrite E.
    destruct (final_add_32 State _ HS HP) as (EF & HF).
    rewrite EF. split; [reflexivity | exact HF].
Qed.

(** ** The same for the 64-bit transform *)

Lemma wrap64_range (x : Z) : word64 (wrap64 x).
Proof. unfold word64. rewrite wrap64_mod. apply Z.mod_pos_bound. lia. Qed.

Lemma Ch_complement_64 (e f g : Z) :
  word64 g ->
  Z.lxor (Z.land e f) (Z.land (wrap64 (Z.lnot e)) g) = FIPS180.Ch e f g.
Proof.
  intros Hg. unfold FIPS180.Ch. f_equal.
  rewrite <- (wrap64_small g Hg) at 2. unfold wrap64.
  rewrite <- Z.land_assoc, (Z.land_comm 18446744073709551615 g).
  fold (wrap64 g). now rewrite (wrap64_small g Hg).
Qed.

Lemma round_512 (Scratch : list Z) (i : Z) (v : list Z) :
  eight word64 v ->
  Hash.Compiletime.round512 Scratch i v
  = FIPS180.round 64 FIPS180.Sigma0_512 FIPS180.Sigma1_512 v
      (tab Hash.SHAData.kSHA512 i) (tab Scratch i)
  /\ eight word64 (FIPS180.round 64 FIPS180.Sigma0_512 FIPS180.Sigma1_512 v
                   (tab Hash.SHAData.kSHA512 i) (tab Scratch i)).
Proof.
  intros (a & b & c & d & e & f & g & h & -> & Ha & Hb & Hc & Hd & He & Hf & Hg & Hh).
  unfold Hash.Compiletime.round512.
  set (Kt := tab Hash.SHAData.kSHA512 i). set (Wt := tab Scratch i).
  cbv [tab tab_set tab_set_nat nth Z.to_nat Pos.to_nat Pos.iter_op Nat.add].
  cbn [FIPS180.round].
  rewrite (Ch_complement_64 e f g Hg).
  fold (FIPS180.Maj a b c).
  unfold FIPS180.Sigma0_512, FIPS180.Sigma1_512, FIPS180.ROTR64.
  set (S1 := Z.lxor (Z.lxor (rotr64 e 14) (rotr64 e 18)) (rotr64 e 41)).
  set (S0 := Z.lxor (Z.lxor (rotr64 a 28) (rotr64 a 34)) (rotr64 a 39)).
  rewrite (add_chain5 64 h S1 (FIPS180.Ch e f g) Kt Wt), <- wrap64_mod.
  set (t1 := wrap64 (h + S1 + FIPS180.Ch e f g + Kt + Wt)).
  unfold FIPS180.add. rewrite <- !wrap64_mod.
  split.
  - reflexivity.
  - unfold eight. do 8 eexists. split; [reflexivity|].
    repeat match goal with |- _ /\ _ => split end;
      first [assumption | apply wrap64_range].
Qed.

Lemma final_add_64 (State Copy : list Z) :
  eight word64 State -> eight word64 Copy ->
  for_ 0 8 (fun i State => tab_set State i (wrap64 (tab State i + tab Copy i))) State
  = FIPS180.add_words 64 State Copy
  /\ eight word64 (FIPS180.add_words 64 State Copy).
Proof.
  intros (a & b & c & d & e & f & g & h & -> & _)
         (a' & b' & c' & d' & e' & f' & g' & h' & -> & _).
  cbv [for_ seq fold_left Z.of_nat Pos.of_succ_nat Pos.succ Z.add
       tab tab_set tab_set_nat nth Z.to_nat Pos.to_nat Pos.iter_op Nat.add].
  cbn [FIPS180.add_words]. unfold FIPS180.add. rewrite <- !wrap64_mod.
  split; [reflexivity|].
  unfold eight. do 8 eexists. split; [reflexivity|].
  repeat match goal with |- _ /\ _ => split end; apply wrap64_range.
Qed.

(** [Transform512] is the compression function of SHA-512, on both
    branches of [cmp::memcpy]. *)
Lemma Transform512_compress (ce : bool) (State block : list Z) :
  eight word64 State -> Forall byte block -> length block = 128%nat ->
  Hash.Compiletime.Transform512 ce State block
  = Some (FIPS180.compress 64 8 80 Hash.SHAData.kSHA512
            FIPS180.Sigma0_512 FIPS180.Sigma1_512 FIPS180.sigma0_512 FIPS180.sigma1_512
            State block)
  /\ eight word64 (FIPS180.compress 64 8 80 Hash.SHAData.kSHA512
                   FIPS180.Sigma0_512 FIPS180.Sigma1_512 FIPS180.sigma0_512
                   FIPS180.sigma1_512 State block).
Proof.
  intros HS Hb HL. unfold Hash.Compiletime.Transform512. cbv zeta.
  change (16 * 8) with (Z.of_nat (8 * 16)).
  rewrite (memcpy_words ce 8 16 80 block) by (try lia; assumption). cbn [bind].
  rewrite (for_map_first (cmp.toBig 8) 16) by apply elements_of_length.
  rewrite (loaded_words 8 block Hb HL).
  change (80 - 16)%nat with 64%nat.
  rewrite (schedule_loop 64 wrap64 FIPS180.sigma0_512 FIPS180.sigma1_512 wrap64_mod
             Hash.Compiletime.expand512 (FIPS180.words 8 block) 64 64
             (fun i Scratch => eq_refl) (words_length 8 block) (le_n 64)).
  change (64 - 64)%nat with 0%nat. cbn [repeat]. rewrite app_nil_r.
  unfold FIPS180.compress. change (80 - 16)%nat with 64%nat. cbv zeta.
  set (W := FIPS180.schedule 64 FIPS180.sigma0_512 FIPS180.sigma1_512 64
              (FIPS180.words 8 block)).
  destruct (fold_left_inv (eight word64)
              (fun (s : list Z) (k : nat) =>
                 Hash.Compiletime.round512 W (0 + Z.of_nat k) s)
              (fun v t => FIPS180.round 64 FIPS180.Sigma0_512 FIPS180.Sigma1_512 v
                            (nth t Hash.SHAData.kSHA512 0) (nth t W 0))
              (seq 0 80) State) as (E & HP).
  - intros s k _ Hs. rewrite Z.add_0_l, <- !tab_nat. apply (round_512 W (Z.of_nat k) s Hs).
  - exact HS.
  - unfold for_ at 2. rewrite E.
    destruct (final_add_64 State _ HS HP) as (EF & HF).
    rewrite EF. split; [reflexivity | exact HF].
Qed.

(** ** Padding and parsing (FIPS 180-4, 5.1 and 5.2) *)

Lemma map_seq_shift {A} (f : nat -> A) (q t : nat) :
  map f (seq q t) = map (fun j => f (q + j)%nat) (seq 0 t).
Proof.
  induction t as [|t IH]; [reflexivity|].
  rewrite !seq_S, !map_app, IH. cbn [map]. now rewrite Nat.add_0_l.
Qed.

Lemma zeros_app (a b : nat) : repeat 0 a ++ repeat 0 b = repeat 0 (a + b).
Proof. symmetry. apply repeat_app. Qed.

Lemma le_bytes_wide (n k : nat) (v : Z) :
  0 <= v < 256 ^ Z.of_nat n -> le_bytes (n + k) v = le_bytes n v ++ repeat 0 k.
Proof.
  revert v. induction n as [|n IH]; intros v Hv.
  - cbn [Nat.add le_bytes app]. change (256 ^ Z.of_nat 0) with 1 in Hv.
    assert (v = 0) as -> by lia.
    induction k as [|k IHk]; [reflexivity|]. cbn [le_bytes repeat].
    now rewrite Z.mod_0_l, Z.div_0_l, IHk by lia.
  - cbn [Nat.add le_bytes app]. f_equal. apply IH.
    rewrite Nat2Z.inj_succ, Z.pow_succ_r in Hv by lia.
    split; [apply Z.div_pos; lia | apply Z.div_lt_upper_bound; lia].
Qed.

Lemma be_bytes_wide (lb : nat) (v : Z) :
  (8 <= lb)%nat -> 0 <= v < 2 ^ 64 ->
  FIPS180.be_bytes lb v = repeat 0 (lb - 8) ++ FIPS180.be_bytes 8 v.
Proof.
  intros Hlb Hv. unfold FIPS180.be_bytes.
  replace lb with (8 + (lb - 8))%nat at 1 by lia.
  rewrite le_bytes_wide by (change (256 ^ Z.of_nat 8) with (2 ^ 64); exact Hv).
  rewrite rev_app_distr. f_equal. apply rev_repeat.
Qed.

Section Blocks.
Variable wb : nat.
Hypothesis wb_pos : (0 < wb)%nat.
Variable B : nat.
Hypothesis B_def : B = (16 * wb)%nat.

Lemma blocks_app (q : nat) (A T : list Z) :
  length A = (B * q)%nat ->
  FIPS180.blocks wb (A ++ T)
  = map (fun i => firstn B (skipn (B * i) A)) (seq 0 q) ++ FIPS180.blocks wb T.
Proof.
  intros HA. unfold FIPS180.blocks, FIPS180.block_bytes. rewrite <- B_def.
  assert (HB : (0 < B)%nat) by lia.
  rewrite length_app, HA.
  replace ((B * q + length T) / B)%nat with (q + length T / B)%nat
    by (rewrite (Nat.mul_comm B q), Nat.div_add_l by lia; reflexivity).
  rewrite seq_app, map_app. f_equal.
  - apply map_ext_in. intros i Hi. apply in_seq in Hi.
    rewrite skipn_app. replace (B * i - length A)%nat with 0%nat by nia.
    rewrite skipn_O, firstn_app, length_skipn.
    replace (B - (length A - B * i))%nat with 0%nat by nia.
    now rewrite firstn_O, app_nil_r.
  - rewrite Nat.add_0_l, map_seq_shift. apply map_ext. intros j.
    rewrite skipn_app, skipn_all2 by nia. cbn [app]. do 2 f_equal. nia.
Qed.

Lemma blocks_one (T : list Z) : length T = B -> FIPS180.blocks wb T = [T].
Proof.
  intros HT. unfold FIPS180.blocks, FIPS180.block_bytes. rewrite <- B_def.
  rewrite HT, Nat.div_same by lia. cbn [seq map].
  now rewrite Nat.mul_0_r, skipn_O, firstn_all2 by lia.
Qed.

Lemma blocks_two (T1 T2 : list Z) :
  length T1 = B -> length T2 = B -> FIPS180.blocks wb (T1 ++ T2) = [T1; T2].
Proof.
  intros H1 H2. rewrite (blocks_app 1) by lia. rewrite (blocks_one T2 H2).
  cbn [seq map app]. now rewrite Nat.mul_0_r, skipn_O, firstn_all2 by lia.
Qed.

(** The blocks of the padded message: the whole blocks of the message,
    then one last block, or two when the bit 1 and the length do not fit
    after the rest of the message. *)
Lemma pad_blocks (lb : nat) (M : list Z) :
  (8 <= lb < B)%nat -> 8 * Z.of_nat (length M) < 2 ^ 64 ->
  let q := (length M / B)%nat in
  let r := (length M mod B)%nat in
  let rest := skipn (B * q) M in
  let be8 := FIPS180.be_bytes 8 (8 * Z.of_nat (length M)) in
  FIPS180.blocks wb (FIPS180.pad wb lb M)
  = map (fun i => firstn B (skipn (B * i) M)) (seq 0 q)
    ++ (if (r <? B - lb)%nat
        then [rest ++ 0x80 :: repeat 0 (B - 9 - r) ++ be8]
        else [rest ++ 0x80 :: repeat 0 (B - 1 - r); repeat 0 (B - 8) ++ be8]).
Proof.
  intros Hlb H64 q r rest be8.
  assert (HB : (0 < B)%nat) by lia.
  assert (HM : length M = (B * q + r)%nat) by (apply Nat.div_mod_eq).
  assert (Hr : (r < B)%nat) by (apply Nat.mod_upper_bound; lia).
  assert (Hrest : length rest = r) by (unfold rest; rewrite length_skipn; lia).
  assert (Hbe : length be8 = 8%nat)
    by (unfold be8, FIPS180.be_bytes; now rewrite length_rev, le_bytes_length).
  unfold FIPS180.pad, FIPS180.block_bytes. rewrite <- B_def. cbv zeta.
  rewrite (be_bytes_wide lb) by lia. fold be8.
  rewrite <- (firstn_skipn (B * q) M) at 1. fold rest. rewrite <- app_assoc.
  rewrite (blocks_app q) by (rewrite length_firstn; lia).
  f_equal.
  - apply map_ext_in. intros i Hi. apply in_seq in Hi.
    rewrite <- (firstn_skipn (B * q) M) at 2. fold rest.
    rewrite skipn_app, length_firstn.
    replace (B * i - Nat.min (B * q) (length M))%nat with 0%nat by nia.
    rewrite skipn_O, firstn_app, length_skipn, length_firstn.
    replace (B - (Nat.min (B * q) (length M) - B * i))%nat with 0%nat by nia.
    now rewrite firstn_O, app_nil_r.
  - set (k := Z.to_nat ((Z.of_nat B - Z.of_nat lb - 1 - Z.of_nat (length M)) mod Z.of_nat B)).
    destruct (Nat.ltb_spec r (B - lb)) as [Hc|Hc].
    + assert (Hk : k = (B - lb - 1 - r)%nat).
      { unfold k. rewrite HM.
        replace (Z.of_nat B - Z.of_nat lb - 1 - Z.of_nat (B * q + r))
          with (Z.of_nat (B - lb - 1 - r) + (- Z.of_nat q) * Z.of_nat B) by nia.
        rewrite Z.mod_add, Z.mod_small by lia. lia. }
      rewrite Hk. cbn [app].
      rewrite (app_assoc (repeat 0 _) (repeat 0 _)), zeros_app.
      replace (B - lb - 1 - r + (lb - 8))%nat with (B - 9 - r)%nat by lia.
      apply blocks_one.
      rewrite length_app. cbn [length]. rewrite length_app, repeat_length. lia.
    + assert (Hk : k = (2 * B - lb - 1 - r)%nat).
      { unfold k. rewrite HM.
        replace (Z.of_nat B - Z.of_nat lb - 1 - Z.of_nat (B * q + r))
          with (Z.of_nat (2 * B - lb - 1 - r) + (- Z.of_nat q - 1) * Z.of_nat B) by nia.
        rewrite Z.mod_add, Z.mod_small by lia. lia. }
      rewrite Hk. cbn [app].
      rewrite (app_assoc (repeat 0 _) (repeat 0 _)), zeros_app.
      replace (2 * B - lb - 1 - r + (lb - 8))%nat with ((B - 1 - r) + (B - 8))%nat by lia.
      rewrite <- zeros_app, <- app_assoc.
      change (rest ++ 128 :: repeat 0 (B - 1 - r) ++ repeat 0 (B - 8) ++ be8)
        with (rest ++ (128 :: repeat 0 (B - 1 - r)) ++ repeat 0 (B - 8) ++ be8).
      rewrite app_assoc.
      apply blocks_two.
      * rewrite length_app. cbn [length]. rewrite repeat_length. lia.
      * rewrite length_app, repeat_length. lia.
Qed.

End Blocks.

(** ** SHA256 and SHA512 of the source against the standard *)

Lemma store_at (P R : list Z) (x v : Z) :
  store (P ++ x :: R) (Z.of_nat (length P)) v = Some (P ++ v :: R).
Proof.
  unfold store. destruct (Z.ltb_spec (Z.of_nat (length P)) 0) as [H|_]; [lia|].
  rewrite Nat2Z.id.
  induction P as [|p P IH]; [reflexivity|]. cbn [length app store_nat]. rewrite IH.
  reflexivity.
Qed.

Lemma subspan_block (Input : list Z) (B i : nat) :
  (B * i + B <= length Input)%nat ->
  subspan Input (Z.of_nat i * Z.of_nat B) (Z.of_nat B)
  = Some (firstn B (skipn (B * i) Input)).
Proof.
  intros Hi. unfold subspan.
  destruct (Z.leb_spec 0 (Z.of_nat i * Z.of_nat B)); [|lia].
  destruct (Z.leb_spec 0 (Z.of_nat B)); [|lia].
  destruct (Z.leb_spec (Z.of_nat i * Z.of_nat B + Z.of_nat B) (Z.of_nat (length Input)));
    [|nia].
  cbn [andb]. rewrite Nat2Z.id.
  rewrite <- Nat2Z.inj_mul, Nat2Z.id, (Nat.mul_comm i B). reflexivity.
Qed.

Lemma eight_length (P : Z -> Prop) (v : list Z) : eight P v -> length v = 8%nat.
Proof. intros (a & b & c & d & e & f & g & h & -> & _). reflexivity. Qed.

Lemma eight_Forall (P : Z -> Prop) (v : list Z) : length v = 8%nat -> Forall P v -> eight P v.
Proof.
  intros HL HP.
  do 8 (destruct v as [|? v]; [discriminate|]). destruct v; [|discriminate].
  repeat match goal with H : Forall _ (_ :: _) |- _ => inversion H; subst; clear H end.
  unfold eight. do 8 eexists. split; [reflexivity|]. repeat split; assumption.
Qed.

Lemma Forall_byte_zeros (n : nat) : Forall byte (repeat 0 n).
Proof. apply Forall_forall. intros x Hx. rewrite (repeat_spec _ _ _ Hx). unfold byte. lia. Qed.

Lemma be_bytes_bytes (n : nat) (v : Z) : Forall byte (FIPS180.be_bytes n v).
Proof. apply Forall_rev, le_bytes_bytes. Qed.

Lemma be_bytes_length (n : nat) (v : Z) : length (FIPS180.be_bytes n v) = n.
Proof. unfold FIPS180.be_bytes. now rewrite length_rev, le_bytes_length. Qed.

(** The bytes that the source stores as the length: [toBig] of
    [Input.size() << 3], a [uint64_t]. *)
Lemma length_field (n : Z) :
  le_bytes 8 (cmp.toBig 8 (wrap64 (Z.shiftl n 3))) = FIPS180.be_bytes 8 (8 * n).
Proof.
  rewrite le_bytes_toBig. unfold FIPS180.be_bytes. f_equal.
  rewrite wrap64_mod, Z.shiftl_mul_pow2 by lia.
  change (2 ^ 64) with (256 ^ Z.of_nat 8). rewrite le_bytes_mod. f_equal. lia.
Qed.

(** The digest bytes: [toBig] on each word of the state, then its object
    representation. *)
Lemma digest_bytes (w : nat) (State : list Z) :
  cmp.bytes_of w (for_ 0 (length State)
                    (fun i State => tab_set State i (cmp.toBig w (tab State i))) State)
  = flat_map (FIPS180.be_bytes w) State.
Proof.
  rewrite <- (app_nil_r State) at 2. rewrite for_map_prefix, app_nil_r.
  unfold cmp.bytes_of. rewrite flat_map_concat_map, map_map, <- flat_map_concat_map.
  apply flat_map_ext. intros v. apply le_bytes_toBig.
Qed.

Lemma flat_map_length_const {A B} (f : A -> list B) (n : nat) (l : list A) :
  (forall a, length (f a) = n) -> length (flat_map f l) = (n * length l)%nat.
Proof.
  intros Hf. induction l as [|a l IH]; cbn [flat_map length]; [lia|].
  rewrite length_app, Hf, IH. lia.
Qed.

Section SHA256.
Variable ce : bool.

Lemma blocks_loop_256 (Input State : list Z) (n : nat) :
  Forall byte Input -> eight word State -> (64 * n <= length Input)%nat ->
  for_opt 0 n (fun i State =>
      Block <- subspan Input (i * 64) 64 ;;
      Hash.Compiletime.Transform256 ce State Block) State
  = Some (fold_left (FIPS180.compress 32 4 64 Hash.SHAData.kSHA256
               FIPS180.Sigma0_256 FIPS180.Sigma1_256 FIPS180.sigma0_256 FIPS180.sigma1_256)
            (map (fun i => firstn 64 (skipn (64 * i) Input)) (seq 0 n)) State)
  /\ eight word (fold_left (FIPS180.compress 32 4 64 Hash.SHAData.kSHA256
               FIPS180.Sigma0_256 FIPS180.Sigma1_256 FIPS180.sigma0_256 FIPS180.sigma1_256)
                   (map (fun i => firstn 64 (skipn (64 * i) Input)) (seq 0 n)) State).
Proof.
  intros Hb HS. induction n as [|n IH]; intros Hn.
  - split; [reflexivity | exact HS].
  - destruct IH as (E & HP); [lia|].
    rewrite for_opt_S, E. cbn [bind]. rewrite seq_S, map_app, fold_left_app.
    cbn [map fold_left]. rewrite Z.add_0_l, Nat.add_0_l.
    pose proof (subspan_block Input 64 n ltac:(lia)) as SB.
    change (Z.of_nat 64) with 64 in SB. rewrite SB. clear SB. cbn [bind].
    apply Transform256_compress; [exact HP | |].
    + apply (Forall_firstn_skipn byte 64), (Forall_firstn_skipn byte (64 * n)), Hb.
    + rewrite length_firstn, length_skipn. lia.
Qed.

End SHA256.

Lemma firstn_zeros (k m : nat) : firstn k (repeat 0 m) = repeat 0 (Nat.min k m).
Proof.
  revert k. induction m as [|m IH]; intros k; [now rewrite firstn_nil, Nat.min_0_r|].
  destruct k as [|k]; [reflexivity|]. cbn [repeat firstn Nat.min]. now rewrite IH.
Qed.

Lemma size_split (Input : list Z) (B : nat) (k : Z) :
  (0 < B)%nat -> Z.of_nat B = 2 ^ k -> 0 <= k ->
  Z.land (Modes.size Input) (Z.of_nat B - 1) = Z.of_nat (length Input mod B) /\
  Modes.size Input / Z.of_nat B = Z.of_nat (length Input / B).
Proof.
  intros HB Hk H0. unfold Modes.size. split.
  - rewrite Hk. replace (2 ^ k - 1) with (Z.ones k) by (rewrite Z.ones_equiv; lia).
    rewrite Z.land_ones, <- Hk by lia. symmetry. apply Nat2Z.inj_mod.
  - symmetry. apply Nat2Z.inj_div.
Qed.

Lemma K256_table : FIPS180.K256 = Hash.SHAData.kSHA256.
Proof. vm_compute. reflexivity. Qed.

Lemma H256_table : FIPS180.H256 = Hash.SHAData.sSHA256.
Proof. vm_compute. reflexivity. Qed.

Lemma sSHA256_words : eight word Hash.SHAData.sSHA256.
Proof.
  unfold eight. do 8 eexists. split; [reflexivity|].
  repeat match goal with |- _ /\ _ => split end; unfold word; lia.
Qed.

(** [Hash::Compiletime::SHA256] against the reference, on both branches of
    [cmp::memcpy]. *)
Lemma Compiletime_SHA256_reference (constant_evaluated : bool) (Input : list Z) :
  Forall byte Input -> 8 * Modes.size Input < 2 ^ 64 ->
  Hash.Compiletime.SHA256 constant_evaluated Input = Some (FIPS180.SHA256 Input) /\
  length (FIPS180.SHA256 Input) = 32%nat.
Proof.
  intros Hb H64.
  set (q := (length Input / 64)%nat).
  set (r := (length Input mod 64)%nat).
  assert (HM : length Input = (64 * q + r)%nat) by (apply Nat.div_mod_eq).
  assert (Hr : (r < 64)%nat) by (apply Nat.mod_upper_bound; lia).
  destruct (size_split Input 64 6 ltac:(lia) eq_refl ltac:(lia)) as (ER & EQ).
  change (Z.of_nat 64 - 1) with 63 in ER. change (Z.of_nat 64) with 64 in EQ.
  fold r in ER. fold q in EQ.
  set (rest := skipn (64 * q) Input).
  assert (Hrest : length rest = r) by (unfold rest; rewrite length_skipn; lia).
  assert (Hbrest : Forall byte rest) by (apply (Forall_firstn_skipn byte (64 * q)), Hb).
  set (be8 := FIPS180.be_bytes 8 (8 * Z.of_nat (length Input))).
  (* the standard's side *)
  unfold FIPS180.SHA256, FIPS180.digest. rewrite K256_table, H256_table.
  pose proof (pad_blocks 4 ltac:(lia) 64 eq_refl 8 Input ltac:(lia) H64) as PB.
  cbv zeta in PB.
  fold q r rest be8 in PB. change (64 - 8)%nat with 56%nat in PB.
  change (64 - 9 - r)%nat with (55 - r)%nat in PB.
  change (64 - 1 - r)%nat with (63 - r)%nat in PB.
  rewrite PB, fold_left_app. clear PB.
  (* the source's side *)
  unfold Hash.Compiletime.SHA256. cbv zeta. rewrite ER, EQ, Nat2Z.id.
  destruct (blocks_loop_256 constant_evaluated Input Hash.SHAData.sSHA256 q Hb
              sSHA256_words ltac:(lia)) as (E1 & HP1).
  rewrite E1. cbn [bind]. clear E1.
  set (State1 := fold_left _ (map _ (seq 0 q)) Hash.SHAData.sSHA256) in *.
  unfold subspan_from.
  destruct (Z.leb_spec 0 (Modes.size Input - Z.of_nat r)); [|unfold Modes.size in *; lia].
  destruct (Z.leb_spec (Modes.size Input - Z.of_nat r) (Z.of_nat (length Input)));
    [|unfold Modes.size in *; lia].
  cbn [andb bind].
  replace (Z.to_nat (Modes.size Input - Z.of_nat r)) with (64 * q)%nat
    by (unfold Modes.size; lia).
  fold rest. unfold Modes.size at 1.
  rewrite (memcpy_bytes constant_evaluated 64 rest) by (try lia; assumption).
  cbn [bind]. rewrite Hrest.
  replace (64 - r)%nat with (S (63 - r)) by lia.
  change (repeat 0 (S (63 - r))) with (0 :: repeat 0 (63 - r)).
  rewrite <- Hrest at 2. rewrite store_at. cbn [bind].
  set (LB := rest ++ 128 :: repeat 0 (63 - r)).
  assert (HLB : length LB = 64%nat)
    by (unfold LB; rewrite length_app; cbn [length]; rewrite repeat_length; lia).
  assert (HbLB : Forall byte LB).
  { unfold LB. apply Forall_app. split; [exact Hbrest|].
    constructor; [unfold byte; lia | apply Forall_byte_zeros]. }
  assert (Hbe8 : Forall byte be8) by apply be_bytes_bytes.
  assert (Lbe8 : length be8 = 8%nat) by apply be_bytes_length.
  assert (Fin : forall State Last,
            eight word State -> Forall byte Last -> length Last = 64%nat ->
            (State <- Hash.Compiletime.Transform256 constant_evaluated State Last ;;
             Some (cmp.bytes_of 4
                     (for_ 0 8 (fun i State => tab_set State i (cmp.toBig 4 (tab State i)))
                        State)))
            = Some (flat_map (FIPS180.be_bytes 4)
                      (FIPS180.compress 32 4 64 Hash.SHAData.kSHA256
                         FIPS180.Sigma0_256 FIPS180.Sigma1_256 FIPS180.sigma0_256
                         FIPS180.sigma1_256 State Last))
            /\ length (flat_map (FIPS180.be_bytes 4)
                         (FIPS180.compress 32 4 64 Hash.SHAData.kSHA256
                            FIPS180.Sigma0_256 FIPS180.Sigma1_256 FIPS180.sigma0_256
                            FIPS180.sigma1_256 State Last)) = 32%nat).
  { intros State Last HS HbL HL.
    destruct (Transform256_compress constant_evaluated State Last HS HbL HL) as (E & HP).
    rewrite E. cbn [bind].
    pose proof (eight_length _ _ HP) as L8.
    match type of L8 with length ?S = _ => pose proof (digest_bytes 4 S) as DB end.
    rewrite L8 in DB. rewrite DB. split; [reflexivity|].
    rewrite (flat_map_length_const _ 4) by (intros; apply be_bytes_length). lia. }
  destruct (Z.leb_spec 56 (Z.of_nat r)) as [Hc|Hc].
  - destruct (Nat.ltb_spec r 56) as [Hn|_]; [lia|].
    destruct (Transform256_compress constant_evaluated State1 LB HP1 HbLB HLB) as (E2 & HP2).
    rewrite E2. cbn [bind]. clear E2.
    rewrite skipn_zeros, firstn_zeros. change (64 - 56)%nat with 8%nat.
    change (Nat.min 56 64) with 56%nat.
    rewrite (memcpy_value_bytes constant_evaluated (repeat 0 8))
      by (try reflexivity; apply Forall_byte_zeros).
    cbn [bind]. fold (Modes.size Input). rewrite length_field. unfold Modes.size. fold be8.
    cbn [fold_left].
    apply Fin; [exact HP2 | | ].
    + apply Forall_app. split; [apply Forall_byte_zeros | exact Hbe8].
    + rewrite length_app, repeat_length. lia.
  - destruct (Nat.ltb_spec r 56) as [_|Hn]; [|lia].
    cbn [bind].
    assert (Hsk : length (skipn 56 LB) = 8%nat) by (rewrite length_skipn; lia).
    rewrite (memcpy_value_bytes constant_evaluated (skipn 56 LB))
      by (try exact Hsk; apply (Forall_firstn_skipn byte 56), HbLB).
    cbn [bind]. fold (Modes.size Input). rewrite length_field. unfold Modes.size. fold be8.
    assert (Hfn : firstn 56 LB = rest ++ 128 :: repeat 0 (55 - r)).
    { unfold LB. replace (63 - r)%nat with ((55 - r) + 8)%nat by lia.
      rewrite repeat_app.
      change (rest ++ 128 :: repeat 0 (55 - r) ++ repeat 0 8)
        with (rest ++ (128 :: repeat 0 (55 - r)) ++ repeat 0 8).
      rewrite app_assoc, firstn_app.
      assert (HL' : length (rest ++ 128 :: repeat 0 (55 - r)) = 56%nat)
        by (rewrite length_app; cbn [length]; rewrite repeat_length; lia).
      rewrite HL', Nat.sub_diag, firstn_O, app_nil_r.
      apply firstn_all2. lia. }
    rewrite Hfn. cbn [fold_left].
    replace ((rest ++ 128 :: repeat 0 (55 - r)) ++ be8)
      with (rest ++ 128 :: repeat 0 (55 - r) ++ be8)
      by (rewrite <- app_assoc; reflexivity).
    apply Fin; [exact HP1 | | ].
    + apply Forall_app. split; [exact Hbrest|].
      constructor; [unfold byte; lia|].
      apply Forall_app. split; [apply Forall_byte_zeros | exact Hbe8].
    + rewrite length_app. cbn [length]. rewrite length_app, repeat_length. lia.
Qed.

(** X17: [Hash::Compiletime::SHA256] is SHA-256 of FIPS 180-4.  For every
    input of bytes whose length in bits fits 64 bits, on both branches of
    [cmp::memcpy] (constant evaluation, and the run-time fallback without
    OpenSSL), the call is defined and returns the 32 bytes that the
    standard specifies: the message padded with the bit 1, zeros and the
    64-bit length, parsed into blocks of sixteen big-endian words, and
    compressed block by block from the initial hash value.  The tables
    [kSHA256] and [sSHA256] hold the first 32 bits of the fractional parts
    of the cube roots of the first 64 primes and of the square roots of the
    first 8. *)
Theorem X17_SHA256_is_FIPS_180_4 (constant_evaluated : bool) (Input : list Z) :
  Forall byte Input -> 8 * Modes.size Input < 2 ^ 64 ->
  Hash.Compiletime.SHA256 constant_evaluated Input = Some (FIPS180.SHA256 Input) /\
  length (FIPS180.SHA256 Input) = 32%nat.
Proof.
  intros Hb H64.
  destruct (Compiletime_SHA256_reference constant_evaluated Input Hb H64) as [E L].
  split; [exact E | exact L].
Qed.

Lemma X17_witness :
  let Input := [49; 50; 51; 52; 53] in
  Forall byte Input /\ 8 * Modes.size Input < 2 ^ 64 /\
  Hash.Compiletime.SHA256 true Input = Some (FIPS180.SHA256 Input).
Proof.
  cbv zeta.
  assert (Hb : Forall byte [49; 50; 51; 52; 53]) by (apply bytes_by_eval; reflexivity).
  assert (H64 : 8 * Modes.size [49; 50; 51; 52; 53] < 2 ^ 64) by reflexivity.
  exact (conj Hb (conj H64 (proj1 (X17_SHA256_is_FIPS_180_4 true _ Hb H64)))).
Defined.

Section SHA512.
Variable ce : bool.

Lemma blocks_loop_512 (Input State : list Z) (n : nat) :
  Forall byte Input -> eight word64 State -> (128 * n <= length Input)%nat ->
  for_opt 0 n (fun i State =>
      Block <- subspan Input (i * 128) 128 ;;
      Hash.Compiletime.Transform512 ce State Block) State
  = Some (fold_left (FIPS180.compress 64 8 80 Hash.SHAData.kSHA512
               FIPS180.Sigma0_512 FIPS180.Sigma1_512 FIPS180.sigma0_512 FIPS180.sigma1_512)
            (map (fun i => firstn 128 (skipn (128 * i) Input)) (seq 0 n)) State)
  /\ eight word64 (fold_left (FIPS180.compress 64 8 80 Hash.SHAData.kSHA512
               FIPS180.Sigma0_512 FIPS180.Sigma1_512 FIPS180.sigma0_512 FIPS180.sigma1_512)
                   (map (fun i => firstn 128 (skipn (128 * i) Input)) (seq 0 n)) State).
Proof.
  intros Hb HS. induction n as [|n IH]; intros Hn.
  - split; [reflexivity | exact HS].
  - destruct IH as (E & HP); [lia|].
    rewrite for_opt_S, E. cbn [bind]. rewrite seq_S, map_app, fold_left_app.
    cbn [map fold_left]. rewrite Z.add_0_l, Nat.add_0_l.
    pose proof (subspan_block Input 128 n ltac:(lia)) as SB.
    change (Z.of_nat 128) with 128 in SB. rewrite SB. clear SB. cbn [bind].
    apply Transform512_compress; [exact HP | |].
    + apply (Forall_firstn_skipn byte 128), (Forall_firstn_skipn byte (128 * n)), Hb.
    + rewrite length_firstn, length_skipn. lia.
Qed.

End SHA512.

Lemma K512_table : FIPS180.K512 = Hash.SHAData.kSHA512.
Proof. vm_compute. reflexivity. Qed.

Lemma H512_table : FIPS180.H512 = Hash.SHAData.sSHA512.
Proof. vm_compute. reflexivity. Qed.

Lemma sSHA512_words : eight word64 Hash.SHAData.sSHA512.
Proof.
  unfold eight. do 8 eexists. split; [reflexivity|].
  repeat match goal with |- _ /\ _ => split end; unfold word64; lia.
Qed.

(** [Hash::Compiletime::SHA512] against the reference, on both branches of
    [cmp::memcpy]. *)
Lemma Compiletime_SHA512_reference (constant_evaluated : bool) (Input : list Z) :
  Forall byte Input -> 8 * Modes.size Input < 2 ^ 64 ->
  Hash.Compiletime.SHA512 constant_evaluated Input = Some (FIPS180.SHA512 Input) /\
  length (FIPS180.SHA512 Input) = 64%nat.
Proof.
  intros Hb H64.
  set (q := (length Input / 128)%nat).
  set (r := (length Input mod 128)%nat).
  assert (HM : length Input = (128 * q + r)%nat) by (apply Nat.div_mod_eq).
  assert (Hr : (r < 128)%nat) by (apply Nat.mod_upper_bound; lia).
  destruct (size_split Input 128 7 ltac:(lia) eq_refl ltac:(lia)) as (ER & EQ).
  change (Z.of_nat 128 - 1) with 127 in ER. change (Z.of_nat 128) with 128 in EQ.
  fold r in ER. fold q in EQ.
  set (rest := skipn (128 * q) Input).
  assert (Hrest : length rest = r) by (unfold rest; rewrite length_skipn; lia).
  assert (Hbrest : Forall byte rest) by (apply (Forall_firstn_skipn byte (128 * q)), Hb).
  set (be8 := FIPS180.be_bytes 8 (8 * Z.of_nat (length Input))).
  (* the standard's side *)
  unfold FIPS180.SHA512, FIPS180.digest. rewrite K512_table, H512_table.
  pose proof (pad_blocks 8 ltac:(lia) 128 eq_refl 16 Input ltac:(lia) H64) as PB.
  cbv zeta in PB.
  fold q r rest be8 in PB. change (128 - 16)%nat with 112%nat in PB.
  change (128 - 9 - r)%nat with (119 - r)%nat in PB.
  change (128 - 1 - r)%nat with (127 - r)%nat in PB.
  change (128 - 8)%nat with 120%nat in PB.
  rewrite PB, fold_left_app. clear PB.
  (* the source's side *)
  unfold Hash.Compiletime.SHA512. cbv zeta. rewrite ER, EQ, Nat2Z.id.
  destruct (blocks_loop_512 constant_evaluated Input Hash.SHAData.sSHA512 q Hb
              sSHA512_words ltac:(lia)) as (E1 & HP1).
  rewrite E1. cbn [bind]. clear E1.
  set (State1 := fold_left _ (map _ (seq 0 q)) Hash.SHAData.sSHA512) in *.
  unfold subspan_from.
  destruct (Z.leb_spec 0 (Modes.size Input - Z.of_nat r)); [|unfold Modes.size in *; lia].
  destruct (Z.leb_spec (Modes.size Input - Z.of_nat r) (Z.of_nat (length Input)));
    [|unfold Modes.size in *; lia].
  cbn [andb bind].
  replace (Z.to_nat (Modes.size Input - Z.of_nat r)) with (128 * q)%nat
    by (unfold Modes.size; lia).
  fold rest. rewrite <- Hrest at 1.
  rewrite (memcpy_bytes constant_evaluated 128 rest) by (try lia; assumption).
  cbn [bind]. rewrite Hrest.
  replace (128 - r)%nat with (S (127 - r)) by lia.
  change (repeat 0 (S (127 - r))) with (0 :: repeat 0 (127 - r)).
  rewrite <- Hrest at 2. rewrite store_at. cbn [bind].
  set (LB := rest ++ 128 :: repeat 0 (127 - r)).
  assert (HLB : length LB = 128%nat)
    by (unfold LB; rewrite length_app; cbn [length]; rewrite repeat_length; lia).
  assert (HbLB : Forall byte LB).
  { unfold LB. apply Forall_app. split; [exact Hbrest|].
    constructor; [unfold byte; lia | apply Forall_byte_zeros]. }
  assert (Hbe8 : Forall byte be8) by apply be_bytes_bytes.
  assert (Lbe8 : length be8 = 8%nat) by apply be_bytes_length.
  assert (Fin : forall State Last,
            eight word64 State -> Forall byte Last -> length Last = 128%nat ->
            (State <- Hash.Compiletime.Transform512 constant_evaluated State Last ;;
             Some (cmp.bytes_of 8
                     (for_ 0 8 (fun i State => tab_set State i (cmp.toBig 8 (tab State i)))
                        State)))
            = Some (flat_map (FIPS180.be_bytes 8)
                      (FIPS180.compress 64 8 80 Hash.SHAData.kSHA512
                         FIPS180.Sigma0_512 FIPS180.Sigma1_512 FIPS180.sigma0_512
                         FIPS180.sigma1_512 State Last))
            /\ length (flat_map (FIPS180.be_bytes 8)
                         (FIPS180.compress 64 8 80 Hash.SHAData.kSHA512
                            FIPS180.Sigma0_512 FIPS180.Sigma1_512 FIPS180.sigma0_512
                            FIPS180.sigma1_512 State Last)) = 64%nat).
  { intros State Last HS HbL HL.
    destruct (Transform512_compress constant_evaluated State Last HS HbL HL) as (E & HP).
    rewrite E. cbn [bind].
    pose proof (eight_length _ _ HP) as L8.
    match type of L8 with length ?S = _ => pose proof (digest_bytes 8 S) as DB end.
    rewrite L8 in DB. rewrite DB. split; [reflexivity|].
    rewrite (flat_map_length_const _ 8) by (intros; apply be_bytes_length). lia. }
  destruct (Z.leb_spec 112 (Z.of_nat r)) as [Hc|Hc].
  - destruct (Nat.ltb_spec r 112) as [Hn|_]; [lia|].
    destruct (Transform512_compress constant_evaluated State1 LB HP1 HbLB HLB) as (E2 & HP2).
    rewrite E2. cbn [bind]. clear E2.
    rewrite skipn_zeros, firstn_zeros. change (128 - 120)%nat with 8%nat.
    change (Nat.min 120 128) with 120%nat.
    rewrite (memcpy_value_bytes constant_evaluated (repeat 0 8))
      by (try reflexivity; apply Forall_byte_zeros).
    cbn [bind]. fold (Modes.size Input). rewrite length_field. unfold Modes.size. fold be8.
    cbn [fold_left].
    apply Fin; [exact HP2 | | ].
    + apply Forall_app. split; [apply Forall_byte_zeros | exact Hbe8].
    + rewrite length_app, repeat_length. lia.
  - destruct (Nat.ltb_spec r 112) as [_|Hn]; [|lia].
    cbn [bind].
    assert (Hsk : length (skipn 120 LB) = 8%nat) by (rewrite length_skipn; lia).
    rewrite (memcpy_value_bytes constant_evaluated (skipn 120 LB))
      by (try exact Hsk; apply (Forall_firstn_skipn byte 120), HbLB).
    cbn [bind]. fold (Modes.size Input). rewrite length_field. unfold Modes.size. fold be8.
    assert (Hfn : firstn 120 LB = rest ++ 128 :: repeat 0 (119 - r)).
    { unfold LB. replace (127 - r)%nat with ((119 - r) + 8)%nat by lia.
      rewrite repeat_app.
      change (rest ++ 128 :: repeat 0 (119 - r) ++ repeat 0 8)
        with (rest ++ (128 :: repeat 0 (119 - r)) ++ repeat 0 8).
      rewrite app_assoc, firstn_app.
      assert (HL' : length (rest ++ 128 :: repeat 0 (119 - r)) = 120%nat)
        by (rewrite length_app; cbn [length]; rewrite repeat_length; lia).
      rewrite HL', Nat.sub_diag, firstn_O, app_nil_r.
      apply firstn_all2. lia. }
    rewrite Hfn. cbn [fold_left].
    replace ((rest ++ 128 :: repeat 0 (119 - r)) ++ be8)
      with (rest ++ 128 :: repeat 0 (119 - r) ++ be8)
      by (rewrite <- app_assoc; reflexivity).
    apply Fin; [exact HP1 | | ].
    + apply Forall_app. split; [exact Hbrest|].
      constructor; [unfold byte; lia|].
      apply Forall_app. split; [apply Forall_byte_zeros | exact Hbe8].
    + rewrite length_app. cbn [length]. rewrite length_app, repeat_length. lia.
Qed.

(** X18: [Hash::Compiletime::SHA512] is SHA-512 of FIPS 180-4.  For every
    input of bytes whose length in bits fits 64 bits, on both branches of
    [cmp::memcpy], the call is defined and returns the 64 bytes that the
    standard specifies.  The source stores the length in the last eight
    bytes of the block and leaves the eight bytes before them zero, which
    is the standard's 128-bit length field for these inputs.  The tables
    [kSHA512] and [sSHA512] hold the first 64 bits of the fractional parts
    of the cube roots of the first 80 primes and of the square roots of the
    first 8. *)
Theorem X18_SHA512_is_FIPS_180_4 (constant_evaluated : bool) (Input : list Z) :
  Forall byte Input -> 8 * Modes.size Input < 2 ^ 64 ->
  Hash.Compiletime.SHA512 constant_evaluated Input = Some (FIPS180.SHA512 Input) /\
  length (FIPS180.SHA512 Input) = 64%nat.
Proof.
  intros Hb H64.
  destruct (Compiletime_SHA512_reference constant_evaluated Input Hb H64) as [E L].
  split; [exact E | exact L].
Qed.

Lemma X18_witness :
  let Input := [49; 50; 51; 52; 53] in
  Forall byte Input /\ 8 * Modes.size Input < 2 ^ 64 /\
  Hash.Compiletime.SHA512 false Input = Some (FIPS180.SHA512 Input).
Proof.
  cbv zeta.
  assert (Hb : Forall byte [49; 50; 51; 52; 53]) by (apply bytes_by_eval; reflexivity).
  assert (H64 : 8 * Modes.size [49; 50; 51; 52; 53] < 2 ^ 64) by reflexivity.
  exact (conj Hb (conj H64 (proj1 (X18_SHA512_is_FIPS_180_4 false _ Hb H64)))).
Defined.

(** ** cmp::memcpy from bytes into a wider element *)

Lemma le_value_app (A Bs : list Z) :
  le_value (A ++ Bs) = le_value A + 256 ^ Z.of_nat (length A) * le_value Bs.
Proof.
  induction A as [|a A IH]; [cbn [app length le_value]; change (256 ^ Z.of_nat 0) with 1; lia|].
  cbn [app length le_value]. rewrite IH, Nat2Z.inj_succ, Z.pow_succ_r by lia. lia.
Qed.

Lemma le_bytes_padded (l : list Z) (k : nat) :
  Forall byte l -> le_bytes (length l + k) (le_value l) = l ++ repeat 0 k.
Proof.
  intros Hl. rewrite le_bytes_wide by (apply le_value_range, Hl).
  now rewrite le_bytes_le_value.
Qed.

Lemma le_bytes_repeat (b : Z) (n : nat) :
  byte b -> le_bytes n (le_value (repeat b n)) = repeat b n.
Proof.
  intros Hb. rewrite <- (repeat_length b n) at 1. apply le_bytes_le_value.
  apply Forall_forall. intros x Hx. now rewrite (repeat_spec _ _ _ Hx).
Qed.

(** One element [d] of [wT] bytes, [n <= wT] bytes copied into it. *)
Lemma memcpy_into_element (wT : nat) (d : Z) (Src : list Z) (n : nat) :
  (2 <= wT)%nat -> (n <= wT)%nat -> (n <= length Src)%nat -> Forall byte Src ->
  cmp.memcpy false wT 1 [d] Src (Z.of_nat n)
  = Some [le_value (firstn n Src ++ skipn n (le_bytes wT d))] /\
  cmp.memcpy true wT 1 [d] Src (Z.of_nat n) = Some [le_value (firstn n Src)].
Proof.
  intros Hw Hn HS Hb. unfold cmp.memcpy. cbn [negb]. split.
  - unfold cmp.std_memcpy. rewrite Nat2Z.id, (bytes_of_bytes _ Hb).
    cbn [cmp.bytes_of flat_map length]. rewrite app_nil_r, le_bytes_length.
    destruct (Nat.leb_spec n (length Src)); [|lia].
    destruct (Nat.leb_spec n wT); [|lia]. cbn [andb cmp.elements_of].
    rewrite firstn_all2; [reflexivity|].
    rewrite length_app, length_firstn, length_skipn, le_bytes_length. lia.
  - destruct (Nat.eqb_spec wT 1); [lia|]. cbn [Nat.eqb cmp.copy_from_bytes].
    rewrite Z.min_r by lia.
    destruct (Z.ltb_spec (Z.of_nat (length Src)) (Z.of_nat n)); [lia|].
    rewrite Z.sub_diag. cbn [Z.eqb]. rewrite Nat2Z.id.
    now rewrite le_value_app_zeros.
Qed.

Lemma land_15_bounds (x : Z) : 0 <= x -> 0 <= Z.land x 15 <= 15 /\ Z.land x 15 <= x.
Proof.
  intros Hx. change 15 with (Z.ones 4). rewrite Z.land_ones by lia.
  change (2 ^ 4) with 16.
  pose proof (Z.mod_pos_bound x 16 ltac:(lia)).
  pose proof (Z.mod_le x 16 Hx ltac:(lia)). change (Z.ones 4) with 15. lia.
Qed.

(** X19: [cmp::memcpy] from bytes into an element of [wT >= 2] bytes, for
    [n <= wT] bytes.  At run time the first [n] bytes of the element are
    replaced and the others kept; in constant evaluation the element is
    assigned from a zero-initialised buffer, so its other bytes become
    zero (with [n = 0] the whole element is cleared).  The two branches
    agree exactly when the bytes of the element from [n] on were zero.  The
    last block of [AES::Modes::Padded::Encrypt] is what this call makes of
    the block of padding bytes. *)
Theorem X19_memcpy_from_bytes_clears_the_element
    (wT : nat) (d : Z) (Src : list Z) (n : nat) (Input : list Z) (Padding : Z) :
  (2 <= wT)%nat -> (n <= wT)%nat -> (n <= length Src)%nat -> Forall byte Src ->
  Forall byte Input -> byte Padding ->
  (exists run const,
     cmp.memcpy false wT 1 [d] Src (Z.of_nat n) = Some [run] /\
     cmp.memcpy true wT 1 [d] Src (Z.of_nat n) = Some [const] /\
     le_bytes wT run = firstn n Src ++ skipn n (le_bytes wT d) /\
     le_bytes wT const = firstn n Src ++ repeat 0 (wT - n) /\
     (run = const <-> skipn n (le_bytes wT d) = repeat 0 (wT - n))) /\
  (let r := Z.land (Modes.size Input) 15 in
   let tail := skipn (Z.to_nat (Modes.size Input - r)) Input in
   let padding := le_value (repeat Padding 16) in
   exists run const,
     cmp.memcpy false 16 1 [padding] tail r = Some [run] /\
     cmp.memcpy true 16 1 [padding] tail r = Some [const] /\
     Modes.last_block (H := Portable_path) Input Padding
     = Portable.bytes_block (le_bytes 16 run) /\
     Modes.last_block (H := Portable_constant_evaluated) Input Padding
     = Portable.bytes_block (le_bytes 16 const)).
Proof.
  intros Hw Hn HS Hb HI HP.
  assert (core : forall (w : nat) (e : Z) (S0 : list Z) (m : nat),
            (2 <= w)%nat -> (m <= w)%nat -> (m <= length S0)%nat -> Forall byte S0 ->
            exists run const,
              cmp.memcpy false w 1 [e] S0 (Z.of_nat m) = Some [run] /\
              cmp.memcpy true w 1 [e] S0 (Z.of_nat m) = Some [const] /\
              le_bytes w run = firstn m S0 ++ skipn m (le_bytes w e) /\
              le_bytes w const = firstn m S0 ++ repeat 0 (w - m) /\
              (run = const <-> skipn m (le_bytes w e) = repeat 0 (w - m))).
  { intros w e S0 m Hw' Hm HS0 Hb0.
    destruct (memcpy_into_element w e S0 m Hw' Hm HS0 Hb0) as (ER & EC).
    assert (Hf : Forall byte (firstn m S0)) by apply (Forall_firstn_skipn byte m S0 Hb0).
    assert (Lf : length (firstn m S0) = m) by (rewrite length_firstn; lia).
    assert (Hs : Forall byte (skipn m (le_bytes w e)))
      by apply (Forall_firstn_skipn byte m _ (le_bytes_bytes w e)).
    assert (Ls : length (skipn m (le_bytes w e)) = (w - m)%nat)
      by (rewrite length_skipn, le_bytes_length; lia).
    eexists. eexists. split; [exact ER|]. split; [exact EC|].
    assert (E1 : le_bytes w (le_value (firstn m S0 ++ skipn m (le_bytes w e)))
                 = firstn m S0 ++ skipn m (le_bytes w e)).
    { replace w with (length (firstn m S0 ++ skipn m (le_bytes w e))) at 1
        by (rewrite length_app; lia).
      apply le_bytes_le_value, Forall_app. split; assumption. }
    assert (E2 : le_bytes w (le_value (firstn m S0)) = firstn m S0 ++ repeat 0 (w - m)).
    { replace w with (length (firstn m S0) + (w - m))%nat at 1 by lia.
      apply le_bytes_padded, Hf. }
    split; [exact E1|]. split; [exact E2|]. split.
    - intros E. rewrite E in E1. rewrite E2 in E1. now apply app_inv_head in E1.
    - intros E. rewrite E. apply le_value_app_zeros. }
  split; [apply core; assumption|].
  cbv zeta.
  destruct (land_15_bounds (Modes.size Input)) as (Hr & Hle); [unfold Modes.size; lia|].
  set (r := Z.land (Modes.size Input) 15) in *.
  set (tail := skipn (Z.to_nat (Modes.size Input - r)) Input).
  assert (Lt : length tail = Z.to_nat r)
    by (unfold tail; rewrite length_skipn; unfold Modes.size in *; lia).
  assert (Ht : Forall byte tail) by apply (Forall_firstn_skipn byte _ Input HI).
  destruct (core 16%nat (le_value (repeat Padding 16)) tail (Z.to_nat r))
    as (run & const & ER & EC & BR & BC & _); [lia | lia | lia | exact Ht |].
  rewrite Z2Nat.id in ER, EC by lia.
  exists run, const. split; [exact ER|]. split; [exact EC|].
  rewrite BR, BC, (le_bytes_repeat Padding 16 HP).
  split; reflexivity.
Qed.

Lemma X19_witness :
  (2 <= 4)%nat /\ (0 <= 4)%nat /\
  exists const,
    cmp.memcpy false 4 1 [0x10101010] [] (Z.of_nat 0) = Some [0x10101010] /\
    cmp.memcpy true 4 1 [0x10101010] [] (Z.of_nat 0) = Some [const] /\
    le_bytes 4 const = repeat 0 4.
Proof.
  assert (H2 : (2 <= 4)%nat) by lia.
  assert (H0 : (0 <= 4)%nat) by lia.
  destruct (X19_memcpy_from_bytes_clears_the_element 4 0x10101010 [] 0 [] 16
              H2 H0 (le_n 0) (Forall_nil _) (Forall_nil _))
    as ((run & const & ER & EC & _ & BC & _) & _); [unfold byte; lia|].
  refine (conj H2 (conj H0 (ex_intro _ const (conj eq_refl (conj EC BC))))).
Defined.

(** ** cmp::memcpy between elements of the same size *)



Lemma bytes_of_app (w : nat) (A Bs : list Z) :
  cmp.bytes_of w (A ++ Bs) = cmp.bytes_of w A ++ cmp.bytes_of w Bs.
Proof. unfold cmp.bytes_of. apply flat_map_app. Qed.

Lemma bytes_of_length (w : nat) (l : list Z) : length (cmp.bytes_of w l) = (w * length l)%nat.
Proof.
  unfold cmp.bytes_of. apply flat_map_length_const. intros a. apply le_bytes_length.
Qed.

Lemma bytes_of_firstn_skipn (w k : nat) (l : list Z) :
  firstn (w * k) (cmp.bytes_of w l) = cmp.bytes_of w (firstn k l) /\
  skipn (w * k) (cmp.bytes_of w l) = cmp.bytes_of w (skipn k l).
Proof.
  destruct (Nat.le_gt_cases k (length l)) as [Hk|Hk].
  - rewrite <- (firstn_skipn k l) at 1 3. rewrite bytes_of_app.
    assert (HL : length (cmp.bytes_of w (firstn k l)) = (w * k)%nat)
      by (rewrite bytes_of_length, length_firstn; f_equal; lia).
    rewrite firstn_app, skipn_app, HL, Nat.sub_diag, firstn_O, skipn_O, app_nil_r.
    rewrite firstn_all2, skipn_all2 by lia. split; reflexivity.
  - rewrite (firstn_all2 (n := k)), (skipn_all2 (n := k)) by lia.
    rewrite firstn_all2, skipn_all2 by (rewrite bytes_of_length; nia). split; reflexivity.
Qed.

Lemma elements_of_bytes_of (w : nat) (l : list Z) :
  Forall (element w) l -> cmp.elements_of w (length l) (cmp.bytes_of w l) = l.
Proof.
  induction 1 as [|v l Hv Hl IH]; [reflexivity|].
  cbn [length cmp.elements_of].
  change (cmp.bytes_of w (v :: l)) with (le_bytes w v ++ cmp.bytes_of w l).
  rewrite firstn_app, skipn_app, le_bytes_length, Nat.sub_diag, firstn_O, skipn_O, app_nil_r.
  rewrite firstn_all2, skipn_all2 by (rewrite le_bytes_length; lia).
  rewrite app_nil_l, IH, le_value_le_bytes. f_equal. apply Z.mod_small, Hv.
Qed.

Lemma copy_elements_whole (w k : nat) (Dst Src : list Z) :
  (1 <= w)%nat -> (k <= length Src)%nat -> (k <= length Dst)%nat ->
  Z.of_nat (w * k) < 2 ^ 64 ->
  cmp.copy_elements (Z.of_nat w) Dst Src (Z.of_nat (w * k))
  = Some (firstn k Src ++ skipn k Dst).
Proof.
  intros Hw. revert k Dst. induction Src as [|s Src IH]; intros k Dst HS HD H64.
  - cbn in HS. assert (k = 0)%nat as -> by lia. rewrite Nat.mul_0_r.
    destruct Dst; reflexivity.
  - destruct k as [|k].
    + rewrite Nat.mul_0_r. destruct Dst; reflexivity.
    + destruct Dst as [|d Dst]; [cbn in HD; lia|].
      cbn [length] in HS, HD.
      cbn [cmp.copy_elements firstn skipn app].
      destruct (Z.eqb_spec (Z.of_nat (w * S k)) 0); [nia|].
      replace (Z.of_nat (w * S k) - Z.of_nat w) with (Z.of_nat (w * k)) by nia.
      rewrite wrap64_small by nia.
      rewrite IH by (try lia; nia). reflexivity.
Qed.

Lemma copy_elements_partial (w : Z) (Dst Src : list Z) (n : Z) :
  0 < w -> (w | 2 ^ 64) -> n mod w <> 0 -> cmp.copy_elements w Dst Src n = None.
Proof.
  intros Hw Hd. revert Dst n. induction Src as [|s Src IH]; intros Dst n Hn.
  - cbn [cmp.copy_elements].
    destruct (Z.eqb_spec n 0) as [->|_]; [now rewrite Z.mod_0_l in Hn by lia|].
    destruct Dst; reflexivity.
  - cbn [cmp.copy_elements].
    destruct (Z.eqb_spec n 0) as [->|_]; [now rewrite Z.mod_0_l in Hn by lia|].
    destruct Dst as [|d Dst]; [reflexivity|].
    rewrite IH; [reflexivity|].
    rewrite wrap64_mod, (Z.mod_mod_divide _ _ _ Hd).
    replace (n - w) with (n + (-1) * w) by lia. now rewrite Z.mod_add by lia.
Qed.

(** X20: [cmp::memcpy] between element types of the same size [w].  In
    constant evaluation it copies whole elements: with [Sizebytes = w * k]
    the first [k] elements of the destination become those of the source,
    as at run time; with a byte count that is not a multiple of [w] (for
    [w] = 2, 4, 8, 16, ...) the [size_t] count steps over zero, the loop
    leaves the arrays and the call is undefined, while [std::memcpy] at run
    time copies the bytes. *)
Theorem X20_memcpy_same_size_copies_whole_elements
    (w k : nat) (Dst Src : list Z) (n : Z) :
  (1 <= w)%nat -> (k <= length Src)%nat -> (k <= length Dst)%nat ->
  Z.of_nat (w * k) < 2 ^ 64 ->
  Forall (element w) Src -> Forall (element w) Dst ->
  cmp.memcpy true w w Dst Src (Z.of_nat (w * k)) = Some (firstn k Src ++ skipn k Dst) /\
  cmp.memcpy false w w Dst Src (Z.of_nat (w * k)) = Some (firstn k Src ++ skipn k Dst) /\
  ((Z.of_nat w | 2 ^ 64) -> n mod Z.of_nat w <> 0 ->
   cmp.memcpy true w w Dst Src n = None /\
   (0 <= n <= Z.of_nat (w * k) -> exists R, cmp.memcpy false w w Dst Src n = Some R)).
Proof.
  intros Hw HS HD H64 ES ED. unfold cmp.memcpy. cbn [negb]. rewrite Nat.eqb_refl.
  split; [apply copy_elements_whole; assumption|]. split.
  - unfold cmp.std_memcpy. rewrite Nat2Z.id, !bytes_of_length.
    destruct (Nat.leb_spec (w * k) (w * length Src)); [|nia].
    destruct (Nat.leb_spec (w * k) (w * length Dst)); [|nia]. cbn [andb].
    destruct (bytes_of_firstn_skipn w k Src) as (-> & _).
    destruct (bytes_of_firstn_skipn w k Dst) as (_ & ->).
    rewrite <- bytes_of_app.
    replace (length Dst) with (length (firstn k Src ++ skipn k Dst))
      by (rewrite length_app, length_firstn, length_skipn; lia).
    f_equal. apply elements_of_bytes_of, Forall_app. split.
    + apply (Forall_firstn_skipn (element w) k Src ES).
    + apply (Forall_firstn_skipn (element w) k Dst ED).
  - intros Hd Hn. split; [apply copy_elements_partial; [lia | exact Hd | exact Hn]|].
    intros Hr. unfold cmp.std_memcpy. rewrite !bytes_of_length.
    destruct (Nat.leb_spec (Z.to_nat n) (w * length Src)); [|nia].
    destruct (Nat.leb_spec (Z.to_nat n) (w * length Dst)); [|nia]. cbn [andb].
    eexists. reflexivity.
Qed.

Lemma X20_witness :
  ((1 <= 4)%nat /\ (1 <= 2)%nat /\ (Z.of_nat 4 | 2 ^ 64) /\ 6 mod Z.of_nat 4 <> 0) /\
  cmp.memcpy true 4 4 [7; 8] [1; 2] (Z.of_nat (4 * 1)) = Some [1; 8] /\
  cmp.memcpy true 4 4 [7; 8] [1; 2] 6 = None.
Proof.
  assert (H1 : (1 <= 4)%nat) by lia.
  assert (H2 : (1 <= 2)%nat) by lia.
  assert (Hd : (Z.of_nat 4 | 2 ^ 64)) by (exists (2 ^ 62); reflexivity).
  assert (Hn : 6 mod Z.of_nat 4 <> 0) by (vm_compute; discriminate).
  assert (E : forall l, forallb (fun v => (0 <=? v) && (v <? 256 ^ 4)) l = true ->
                        Forall (element 4) l).
  { intros l. apply Forall_by_eval. intros v Hv. apply andb_prop in Hv.
    destruct Hv as [A B]. apply Z.leb_le in A. apply Z.ltb_lt in B. split; assumption. }
  destruct (X20_memcpy_same_size_copies_whole_elements 4 1 [7; 8] [1; 2] 6 H1 H2 H2
              ltac:(reflexivity) (E [1; 2] eq_refl) (E [7; 8] eq_refl)) as (EC & _ & HP).
  exact (conj (conj H1 (conj H2 (conj Hd Hn))) (conj EC (proj1 (HP Hd Hn)))).
Defined.

(** ** cmp::memcpy from wider elements into bytes *)

Lemma copy_to_bytes_spec (wU : nat) (Src Dst : list Z) (n : nat) :
  (1 <= wU)%nat -> Src <> [] -> (n <= length Dst)%nat -> (n <= wU * length Src)%nat ->
  cmp.copy_to_bytes wU Dst Src (Z.of_nat n)
  = Some (firstn n (cmp.bytes_of wU Src) ++ skipn n Dst).
Proof.
  intros Hw. revert Dst n. induction Src as [|s Src IH]; intros Dst n Hne HD HS;
    [contradiction|].
  cbn [cmp.copy_to_bytes length] in *.
  change (cmp.bytes_of wU (s :: Src)) with (le_bytes wU s ++ cmp.bytes_of wU Src).
  destruct (Nat.le_gt_cases n wU) as [Hn|Hn].
  - rewrite Z.min_r by lia.
    destruct (Z.ltb_spec (Z.of_nat (length Dst)) (Z.of_nat n)); [lia|].
    rewrite Z.sub_diag, Nat2Z.id. cbn [Z.eqb].
    rewrite firstn_app, le_bytes_length.
    replace (n - wU)%nat with 0%nat by lia. now rewrite firstn_O, app_nil_r.
  - rewrite Z.min_l by lia.
    destruct (Z.ltb_spec (Z.of_nat (length Dst)) (Z.of_nat wU)); [lia|].
    rewrite Nat2Z.id.
    destruct (Z.eqb_spec (Z.of_nat n - Z.of_nat wU) 0); [lia|].
    replace (Z.of_nat n - Z.of_nat wU) with (Z.of_nat (n - wU)) by lia.
    rewrite IH.
    + cbn [bind]. rewrite firstn_all2 by (rewrite le_bytes_length; lia).
      rewrite firstn_app, le_bytes_length.
      rewrite (firstn_all2 (n := n)) by (rewrite le_bytes_length; lia).
      rewrite skipn_skipn. replace (n - wU + wU)%nat with n by lia.
      now rewrite <- app_assoc.
    + intros ->. cbn in HS. lia.
    + rewrite length_skipn. lia.
    + nia.
Qed.

(** Both branches store bytes taken from wider elements alike. *)
Lemma memcpy_to_bytes (ce : bool) (wU : nat) (Src Dst : list Z) (n : nat) :
  (2 <= wU)%nat -> Src <> [] -> (n <= length Dst)%nat -> (n <= wU * length Src)%nat ->
  Forall byte Dst ->
  cmp.memcpy ce 1 wU Dst Src (Z.of_nat n)
  = Some (firstn n (cmp.bytes_of wU Src) ++ skipn n Dst).
Proof.
  intros Hw Hne HD HS Hb. unfold cmp.memcpy. destruct ce; cbn [negb].
  - destruct (Nat.eqb_spec 1 wU); [lia|]. cbn [Nat.eqb].
    apply copy_to_bytes_spec; (assumption || lia).
  - unfold cmp.std_memcpy. rewrite Nat2Z.id, (bytes_of_bytes _ Hb), bytes_of_length.
    destruct (Nat.leb_spec n (wU * length Src)); [|lia].
    destruct (Nat.leb_spec n (length Dst)); [|lia]. cbn [andb].
    replace (length Dst) with (length (firstn n (cmp.bytes_of wU Src) ++ skipn n Dst))
      by (rewrite length_app, length_firstn, length_skipn, bytes_of_length; lia).
    now rewrite elements_of_bytes.
Qed.

Lemma memcpy_to_bytes_short (ce : bool) (wU : nat) (s : Z) (Dst : list Z) :
  (2 <= wU)%nat -> (length Dst < wU)%nat ->
  cmp.memcpy ce 1 wU Dst [s] (Z.of_nat wU) = None.
Proof.
  intros Hw HD. unfold cmp.memcpy. destruct ce; cbn [negb].
  - destruct (Nat.eqb_spec 1 wU); [lia|]. cbn [Nat.eqb cmp.copy_to_bytes].
    rewrite Z.min_l by lia.
    destruct (Z.ltb_spec (Z.of_nat (length Dst)) (Z.of_nat wU)); [reflexivity | lia].
  - unfold cmp.std_memcpy. rewrite Nat2Z.id, !bytes_of_length.
    destruct (Nat.leb_spec wU (1 * length Dst)); [lia|]. now rewrite andb_false_r.
Qed.

(** X21: [cmp::memcpy] from elements of [wU >= 2] bytes into bytes copies
    the first [n] bytes of the source's object representation, alike in
    constant evaluation and at run time; with an empty source and a count
    of zero the constant-evaluated branch still reads [*Src] and is
    undefined.  The block accesses of the mode functions are instances:
    [cmp::memcpy(&Buffer[i], Block)] is [write_block], undefined when fewer
    than sixteen bytes are left, and
    [cmp::memcpy(&Block, &Input[i], sizeof(Block_t))] is [read_block]. *)
Theorem X21_memcpy_to_bytes_and_the_block_accesses
    (ce : bool) (wU : nat) (Src Dst : list Z) (n : nat)
    (Buffer : list Z) (i : nat) (B : Portable.Block_t) :
  (2 <= wU)%nat -> (n <= length Dst)%nat -> (n <= wU * length Src)%nat ->
  Forall byte Dst -> Forall byte Buffer -> (i <= length Buffer)%nat ->
  (Src <> [] ->
   cmp.memcpy ce 1 wU Dst Src (Z.of_nat n)
   = Some (firstn n (cmp.bytes_of wU Src) ++ skipn n Dst)) /\
  cmp.memcpy true 1 wU Dst [] 0 = None /\
  cmp.memcpy false 1 wU Dst [] 0 = Some Dst /\
  Modes.write_block (H := Portable_path) Buffer (Z.of_nat i) B
  = (tail <- cmp.memcpy_value ce 1 16 (skipn i Buffer) (le_value (Portable.block_bytes B)) ;;
     Some (firstn i Buffer ++ tail)) /\
  Modes.read_block (H := Portable_path) Buffer (Z.of_nat i)
  = (r <- cmp.memcpy ce 16 1 [0] (skipn i Buffer) 16 ;;
     Some (Portable.bytes_block (le_bytes 16 (hd 0 r)))).
Proof.
  intros Hw HD HS Hb HB Hi.
  split; [intros Hne; apply memcpy_to_bytes; assumption|].
  split.
  { unfold cmp.memcpy. cbn [negb].
    destruct (Nat.eqb_spec 1 wU); [lia|]. reflexivity. }
  split.
  { unfold cmp.memcpy, cmp.std_memcpy. cbn [negb Z.to_nat Nat.leb andb firstn skipn app].
    rewrite (bytes_of_bytes _ Hb). now rewrite elements_of_bytes. }
  assert (Hs : Forall byte (skipn i Buffer)) by apply (Forall_firstn_skipn byte i Buffer HB).
  assert (Ls : length (skipn i Buffer) = (length Buffer - i)%nat) by apply length_skipn.
  split.
  - unfold Modes.write_block, cmp.memcpy_value. cbn [Nat.eqb orb Nat.leb to_bytes Portable_path].
    destruct (Z.leb_spec 0 (Z.of_nat i)); [|lia]. cbn [andb].
    unfold Modes.size.
    destruct (Z.leb_spec (Z.of_nat i + 16) (Z.of_nat (length Buffer))) as [Hr|Hr].
    + rewrite (memcpy_to_bytes ce 16 [_] (skipn i Buffer) 16)
        by (try assumption; try discriminate; cbn [length]; lia).
      cbn [bind cmp.bytes_of flat_map]. rewrite app_nil_r.
      pose proof (le_bytes_le_value _ (block_bytes_byte B)) as E.
      change (length (Portable.block_bytes B)) with 16%nat in E. rewrite E.
      rewrite (firstn_all2 (n := 16) (Portable.block_bytes B))
        by (change (length (Portable.block_bytes B)) with 16%nat; lia).
      rewrite skipn_skipn, Nat2Z.id, (Nat.add_comm 16 i). reflexivity.
    + rewrite (memcpy_to_bytes_short ce 16) by lia. reflexivity.
  - unfold Modes.read_block. cbn [of_bytes Portable_path].
    destruct (Z.leb_spec 0 (Z.of_nat i)); [|lia]. cbn [andb].
    unfold Modes.size. rewrite Nat2Z.id.
    destruct (Z.leb_spec (Z.of_nat i + 16) (Z.of_nat (length Buffer))) as [Hr|Hr].
    + change 16 with (Z.of_nat (16 * 1)) at 1.
      pose proof (memcpy_words ce 16 1 1 (skipn i Buffer) ltac:(lia) ltac:(lia)
                    ltac:(lia) Hs) as E.
      cbn [repeat Nat.sub app] in E. rewrite E. cbn [bind hd cmp.elements_of app].
      pose proof (le_bytes_le_value _ (proj1 (Forall_firstn_skipn byte 16 _ Hs))) as E2.
      rewrite length_firstn, Nat.min_l in E2 by lia.
      now rewrite E2.
    + unfold cmp.memcpy. destruct ce; cbn [negb Nat.eqb].
      * cbn [cmp.copy_from_bytes]. change (Z.min (Z.of_nat 16) 16) with 16.
        destruct (Z.ltb_spec (Z.of_nat (length (skipn i Buffer))) 16); [reflexivity | lia].
      * unfold cmp.std_memcpy. rewrite (bytes_of_bytes _ Hs).
        change (Z.to_nat 16) with 16%nat.
        destruct (Nat.leb_spec 16 (length (skipn i Buffer))); [lia | reflexivity].
Qed.

Lemma X21_witness :
  ((2 <= 4)%nat /\ (3 <= 4)%nat) /\
  cmp.memcpy true 1 4 [9; 9; 9; 9] [0x04030201] (Z.of_nat 3) = Some [1; 2; 3; 9] /\
  Modes.write_block (H := Portable_path) Unittests.AESData (Z.of_nat 8) Portable.zero
  = None.
Proof.
  assert (H2 : (2 <= 4)%nat) by lia.
  assert (H3 : (3 <= 4)%nat) by lia.
  assert (Hb : Forall byte [9; 9; 9; 9]) by (apply bytes_by_eval; reflexivity).
  assert (HB : Forall byte Unittests.AESData) by (apply bytes_by_eval; reflexivity).
  destruct (X21_memcpy_to_bytes_and_the_block_accesses true 4 [0x04030201] [9; 9; 9; 9] 3
              Unittests.AESData 8 Portable.zero H2 H3 ltac:(cbn; lia) Hb HB
              ltac:(cbn; lia)) as (E1 & _ & _ & E2 & _).
  refine (conj (conj H2 H3) (conj (E1 ltac:(discriminate)) _)).
  rewrite E2. reflexivity.
Defined.

(** ** [String::toHex] and [String::toHEX] *)

Import Ascii.

Lemma nibbles (b : Z) : byte b ->
  Z.shiftr (Z.land (wrap8 b) 0xF0) 4 = b / 16 /\ Z.land (wrap8 b) 0x0F = b mod 16 /\
  0 <= b / 16 < 16 /\ 0 <= b mod 16 < 16.
Proof.
  intros Hb. rewrite (wrap8_small b Hb). unfold byte in Hb.
  assert (R : 0 <= b / 16 < 16)
    by (split; [apply Z.div_pos; lia | apply Z.div_lt_upper_bound; lia]).
  repeat match goal with |- _ /\ _ => split end; try lia; try (apply Z.mod_pos_bound; lia).
  - change 0xF0 with (Z.shiftl 15 4). rewrite Z.shiftr_land, Z.shiftr_shiftl_l by lia.
    change (Z.shiftl 15 (4 - 4)) with (Z.ones 4).
    rewrite Z.land_ones, Z.shiftr_div_pow2 by lia. change (2 ^ 4) with 16.
    apply Z.mod_small. exact R.
  - change 0x0F with (Z.ones 4). rewrite Z.land_ones by lia. reflexivity.
Qed.

Lemma digit_not_space (M : list Ascii.ascii) (n : nat) :
  M = Strings.Mapping_lower \/ M = Strings.Mapping_upper -> (n < 16)%nat ->
  Ascii.eqb (nth n M " "%char) " "%char = false.
Proof.
  intros [-> | ->] Hn; do 16 (destruct n as [|n]; [reflexivity|]); exfalso; lia.
Qed.

Lemma digit_injective (M : list Ascii.ascii) (i j : nat) :
  M = Strings.Mapping_lower \/ M = Strings.Mapping_upper -> (i < 16)%nat -> (j < 16)%nat ->
  nth i M " "%char = nth j M " "%char -> i = j.
Proof.
  intros [-> | ->] Hi Hj E;
    do 16 (destruct i as [|i];
           [do 16 (destruct j as [|j]; [solve [reflexivity | discriminate E]|]);
            exfalso; lia|]);
    exfalso; lia.
Qed.

(** What [put_byte] appends: the characters of one byte. *)
Lemma put_byte_app (M : list Ascii.ascii) (Spaced : bool) (Output : list Ascii.ascii) (b : Z) :
  Strings.put_byte M Spaced Output b = Output ++ Strings.put_byte M Spaced [] b.
Proof.
  unfold Strings.put_byte, Strings.push_back. destruct Spaced; cbn [app];
    rewrite <- ?app_assoc; reflexivity.
Qed.

Lemma put_byte_digits (M : list Ascii.ascii) (Spaced : bool) (b : Z) : byte b ->
  Strings.put_byte M Spaced [] b
  = [nth (Z.to_nat (b / 16)) M " "%char; nth (Z.to_nat (b mod 16)) M " "%char]
    ++ (if Spaced then [" "%char] else []).
Proof.
  intros Hb. destruct (nibbles b Hb) as (E1 & E2 & _).
  unfold Strings.put_byte, Strings.push_back. rewrite E1, E2. destruct Spaced; reflexivity.
Qed.

Lemma put_byte_length (M : list Ascii.ascii) (Spaced : bool) (b : Z) :
  length (Strings.put_byte M Spaced [] b) = (if Spaced then 3 else 2)%nat.
Proof. unfold Strings.put_byte, Strings.push_back. destruct Spaced; reflexivity. Qed.

Lemma fold_put_byte (M : list Ascii.ascii) (Spaced : bool) (Bytes : list Z)
    (Output : list Ascii.ascii) :
  fold_left (Strings.put_byte M Spaced) Bytes Output
  = Output ++ flat_map (Strings.put_byte M Spaced []) Bytes.
Proof.
  revert Output. induction Bytes as [|b Bytes IH]; intros Output; cbn [fold_left flat_map].
  - now rewrite app_nil_r.
  - rewrite IH, (put_byte_app M Spaced Output b), <- app_assoc. reflexivity.
Qed.

Lemma fold_items (M : list Ascii.ascii) (Spaced : bool) (w : nat) (Input : list Z)
    (Output : list Ascii.ascii) :
  fold_left (fun Output Item => fold_left (Strings.put_byte M Spaced) (le_bytes w Item) Output)
    Input Output
  = Output ++ flat_map (Strings.put_byte M Spaced []) (flat_map (le_bytes w) Input).
Proof.
  revert Output. induction Input as [|Item Input IH]; intros Output; cbn [fold_left flat_map].
  - now rewrite app_nil_r.
  - rewrite IH, fold_put_byte, flat_map_app, <- app_assoc. reflexivity.
Qed.

Lemma back_snoc (P : list Ascii.ascii) (c : Ascii.ascii) : Strings.back (P ++ [c]) = Some c.
Proof.
  unfold Strings.back. rewrite last_last. destruct P; reflexivity.
Qed.

Lemma pop_back_snoc (P : list Ascii.ascii) (c : Ascii.ascii) :
  Strings.pop_back (P ++ [c]) = Some P.
Proof.
  unfold Strings.pop_back. rewrite removelast_last. destruct P; reflexivity.
Qed.

(** The loop that drops the trailing spaces stops at the first character
    that is none. *)
Lemma strip_stops (fuel : nat) (P : list Ascii.ascii) (c : Ascii.ascii) :
  Ascii.eqb c " "%char = false -> Strings.strip (S fuel) (P ++ [c]) = Some (P ++ [c]).
Proof.
  intros Hc. cbn [Strings.strip]. rewrite back_snoc. cbn [bind]. rewrite Hc. reflexivity.
Qed.

Lemma strip_space (fuel : nat) (P : list Ascii.ascii) :
  Strings.strip (S fuel) (P ++ [" "%char]) = Strings.strip fuel P.
Proof.
  cbn [Strings.strip]. rewrite back_snoc. cbn [bind].
  change (Ascii.eqb " " " ") with true. cbv iota. rewrite pop_back_snoc. reflexivity.
Qed.

Lemma strip_empty (fuel : nat) : Strings.strip fuel [] = None.
Proof. destruct fuel; reflexivity. Qed.

(** The characters of a non-empty byte list end in the last byte's
    digits. *)
Lemma chars_end (M : list Ascii.ascii) (Spaced : bool) (Bytes : list Z) :
  M = Strings.Mapping_lower \/ M = Strings.Mapping_upper ->
  Forall byte Bytes -> Bytes <> [] ->
  exists P c, Ascii.eqb c " "%char = false /\
    flat_map (Strings.put_byte M Spaced []) Bytes
    = (P ++ [c]) ++ (if Spaced then [" "%char] else []).
Proof.
  intros HM HB Hne. destruct (exists_last Hne) as (Bs & b & ->).
  apply Forall_app in HB. destruct HB as [_ Hb]. inversion Hb as [|? ? Hb' _]; subst.
  destruct (nibbles b Hb') as (_ & _ & _ & R).
  exists (flat_map (Strings.put_byte M Spaced []) Bs ++ [nth (Z.to_nat (b / 16)) M " "%char]),
    (nth (Z.to_nat (b mod 16)) M " "%char).
  split; [apply digit_not_space; [exact HM | lia]|].
  rewrite flat_map_app. cbn [flat_map]. rewrite app_nil_r, (put_byte_digits M Spaced b Hb').
  rewrite <- !app_assoc. reflexivity.
Qed.

(** [hex] on a non-empty input: all the characters, less the last space. *)
Lemma hex_chars (M : list Ascii.ascii) (w : nat) (Input : list Z) (Spaced : bool) :
  M = Strings.Mapping_lower \/ M = Strings.Mapping_upper ->
  (0 < w)%nat -> Input <> [] ->
  exists s, Strings.hex M w Input Spaced = Some s /\
    flat_map (Strings.put_byte M Spaced []) (flat_map (le_bytes w) Input)
    = s ++ (if Spaced then [" "%char] else []).
Proof.
  intros HM Hw Hne. unfold Strings.hex. rewrite fold_items. cbn [app].
  assert (HB : Forall byte (flat_map (le_bytes w) Input)).
  { apply Forall_flat_map. apply Forall_forall. intros x _. apply le_bytes_bytes. }
  assert (Hne' : flat_map (le_bytes w) Input <> []).
  { destruct Input as [|x Input]; [congruence|]. cbn [flat_map].
    intros E. apply (f_equal (@length Z)) in E. rewrite length_app, le_bytes_length in E.
    cbn in E. lia. }
  destruct (chars_end M Spaced _ HM HB Hne') as (P & c & Hc & E).
  exists (P ++ [c]). split; [|exact E]. rewrite E. destruct Spaced.
  - rewrite length_app. cbn [length]. rewrite Nat.add_1_r.
    rewrite strip_space. rewrite length_app. cbn [length]. rewrite Nat.add_1_r.
    apply strip_stops. exact Hc.
  - rewrite app_nil_r. apply strip_stops. exact Hc.
Qed.

Lemma nth_flat_map_const {A B : Type} (f : A -> list B) (k : nat) (l : list A) (dA : A)
    (dB : B) (j i : nat) :
  (forall x, length (f x) = k) -> (j < length l)%nat -> (i < k)%nat ->
  nth (k * j + i) (flat_map f l) dB = nth i (f (nth j l dA)) dB.
Proof.
  intros Hk. revert j. induction l as [|a l IH]; intros j Hj Hi; cbn [length] in Hj; [lia|].
  cbn [flat_map]. destruct j as [|j].
  - rewrite Nat.mul_0_r, Nat.add_0_l. cbn [nth]. apply app_nth1. rewrite Hk. exact Hi.
  - replace (k * S j + i)%nat with (length (f a) + (k * j + i))%nat by (rewrite Hk; lia).
    rewrite app_nth2_plus. cbn [nth]. apply IH; lia.
Qed.

Lemma app_same_length {A : Type} (a b x y : list A) :
  length a = length b -> a ++ x = b ++ y -> a = b /\ x = y.
Proof.
  revert b. induction a as [|h a IH]; intros [|h' b] L E; cbn in L; try discriminate.
  - now split.
  - cbn [app] in E. injection E as -> E. destruct (IH b ltac:(lia) E) as [-> ->]. now split.
Qed.

Lemma flat_map_injective {A B : Type} (f : A -> list B) (k : nat) (P : A -> Prop)
    (l l' : list A) :
  (0 < k)%nat -> (forall x, length (f x) = k) ->
  (forall x y, P x -> P y -> f x = f y -> x = y) ->
  Forall P l -> Forall P l' -> flat_map f l = flat_map f l' -> l = l'.
Proof.
  intros Hk Hlen Hinj. revert l'. induction l as [|a l IH]; intros [|b l'] H1 H2 E;
    cbn [flat_map] in E.
  - reflexivity.
  - apply (f_equal (@length B)) in E. rewrite length_app, Hlen in E. cbn in E. lia.
  - apply (f_equal (@length B)) in E. rewrite length_app, Hlen in E. cbn in E. lia.
  - inversion H1; inversion H2; subst.
    destruct (app_same_length _ _ _ _ ltac:(rewrite !Hlen; reflexivity) E) as [Ef El].
    f_equal; [apply Hinj; assumption | apply IH; assumption].
Qed.

Lemma put_byte_injective (M : list Ascii.ascii) (Spaced : bool) (a b : Z) :
  M = Strings.Mapping_lower \/ M = Strings.Mapping_upper ->
  byte a -> byte b ->
  Strings.put_byte M Spaced [] a = Strings.put_byte M Spaced [] b -> a = b.
Proof.
  intros HM Ha Hb E. rewrite (put_byte_digits M Spaced a Ha), (put_byte_digits M Spaced b Hb) in E.
  cbn [app] in E. injection E as E1 E2.
  destruct (nibbles a Ha) as (_ & _ & Ra1 & Ra2). destruct (nibbles b Hb) as (_ & _ & Rb1 & Rb2).
  apply (digit_injective M _ _ HM) in E1; [|lia|lia].
  apply (digit_injective M _ _ HM) in E2; [|lia|lia].
  rewrite (Z.div_mod a 16), (Z.div_mod b 16) by lia. lia.
Qed.

Lemma le_bytes_injective (w : nat) (x y : Z) :
  element w x -> element w y -> le_bytes w x = le_bytes w y -> x = y.
Proof.
  intros Hx Hy E. apply (f_equal le_value) in E. rewrite !le_value_le_bytes in E.
  unfold element in *. rewrite !Z.mod_small in E by lia. exact E.
Qed.

(** X22: [String::toHex] and [String::toHEX] on elements of [w] bytes,
    plain or spaced.  On an empty input the loop that drops the trailing
    spaces reads [Output.back()] of an empty string, which is undefined.
    On a non-empty input they return a string of two characters for each
    byte ([3 n - 1] characters with the spaces): byte [j] of the input, in
    memory order, gives the digit of its high half at position
    [stride * j] and the digit of its low half after it, and in a spaced
    string one space follows unless the byte is the last. *)
Theorem X22_toHex_layout
    (f : nat -> list Z -> bool -> option (list Ascii.ascii)) (Mapping : list Ascii.ascii)
    (w : nat) (Input : list Z) (Spaced : bool) :
  (f, Mapping) = (Strings.toHex, Strings.Mapping_lower)
  \/ (f, Mapping) = (Strings.toHEX, Strings.Mapping_upper) ->
  (0 < w)%nat ->
  let Bytes := flat_map (le_bytes w) Input in
  let stride := (if Spaced then 3 else 2)%nat in
  (Input = [] -> f w Input Spaced = None) /\
  (Input <> [] ->
   exists s, f w Input Spaced = Some s /\
     length Bytes = (w * length Input)%nat /\
     length s = (stride * length Bytes - (if Spaced then 1 else 0))%nat /\
     forall j, (j < length Bytes)%nat ->
       nth (stride * j) s " "%char
       = nth (Z.to_nat (nth j Bytes 0 / 16)) Mapping " "%char /\
       nth (stride * j + 1) s " "%char
       = nth (Z.to_nat (nth j Bytes 0 mod 16)) Mapping " "%char /\
       (Spaced = true -> (S j < length Bytes)%nat ->
        nth (stride * j + 2) s "0"%char = " "%char)).
Proof.
  intros Hf Hw Bytes stride.
  assert (HM : Mapping = Strings.Mapping_lower \/ Mapping = Strings.Mapping_upper)
    by (destruct Hf as [E | E]; injection E; auto).
  assert (Ef : f = Strings.hex Mapping)
    by (destruct Hf as [E | E]; injection E; intros; subst; reflexivity).
  subst f. split.
  - intros ->. reflexivity.
  - intros Hne. destruct (hex_chars Mapping w Input Spaced HM Hw Hne) as (s & Es & E).
    fold Bytes in E. exists s. split; [exact Es|].
    assert (LB : length Bytes = (w * length Input)%nat).
    { unfold Bytes. rewrite (flat_map_length_const _ w) by (intros; apply le_bytes_length).
      lia. }
    assert (HB : Forall byte Bytes).
    { apply Forall_flat_map. apply Forall_forall. intros x _. apply le_bytes_bytes. }
    assert (LS : (length s + (if Spaced then 1 else 0) = stride * length Bytes)%nat).
    { apply (f_equal (@length Ascii.ascii)) in E.
      rewrite (flat_map_length_const _ stride) in E by (intros; apply put_byte_length).
      rewrite length_app in E. destruct Spaced; cbn [length] in E; lia. }
    split; [exact LB|]. split; [lia|].
    intros j Hj.
    assert (Hb : byte (nth j Bytes 0)) by (apply Forall_nth; assumption).
    assert (N : forall i d, (i < stride)%nat -> (stride * j + i < length s)%nat ->
              nth (stride * j + i) s d
              = nth i (Strings.put_byte Mapping Spaced [] (nth j Bytes 0)) d).
    { intros i d Hi Hin.
      rewrite <- (nth_flat_map_const (Strings.put_byte Mapping Spaced []) stride Bytes 0 d j i
                    (put_byte_length Mapping Spaced) Hj Hi).
      rewrite E. symmetry. apply app_nth1. exact Hin. }
    rewrite (put_byte_digits Mapping Spaced _ Hb) in N.
    repeat match goal with |- _ /\ _ => split end.
    + rewrite <- (Nat.add_0_r (stride * j)). rewrite N; [reflexivity | |];
        unfold stride in *; destruct Spaced; lia.
    + rewrite N; [reflexivity | |]; unfold stride in *; destruct Spaced; lia.
    + intros -> Hj'. rewrite N; [reflexivity | |]; unfold stride in *; lia.
Qed.

Lemma X22_witness :
  let Bytes := flat_map (le_bytes 2) [0x12AB; 0xC] in
  (Strings.toHEX 2 [0x12AB; 0xC] true
   = Some ["A"; "B"; " "; "1"; "2"; " "; "0"; "C"; " "; "0"; "0"]%char) /\
  length Bytes = 4%nat.
Proof.
  intros Bytes.
  destruct (X22_toHex_layout Strings.toHEX Strings.Mapping_upper 2 [0x12AB; 0xC] true
              (or_intror eq_refl) ltac:(lia)) as [_ H].
  destruct (H ltac:(discriminate)) as (s & Es & L & _).
  split; [reflexivity | exact L].
Defined.

(** X23: [String::toHex] and [String::toHEX] lose nothing: two inputs of
    elements of [w] bytes that give the same string, both plain or both
    spaced, are the same input. *)
Theorem X23_toHex_is_injective
    (f : nat -> list Z -> bool -> option (list Ascii.ascii))
    (w : nat) (A B : list Z) (Spaced : bool) (s : list Ascii.ascii) :
  f = Strings.toHex \/ f = Strings.toHEX ->
  Forall (element w) A -> Forall (element w) B ->
  f w A Spaced = Some s -> f w B Spaced = Some s -> A = B.
Proof.
  intros Hf HA HB EA EB.
  assert (HM : exists M, (M = Strings.Mapping_lower \/ M = Strings.Mapping_upper)
                         /\ f = Strings.hex M).
  { destruct Hf as [-> | ->]; [exists Strings.Mapping_lower | exists Strings.Mapping_upper];
      split; auto. }
  destruct HM as (M & HM & ->).
  destruct w as [|w].
  { exfalso. revert EA. unfold Strings.hex. rewrite fold_items.
    replace (flat_map (le_bytes 0) A) with (@nil Z)
      by (clear; induction A; cbn; auto).
    discriminate. }
  assert (NA : A <> []) by (intros ->; discriminate EA).
  assert (NB : B <> []) by (intros ->; discriminate EB).
  destruct (hex_chars M (S w) A Spaced HM ltac:(lia) NA) as (sa & Ea & Ca).
  destruct (hex_chars M (S w) B Spaced HM ltac:(lia) NB) as (sb & Eb & Cb).
  rewrite EA in Ea. rewrite EB in Eb. injection Ea as <-. injection Eb as <-.
  rewrite <- Cb in Ca.
  apply (flat_map_injective (Strings.put_byte M Spaced []) (if Spaced then 3 else 2)%nat byte)
    in Ca.
  - apply (flat_map_injective (le_bytes (S w)) (S w) (element (S w))) in Ca; auto; try lia.
    + intros; apply le_bytes_length.
    + intros x y; apply le_bytes_injective.
  - destruct Spaced; lia.
  - intros; apply put_byte_length.
  - intros x y; apply put_byte_injective; exact HM.
  - apply Forall_flat_map. apply Forall_forall. intros x _. apply le_bytes_bytes.
  - apply Forall_flat_map. apply Forall_forall. intros x _. apply le_bytes_bytes.
Qed.

Lemma X23_witness :
  Hash.SHA256_literal true Strings.literal_12345
  = Some [0x59; 0x94; 0x47; 0x1a; 0xbb; 0x01; 0x11; 0x2a; 0xfc; 0xc1; 0x81; 0x59; 0xf6;
          0xcc; 0x74; 0xb4; 0xf5; 0x11; 0xb9; 0x98; 0x06; 0xda; 0x59; 0xb3; 0xca; 0xf5;
          0xa9; 0xc1; 0x73; 0xca; 0xcf; 0xc5].
Proof.
  destruct (Hash.SHA256_literal true Strings.literal_12345) as [D|] eqn:ED;
    [|vm_compute in ED; discriminate ED].
  assert (EX : Strings.toHex 1 D false = Some Strings.SHA256_12345)
    by (vm_compute in ED; injection ED as <-; vm_compute; reflexivity).
  f_equal.
  refine (X23_toHex_is_injective Strings.toHex 1 D _ false Strings.SHA256_12345
            (or_introl eq_refl) _ _ EX _).
  - vm_compute in ED. injection ED as <-.
    repeat (constructor; [unfold element; cbn; lia|]). constructor.
  - repeat (constructor; [unfold element; cbn; lia|]). constructor.
  - vm_compute. reflexivity.
Defined.

(** The unit tests of Crypto/SHA.hpp hold of the embedding, in constant
    evaluation and at run time. *)
Lemma SHA_unit_tests (constant_evaluated : bool) : Strings.unit_tests constant_evaluated = true.
Proof. destruct constant_evaluated; vm_compute; reflexivity. Qed.

(** ** The overloads of [Hash::SHA256] and [Hash::SHA512] for string literals *)

Lemma stripNullchar_snoc (Text : list Z) (Last : Z) :
  cmp.stripNullchar (Text ++ [Last]) = Text.
Proof.
  unfold cmp.stripNullchar, cmp.resizeArray. rewrite length_app. cbn [length].
  replace (length Text + 1 - 1)%nat with (length Text) by lia.
  rewrite Nat.min_r by lia. rewrite Nat.sub_diag. cbn [repeat].
  rewrite app_nil_r, firstn_app, Nat.sub_diag, firstn_O, app_nil_r.
  apply firstn_all.
Qed.

Lemma getBytes_bytes (Value : list Z) : Forall byte (cmp.getBytes Value).
Proof.
  unfold cmp.getBytes. apply Forall_forall. intros x Hx. apply in_map_iff in Hx.
  destruct Hx as (y & <- & _). apply wrap8_range.
Qed.

Lemma getBytes_getBytes (Value : list Z) : cmp.getBytes (cmp.getBytes Value) = cmp.getBytes Value.
Proof.
  unfold cmp.getBytes. rewrite map_map. apply map_ext. intros x.
  apply wrap8_small. apply wrap8_range.
Qed.

(** X24: the overloads of [Hash::SHA256] and [Hash::SHA512] for arrays of
    one-byte characters hash every element of the array but the last,
    each converted to [uint8_t], and drop the last element without
    looking at it: the result is the FIPS 180-4 digest of the text of a
    string literal without its terminator, and of an array that has no
    terminator without its last character. *)
Theorem X24_literal_hash_drops_the_last_element
    (constant_evaluated : bool) (Text : list Z) (Last : Z) :
  8 * Modes.size Text < 2 ^ 64 ->
  Hash.SHA256_literal constant_evaluated (Text ++ [Last])
  = Some (FIPS180.SHA256 (map wrap8 Text)) /\
  Hash.SHA512_literal constant_evaluated (Text ++ [Last])
  = Some (FIPS180.SHA512 (map wrap8 Text)).
Proof.
  intros H64. unfold Hash.SHA256_literal, Hash.SHA512_literal.
  rewrite stripNullchar_snoc, getBytes_getBytes.
  assert (Hb : Forall byte (cmp.getBytes Text)) by apply getBytes_bytes.
  assert (Hs : 8 * Modes.size (cmp.getBytes Text) < 2 ^ 64).
  { unfold Modes.size, cmp.getBytes in *. rewrite length_map. exact H64. }
  split.
  - exact (proj1 (Compiletime_SHA256_reference constant_evaluated _ Hb Hs)).
  - exact (proj1 (Compiletime_SHA512_reference constant_evaluated _ Hb Hs)).
Qed.

Lemma X24_witness :
  8 * Modes.size [49; 50; 51; 52; 53] < 2 ^ 64 /\
  Hash.SHA256_literal true ([49; 50; 51; 52; 53] ++ [0])
  = Some (FIPS180.SHA256 (map wrap8 [49; 50; 51; 52; 53])) /\
  Hash.SHA256_literal true ([49; 50; 51; 52; 53] ++ [33])
  = Some (FIPS180.SHA256 (map wrap8 [49; 50; 51; 52; 53])).
Proof.
  assert (H64 : 8 * Modes.size [49; 50; 51; 52; 53] < 2 ^ 64) by reflexivity.
  exact (conj H64
           (conj (proj1 (X24_literal_hash_drops_the_last_element true _ 0 H64))
                 (proj1 (X24_literal_hash_drops_the_last_element true _ 33 H64)))).
Defined.
